(** * LibColony: the cost kernel, the candidate filter and the assignment solver

    A shallow embedding of [src/colony.h] (namespace [colony]):
    [ComputeCost], [LimitAssignments] and [Optimize], with the properties
    the specification states about them.

    Conventions of the embedding.
    - A C++ [double] is a value of a type [F] carrying the operations the
      header uses ([Scalar]).  Two implementations are given: [binary64],
      the IEEE 754 doubles of the kernel ([PrimFloat]), on which the code
      is run as it is compiled; and [xreal], extended rationals with the
      IEEE special values and exact arithmetic on finite values, on which
      the algebraic statements are proved.
    - [CharacterId] and [TaskId] are [int]s used as array indices; they are
      natural numbers here, so a negative identifier (an out-of-bounds
      access in the header) is not expressible.
    - A [std::vector] or a stack array is a [list], read with [!!!] and
      written with [<[i:=v]>].
    - A loop that the header does not bound by its data ([while (true)],
      the outer [while], the walk along [prev]) takes a fuel; [OutOfFuel]
      is the only way such a loop stops early. *)

From Stdlib Require Import ZArith PrimFloat Floats QArith Qcanon Lia Lqa Permutation.
From stdpp Require Import base tactics option list numbers.

Local Open Scope nat_scope.

(** ** Scalars *)

(** The operations on [double] that the header uses.  [std::max(a, b)] is
    [a < b ? b : a] and [std::min(a, b)] is [b < a ? b : a]; both are
    derived from [f_ltb] below. *)
Class Scalar (F : Type) := {
  f_zero : F;
  f_one : F;
  f_tol : F;       (* the literal 0.0001 of [eq] *)
  f_inf : F;       (* std::numeric_limits<double>::infinity() *)
  f_dbl_min : F;   (* std::numeric_limits<double>::min() *)
  f_dbl_max : F;   (* std::numeric_limits<double>::max() *)
  f_add : F → F → F;
  f_sub : F → F → F;
  f_div : F → F → F;
  f_abs : F → F;
  f_ltb : F → F → bool;
  f_leb : F → F → bool
}.

Section ScalarOps.
Context {F : Type} `{Scalar F}.

Definition f_max (a b : F) : F := if f_ltb a b then b else a.
Definition f_min (a b : F) : F := if f_ltb b a then b else a.

(** [auto eq = [](double a, double b) { return std::abs(a - b) < 0.0001; }] *)
Definition f_eq (a b : F) : bool := f_ltb (f_abs (f_sub a b)) f_tol.

#[global] Instance scalar_inhabited : Inhabited F := populate f_zero.
End ScalarOps.

(** *** IEEE 754 binary64 *)

#[global] Instance binary64 : Scalar float := {|
  f_zero := 0%float;
  f_one := 1%float;
  f_tol := 0x1.a36e2eb1c432dp-14%float;
  f_inf := infinity;
  f_dbl_min := 0x1p-1022%float;
  f_dbl_max := 0x1.fffffffffffffp+1023%float;
  f_add := PrimFloat.add;
  f_sub := PrimFloat.sub;
  f_div := PrimFloat.div;
  f_abs := PrimFloat.abs;
  f_ltb := PrimFloat.ltb;
  f_leb := PrimFloat.leb
|}.

(** *** Exact arithmetic with the IEEE special values *)

(** A finite rational, an infinity or a NaN.  Finite values are added,
    subtracted and divided exactly; the special values follow IEEE 754.
    There is no signed zero: a positive value divided by zero is [+∞]. *)
Inductive xreal : Type :=
  | XFin (q : Qc)
  | XPInf
  | XNInf
  | XNaN.

Definition Qc_ltb (a b : Qc) : bool := bool_decide (a < b)%Qc.
Definition Qc_leb (a b : Qc) : bool := bool_decide (a ≤ b)%Qc.

Definition xopp (a : xreal) : xreal :=
  match a with
  | XFin q => XFin (- q)%Qc
  | XPInf => XNInf
  | XNInf => XPInf
  | XNaN => XNaN
  end.

Definition xadd (a b : xreal) : xreal :=
  match a, b with
  | XNaN, _ | _, XNaN => XNaN
  | XFin p, XFin q => XFin (p + q)%Qc
  | XPInf, XNInf | XNInf, XPInf => XNaN
  | XPInf, _ | _, XPInf => XPInf
  | XNInf, _ | _, XNInf => XNInf
  end.

Definition xsub (a b : xreal) : xreal := xadd a (xopp b).

Definition xdiv (a b : xreal) : xreal :=
  match a, b with
  | XNaN, _ | _, XNaN => XNaN
  | XFin p, XFin q =>
      if bool_decide (q = 0%Qc) then
        if Qc_ltb 0 p then XPInf else if Qc_ltb p 0 then XNInf else XNaN
      else XFin (p / q)%Qc
  | XFin _, _ => XFin 0%Qc
  | XPInf, XFin q => if Qc_ltb q 0 then XNInf else XPInf
  | XNInf, XFin q => if Qc_ltb q 0 then XPInf else XNInf
  | _, _ => XNaN
  end.

Definition xabs (a : xreal) : xreal :=
  match a with
  | XFin q => XFin (if Qc_ltb q 0 then - q else q)%Qc
  | XPInf | XNInf => XPInf
  | XNaN => XNaN
  end.

Definition xltb (a b : xreal) : bool :=
  match a, b with
  | XNaN, _ | _, XNaN => false
  | XFin p, XFin q => Qc_ltb p q
  | _, XNInf | XPInf, _ => false
  | XNInf, _ | _, XPInf => true
  end.

Definition xleb (a b : xreal) : bool :=
  match a, b with
  | XNaN, _ | _, XNaN => false
  | XFin p, XFin q => Qc_leb p q
  | XNInf, _ | _, XPInf => true
  | _, _ => false
  end.

#[global] Instance exact : Scalar xreal := {|
  f_zero := XFin 0%Qc;
  f_one := XFin 1%Qc;
  f_tol := XFin (Q2Qc (1 # 10000));
  f_inf := XPInf;
  f_dbl_min := XFin (Q2Qc (1 # 2 ^ 1022));
  f_dbl_max := XFin (Q2Qc (inject_Z (2 ^ 1024 - 2 ^ 971)));
  f_add := xadd;
  f_sub := xsub;
  f_div := xdiv;
  f_abs := xabs;
  f_ltb := xltb;
  f_leb := xleb
|}.

(** ** CostKernel *)

Section CostKernel.
Context {F : Type} `{Scalar F}.

(** [inline double ComputeCost(double travel_time = 0, double work_time = 0,
     double retry_risk = 0, double priority = 1)] *)
Definition ComputeCost (travel_time work_time retry_risk priority : F) : F :=
  if f_leb f_one retry_risk || f_leb priority f_zero then f_inf
  else
    let cost := f_add travel_time work_time in
    let cost := f_div cost (f_sub f_one retry_risk) in
    let cost := f_div cost priority in
    cost.
End CostKernel.

(** ** Candidate pairings *)

(** [struct Assignment { CharacterId character; TaskId task; double cost; }] *)
Record Assignment (F : Type) : Type := mkAssignment {
  character : nat;
  task : nat;
  cost : F
}.
Arguments mkAssignment {F} _ _ _.
Arguments character {F} _.
Arguments task {F} _.
Arguments cost {F} _.

#[global] Instance assignment_inhabited {F} `{Scalar F} : Inhabited (Assignment F) :=
  populate (mkAssignment 0 0 f_zero).

(** ** Vectors *)

Section Vector.
Context {A : Type} `{Inhabited A}.

(** [std::swap(v[i], v[j])] *)
Definition swap (v : list A) (i j : nat) : list A :=
  <[j := v !!! i]> (<[i := v !!! j]> v).

(** [v.pop_back()] *)
Definition pop_back (v : list A) : list A := take (length v - 1) v.

(** [std::swap(v[i], v.back()); v.pop_back();] *)
Definition swap_remove (v : list A) (i : nat) : list A :=
  pop_back (swap v i (length v - 1)).

(** The erasing loop that closes [Optimize]:
    [for (int i = 0; i < v.size(); ++i)
       if (!keep(v[i])) { std::swap(v[i], v.back()); v.pop_back(); --i; }].
    Every turn either moves [i] forward or shortens [v], so [length v]
    turns end it. *)
Fixpoint erase_loop (fuel : nat) (keep : A → bool) (v : list A) (i : nat) : list A :=
  match fuel with
  | 0 => v
  | S fuel =>
      if bool_decide (i < length v) then
        if keep (v !!! i) then erase_loop fuel keep v (i + 1)
        else erase_loop fuel keep (swap_remove v i) i
      else v
  end.

Definition erase_unless (keep : A → bool) (v : list A) : list A :=
  erase_loop (length v) keep v 0.
End Vector.

(** ** CandidateFilter *)

Section CandidateFilter.
Context {F : Type} `{Scalar F}.

(** [std::sort] with the comparator [a.cost < b.cost].  The standard
    leaves the order of pairings of equal cost open.  On a short vector
    (libstdc++: up to 16 elements) the library runs its insertion sort,
    which is modelled here: each element in turn goes to the front when it
    is cheaper than the first, and otherwise moves from the end of the
    sorted part towards the front past the pairings it is cheaper than
    ([__unguarded_linear_insert]); pairings of equal cost stay in the
    order of the input.  On a longer vector the library partitions first
    and may order pairings of equal cost otherwise; no statement below
    depends on the order among pairings of equal cost. *)
Fixpoint linear_insert (a : Assignment F) (sorted_rev : list (Assignment F))
    : list (Assignment F) :=
  match sorted_rev with
  | [] => [a]
  | b :: rest =>
      if f_ltb (cost a) (cost b) then b :: linear_insert a rest else a :: sorted_rev
  end.

Definition insert_by_cost (sorted : list (Assignment F)) (a : Assignment F)
    : list (Assignment F) :=
  match sorted with
  | [] => [a]
  | first :: _ =>
      if f_ltb (cost a) (cost first) then a :: sorted
      else reverse (linear_insert a (reverse sorted))
  end.

Definition sort_by_cost (v : list (Assignment F)) : list (Assignment F) :=
  fold_left insert_by_cost v [].

(** [last_character] and [last_task]: the largest identifier, from [-1]. *)
Definition last_id (id : Assignment F → nat) (v : list (Assignment F)) : Z :=
  fold_left (λ m a, Z.max m (Z.of_nat (id a))) v (-1)%Z.

(** The loop of lines 174-190, on the sorted vector. *)
Fixpoint limit_loop (fuel : nat) (limit_per_character limit_per_task : Z)
    (v : list (Assignment F)) (i : nat)
    (tasks_per_character characters_per_task : list Z) : list (Assignment F) :=
  match fuel with
  | 0 => v
  | S fuel =>
      if bool_decide (i < length v) then
        let a := v !!! i in
        if (limit_per_character <=? tasks_per_character !!! character a)%Z then
          limit_loop fuel limit_per_character limit_per_task (swap_remove v i) i
            tasks_per_character characters_per_task
        else if (limit_per_task <=? characters_per_task !!! task a)%Z then
          limit_loop fuel limit_per_character limit_per_task (swap_remove v i) i
            tasks_per_character characters_per_task
        else
          limit_loop fuel limit_per_character limit_per_task v (i + 1)
            (<[character a := (tasks_per_character !!! character a + 1)%Z]> tasks_per_character)
            (<[task a := (characters_per_task !!! task a + 1)%Z]> characters_per_task)
      else v
  end.

(** [inline void LimitAssignments(std::vector<Assignment> &assignments,
                                  int limit_per_character, int limit_per_task)] *)
Definition LimitAssignments (assignments : list (Assignment F))
    (limit_per_character limit_per_task : Z) : list (Assignment F) :=
  let assignments := sort_by_cost assignments in
  let last_character := last_id character assignments in
  let last_task := last_id task assignments in
  let tasks_per_character := replicate (Z.to_nat (last_character + 1)) 0%Z in
  let characters_per_task := replicate (Z.to_nat (last_task + 1)) 0%Z in
  limit_loop (length assignments) limit_per_character limit_per_task
    assignments 0 tasks_per_character characters_per_task.
End CandidateFilter.

(** ** AssignmentSolver *)

(** How a run of the solver ends: it returns, it is still looping when the
    fuel is spent, or it reads [root] before any assignment to it (or
    follows a sentinel as an index), which C++ leaves undefined. *)
Inductive outcome (A : Type) : Type :=
  | Returned (a : A)
  | OutOfFuel
  | Undefined.
Arguments Returned {A} _.
Arguments OutOfFuel {A}.
Arguments Undefined {A}.

#[global] Instance outcome_bind : MBind outcome := λ A B k m,
  match m with
  | Returned a => k a
  | OutOfFuel => OutOfFuel
  | Undefined => Undefined
  end.

(** The working arrays of [Optimize]. *)
Record solver (F : Type) : Type := mkSolver {
  lx : list F;        (* double lx[NX] *)
  ly : list F;        (* double ly[NY] *)
  xy : list Z;        (* int xy[NX], -1 when x is unmatched *)
  yx : list Z;        (* int yx[NY], -1 when y is unmatched *)
  in_S : list bool;   (* bool S[NX] *)
  in_T : list bool;   (* bool T[NY] *)
  slack : list F;     (* double slack[NY] *)
  slackx : list nat;  (* int slackx[NY] *)
  prev : list Z       (* int prev[NX], -1 outside the tree, -2 at the root *)
}.
Arguments mkSolver {F} _ _ _ _ _ _ _ _ _.
Arguments lx {F} _.
Arguments ly {F} _.
Arguments xy {F} _.
Arguments yx {F} _.
Arguments in_S {F} _.
Arguments in_T {F} _.
Arguments slack {F} _.
Arguments slackx {F} _.
Arguments prev {F} _.

Section Hungarian.
Context {F : Type} `{Scalar F}.
Variable value : list (list F).   (* double value[NX][NY] *)
Variables NX NY : nat.

(** [lx[x] + ly[y] - value[x][y]] *)
Definition excess (st : solver F) (x y : nat) : F :=
  f_sub (f_add (lx st !!! x) (ly st !!! y)) ((value !!! x) !!! y).

(** [auto update_labels = [&]() { ... }]; first its [delta], the least
    [slack[y]] over the columns outside T. *)
Definition min_slack (st : solver F) : F :=
  fold_left
    (λ (delta : F) (y : nat),
       if negb (in_T st !!! y) then f_min delta (slack st !!! y) else delta)
    (seq 0 NY) f_dbl_max.

Definition update_labels (st : solver F) : solver F :=
  let delta := min_slack st in
  mkSolver
    (imap (λ (x : nat) (l : F), if (in_S st !!! x : bool) then f_sub l delta else l) (lx st))
    (imap (λ (y : nat) (l : F), if (in_T st !!! y : bool) then f_add l delta else l) (ly st))
    (xy st) (yx st) (in_S st) (in_T st)
    (imap (λ (y : nat) (s : F), if negb (in_T st !!! y) then f_sub s delta else s) (slack st))
    (slackx st) (prev st).

(** [auto add_to_tree = [&](int x, int prevx) { ... }] *)
Definition add_to_tree (x : nat) (prevx : Z) (st : solver F) : solver F :=
  mkSolver (lx st) (ly st) (xy st) (yx st)
    (<[x := true]> (in_S st)) (in_T st)
    (imap (λ (y : nat) (s : F), if f_ltb (excess st x y) s then excess st x y else s) (slack st))
    (imap (λ (y sx : nat), if f_ltb (excess st x y) (slack st !!! y) then x else sx) (slackx st))
    (<[x := prevx]> (prev st)).

Definition set_T (y : nat) (st : solver F) : solver F :=
  mkSolver (lx st) (ly st) (xy st) (yx st) (in_S st) (<[y := true]> (in_T st))
    (slack st) (slackx st) (prev st).

(** Lines 276-283: the empty matching and the first labels. *)
Definition init_solver : solver F :=
  mkSolver
    ((λ x : nat, fold_left (λ (l : F) (y : nat), f_max l ((value !!! x) !!! y)) (seq 0 NY) f_zero) <$> seq 0 NX)
    (replicate NY f_zero)
    (replicate NX (-1)%Z) (replicate NY (-1)%Z)
    (replicate NX false) (replicate NY false)
    (replicate NY f_zero) (replicate NY 0) (replicate NX (-1)%Z).

(** Lines 295-302: the unmatched x of largest label, if one has a label
    above [best_lx]'s first value; [None] is [root] left unassigned. *)
Definition find_root (st : solver F) : option nat :=
  snd (fold_left
         (λ '(best_lx, root) (x : nat),
            if bool_decide (xy st !!! x = (-1)%Z) then
              if f_ltb best_lx (lx st !!! x) then (lx st !!! x, Some x) else (best_lx, root)
            else (best_lx, root))
         (seq 0 NX) (f_dbl_min, None)).

(** Lines 291-294 and 304-311. *)
Definition start_tree (root : nat) (st : solver F) : solver F :=
  mkSolver (lx st) (ly st) (xy st) (yx st)
    (<[root := true]> (replicate NX false))
    (replicate NY false)
    ((λ y : nat, excess st root y) <$> seq 0 NY)
    (replicate NY root)
    (<[root := (-2)%Z]> (replicate NX (-1)%Z)).

(** Lines 316-327: the scan of row [x] from column [ys]; [Some y] is the
    [break] at an exposed [y].  [q] is the part of the queue not read yet. *)
Fixpoint bfs_row (x : nat) (ys : list nat) (st : solver F) (q : list nat)
    : solver F * list nat * option nat :=
  match ys with
  | [] => (st, q, None)
  | y :: ys =>
      if f_eq ((value !!! x) !!! y) (f_add (lx st !!! x) (ly st !!! y)) && negb (in_T st !!! y) then
        if bool_decide (yx st !!! y = (-1)%Z) then (st, q, Some y)
        else
          let x' := Z.to_nat (yx st !!! y) in
          bfs_row x ys (add_to_tree x' (Z.of_nat x) (set_T y st)) (q ++ [x'])
      else bfs_row x ys st q
  end.

(** Lines 314-330: [while (rd < wr)]. *)
Fixpoint bfs (fuel : nat) (st : solver F) (q : list nat)
    : outcome (solver F * option (nat * nat)) :=
  match q with
  | [] => Returned (st, None)
  | x :: q =>
      match fuel with
      | 0 => OutOfFuel
      | S fuel =>
          let '(st, q, found) := bfs_row x (seq 0 NY) st q in
          match found with
          | Some y => Returned (st, Some (x, y))
          | None => bfs fuel st q
          end
      end
  end.

(** Lines 336-356: the columns that the new labels made tight. *)
Fixpoint grow_row (ys : list nat) (st : solver F) (q : list nat)
    : solver F * list nat * option (nat * nat) :=
  match ys with
  | [] => (st, q, None)
  | y :: ys =>
      if negb (in_T st !!! y) && f_eq (slack st !!! y) f_zero then
        if bool_decide (yx st !!! y = (-1)%Z) then (st, q, Some (slackx st !!! y, y))
        else
          let x' := Z.to_nat (yx st !!! y) in
          let st := set_T y st in
          if negb (in_S st !!! x') then
            grow_row ys (add_to_tree x' (Z.of_nat (slackx st !!! y)) st) (q ++ [x'])
          else grow_row ys st q
      else grow_row ys st q
  end.

(** Lines 313-359: [while (true)]. *)
Fixpoint main_cycle (fuel : nat) (st : solver F) (q : list nat)
    : outcome (solver F * nat * nat) :=
  match fuel with
  | 0 => OutOfFuel
  | S fuel' =>
      '(st, found) ← bfs fuel st q;
      match found with
      | Some (x, y) => Returned (st, x, y)
      | None =>
          let st := update_labels st in
          let '(st, q, found) := grow_row (seq 0 NY) st [] in
          match found with
          | Some (x, y) => Returned (st, x, y)
          | None => main_cycle fuel' st q
          end
      end
  end.

(** Lines 364-368:
    [for (int cx = x, cy = y, ty; cx != -2; cx = prev[cx], cy = ty)
       { ty = xy[cx]; yx[cy] = cx; xy[cx] = cy; }] *)
Fixpoint augment (fuel : nat) (prev : list Z) (xy yx : list Z) (cx cy : Z)
    : outcome (list Z * list Z) :=
  if bool_decide (cx = (-2)%Z) then Returned (xy, yx)
  else
    match fuel with
    | 0 => OutOfFuel
    | S fuel =>
        if bool_decide (cx < 0)%Z || bool_decide (cy < 0)%Z then Undefined
        else
          let ty := xy !!! Z.to_nat cx in
          augment fuel prev (<[Z.to_nat cx := cy]> xy) (<[Z.to_nat cy := cx]> yx)
            (prev !!! Z.to_nat cx) ty
    end.

(** Lines 287-370: [while (max_match < std::min(NX, NY))]. *)
Fixpoint match_loop (fuel : nat) (st : solver F) (max_match : nat) : outcome (solver F) :=
  if bool_decide (max_match < NX `min` NY) then
    match fuel with
    | 0 => OutOfFuel
    | S fuel' =>
        match find_root st with
        | None => Undefined
        | Some root =>
            '(st, x, y) ← main_cycle fuel (start_tree root st) [root];
            '(xy', yx') ← augment fuel (prev st) (xy st) (yx st) (Z.of_nat x) (Z.of_nat y);
            match_loop fuel'
              (mkSolver (lx st) (ly st) xy' yx' (in_S st) (in_T st)
                 (slack st) (slackx st) (prev st))
              (max_match + 1)
        end
    end
  else Returned st.

Definition hungarian (fuel : nat) : outcome (solver F) :=
  match_loop fuel init_solver 0.
End Hungarian.

Section Optimize.
Context {F : Type} `{Scalar F}.

(** Lines 198-205. *)
Definition max_id (id : Assignment F → nat) (v : list (Assignment F)) : nat :=
  fold_left (λ m a, m `max` id a) v 0.
Definition max_cost (v : list (Assignment F)) : F :=
  fold_left (λ m a, f_max m (cost a)) v f_zero.

(** Lines 218-233: [value[x][y]], [1.0] where no pairing is supplied;
    [by_character] is [max_task > max_character]. *)
Definition value_matrix (by_character : bool) (NX NY : nat) (v : list (Assignment F))
    : list (list F) :=
  let max_cost := max_cost v in
  fold_left
    (λ value a,
       let x := if by_character then character a else task a in
       let y := if by_character then task a else character a in
       <[x := <[y := f_add (f_sub max_cost (cost a)) f_one]> (value !!! x)]> value)
    v (replicate NX (replicate NY f_one)).

(** [inline void Optimize(std::vector<Assignment> &assignments)] *)
Definition Optimize (fuel : nat) (assignments : list (Assignment F))
    : outcome (list (Assignment F)) :=
  let max_character := max_id character assignments in
  let max_task := max_id task assignments in
  let by_character := bool_decide (max_character < max_task) in
  let NX := if by_character then max_character + 1 else max_task + 1 in
  let NY := if by_character then max_task + 1 else max_character + 1 in
  let value := value_matrix by_character NX NY assignments in
  st ← hungarian value NX NY fuel;
  Returned
    (if by_character then
       erase_unless (λ a, bool_decide (Z.of_nat (task a) = xy st !!! character a)) assignments
     else
       erase_unless (λ a, bool_decide (Z.of_nat (task a) = yx st !!! character a)) assignments).
End Optimize.


(** ** Vocabulary of the specification *)

Section Vocabulary.
Context {F : Type}.

(** In how many pairings of [v] an identifier occurs. *)
Definition pairings_of_character (c : nat) (v : list (Assignment F)) : nat :=
  length (filter (λ a, character a = c) v).
Definition pairings_of_task (t : nat) (v : list (Assignment F)) : nat :=
  length (filter (λ a, task a = t) v).
End Vocabulary.

(** *** The candidate filter as the specification words it

    "Sort the candidate set by ascending cost [...].  Maintain
    per-character and per-task counters [...].  Walk the sorted list;
    retain a pairing only if both its character counter and its task
    counter are below the respective limits, incrementing both on
    retention.  Discard otherwise." *)

Section SpecCandidateFilter.
Context {F : Type} `{Scalar F}.

Fixpoint spec_walk (K_char K_task : Z) (sorted : list (Assignment F))
    (per_character per_task : list Z) : list (Assignment F) :=
  match sorted with
  | [] => []
  | a :: rest =>
      if bool_decide (per_character !!! character a < K_char)%Z
         && bool_decide (per_task !!! task a < K_task)%Z
      then
        a :: spec_walk K_char K_task rest
               (<[character a := (per_character !!! character a + 1)%Z]> per_character)
               (<[task a := (per_task !!! task a + 1)%Z]> per_task)
      else spec_walk K_char K_task rest per_character per_task
  end.

Definition spec_limit_assignments (candidates : list (Assignment F))
    (K_char K_task : Z) : list (Assignment F) :=
  let sorted := sort_by_cost candidates in
  spec_walk K_char K_task sorted
    (replicate (Z.to_nat (last_id character sorted + 1)) 0%Z)
    (replicate (Z.to_nat (last_id task sorted + 1)) 0%Z).
End SpecCandidateFilter.

(** *** Matchings between array indices *)

(** [xy] and [yx] describe one matching of [0..NX) with [0..NY): an entry
    is [-1] or the partner, and the two arrays agree. *)
Definition matching (NX NY : nat) (xy yx : list Z) : Prop :=
  length xy = NX ∧ length yx = NY
  ∧ (∀ x, x < NX →
       xy !!! x = (-1)%Z
       ∨ (0 ≤ xy !!! x < Z.of_nat NY)%Z ∧ yx !!! Z.to_nat (xy !!! x) = Z.of_nat x)
  ∧ (∀ y, y < NY →
       yx !!! y = (-1)%Z
       ∨ (0 ≤ yx !!! y < Z.of_nat NX)%Z ∧ xy !!! Z.to_nat (yx !!! y) = Z.of_nat y).

(** The arrays have the sizes of their declarations. *)
Definition shaped {F} (NX NY : nat) (st : solver F) : Prop :=
  length (lx st) = NX ∧ length (ly st) = NY
  ∧ length (in_S st) = NX ∧ length (in_T st) = NY
  ∧ length (slack st) = NY ∧ length (slackx st) = NY
  ∧ length (prev st) = NX.

(** The alternating tree rooted at the unmatched row [r]: what S, T,
    [prev] and [slackx] hold while one augmenting path is searched.  [d]
    is the depth of a row in the tree. *)
Record tree_ok {F} (NX NY : nat) (r : nat) (d : nat → nat) (st : solver F) : Prop := {
  t_shaped : shaped NX NY st;
  t_matching : matching NX NY (xy st) (yx st);
  t_root : r < NX ∧ in_S st !!! r = true ∧ prev st !!! r = (-2)%Z ∧ xy st !!! r = (-1)%Z;
  t_S : ∀ x, x < NX → in_S st !!! x = true → x ≠ r →
        xy st !!! x ≠ (-1)%Z
        ∧ in_T st !!! Z.to_nat (xy st !!! x) = true
        ∧ ∃ px, prev st !!! x = Z.of_nat px ∧ px < NX ∧ in_S st !!! px = true ∧ d px < d x;
  t_not_S : ∀ x, x < NX → in_S st !!! x = false → prev st !!! x = (-1)%Z;
  t_T : ∀ y, y < NY → in_T st !!! y = true →
        yx st !!! y ≠ (-1)%Z ∧ in_S st !!! Z.to_nat (yx st !!! y) = true;
  t_slackx : ∀ y, y < NY →
        slackx st !!! y < NX ∧ in_S st !!! (slackx st !!! y) = true
}.

(** The rows waiting in the queue are rows of the tree. *)
Definition queue_ok {F} (NX : nat) (st : solver F) (q : list nat) : Prop :=
  Forall (λ x, x < NX ∧ in_S st !!! x = true) q.

(** The invariant of the search for an augmenting path, and what the search
    hands to the augmentation: a row of the tree and an exposed column. *)
Definition searching {F} (NX NY r : nat) (st : solver F) (q : list nat) : Prop :=
  (∃ d, tree_ok NX NY r d st) ∧ queue_ok NX st q.

Definition found {F} (NX NY r : nat) (st : solver F) (x y : nat) : Prop :=
  (∃ d, tree_ok NX NY r d st)
  ∧ x < NX ∧ in_S st !!! x = true
  ∧ y < NY ∧ in_T st !!! y = false ∧ yx st !!! y = (-1)%Z.

(** The invariant of the walk that inverts the augmenting path: [xy] and
    [yx] agree except at the column [cy], which the row about to be
    rematched leaves behind. *)
Definition augmenting (NX NY : nat) (prev xy yx : list Z) (cx cy : Z) : Prop :=
  length xy = NX ∧ length yx = NY
  ∧ (∀ x, x < NX →
       xy !!! x = (-1)%Z
       ∨ (0 ≤ xy !!! x < Z.of_nat NY)%Z ∧ yx !!! Z.to_nat (xy !!! x) = Z.of_nat x)
  ∧ (∀ y, y < NY → Z.of_nat y ≠ cy →
       yx !!! y = (-1)%Z
       ∨ (0 ≤ yx !!! y < Z.of_nat NX)%Z ∧ xy !!! Z.to_nat (yx !!! y) = Z.of_nat y)
  ∧ (∀ x, x < NX → (0 ≤ cy)%Z → xy !!! x ≠ cy)
  ∧ (cx = (-2)%Z → cy = (-1)%Z)
  ∧ (cx ≠ (-2)%Z → ∀ x, x < NX → prev !!! x = (-2)%Z → xy !!! x = (-1)%Z)
  ∧ (cx = (-2)%Z ∨ cx = (-1)%Z ∨ (0 ≤ cx < Z.of_nat NX)%Z)
  ∧ (cy = (-1)%Z ∨ (0 ≤ cy < Z.of_nat NY)%Z).

(** The (character, task) pair that a pairing proposes. *)
Definition pair_of {F} (a : Assignment F) : nat * nat := (character a, task a).

(** Which pairings the closing loop of [Optimize] keeps, given the arrays
    of the solver. *)
Definition selected {F} (by_character : bool) (st : solver F) (a : Assignment F) : bool :=
  if by_character then bool_decide (Z.of_nat (task a) = xy st !!! character a)
  else bool_decide (Z.of_nat (task a) = yx st !!! character a).

(** A pairing (character, task, cost) on IEEE doubles. *)
Definition pairing (c t : nat) (x : float) : Assignment float := mkAssignment c t x.

(** The walk along [prev] seen from the tree [st0] it starts in: the rows
    already rematched lie deeper in the tree than the row [cx] to come, the
    rows matched before stay matched, and every matched pair satisfies [E]
    (for instance: its labels are tight). *)
Definition inverting {F} (NX NY r : nat) (d : nat → nat) (E : nat → nat → Prop)
    (st0 : solver F) (xy1 yx1 : list Z) (cx cy : Z) : Prop :=
  augmenting NX NY (prev st0) xy1 yx1 cx cy
  ∧ (∀ x, x < NX → xy1 !!! x ≠ (-1)%Z → E x (Z.to_nat (xy1 !!! x)))
  ∧ (∀ x, x < NX → xy st0 !!! x ≠ (-1)%Z → xy1 !!! x ≠ (-1)%Z)
  ∧ (∀ x, x < NX → xy1 !!! x ≠ (-1)%Z → xy st0 !!! x ≠ (-1)%Z ∨ in_S st0 !!! x = true)
  ∧ (∀ y, y < NY → yx1 !!! y = (-1)%Z → yx st0 !!! y = (-1)%Z)
  ∧ (∀ x, x < NX → (0 ≤ cx)%Z → xy1 !!! x ≠ xy st0 !!! x → d (Z.to_nat cx) < d x)
  ∧ ((0 ≤ cx)%Z →
       in_S st0 !!! Z.to_nat cx = true ∧ (0 ≤ cy)%Z ∧ E (Z.to_nat cx) (Z.to_nat cy))
  ∧ (cx = (-2)%Z → xy1 !!! r ≠ (-1)%Z).

(** *** Finite values of the exact scalars *)

Definition fin (a : xreal) : Prop := ∃ q, a = XFin q.

(** The rational a finite value stands for ([0] for the special values). *)
Definition qv (a : xreal) : Q :=
  match a with
  | XFin q => this q
  | _ => 0%Q
  end.

(** The tolerance of [eq], as a rational. *)
Definition tol : Q := 1 # 10000.

(** What holds of the arrays between two augmentations: they have their
    sizes, they describe a matching, and [n] rows are matched. *)
Definition matched_rows {F} (NX NY : nat) (st : solver F) (n : nat) : Prop :=
  shaped NX NY st ∧ matching NX NY (xy st) (yx st)
  ∧ ∃ ms : list nat, NoDup ms ∧ length ms = n
      ∧ ∀ x, x ∈ ms ↔ x < NX ∧ xy st !!! x ≠ (-1)%Z.

(** *** Labels, in exact arithmetic *)

(** [value[x][y]] and [lx[x] + ly[y] - value[x][y]] as rationals. *)
Definition val_q (value : list (list xreal)) (x y : nat) : Q :=
  qv ((value !!! x) !!! y).
Definition gap (value : list (list xreal)) (st : solver xreal) (x y : nat) : Q :=
  (qv (lx st !!! x) + qv (ly st !!! y) - val_q value x y)%Q.

(** The labels between two augmentations: they are feasible (no pair has
    a value above the sum of its two labels), the label of a column is not
    negative and is zero while the column is unmatched, and a matched pair
    is tight up to the tolerance of [eq]. *)
Record labels_out (value : list (list xreal)) (NX NY : nat) (st : solver xreal) : Prop := {
  lo_fin_lx : Forall fin (lx st);
  lo_fin_ly : Forall fin (ly st);
  lo_feas : ∀ x y, x < NX → y < NY → (0 <= gap value st x y)%Q;
  lo_ly : ∀ y, y < NY →
      (0 <= qv (ly st !!! y))%Q ∧ (yx st !!! y = (-1)%Z → (qv (ly st !!! y) == 0)%Q);
  lo_matched : ∀ x, x < NX → xy st !!! x ≠ (-1)%Z →
      (gap value st x (Z.to_nat (xy st !!! x)) < tol)%Q
}.

(** The labels during a search: moreover the edges of the tree are tight
    up to the tolerance, and [slack[y]] is the least gap between [y] and a
    row of S, reached at [slackx[y]]. *)
Record labels_ok (value : list (list xreal)) (NX NY r : nat) (st : solver xreal) : Prop := {
  l_out : labels_out value NX NY st;
  l_fin_slack : Forall fin (slack st);
  l_tree : ∀ x px, x < NX → in_S st !!! x = true → x ≠ r →
      prev st !!! x = Z.of_nat px →
      (gap value st px (Z.to_nat (xy st !!! x)) < tol)%Q;
  l_slack : ∀ y, y < NY →
      (qv (slack st !!! y) == gap value st (slackx st !!! y) y)%Q;
  l_slack_min : ∀ x y, x < NX → y < NY → in_S st !!! x = true →
      (qv (slack st !!! y) <= gap value st x y)%Q
}.

(** The invariant of the search, and what it hands to the augmentation,
    with the facts on labels. *)
Definition searching_exact (value : list (list xreal)) (NX NY r : nat)
    (st : solver xreal) (q : list nat) : Prop :=
  searching NX NY r st q ∧ labels_ok value NX NY r st.

Definition found_exact (value : list (list xreal)) (NX NY r : nat)
    (st : solver xreal) (x y : nat) : Prop :=
  found NX NY r st x y ∧ labels_ok value NX NY r st ∧ (gap value st x y < tol)%Q.

(** *** Sums of rationals *)

Definition Qsum {A} (f : A → Q) (l : list A) : Q := foldr (λ a s, (f a + s)%Q) 0%Q l.

(** The column that row [x] is matched to. *)
Definition partner {F} (st : solver F) (x : nat) : nat := Z.to_nat (xy st !!! x).

(** *** Rows and columns of a pairing *)

(** The row and the column of [value] that a pairing is written to: its
    character and its task when [max_task > max_character], its task and
    its character otherwise. *)
Definition row_of {F} (by_character : bool) (a : Assignment F) : nat :=
  if by_character then character a else task a.
Definition col_of {F} (by_character : bool) (a : Assignment F) : nat :=
  if by_character then task a else character a.

(** Every pair of a character and a task, up to the largest identifiers
    present, is proposed exactly once. *)
Definition complete {F} `{Scalar F} (v : list (Assignment F)) : Prop :=
  NoDup (pair_of <$> v)
  ∧ ∀ c t, c ≤ max_id character v → t ≤ max_id task v →
      ∃ a, a ∈ v ∧ pair_of a = (c, t).

(** The size of the smaller side: [N = min(max_character, max_task) + 1]. *)
Definition smaller_side {F} `{Scalar F} (v : list (Assignment F)) : nat :=
  (max_id character v `min` max_id task v) + 1.

(** A matching made of pairings of [v] that covers the smaller side. *)
Definition covering_matching {F} `{Scalar F} (v M : list (Assignment F)) : Prop :=
  M ⊆+ v ∧ NoDup (character <$> M) ∧ NoDup (task <$> M) ∧ length M = smaller_side v.

Definition finite_costs (v : list (Assignment xreal)) : Prop :=
  Forall (λ a, fin (cost a)) v.

Definition total_cost (v : list (Assignment xreal)) : Q := Qsum (λ a, qv (cost a)) v.

(** The write of one pairing (lines 227 and 231), with [C] for [max_cost],
    and the shape of the matrix. *)
Definition write_value {F} `{Scalar F} (by_character : bool) (C : F)
    (M : list (list F)) (a : Assignment F) : list (list F) :=
  <[row_of by_character a :=
      <[col_of by_character a := f_add (f_sub C (cost a)) f_one]>
        (M !!! row_of by_character a)]> M.

Definition rectangular {F} (NX NY : nat) (M : list (list F)) : Prop :=
  length M = NX ∧ ∀ x, x < NX → length (M !!! x) = NY.

(** A pairing (character, task, cost) with a rational cost. *)
Definition pairing_q (c t : nat) (q : Q) : Assignment xreal :=
  mkAssignment c t (XFin (Q2Qc q)).

(** *** Measures of the search *)

(** How many columns are outside T. *)
Definition free_cols {F} (st : solver F) : nat :=
  length (filter (λ b : bool, b = false) (in_T st)).

(** No label of a row is above [B]. *)
Definition lx_below (NX : nat) (B : Q) (st : solver xreal) : Prop :=
  ∀ x, x < NX → (qv (lx st !!! x) <= B)%Q.

(** Costs that a [double] can hold: finite, not negative, at most
    [DBL_MAX]. *)
Definition bounded_costs (v : list (Assignment xreal)) : Prop :=
  Forall (λ a, fin (cost a) ∧ (0 <= qv (cost a) <= qv f_dbl_max)%Q) v.

(** *** Inputs of the scenarios *)

(** The sum of the costs of a list, added from the left. *)
Definition cost_sum {F} `{Scalar F} (v : list (Assignment F)) : F :=
  fold_left (λ s a, f_add s (cost a)) v f_zero.

(** Every pair of [NC] characters and [NT] tasks, at the cost [c]. *)
Definition all_pairs {F} (NC NT : nat) (c : nat → nat → F) : list (Assignment F) :=
  x ← seq 0 NC; y ← seq 0 NT; [mkAssignment x y (c x y)].

(** Ten characters at 100 from ten tasks, an eleventh at 1. *)
Definition that_guy : list (Assignment float) :=
  all_pairs 11 10 (λ x _, if bool_decide (x = 10) then 1%float else 100%float).

(** What a pairing saves against the most expensive pairing of the list:
    the value that [Optimize] gives it, less the baseline [1.0]. *)
Definition saving (v : list (Assignment xreal)) (a : Assignment xreal) : Q :=
  (qv (max_cost v) - qv (cost a))%Q.

(** ** The JavaScript wrappers ([colony_js_post.js]) *)

(** The object that [compute_cost] takes.  A field holds a number, or is
    missing ([None], which JavaScript reads as [undefined]). *)
Record CostArgs (F : Type) : Type := mkCostArgs {
  travel_time : option F;
  work_time : option F;
  retry_risk : option F;
  priority : option F
}.
Arguments mkCostArgs {F} _ _ _ _.
Arguments travel_time {F} _.
Arguments work_time {F} _.
Arguments retry_risk {F} _.
Arguments priority {F} _.

Section ComputeCostJs.
Context {F : Type} `{Scalar F}.

(** A number is truthy unless it is [0], [-0] or [NaN], that is, exactly
    when it compares below zero or above zero. *)
Definition js_truthy (x : F) : bool := f_ltb x f_zero || f_ltb f_zero x.

(** [field || dflt] *)
Definition js_or (field : option F) (dflt : F) : F :=
  match field with
  | Some x => if js_truthy x then x else dflt
  | None => dflt
  end.

(** [Module['compute_cost'] = function (obj) {
       return Module.C_ComputeCost(obj.travel_time || 0, obj.work_time || 0,
                                   obj.retry_risk || 0, obj.priority || 1); }] *)
Definition compute_cost (obj : CostArgs F) : F :=
  ComputeCost (js_or (travel_time obj) f_zero) (js_or (work_time obj) f_zero)
    (js_or (retry_risk obj) f_zero) (js_or (priority obj) f_one).
End ComputeCostJs.

(** An assignment as the JavaScript caller writes it, with names for the
    character and the task, and as [optimize] hands it back, where a name
    read from an array may be [undefined] ([None]). *)
Record NamedAssignment (K F : Type) : Type := mkNamed {
  named_character : K;
  named_task : K;
  named_cost : F
}.
Arguments mkNamed {K F} _ _ _.
Arguments named_character {K F} _.
Arguments named_task {K F} _.
Arguments named_cost {K F} _.

Record NamedResult (K F : Type) : Type := mkResult {
  result_character : option K;
  result_task : option K;
  result_cost : F
}.
Arguments mkResult {K F} _ _ _.
Arguments result_character {K F} _.
Arguments result_task {K F} _.
Arguments result_cost {K F} _.

Section OptimizeJs.
Context {K F : Type} `{EqDecision K} `{Scalar F}.

(** Names are property keys.  [inherited k] says that [k in {}] holds, as
    it does for the properties of [Object.prototype]; [object_keys] is
    [Object.keys], which lists the own keys of an object in an order of the
    engine's.  An object that maps names to identifiers is the list of its
    own properties, in the order of their creation. *)
Variable inherited : K → bool.
Variable object_keys : list (K * nat) → list K.

(** [obj[k]], among the own properties *)
Fixpoint js_get (obj : list (K * nat)) (k : K) : option nat :=
  match obj with
  | [] => None
  | (k', x) :: obj => if decide (k' = k) then Some x else js_get obj k
  end.

(** [k in obj ? obj[k] : obj[k] = Object.keys(obj).length].  For an
    inherited name that is not an own property the expression yields the
    inherited property, which is no identifier: [None]. *)
Definition intern (obj : list (K * nat)) (k : K) : option (list (K * nat) * nat) :=
  match js_get obj k with
  | Some x => Some (obj, x)
  | None =>
      if inherited k then None
      else Some (obj ++ [(k, length (object_keys obj))], length (object_keys obj))
  end.

(** The loop that fills [assignments_c]. *)
Fixpoint encode (assignments : list (NamedAssignment K F))
    (character_to_x task_to_y : list (K * nat)) (assignments_c : list (Assignment F))
    : option (list (K * nat) * list (K * nat) * list (Assignment F)) :=
  match assignments with
  | [] => Some (character_to_x, task_to_y, assignments_c)
  | a :: assignments =>
      '(character_to_x, x) ← intern character_to_x (named_character a);
      '(task_to_y, y) ← intern task_to_y (named_task a);
      encode assignments character_to_x task_to_y
        (assignments_c ++ [mkAssignment x y (named_cost a)])
  end.

(** [acc[i] = k] on an array: a write past the end extends the array and
    leaves holes.  [acc[i]] is [undefined] at a hole and past the end. *)
Definition array_set (acc : list (option K)) (i : nat) (k : K) : list (option K) :=
  if bool_decide (i < length acc) then <[i := Some k]> acc
  else acc ++ replicate (i - length acc) None ++ [Some k].

Definition array_get (acc : list (option K)) (i : nat) : option K :=
  mjoin (acc !! i).

(** [Object.keys(obj).reduce((acc, k) => { acc[obj[k]] = k; return acc; },
    Array())] *)
Definition invert (obj : list (K * nat)) : list (option K) :=
  fold_left
    (λ acc k, match js_get obj k with Some i => array_set acc i k | None => acc end)
    (object_keys obj) [].

(** [Module['optimize'] = function (assignments) { ... }].  The result is
    [Undefined] when a name is an inherited property, since what reaches
    C++ is then not a number. *)
Definition optimize (fuel : nat) (assignments : list (NamedAssignment K F))
    : outcome (list (NamedResult K F)) :=
  match encode assignments [] [] [] with
  | None => Undefined
  | Some (character_to_x, task_to_y, assignments_c) =>
      let x_to_character := invert character_to_x in
      let y_to_task := invert task_to_y in
      match Optimize fuel assignments_c with
      | Returned optimized =>
          Returned
            ((λ result,
                mkResult (array_get x_to_character (character result))
                  (array_get y_to_task (task result)) (cost result)) <$> optimized)
      | OutOfFuel => OutOfFuel
      | Undefined => Undefined
      end
  end.
End OptimizeJs.

(** What the caller expects back for a pairing it proposed. *)
Definition named_result {K F} (a : NamedAssignment K F) : NamedResult K F :=
  mkResult (Some (named_character a)) (Some (named_task a)) (named_cost a).

(** The names of an object are distinct and its identifiers are
    [0, 1, 2, ...] in the order of creation. *)
Definition dense {K} (obj : list (K * nat)) : Prop :=
  NoDup (obj.*1) ∧ obj.*2 = seq 0 (length obj).

(** ** The demonstration ([demo_sdl.cc]) *)

(** [struct Character { int x; int y; }] and
    [struct Work { int x; int y; int t; }].  An [int] is an integer here;
    the coordinates of the demonstration stay far from the ends of the
    range of [int]. *)
Record Character : Type := mkCharacter { char_x : Z; char_y : Z }.
Record Work : Type := mkWork { work_x : Z; work_y : Z; work_t : Z }.

#[global] Instance character_inhabited : Inhabited Character := populate (mkCharacter 0 0).
#[global] Instance work_inhabited : Inhabited Work := populate (mkWork 0 0 0).

(** [int SIZE = 256;] *)
Definition SIZE : Z := 256.

(** [int sign(int value)] *)
Definition sign (value : Z) : Z :=
  if (value =? 0)%Z then 0%Z else if (0 <? value)%Z then 1%Z else (-1)%Z.

(** [int abs(int value)] *)
Definition abs (value : Z) : Z := if (value <? 0)%Z then (- value)%Z else value.

(** The first loop of [step]: finished work is erased. *)
Definition remove_finished (work : list Work) : list Work :=
  erase_unless (λ w, negb (work_t w =? 0)%Z) work.

Section Demo.
Context {F : Type} `{Scalar F}.

(** The conversion of an [int] to [double]. *)
Variable of_int : Z → F.

(** [(double)max(abs(characters[i].x - work[j].x),
                 abs(characters[i].y - work[j].y)) + work[j].t] *)
Definition demo_cost (c : Character) (w : Work) : F :=
  f_add (of_int (Z.max (abs (char_x c - work_x w)) (abs (char_y c - work_y w))))
    (of_int (work_t w)).

(** The two nested loops that fill [assignments]. *)
Definition demo_assignments (characters : list Character) (work : list Work)
    : list (Assignment F) :=
  i ← seq 0 (length characters);
  j ← seq 0 (length work);
  [mkAssignment i j (demo_cost (characters !!! i) (work !!! j))].
End Demo.

(** The body of the loop over the optimized assignments: the character
    steps towards its work, or works when it is there. *)
Definition advance_one (characters : list Character) (work : list Work)
    (character_id task_id : nat) : list Character * list Work :=
  let c := characters !!! character_id in
  let w := work !!! task_id in
  let dx := (work_x w - char_x c)%Z in
  let dy := (work_y w - char_y c)%Z in
  let c := mkCharacter (char_x c + sign dx) (char_y c + sign dy) in
  let w := if (dx =? 0)%Z && (dy =? 0)%Z then mkWork (work_x w) (work_y w) (work_t w - 1) else w in
  (<[character_id := c]> characters, <[task_id := w]> work).

(** That loop, and the loop that wraps the coordinates:
    [c.x %= SIZE; c.y %= SIZE;]. *)
Definition advance {F} (assignments : list (Assignment F))
    (characters : list Character) (work : list Work) : list Character * list Work :=
  let '(characters, work) :=
    fold_left (λ '(characters, work) a, advance_one characters work (character a) (task a))
      assignments (characters, work) in
  ((λ c, mkCharacter (Z.rem (char_x c) SIZE) (Z.rem (char_y c) SIZE)) <$> characters, work).

(** The part of [step] that follows the change of stage: build the
    assignments, optimize them, move the characters. *)
Definition step_assigned {F} `{Scalar F} (of_int : Z → F) (fuel : nat)
    (characters : list Character) (work : list Work)
    : outcome (list (Assignment F) * list Character * list Work) :=
  assignments ← Optimize fuel (demo_assignments of_int characters work);
  let '(characters, work) := advance assignments characters work in
  Returned (assignments, characters, work).

(** The remaining cost of a pair, as an integer. *)
Definition remaining (c : Character) (w : Work) : Z :=
  (Z.max (abs (char_x c - work_x w)) (abs (char_y c - work_y w)) + work_t w)%Z.

(** The positions lie on the board. *)
Definition on_board (characters : list Character) (work : list Work) : Prop :=
  Forall (λ c, (0 ≤ char_x c < SIZE)%Z ∧ (0 ≤ char_y c < SIZE)%Z) characters
  ∧ Forall (λ w, (0 ≤ work_x w < SIZE)%Z ∧ (0 ≤ work_y w < SIZE)%Z) work.

(** The globals of the demonstration that [step] reads and writes.
    [stage_name] and [stage_limit] are only printed, and are left out. *)
Record Demo : Type := mkDemo {
  game_over : bool;
  stage : Z;
  steps : Z;
  characters : list Character;
  work : list Work
}.

(** [void step()].  [stages] holds what each stage function pushes on the
    two vectors, which [step] has just cleared (for the random stages,
    whatever [rand] gave).  The [printf]s and the clock are left out.
    [stage >= stages.size()] compares as unsigned, so a negative [stage]
    counts as past the end. *)
Definition step {F} `{Scalar F} (of_int : Z → F)
    (stages : list (list Character * list Work)) (fuel : nat) (s : Demo) : outcome Demo :=
  let work := remove_finished (work s) in
  let steps := (steps s + 1)%Z in
  let run (stage steps : Z) (characters : list Character) (work : list Work) :=
    '(_, characters, work) ← step_assigned of_int fuel characters work;
    Returned (mkDemo (game_over s) stage steps characters work) in
  if bool_decide (length work = 0) then
    let steps := if (0 <=? stage s)%Z then 0%Z else steps in
    let stage := (stage s + 1)%Z in
    if (stage <? 0)%Z || (Z.of_nat (length stages) <=? stage)%Z then
      Returned (mkDemo true stage steps (characters s) work)
    else
      let '(characters, work) := stages !!! Z.to_nat stage in
      run stage steps characters work
  else run (stage s) steps (characters s) work.

(** No work has a negative time left. *)
Definition work_left (work : list Work) : Prop := Forall (λ w, (0 ≤ work_t w)%Z) work.

(** An [int] as an exact scalar. *)
Definition xreal_of_int (z : Z) : xreal := XFin (Q2Qc (inject_Z z)).

(** ** Whole numbers as scalars *)

(** The [double] nearest to a whole number: what the conversion of an
    integer to [double] gives.  [Zf] is its description by sign, mantissa
    and exponent. *)
Definition Zf (n : Z) : spec_float := binary_normalize prec emax n 0 false.
Definition of_int (n : Z) : float := SF2Prim (Zf n).

(** A whole number that a [double] holds exactly: fewer than 54 bits. *)
Definition whole (n : Z) : Prop := (Z.abs n < 2 ^ 53)%Z.

(** [m * 2 ^ k] on positive numbers, for [k] of any sign, and the mantissa
    and the exponent of a positive whole number held in a [double]. *)
Definition shl (m : positive) (k : Z) : positive :=
  match k with Zpos k => Pos.iter xO m k | _ => m end.
Definition cm (p : positive) : positive := shl p (53 - Zpos (digits2_pos p)).
Definition ce (p : positive) : Z := (Zpos (digits2_pos p) - 53)%Z.

(** The solver on whole numbers.  It is run beside the solver on doubles
    and the solver in exact arithmetic when every cost is a whole number,
    to show that the two do the same.  Three constants are never computed
    with, only compared with, and have a whole number in their place that
    compares in the same way with every whole number of the run: [1] for
    the tolerance [0.0001] (two whole numbers are less than [0.0001] apart
    when they are less than [1] apart), [0] for [DBL_MIN] and [2 ^ 53] for
    [DBL_MAX].  The solver neither divides nor uses the infinity. *)
Definition whole_numbers : Scalar Z := {|
  f_zero := 0%Z;
  f_one := 1%Z;
  f_tol := 1%Z;
  f_inf := (2 ^ 53)%Z;
  f_dbl_min := 0%Z;
  f_dbl_max := (2 ^ 53)%Z;
  f_add := Z.add;
  f_sub := Z.sub;
  f_div := Z.div;
  f_abs := Z.abs;
  f_ltb := Z.ltb;
  f_leb := Z.leb
|}.

(** What makes scalars [G] compute on whole numbers as the whole numbers
    do: the image of a whole number is added, subtracted and compared
    without error, as long as the operands and the result have fewer than
    54 bits. *)
Class Exact {G : Type} `{Scalar G} (emb : Z → G) : Prop := {
  emb_zero : emb 0%Z = f_zero;
  emb_one : emb 1%Z = f_one;
  emb_add a b : whole a → whole b → whole (a + b) → f_add (emb a) (emb b) = emb (a + b)%Z;
  emb_sub a b : whole a → whole b → whole (a - b) → f_sub (emb a) (emb b) = emb (a - b)%Z;
  emb_abs a : whole a → f_abs (emb a) = emb (Z.abs a);
  emb_ltb a b : whole a → whole b → f_ltb (emb a) (emb b) = (a <? b)%Z;
  emb_ltb_tol a : whole a → f_ltb (emb a) f_tol = (a <? 1)%Z;
  emb_ltb_dbl_max a : whole a → f_ltb (emb a) f_dbl_max = true;
  emb_dbl_min_ltb a : whole a → f_ltb f_dbl_min (emb a) = (0 <? a)%Z
}.

(** A state of the solver and a pairing, with every number sent through
    [g]. *)
Definition map_solver {A B} (g : A → B) (st : solver A) : solver B :=
  mkSolver (g <$> lx st) (g <$> ly st) (xy st) (yx st) (in_S st) (in_T st)
    (g <$> slack st) (slackx st) (prev st).
Definition map_cost {A B} (g : A → B) (a : Assignment A) : Assignment B :=
  mkAssignment (character a) (task a) (g (cost a)).

(** The ranges that the numbers of a run on whole costs up to [2 ^ 49]
    stay in: labels and values within [2 ^ 49], slacks within [2 ^ 51]. *)
Definition lab (n : Z) : Prop := (Z.abs n ≤ 2 ^ 49)%Z.
Definition slk (n : Z) : Prop := (Z.abs n ≤ 2 ^ 51)%Z.
Definition safe (st : solver Z) : Prop :=
  Forall lab (lx st) ∧ Forall lab (ly st) ∧ Forall slk (slack st).
Definition safe_value (value : list (list Z)) : Prop :=
  Forall (Forall lab) value.

(** Costs that are whole numbers from [0] to [2 ^ 48]. *)
Definition whole_costs (v : list (Assignment Z)) : Prop :=
  Forall (λ a, (0 ≤ cost a ≤ 2 ^ 48)%Z) v.

(** Sums of whole numbers, the largest cost of a list of whole costs (as
    [max_cost] finds it, from [0]), and what a pairing saves against it. *)
Definition Zsum {A} (f : A → Z) (l : list A) : Z := foldr (λ a s, (f a + s)%Z) 0%Z l.
Definition max_cost_z (v : list (Assignment Z)) : Z :=
  fold_left (λ m a, Z.max m (cost a)) v 0%Z.
Definition saving_z (v : list (Assignment Z)) (a : Assignment Z) : Z :=
  (max_cost_z v - cost a)%Z.

(** A list of pairings with whole costs, as the [double]s that [Optimize]
    takes. *)
Definition doubles (v : list (Assignment Z)) : list (Assignment float) :=
  map_cost of_int <$> v.

(** How many identifiers of the smaller side a matching [M] of pairings
    of [v] leaves without a pairing. *)
Definition unmatched (v M : list (Assignment Z)) : Z :=
  (Z.of_nat (max_id character v `min` max_id task v + 1) - Z.of_nat (length M))%Z.

(** * Properties *)

(** ** Vectors: the swap-and-pop idiom *)

Section VectorFacts.
Context {A : Type} `{Inhabited A}.
Implicit Types (v pre post : list A) (a b : A) (keep : A → bool).

Lemma swap_remove_back pre a : swap_remove (pre ++ [a]) (length pre) = pre.
Proof.
  unfold swap_remove, swap, pop_back.
  rewrite !length_insert, length_app. simpl.
  replace (length pre + 1 - 1) with (length pre) by lia.
  rewrite (list_lookup_total_middle pre [] a (length pre)) by done.
  rewrite !(insert_app_r_alt pre) by lia.
  rewrite Nat.sub_diag. simpl. by rewrite take_app_length.
Qed.

Lemma swap_remove_middle pre a post b :
  swap_remove (pre ++ a :: post ++ [b]) (length pre) = pre ++ b :: post.
Proof.
  unfold swap_remove, swap, pop_back.
  rewrite !length_insert, !length_app. simpl. rewrite length_app. simpl.
  replace (length pre + S (length post + 1) - 1)
    with (length pre + S (length post)) by lia.
  rewrite (list_lookup_total_middle pre (post ++ [b]) a (length pre)) by done.
  replace (pre ++ a :: post ++ [b]) with ((pre ++ a :: post) ++ [b])
    by (by rewrite <- app_assoc).
  rewrite (list_lookup_total_middle (pre ++ a :: post) [] b)
    by (rewrite length_app; simpl; lia).
  rewrite <- app_assoc. simpl.
  rewrite (insert_app_r_alt pre) by lia. rewrite Nat.sub_diag. simpl.
  rewrite (insert_app_r_alt pre) by lia.
  replace (length pre + S (length post) - length pre) with (S (length post)) by lia.
  simpl. rewrite (insert_app_r_alt post) by lia. rewrite Nat.sub_diag. simpl.
  replace (pre ++ b :: post ++ [a]) with ((pre ++ b :: post) ++ [a])
    by (by rewrite <- app_assoc).
  replace (length pre + S (length post)) with (length (pre ++ b :: post))
    by (rewrite length_app; simpl; lia).
  by rewrite take_app_length.
Qed.

Lemma swap_remove_app pre a post :
  ∃ post', swap_remove (pre ++ a :: post) (length pre) = pre ++ post' ∧ post' ≡ₚ post.
Proof.
  destruct post as [|c post _] using rev_ind.
  - exists []. by rewrite swap_remove_back, app_nil_r.
  - exists (c :: post). rewrite swap_remove_middle. split; [done|].
    by rewrite Permutation_cons_append.
Qed.

(** What one erasure does: the element at [i] goes, the elements before
    [i] stay in place, the rest is rearranged. *)
Lemma swap_remove_spec v i :
  i < length v →
  length (swap_remove v i) = length v - 1
  ∧ take i (swap_remove v i) = take i v
  ∧ drop i (swap_remove v i) ≡ₚ drop (S i) v.
Proof.
  intros Hi.
  destruct (lookup_lt_is_Some_2 v i Hi) as [a Ha].
  pose proof (take_drop_middle v i a Ha) as Hv.
  assert (Hlen : i = length (take i v)) by (rewrite length_take; lia).
  revert Hv Hlen. generalize (take i v) (drop (S i) v). intros pre post <- ->.
  destruct (swap_remove_app pre a post) as (post' & -> & Hp).
  rewrite !take_app_length, !drop_app_length.
  rewrite !length_app, (Permutation_length Hp). simpl.
  split_and!; [lia|done|done].
Qed.

Lemma swap_remove_submseteq v i : i < length v → swap_remove v i ⊆+ v.
Proof.
  intros Hi. destruct (swap_remove_spec v i Hi) as (_ & Ht & Hd).
  rewrite <- (take_drop i (swap_remove v i)), Ht, Hd.
  trans (take i v ++ drop i v); [|by rewrite take_drop].
  apply submseteq_app; [done|].
  destruct (lookup_lt_is_Some_2 v i Hi) as [a Ha].
  rewrite (drop_S _ _ _ Ha). by apply submseteq_cons.
Qed.

(** The erasing loop keeps exactly the elements that pass [keep], each as
    often as the vector holds it. *)
Lemma erase_loop_perm keep fuel v i :
  length v ≤ i + fuel → i ≤ length v →
  erase_loop fuel keep v i ≡ₚ take i v ++ filter (λ a, keep a) (drop i v).
Proof.
  revert v i. induction fuel as [|fuel IH]; intros v i Hfuel Hi; simpl.
  - rewrite drop_ge, take_ge by lia. by rewrite app_nil_r.
  - case_bool_decide as Hlt.
    + destruct (lookup_lt_is_Some_2 v i Hlt) as [a Ha].
      rewrite (list_lookup_total_correct _ _ _ Ha).
      rewrite (drop_S _ _ _ Ha).
      destruct (keep a) eqn:Hk.
      * rewrite IH by lia. rewrite Nat.add_1_r, (take_S_r _ _ _ Ha).
        rewrite filter_cons_True by (simpl; by rewrite Hk).
        rewrite <- app_assoc. reflexivity.
      * destruct (swap_remove_spec v i Hlt) as (Hl & Ht & Hd).
        rewrite IH by lia. rewrite Ht, Hd.
        rewrite filter_cons_False by (simpl; rewrite Hk; exact id). done.
    + rewrite drop_ge, take_ge by lia. by rewrite app_nil_r.
Qed.

Lemma erase_unless_perm keep v : erase_unless keep v ≡ₚ filter (λ a, keep a) v.
Proof. unfold erase_unless. rewrite erase_loop_perm by lia. by rewrite take_0, drop_0. Qed.

(** Fuel beyond [length v - i] is not used. *)
Lemma erase_loop_fuel keep fuel fuel' v i :
  length v ≤ i + fuel → fuel ≤ fuel' → erase_loop fuel' keep v i = erase_loop fuel keep v i.
Proof.
  revert fuel' v i. induction fuel as [|fuel IH]; intros fuel' v i Hfuel Hle.
  - destruct fuel'; simpl; [done|]. case_bool_decide; [lia|done].
  - destruct fuel' as [|fuel']; [lia|]. simpl. case_bool_decide as Hlt; [|done].
    destruct (keep (v !!! i)).
    + apply IH; lia.
    + destruct (swap_remove_spec v i Hlt) as (Hl & _). apply IH; lia.
Qed.
End VectorFacts.

(** ** CandidateFilter *)

Section CandidateFilterFacts.
Context {F : Type} `{Scalar F}.
Implicit Types (v : list (Assignment F)) (a : Assignment F).

Lemma linear_insert_perm a v : linear_insert a v ≡ₚ a :: v.
Proof.
  induction v as [|b v IH]; simpl; [done|].
  destruct (f_ltb (cost a) (cost b)); [|done].
  rewrite IH. apply Permutation_swap.
Qed.

Lemma insert_by_cost_perm a v : insert_by_cost v a ≡ₚ a :: v.
Proof.
  destruct v as [|b v]; simpl; [done|].
  destruct (f_ltb (cost a) (cost b)); [done|].
  rewrite reverse_Permutation, linear_insert_perm.
  by rewrite reverse_Permutation.
Qed.

Lemma sort_by_cost_perm v : sort_by_cost v ≡ₚ v.
Proof.
  unfold sort_by_cost.
  assert (Hgen : ∀ acc, fold_left insert_by_cost v acc ≡ₚ acc ++ v).
  { induction v as [|a v IH]; intros acc; simpl; [by rewrite app_nil_r|].
    rewrite IH, insert_by_cost_perm. simpl. apply Permutation_middle. }
  apply (Hgen []).
Qed.

Lemma last_id_ge_init (id : Assignment F → nat) v (m : Z) :
  (m ≤ fold_left (λ m a, Z.max m (Z.of_nat (id a))) v m)%Z.
Proof.
  revert m. induction v as [|b v IH]; intros m; simpl; [lia|].
  etrans; [|apply IH]. lia.
Qed.

Lemma last_id_bound (id : Assignment F → nat) v a :
  a ∈ v → (Z.of_nat (id a) ≤ last_id id v)%Z.
Proof.
  unfold last_id. generalize (-1)%Z.
  induction v as [|b v IH]; intros m; [by intros ?%elem_of_nil|].
  intros [->|Hin]%elem_of_cons; simpl.
  - etrans; [|apply last_id_ge_init]. lia.
  - by apply IH.
Qed.

Lemma limit_loop_submseteq fuel Kc Kt v i tpc cpt :
  limit_loop fuel Kc Kt v i tpc cpt ⊆+ v.
Proof.
  revert v i tpc cpt. induction fuel as [|fuel IH]; intros v i tpc cpt; simpl; [done|].
  case_bool_decide as Hlt; [|done].
  repeat case_match; try apply IH;
    (etrans; [apply IH|by apply swap_remove_submseteq]).
Qed.

Lemma pairings_of_character_snoc c v a :
  pairings_of_character c (v ++ [a])
  = pairings_of_character c v + (if decide (character a = c) then 1 else 0).
Proof.
  unfold pairings_of_character. rewrite list.filter_app, length_app. f_equal.
  rewrite filter_cons, filter_nil. by case_decide.
Qed.

Lemma pairings_of_task_snoc t v a :
  pairings_of_task t (v ++ [a])
  = pairings_of_task t v + (if decide (task a = t) then 1 else 0).
Proof.
  unfold pairings_of_task. rewrite list.filter_app, length_app. f_equal.
  rewrite filter_cons, filter_nil. by case_decide.
Qed.

(** The invariant of the loop: each counter is the number of pairings of
    its identifier among the [i] retained so far, and none has passed
    its limit. *)
Lemma limit_loop_caps fuel Kc Kt v i tpc cpt :
  length v ≤ i + fuel → i ≤ length v →
  (∀ a, a ∈ v → character a < length tpc ∧ task a < length cpt) →
  (∀ c, c < length tpc → tpc !!! c = Z.of_nat (pairings_of_character c (take i v))) →
  (∀ t, t < length cpt → cpt !!! t = Z.of_nat (pairings_of_task t (take i v))) →
  (∀ c, (Z.of_nat (pairings_of_character c (take i v)) ≤ Kc)%Z) →
  (∀ t, (Z.of_nat (pairings_of_task t (take i v)) ≤ Kt)%Z) →
  ∀ k, (Z.of_nat (pairings_of_character k (limit_loop fuel Kc Kt v i tpc cpt)) ≤ Kc)%Z
       ∧ (Z.of_nat (pairings_of_task k (limit_loop fuel Kc Kt v i tpc cpt)) ≤ Kt)%Z.
Proof.
  revert v i tpc cpt.
  induction fuel as [|fuel IH]; intros v i tpc cpt Hfuel Hi Hrange Htpc Hcpt Hc Ht k; simpl.
  { rewrite take_ge in Hc, Ht by lia. done. }
  case_bool_decide as Hlt; [|rewrite take_ge in Hc, Ht by lia; done].
  destruct (lookup_lt_is_Some_2 v i Hlt) as [a Ha].
  rewrite (list_lookup_total_correct _ _ _ Ha).
  destruct (Hrange a) as [Hca Hta]; [by eapply list_elem_of_lookup_2|].
  destruct (swap_remove_spec v i Hlt) as (Hl & Htk & _).
  assert (Hdrop : ∀ b, b ∈ swap_remove v i →
            character b < length tpc ∧ task b < length cpt).
  { intros b Hb. apply Hrange.
    by eapply elem_of_submseteq; [|apply swap_remove_submseteq]. }
  destruct (Z.leb_spec Kc (tpc !!! character a)) as [Hfull|Hroom].
  { apply IH; rewrite ?Htk; auto; lia. }
  destruct (Z.leb_spec Kt (cpt !!! task a)) as [Hfull'|Hroom'].
  { apply IH; rewrite ?Htk; auto; lia. }
  rewrite Htpc in Hroom by done. rewrite Hcpt in Hroom' by done.
  apply IH; rewrite ?Nat.add_1_r, ?(take_S_r _ _ _ Ha), ?length_insert; auto; try lia.
  - intros c Hlc. rewrite pairings_of_character_snoc.
    destruct (decide (character a = c)) as [->|Hne].
    + rewrite list_lookup_total_insert_eq by done. rewrite Htpc by done. lia.
    + rewrite list_lookup_total_insert_ne by done. rewrite Htpc by done. lia.
  - intros t Hlt'. rewrite pairings_of_task_snoc.
    destruct (decide (task a = t)) as [->|Hne].
    + rewrite list_lookup_total_insert_eq by done. rewrite Hcpt by done. lia.
    + rewrite list_lookup_total_insert_ne by done. rewrite Hcpt by done. lia.
  - intros c. rewrite pairings_of_character_snoc. specialize (Hc c).
    case_decide; subst; lia.
  - intros t. rewrite pairings_of_task_snoc. specialize (Ht t).
    case_decide; subst; lia.
Qed.
End CandidateFilterFacts.

(** C6 (filter cap).  After [LimitAssignments v Kc Kt] with caps that are
    not negative, no character identifier occurs in more than [Kc] of the
    retained pairings and no task identifier in more than [Kt]. *)
Theorem LimitAssignments_caps {F : Type} `{Scalar F}
    (v : list (Assignment F)) (Kc Kt : Z) (k : nat) :
  (0 ≤ Kc)%Z → (0 ≤ Kt)%Z →
  (Z.of_nat (pairings_of_character k (LimitAssignments v Kc Kt)) ≤ Kc)%Z
  ∧ (Z.of_nat (pairings_of_task k (LimitAssignments v Kc Kt)) ≤ Kt)%Z.
Proof.
  intros HKc HKt. unfold LimitAssignments.
  apply limit_loop_caps; rewrite ?take_0, ?length_replicate; try done; try lia.
  - intros a Ha.
    pose proof (last_id_bound character _ _ Ha).
    pose proof (last_id_bound task _ _ Ha). lia.
  - intros c Hc. by rewrite lookup_total_replicate_2.
  - intros t Ht. by rewrite lookup_total_replicate_2.
Qed.

Lemma LimitAssignments_caps_witness :
  (Z.of_nat (pairings_of_character 0
     (LimitAssignments
        [mkAssignment 0 0 1%float; mkAssignment 0 1 2%float;
         mkAssignment 1 1 3%float; mkAssignment 1 2 4%float] 1 1)) ≤ 1)%Z
  ∧ (Z.of_nat (pairings_of_task 0
       (LimitAssignments
          [mkAssignment 0 0 1%float; mkAssignment 0 1 2%float;
           mkAssignment 1 1 3%float; mkAssignment 1 2 4%float] 1 1)) ≤ 1)%Z.
Proof. apply LimitAssignments_caps; lia. Defined.

(** C5 (which pairings the filter keeps).  The header sorts by cost and then
    erases a refused pairing by swapping the last, most expensive, pairing
    into its place, which is examined next.  With one pairing allowed per
    character and per task, the sorted walk of the specification keeps
    (0,0,1) and (1,1,3); the header keeps (0,0,1) and (1,2,4). *)
Theorem LimitAssignments_not_cheapest :
  let candidates :=
    [mkAssignment 0 0 1%float; mkAssignment 0 1 2%float;
     mkAssignment 1 1 3%float; mkAssignment 1 2 4%float] in
  sort_by_cost candidates = candidates
  ∧ spec_limit_assignments candidates 1 1
    = [mkAssignment 0 0 1%float; mkAssignment 1 1 3%float]
  ∧ LimitAssignments candidates 1 1
    = [mkAssignment 0 0 1%float; mkAssignment 1 2 4%float]
  ∧ ¬ LimitAssignments candidates 1 1 ≡ₚ spec_limit_assignments candidates 1 1.
Proof.
  assert (Hs : spec_limit_assignments
                 [mkAssignment 0 0 1%float; mkAssignment 0 1 2%float;
                  mkAssignment 1 1 3%float; mkAssignment 1 2 4%float] 1 1
               = [mkAssignment 0 0 1%float; mkAssignment 1 1 3%float])
    by (vm_compute; reflexivity).
  assert (Hc : LimitAssignments
                 [mkAssignment 0 0 1%float; mkAssignment 0 1 2%float;
                  mkAssignment 1 1 3%float; mkAssignment 1 2 4%float] 1 1
               = [mkAssignment 0 0 1%float; mkAssignment 1 2 4%float])
    by (vm_compute; reflexivity).
  cbv zeta. split_and!; [vm_compute; reflexivity|exact Hs|exact Hc|].
  rewrite Hs, Hc. intros Hp.
  assert (Hin : mkAssignment 1 1 3%float
                ∈ [mkAssignment 0 0 1%float; mkAssignment 1 2 4%float])
    by (rewrite Hp; apply list_elem_of_further, list_elem_of_here).
  apply elem_of_cons in Hin as [Hin|Hin]; [discriminate Hin|].
  apply elem_of_cons in Hin as [Hin|Hin]; [discriminate Hin|].
  by apply elem_of_nil in Hin.
Qed.

(** ** CostKernel *)

Lemma ComputeCost_degenerate {F : Type} `{Scalar F} (t w r p : F) :
  f_leb f_one r = true ∨ f_leb p f_zero = true → ComputeCost t w r p = f_inf.
Proof. unfold ComputeCost. by intros [-> | ->]; rewrite ?orb_true_r. Qed.

Lemma ComputeCost_regular (t w r p : Qc) :
  (r < 1)%Qc → (0 < p)%Qc →
  ComputeCost (XFin t) (XFin w) (XFin r) (XFin p) = XFin ((t + w) / ((1 - r) * p))%Qc.
Proof.
  intros Hr Hp. unfold ComputeCost. simpl. unfold Qc_leb.
  rewrite !bool_decide_eq_false_2 by (by apply Qclt_not_le). simpl.
  assert (Hr' : (1 + - r)%Qc ≠ 0%Qc).
  { intros Heq. apply (Qclt_not_eq _ _ Hr). rewrite <- (Qcplus_0_r r), <- Heq. ring. }
  assert (Hp' : p ≠ 0%Qc) by (intros ->; by apply (Qclt_not_eq _ _ Hp)).
  rewrite !bool_decide_eq_false_2 by done. simpl.
  rewrite !bool_decide_eq_false_2 by done.
  f_equal. field. split; [done|]. unfold Qcminus. done.
Qed.



(** The same four instances on IEEE doubles, and the usage example of the
    JavaScript wrapper ([compute_cost({travel_time: 10, work_time: 2,
    retry_risk: 0.2, priority: 3})] is [5]). *)
Example ComputeCost_binary64 :
  (ComputeCost 3 4 0 1 = 7
   ∧ ComputeCost 3 4 0.5 1 = 14
   ∧ ComputeCost 3 4 1 2 = infinity
   ∧ ComputeCost 3 4 0.25 0 = infinity
   ∧ ComputeCost 10 2 0x1.999999999999ap-3 3 = 5)%float.
Proof. vm_compute. done. Qed.

(** ** AssignmentSolver: proof rules for its loops *)

Lemma bind_returned {A B} (m : outcome A) (k : A → outcome B) (b : B) :
  m ≫= k = Returned b → ∃ a, m = Returned a ∧ k a = Returned b.
Proof. destruct m; simpl; [eauto|done|done]. Qed.

Lemma bind_Returned {A B} (a : A) (k : A → outcome B) : Returned a ≫= k = k a.
Proof. done. Qed.

Lemma bind_OutOfFuel {A B} (k : A → outcome B) : OutOfFuel ≫= k = OutOfFuel.
Proof. done. Qed.

Section LoopRules.
Context {F : Type} `{Scalar F}.
Variable value : list (list F).
Variables NX NY : nat.

Abbreviation tight st x y :=
  (f_eq ((value !!! x) !!! y) (f_add (lx st !!! x) (ly st !!! y))).

(** Scanning row [x]: an invariant of the additions to the tree holds at
    the end, and a [break] happens at an exposed tight column outside T. *)
Lemma bfs_row_rule (P : solver F → list nat → Prop) x ys st q st' q' r :
  (∀ y st q, y ∈ ys → P st q → tight st x y = true →
     in_T st !!! y = false → yx st !!! y ≠ (-1)%Z →
     P (add_to_tree value (Z.to_nat (yx st !!! y)) (Z.of_nat x) (set_T y st))
       (q ++ [Z.to_nat (yx st !!! y)])) →
  P st q → bfs_row value x ys st q = (st', q', r) →
  P st' q'
  ∧ ∀ y, r = Some y →
      y ∈ ys ∧ tight st' x y = true ∧ in_T st' !!! y = false ∧ yx st' !!! y = (-1)%Z.
Proof.
  revert st q. induction ys as [|y ys IH]; intros st q Hstep HP Hrun; simpl in Hrun.
  { simplify_eq. split; [done|]. intros ? [=]. }
  destruct (tight st x y) eqn:Htight; simpl in Hrun;
    [destruct (in_T st !!! y) eqn:HT; simpl in Hrun|].
  - destruct (IH st q) as [HP' Hr]; [|done|done|].
    { intros y' st0 q0 Hy'. apply Hstep. by right. }
    split; [done|]. intros y' Hy'. destruct (Hr y' Hy') as (? & ?). split; [by right|done].
  - case_bool_decide as Hyx.
    + simplify_eq. split; [done|]. intros ? [= <-]. split_and!; [by left|done..].
    + destruct (IH _ _ (λ y' st0 q0 Hy', Hstep y' st0 q0 (list_elem_of_further _ _ _ Hy'))
                  (Hstep y st q (list_elem_of_here _ _) HP Htight HT Hyx) Hrun)
        as [HP' Hr].
      split; [done|]. intros y' Hy'. destruct (Hr y' Hy') as (? & ?). split; [by right|done].
  - destruct (IH st q) as [HP' Hr]; [|done|done|].
    { intros y' st0 q0 Hy'. apply Hstep. by right. }
    split; [done|]. intros y' Hy'. destruct (Hr y' Hy') as (? & ?). split; [by right|done].
Qed.

(** The columns made tight by new labels. *)
Lemma grow_row_rule (P : solver F → list nat → Prop) ys st q st' q' r :
  (∀ y st q, y ∈ ys → P st q → in_T st !!! y = false →
     f_eq (slack st !!! y) f_zero = true → yx st !!! y ≠ (-1)%Z →
     (in_S st !!! Z.to_nat (yx st !!! y) = false →
      P (add_to_tree value (Z.to_nat (yx st !!! y)) (Z.of_nat (slackx st !!! y)) (set_T y st))
        (q ++ [Z.to_nat (yx st !!! y)]))
     ∧ (in_S st !!! Z.to_nat (yx st !!! y) = true → P (set_T y st) q)) →
  P st q → grow_row value ys st q = (st', q', r) →
  P st' q'
  ∧ ∀ x y, r = Some (x, y) →
      y ∈ ys ∧ x = slackx st' !!! y ∧ f_eq (slack st' !!! y) f_zero = true
      ∧ in_T st' !!! y = false ∧ yx st' !!! y = (-1)%Z.
Proof.
  revert st q. induction ys as [|y ys IH]; intros st q Hstep HP Hrun; simpl in Hrun.
  { simplify_eq. split; [done|]. intros ?? [=]. }
  assert (Hstep' : ∀ y' st0 q0, y' ∈ ys → P st0 q0 → in_T st0 !!! y' = false →
     f_eq (slack st0 !!! y') f_zero = true → yx st0 !!! y' ≠ (-1)%Z →
     (in_S st0 !!! Z.to_nat (yx st0 !!! y') = false →
      P (add_to_tree value (Z.to_nat (yx st0 !!! y')) (Z.of_nat (slackx st0 !!! y')) (set_T y' st0))
        (q0 ++ [Z.to_nat (yx st0 !!! y')]))
     ∧ (in_S st0 !!! Z.to_nat (yx st0 !!! y') = true → P (set_T y' st0) q0)).
  { intros y' st0 q0 Hy'. apply Hstep. by right. }
  assert (Hweak : ∀ st1 q1, P st1 q1 → grow_row value ys st1 q1 = (st', q', r) →
     P st' q'
     ∧ ∀ x y0, r = Some (x, y0) →
         y0 ∈ y :: ys ∧ x = slackx st' !!! y0 ∧ f_eq (slack st' !!! y0) f_zero = true
         ∧ in_T st' !!! y0 = false ∧ yx st' !!! y0 = (-1)%Z).
  { intros st1 q1 HP1 Hrun1. destruct (IH st1 q1 Hstep' HP1 Hrun1) as [HP' Hr].
    split; [done|]. intros x y0 Hxy. destruct (Hr x y0 Hxy) as (? & ?).
    split; [by right|done]. }
  destruct (in_T st !!! y) eqn:HT; simpl in Hrun; [by apply (Hweak st q)|].
  destruct (f_eq (slack st !!! y) f_zero) eqn:Hz; simpl in Hrun; [|by apply (Hweak st q)].
  case_bool_decide as Hyx.
  { simplify_eq. split; [done|]. intros ?? [= <- <-]. split_and!; [by left|done..]. }
  destruct (Hstep y st q (list_elem_of_here _ _) HP HT Hz Hyx) as [Hadd Hskip].
  change (in_S (set_T y st)) with (in_S st) in Hrun.
  change (slackx (set_T y st)) with (slackx st) in Hrun.
  destruct (in_S st !!! Z.to_nat (yx st !!! y)) eqn:HS; simpl in Hrun.
  - by apply (Hweak _ _ (Hskip eq_refl)).
  - by apply (Hweak _ _ (Hadd eq_refl)).
Qed.

(** [while (rd < wr)]: the invariant [P] speaks of the state and of the
    unread part of the queue, the row under scan included. *)
Lemma bfs_rule (P : solver F → list nat → Prop) (Q : solver F → nat → nat → Prop)
    fuel st q st' r :
  (∀ x q st st1 q1, P st (x :: q) →
     bfs_row value x (seq 0 NY) st q = (st1, q1, None) → P st1 q1) →
  (∀ x q st st1 q1 y, P st (x :: q) →
     bfs_row value x (seq 0 NY) st q = (st1, q1, Some y) → Q st1 x y) →
  P st q → bfs value NY fuel st q = Returned (st', r) →
  match r with None => P st' [] | Some (x, y) => Q st' x y end.
Proof.
  intros Hnone Hsome. revert st q.
  induction fuel as [|fuel IH]; intros st q HP Hrun; destruct q as [|x q]; simpl in Hrun;
    try done; try by simplify_eq.
  destruct (bfs_row value x (seq 0 NY) st q) as [[st1 q1] [y|]] eqn:Hrow.
  - simplify_eq. by eapply Hsome.
  - eapply IH; [|done]. by eapply Hnone.
Qed.

Lemma main_cycle_S fuel st q :
  main_cycle value NY (S fuel) st q
  = '(st, found) ← bfs value NY (S fuel) st q;
    match found with
    | Some (x, y) => Returned (st, x, y)
    | None =>
        let '(st, q, found) := grow_row value (seq 0 NY) (update_labels NY st) [] in
        match found with
        | Some (x, y) => Returned (st, x, y)
        | None => main_cycle value NY fuel st q
        end
    end.
Proof. done. Qed.

Lemma match_loop_S fuel st n :
  match_loop value NX NY (S fuel) st n
  = if bool_decide (n < NX `min` NY) then
      match find_root NX st with
      | None => Undefined
      | Some root =>
          '(st, x, y) ← main_cycle value NY (S fuel) (start_tree value NX NY root st) [root];
          '(xy', yx') ← augment (S fuel) (prev st) (xy st) (yx st) (Z.of_nat x) (Z.of_nat y);
          match_loop value NX NY fuel
            (mkSolver (lx st) (ly st) xy' yx' (in_S st) (in_T st)
               (slack st) (slackx st) (prev st))
            (n + 1)
      end
    else Returned st.
Proof. done. Qed.

(** [while (true)] *)
Lemma main_cycle_rule (P : solver F → list nat → Prop) (Q : solver F → nat → nat → Prop)
    fuel st q st' x y :
  (∀ x q st st1 q1, P st (x :: q) →
     bfs_row value x (seq 0 NY) st q = (st1, q1, None) → P st1 q1) →
  (∀ x q st st1 q1 y, P st (x :: q) →
     bfs_row value x (seq 0 NY) st q = (st1, q1, Some y) → Q st1 x y) →
  (∀ st st1 q1, P st [] →
     grow_row value (seq 0 NY) (update_labels NY st) [] = (st1, q1, None) → P st1 q1) →
  (∀ st st1 q1 x y, P st [] →
     grow_row value (seq 0 NY) (update_labels NY st) [] = (st1, q1, Some (x, y)) → Q st1 x y) →
  P st q → main_cycle value NY fuel st q = Returned (st', x, y) → Q st' x y.
Proof.
  intros Hnone Hsome Hgnone Hgsome. revert st q.
  induction fuel as [|fuel IH]; intros st q HP Hrun; [done|].
  rewrite main_cycle_S in Hrun.
  apply bind_returned in Hrun as ([st1 r] & Hbfs & Hrun).
  pose proof (bfs_rule P Q _ _ _ _ _ Hnone Hsome HP Hbfs) as Hr.
  destruct r as [[x1 y1]|]; [by simplify_eq|].
  destruct (grow_row value (seq 0 NY) (update_labels NY st1) []) as [[st2 q2] [[x2 y2]|]] eqn:Hg.
  - simplify_eq. by eapply Hgsome.
  - eapply IH; [|done]. by eapply Hgnone.
Qed.

(** The walk along [prev] that inverts the augmenting path. *)
Lemma augment_rule (J : list Z → list Z → Z → Z → Prop) fuel prev xy yx cx cy xy' yx' :
  (∀ xy yx cx cy, J xy yx cx cy → (0 ≤ cx)%Z → (0 ≤ cy)%Z →
     J (<[Z.to_nat cx := cy]> xy) (<[Z.to_nat cy := cx]> yx)
       (prev !!! Z.to_nat cx) (xy !!! Z.to_nat cx)) →
  J xy yx cx cy → augment fuel prev xy yx cx cy = Returned (xy', yx') →
  ∃ cy', J xy' yx' (-2)%Z cy'.
Proof.
  intros Hstep. revert xy yx cx cy.
  induction fuel as [|fuel IH]; intros xy yx cx cy HJ Hrun; simpl in Hrun.
  - case_bool_decide; [|done]. simplify_eq. eauto.
  - case_bool_decide as Hcx; [simplify_eq; eauto|].
    case_bool_decide; [done|]. case_bool_decide; [done|]. simpl in Hrun.
    eapply IH; [|done]. apply Hstep; [done|lia..].
Qed.

(** [while (max_match < std::min(NX, NY))] *)
Lemma match_loop_rule (R : solver F → nat → Prop) fuel st n st' :
  (∀ fuel st n root st1 x y xy' yx',
     R st n → n < NX `min` NY → find_root NX st = Some root →
     main_cycle value NY fuel (start_tree value NX NY root st) [root] = Returned (st1, x, y) →
     augment fuel (prev st1) (xy st1) (yx st1) (Z.of_nat x) (Z.of_nat y) = Returned (xy', yx') →
     R (mkSolver (lx st1) (ly st1) xy' yx' (in_S st1) (in_T st1)
          (slack st1) (slackx st1) (prev st1)) (n + 1)) →
  R st n → n ≤ NX `min` NY → match_loop value NX NY fuel st n = Returned st' →
  R st' (NX `min` NY) ∧ NX `min` NY ≤ n + fuel.
Proof.
  intros Hstep. revert st n.
  induction fuel as [|fuel IH]; intros st n HR Hle Hrun.
  - simpl in Hrun. case_bool_decide; [done|]. simplify_eq.
    split; [|lia]. by replace (NX `min` NY) with n by lia.
  - rewrite match_loop_S in Hrun. case_bool_decide as Hn.
    + destruct (find_root NX st) as [root|] eqn:Hroot; [|done].
      apply bind_returned in Hrun as ([[st1 x] y] & Hmain & Hrun).
      apply bind_returned in Hrun as ([xy' yx'] & Haug & Hrun).
      destruct (IH _ _ (Hstep _ _ _ _ _ _ _ _ _ HR Hn Hroot Hmain Haug)) as [? ?];
        [lia|done|]. split; [done|lia].
    + simplify_eq. split; [|lia]. by replace (NX `min` NY) with n by lia.
Qed.
End LoopRules.

(** ** AssignmentSolver: the alternating tree *)

Lemma lookup_total_imap {A B} `{Inhabited A, Inhabited B} (f : nat → A → B) (l : list A) i :
  i < length l → imap f l !!! i = f i (l !!! i).
Proof.
  intros Hi. apply list_lookup_total_correct.
  rewrite list_lookup_imap. destruct (lookup_lt_is_Some_2 l i Hi) as [a Ha].
  by rewrite Ha, (list_lookup_total_correct _ _ _ Ha).
Qed.

Lemma lookup_total_insert_true (l : list bool) i j :
  l !!! j = true → <[i := true]> l !!! j = true.
Proof.
  intros Hj. destruct (decide (i = j)) as [->|Hne].
  - destruct (decide (j < length l)).
    + by rewrite list_lookup_total_insert_eq.
    + by rewrite list_insert_ge by lia.
  - by rewrite list_lookup_total_insert_ne.
Qed.

Section TreeFacts.
Context {F : Type} `{Scalar F}.
Variable value : list (list F).
Variables NX NY : nat.
Implicit Types (st : solver F) (q : list nat) (d : nat → nat).

Lemma queue_ok_app st q x :
  queue_ok NX st q → x < NX → in_S st !!! x = true → queue_ok NX st (q ++ [x]).
Proof. intros Hq ??. apply Forall_app. split; [done|]. by apply Forall_singleton. Qed.

Lemma queue_ok_mono st st' q :
  (∀ x, in_S st !!! x = true → in_S st' !!! x = true) →
  queue_ok NX st q → queue_ok NX st' q.
Proof. intros Hm. apply Forall_impl. intros x [??]. auto. Qed.

(** A matched column outside T has its partner outside S. *)
Lemma tree_partner_fresh r d st y :
  tree_ok NX NY r d st → y < NY → in_T st !!! y = false → yx st !!! y ≠ (-1)%Z →
  Z.to_nat (yx st !!! y) < NX
  ∧ xy st !!! Z.to_nat (yx st !!! y) = Z.of_nat y
  ∧ in_S st !!! Z.to_nat (yx st !!! y) = false
  ∧ Z.to_nat (yx st !!! y) ≠ r.
Proof.
  intros Hok Hy HT Hyx.
  destruct (t_matching _ _ _ _ _ Hok) as (_ & _ & _ & Hm).
  destruct (Hm y Hy) as [?|[Hrange Hxy]]; [done|].
  assert (Hne : Z.to_nat (yx st !!! y) ≠ r).
  { intros Heq. destruct (t_root _ _ _ _ _ Hok) as (_ & _ & _ & Hr).
    rewrite Heq in Hxy. lia. }
  split_and!; [lia|done| |done].
  destruct (in_S st !!! Z.to_nat (yx st !!! y)) eqn:HS; [|done].
  destruct (t_S _ _ _ _ _ Hok (Z.to_nat (yx st !!! y)) ltac:(lia) HS Hne) as (_ & HT' & _).
  rewrite Hxy, Nat2Z.id in HT'. congruence.
Qed.

(** Adding a matched column to T and its partner to S, below a row of S. *)
Lemma tree_ok_add r d st y px :
  tree_ok NX NY r d st → y < NY → in_T st !!! y = false → yx st !!! y ≠ (-1)%Z →
  px < NX → in_S st !!! px = true →
  ∃ d', tree_ok NX NY r d'
          (add_to_tree value (Z.to_nat (yx st !!! y)) (Z.of_nat px) (set_T y st)).
Proof.
  intros Hok Hy HT Hyx Hpx HSpx.
  destruct (tree_partner_fresh _ _ _ _ Hok Hy HT Hyx) as (Hx' & Hxy & HS & Hne).
  set (x' := Z.to_nat (yx st !!! y)) in *.
  destruct (t_shaped _ _ _ _ _ Hok) as (Hlx & Hly & HlS & HlT & Hls & Hlsx & Hlp).
  destruct (t_root _ _ _ _ _ Hok) as (Hr & HSr & Hpr & Hxyr).
  assert (Hpx' : px ≠ x') by (intros ->; congruence).
  exists (λ z, if decide (z = x') then d px + 1 else d z).
  split; simpl.
  - unfold shaped. simpl. rewrite !length_insert, !length_imap. done.
  - apply (t_matching _ _ _ _ _ Hok).
  - split_and!; [done| |by rewrite list_lookup_total_insert_ne|done].
    by apply lookup_total_insert_true.
  - intros x Hx HSx Hxr.
    destruct (decide (x = x')) as [->|Hxx'].
    + split_and!.
      * rewrite Hxy. lia.
      * rewrite Hxy, Nat2Z.id. by rewrite list_lookup_total_insert_eq by lia.
      * exists px. rewrite list_lookup_total_insert_eq by lia.
        split_and!; [done|lia|by apply lookup_total_insert_true|].
        rewrite decide_False by done. lia.
    + rewrite list_lookup_total_insert_ne in HSx by done.
      destruct (t_S _ _ _ _ _ Hok x Hx HSx Hxr) as (Hm & HTx & px0 & Hp0 & Hlt0 & HS0 & Hd0).
      split_and!; [done|by apply lookup_total_insert_true|].
      exists px0. rewrite list_lookup_total_insert_ne by done.
      split_and!; [done|done|by apply lookup_total_insert_true|].
      rewrite ?(decide_False (P := x = x')) by done.
      rewrite decide_False by (intros ->; congruence). done.
  - intros x Hx HSx.
    assert (x ≠ x').
    { intros ->. by rewrite list_lookup_total_insert_eq in HSx by lia. }
    rewrite list_lookup_total_insert_ne in HSx by done.
    rewrite list_lookup_total_insert_ne by done.
    by apply (t_not_S _ _ _ _ _ Hok).
  - intros y0 Hy0 HTy0.
    destruct (decide (y0 = y)) as [->|Hyy].
    + split; [done|]. by rewrite list_lookup_total_insert_eq by lia.
    + rewrite list_lookup_total_insert_ne in HTy0 by done.
      destruct (t_T _ _ _ _ _ Hok y0 Hy0 HTy0). split; [done|].
      by apply lookup_total_insert_true.
  - intros y0 Hy0. rewrite lookup_total_imap by lia.
    destruct (t_slackx _ _ _ _ _ Hok y0 Hy0).
    case_match.
    + split; [done|]. by rewrite list_lookup_total_insert_eq by lia.
    + split; [done|]. by apply lookup_total_insert_true.
Qed.

Lemma tree_ok_update_labels r d st :
  tree_ok NX NY r d st → tree_ok NX NY r d (update_labels NY st).
Proof.
  intros [Hsh ? ? ? ? ? ?]. split; try done.
  destruct Hsh as (? & ? & ? & ? & ? & ? & ?).
  unfold shaped. simpl. by rewrite !length_imap.
Qed.

Lemma find_root_spec st root :
  find_root NX st = Some root → root < NX ∧ xy st !!! root = (-1)%Z.
Proof.
  unfold find_root.
  assert (Hgen : ∀ xs acc,
    Forall (λ x, x < NX) xs →
    (∀ r, acc.2 = Some r → r < NX ∧ xy st !!! r = (-1)%Z) →
    ∀ r, (fold_left
            (λ '(best_lx, root) (x : nat),
               if bool_decide (xy st !!! x = (-1)%Z) then
                 if f_ltb best_lx (lx st !!! x) then (lx st !!! x, Some x) else (best_lx, root)
               else (best_lx, root)) xs acc).2 = Some r →
         r < NX ∧ xy st !!! r = (-1)%Z).
  { induction xs as [|x xs IH]; intros [best rt] Hxs Hacc r; simpl; [by apply Hacc|].
    apply list.Forall_cons in Hxs as [Hx Hxs].
    apply IH; [done|]. intros r'.
    case_bool_decide as Hxy; [|by apply Hacc].
    destruct (f_ltb best (lx st !!! x)); [|by apply Hacc].
    simpl. by intros [= <-]. }
  apply Hgen; [|done].
  apply list.Forall_forall. intros x Hx%elem_of_seq. lia.
Qed.

(** The tree that one turn of the outer loop starts from. *)
Lemma tree_ok_start st root d :
  shaped NX NY st → matching NX NY (xy st) (yx st) →
  root < NX → xy st !!! root = (-1)%Z →
  tree_ok NX NY root d (start_tree value NX NY root st)
  ∧ queue_ok NX (start_tree value NX NY root st) [root].
Proof.
  intros (Hlx & Hly & _) Hm Hroot Hxy.
  assert (HS : ∀ x, x < NX → x ≠ root →
            <[root := true]> (replicate NX false) !!! x = false).
  { intros x Hx Hne. rewrite list_lookup_total_insert_ne by done.
    by rewrite lookup_total_replicate_2. }
  assert (HSr : <[root := true]> (replicate NX false) !!! root = true).
  { by rewrite list_lookup_total_insert_eq by (by rewrite length_replicate). }
  split; [split; simpl|].
  - unfold shaped. simpl.
    rewrite !length_insert, !length_replicate, length_fmap, length_seq. done.
  - done.
  - split_and!; [done|done| |done].
    by rewrite list_lookup_total_insert_eq by (by rewrite length_replicate).
  - intros x Hx HSx Hne. rewrite HS in HSx by done. done.
  - intros x Hx HSx.
    destruct (decide (x = root)) as [->|Hne]; [congruence|].
    rewrite list_lookup_total_insert_ne by done. by rewrite lookup_total_replicate_2.
  - intros y Hy. by rewrite lookup_total_replicate_2.
  - intros y Hy. by rewrite lookup_total_replicate_2.
  - apply Forall_singleton. done.
Qed.

Lemma searching_add r st q y px :
  searching NX NY r st q → y < NY → in_T st !!! y = false → yx st !!! y ≠ (-1)%Z →
  px < NX → in_S st !!! px = true →
  searching NX NY r (add_to_tree value (Z.to_nat (yx st !!! y)) (Z.of_nat px) (set_T y st))
    (q ++ [Z.to_nat (yx st !!! y)]).
Proof.
  intros [[d Hok] Hq] Hy HT Hyx Hpx HSpx.
  destruct (tree_partner_fresh _ _ _ _ Hok Hy HT Hyx) as (Hx' & _).
  destruct (t_shaped _ _ _ _ _ Hok) as (_ & _ & HlS & _).
  split; [by eapply tree_ok_add|].
  apply queue_ok_app; simpl.
  - eapply queue_ok_mono; [|done]. intros x. simpl. apply lookup_total_insert_true.
  - done.
  - by rewrite list_lookup_total_insert_eq by lia.
Qed.

Lemma searching_bfs_row r x q st st1 q1 found_y :
  searching NX NY r st (x :: q) →
  bfs_row value x (seq 0 NY) st q = (st1, q1, found_y) →
  match found_y with
  | None => searching NX NY r st1 q1
  | Some y => found NX NY r st1 x y
  end.
Proof.
  intros [Hd Hq] Hrun. apply list.Forall_cons in Hq as [[Hx HSx] Hq].
  destruct (bfs_row_rule value
              (λ st q, searching NX NY r st q ∧ in_S st !!! x = true)
              x (seq 0 NY) st q st1 q1 found_y) as [[Hs HSx1] Hr]; [|done|done|].
  { intros y st0 q0 Hy%elem_of_seq [Hs0 HS0] _ HT Hyx. split.
    - apply searching_add; [done|lia|done..].
    - simpl. by apply lookup_total_insert_true. }
  destruct found_y as [y|]; [|done].
  destruct (Hr y eq_refl) as (Hy%elem_of_seq & _ & HT & Hyx).
  destruct Hs as [Hd1 _]. split_and!; [done|done|done|lia|done|done].
Qed.

Lemma searching_grow_row r st st1 q1 found_xy :
  searching NX NY r st [] →
  grow_row value (seq 0 NY) (update_labels NY st) [] = (st1, q1, found_xy) →
  match found_xy with
  | None => searching NX NY r st1 q1
  | Some (x, y) => found NX NY r st1 x y
  end.
Proof.
  intros [[d Hok] _] Hrun.
  destruct (grow_row_rule value (searching NX NY r)
              (seq 0 NY) (update_labels NY st) [] st1 q1 found_xy) as [Hs Hr]; [| |done|].
  { intros y st0 q0 Hy%elem_of_seq Hs0 HT _ Hyx.
    destruct Hs0 as [[d0 Hok0] Hq0].
    destruct (tree_partner_fresh _ _ _ y Hok0 ltac:(lia) HT Hyx) as (_ & _ & HS & _).
    split; [|congruence]. intros _.
    destruct (t_slackx _ _ _ _ _ Hok0 y ltac:(lia)).
    apply searching_add; [by split; [eexists|]|lia|done..]. }
  { split; [|by apply Forall_nil]. exists d. by apply tree_ok_update_labels. }
  destruct found_xy as [[x y]|]; [|done].
  destruct (Hr x y eq_refl) as (Hy%elem_of_seq & -> & _ & HT & Hyx).
  destruct Hs as [[d1 Hok1] _].
  destruct (t_slackx _ _ _ _ _ Hok1 y ltac:(lia)).
  split_and!; [by eexists|done|done|lia|done|done].
Qed.

Lemma main_cycle_found r fuel st q st' x y :
  searching NX NY r st q → main_cycle value NY fuel st q = Returned (st', x, y) →
  found NX NY r st' x y.
Proof.
  apply (main_cycle_rule value NY (searching NX NY r) (found NX NY r)).
  - intros x0 q0 st0 st1 q1 Hs Hrow. apply (searching_bfs_row _ _ _ _ _ _ _ Hs Hrow).
  - intros x0 q0 st0 st1 q1 y0 Hs Hrow. apply (searching_bfs_row _ _ _ _ _ _ _ Hs Hrow).
  - intros st0 st1 q1 Hs Hg. apply (searching_grow_row _ _ _ _ _ Hs Hg).
  - intros st0 st1 q1 x0 y0 Hs Hg. apply (searching_grow_row _ _ _ _ _ Hs Hg).
Qed.
Lemma tree_prev_range r d (st : solver F) x :
  tree_ok NX NY r d st → x < NX →
  prev st !!! x = (-2)%Z ∨ prev st !!! x = (-1)%Z
  ∨ (0 ≤ prev st !!! x < Z.of_nat NX)%Z.
Proof.
  intros Hok Hx. destruct (t_root _ _ _ _ _ Hok) as (_ & _ & Hpr & _).
  destruct (decide (x = r)) as [->|Hne]; [by left|].
  destruct (in_S st !!! x) eqn:HS.
  - destruct (t_S _ _ _ _ _ Hok x Hx HS Hne) as (_ & _ & px & -> & ? & _). lia.
  - right. left. by apply (t_not_S _ _ _ _ _ Hok).
Qed.

Lemma tree_prev_root r d (st : solver F) x :
  tree_ok NX NY r d st → x < NX → prev st !!! x = (-2)%Z → xy st !!! x = (-1)%Z.
Proof.
  intros Hok Hx Hp. destruct (t_root _ _ _ _ _ Hok) as (_ & _ & _ & Hxy).
  destruct (decide (x = r)) as [->|Hne]; [done|].
  destruct (in_S st !!! x) eqn:HS.
  - destruct (t_S _ _ _ _ _ Hok x Hx HS Hne) as (_ & _ & px & Hpx & _). lia.
  - rewrite (t_not_S _ _ _ _ _ Hok x Hx HS) in Hp. lia.
Qed.

End TreeFacts.

(** ** AssignmentSolver: inverting the augmenting path *)

Section AugmentFacts.
Variables NX NY : nat.
Variable prev : list Z.
Hypothesis prev_range : ∀ x, x < NX →
  prev !!! x = (-2)%Z ∨ prev !!! x = (-1)%Z ∨ (0 ≤ prev !!! x < Z.of_nat NX)%Z.

Lemma augmenting_step xy yx cx cy :
  augmenting NX NY prev xy yx cx cy → (0 ≤ cx)%Z → (0 ≤ cy)%Z →
  augmenting NX NY prev (<[Z.to_nat cx := cy]> xy) (<[Z.to_nat cy := cx]> yx)
    (prev !!! Z.to_nat cx) (xy !!! Z.to_nat cx).
Proof.
  intros (Hlx & Hly & Hxy & Hyx & Hcy & _ & Hroot & Hcx & Hcyr) Hcx0 Hcy0.
  assert (HX : Z.to_nat cx < NX) by lia.
  assert (HY : Z.to_nat cy < NY) by lia.
  assert (Hroot' : ∀ x, x < NX → prev !!! x = (-2)%Z → xy !!! x = (-1)%Z)
    by (apply Hroot; lia).
  set (X := Z.to_nat cx) in *. set (Y := Z.to_nat cy) in *.
  assert (HcX : cx = Z.of_nat X) by lia.
  assert (HcY : cy = Z.of_nat Y) by lia.
  assert (Hne : xy !!! X ≠ cy) by (by apply Hcy).
  unfold augmenting. rewrite !length_insert.
  split_and!; [done|done|..].
  - intros x Hx. destruct (decide (x = X)) as [->|Hxx].
    + right. rewrite list_lookup_total_insert_eq by lia.
      rewrite list_lookup_total_insert_eq by lia. split; [lia|done].
    + rewrite list_lookup_total_insert_ne by done.
      destruct (Hxy x Hx) as [?|[Hr Hb]]; [by left|right]. split; [done|].
      rewrite list_lookup_total_insert_ne; [done|].
      specialize (Hcy x Hx Hcy0). lia.
  - intros y Hy Hyt. destruct (decide (y = Y)) as [->|Hyy].
    + right. rewrite list_lookup_total_insert_eq by lia.
      change (Z.to_nat cx) with X.
      rewrite list_lookup_total_insert_eq by lia. split; [lia|done].
    + rewrite list_lookup_total_insert_ne by done.
      destruct (Hyx y Hy ltac:(lia)) as [?|[Hr Hb]]; [by left|right]. split; [done|].
      rewrite list_lookup_total_insert_ne; [done|].
      intros Heq. rewrite <- Heq in Hb. congruence.
  - intros x Hx Hty. destruct (decide (x = X)) as [->|Hxx].
    + rewrite list_lookup_total_insert_eq by lia. congruence.
    + rewrite list_lookup_total_insert_ne by done. intros Heq.
      destruct (Hxy x Hx) as [?|[_ Hb]]; [lia|].
      destruct (Hxy X HX) as [?|[_ Hb']]; [lia|].
      rewrite Heq in Hb. rewrite Hb in Hb'. lia.
  - by apply Hroot'.
  - intros Hp x Hx Hpx. destruct (decide (x = X)) as [->|Hxx]; [done|].
    rewrite list_lookup_total_insert_ne by done. by apply Hroot'.
  - apply prev_range. done.
  - destruct (Hxy X HX) as [?|[? _]]; [by left|by right].
Qed.

Lemma augment_matching fuel xy yx (x y : nat) xy' yx' :
  matching NX NY xy yx → x < NX → y < NY → yx !!! y = (-1)%Z →
  (∀ x, x < NX → prev !!! x = (-2)%Z → xy !!! x = (-1)%Z) →
  augment fuel prev xy yx (Z.of_nat x) (Z.of_nat y) = Returned (xy', yx') →
  matching NX NY xy' yx'.
Proof.
  intros (Hlx & Hly & Hxy & Hyx) Hx Hy Hfree Hroot Hrun.
  destruct (augment_rule (augmenting NX NY prev) fuel prev xy yx
              (Z.of_nat x) (Z.of_nat y) xy' yx') as [cy' HJ]; [| |done|].
  { intros. by apply augmenting_step. }
  { split_and!; try done; try lia.
    - intros y0 Hy0 _. by apply Hyx.
    - intros x0 Hx0 _ Heq. destruct (Hxy x0 Hx0) as [?|[_ Hb]]; [lia|].
      rewrite Heq, Nat2Z.id in Hb. lia. }
  destruct HJ as (Hlx' & Hly' & Hxy' & Hyx' & _ & Hend & _).
  split_and!; [done..|].
  intros y0 Hy0. apply Hyx'; [done|]. rewrite Hend by done. lia.
Qed.
End AugmentFacts.

Section InvertFacts.
Context {F : Type}.
Variables NX NY r : nat.
Variable d : nat → nat.
Variable E : nat → nat → Prop.
Variable st0 : solver F.
Hypothesis tree : tree_ok NX NY r d st0.
Hypothesis tree_edges : ∀ x px, x < NX → in_S st0 !!! x = true → x ≠ r →
  prev st0 !!! x = Z.of_nat px → E px (Z.to_nat (xy st0 !!! x)).

Lemma inverting_step xy1 yx1 cx cy :
  inverting NX NY r d E st0 xy1 yx1 cx cy → (0 ≤ cx)%Z → (0 ≤ cy)%Z →
  inverting NX NY r d E st0 (<[Z.to_nat cx := cy]> xy1) (<[Z.to_nat cy := cx]> yx1)
    (prev st0 !!! Z.to_nat cx) (xy1 !!! Z.to_nat cx).
Proof.
  intros (Haug & HE & Hkeep & Hfrom & Hyx & Hmod & Hpend & _) Hcx0 Hcy0.
  pose proof (augmenting_step NX NY (prev st0) (λ x, tree_prev_range NX NY r d st0 x tree) _ _ _ _ Haug Hcx0 Hcy0)
    as Haug'.
  destruct Haug as (Hlx & Hly & _ & _ & _ & _ & _ & Hcx & Hcyr).
  destruct (Hpend Hcx0) as (HSX & _ & HEX).
  assert (HX : Z.to_nat cx < NX) by lia.
  assert (HY : Z.to_nat cy < NY) by lia.
  set (X := Z.to_nat cx) in *. set (Y := Z.to_nat cy) in *.
  assert (Horig : xy1 !!! X = xy st0 !!! X).
  { destruct (decide (xy1 !!! X = xy st0 !!! X)) as [|Hne]; [done|].
    specialize (Hmod X HX Hcx0 Hne). lia. }
  destruct (t_root _ _ _ _ _ tree) as (Hr & HSr & Hpr & Hxyr).
  split_and!; [done|..].
  - intros x Hx. destruct (decide (x = X)) as [->|Hxx].
    + rewrite list_lookup_total_insert_eq by lia. intros _.
      by replace (Z.to_nat cy) with Y by done.
    + rewrite list_lookup_total_insert_ne by done. by apply HE.
  - intros x Hx. destruct (decide (x = X)) as [->|Hxx].
    + rewrite list_lookup_total_insert_eq by lia. lia.
    + rewrite list_lookup_total_insert_ne by done. by apply Hkeep.
  - intros x Hx. destruct (decide (x = X)) as [->|Hxx]; [by right|].
    rewrite list_lookup_total_insert_ne by done. by apply Hfrom.
  - intros y Hy. destruct (decide (y = Y)) as [->|Hyy].
    + rewrite list_lookup_total_insert_eq by lia. lia.
    + rewrite list_lookup_total_insert_ne by done. by apply Hyx.
  - intros x Hx Hp' Hne.
    destruct (decide (X = r)) as [HXr|HXr]; [rewrite HXr, Hpr in Hp'; lia|].
    destruct (t_S _ _ _ _ _ tree X HX HSX HXr) as (_ & _ & px & Hpx & _ & _ & Hd).
    rewrite Hpx, Nat2Z.id. destruct (decide (x = X)) as [->|Hxx]; [done|].
    rewrite list_lookup_total_insert_ne in Hne by done.
    specialize (Hmod x Hx Hcx0 Hne). lia.
  - intros Hp'.
    destruct (decide (X = r)) as [HXr|HXr]; [rewrite HXr, Hpr in Hp'; lia|].
    destruct (t_S _ _ _ _ _ tree X HX HSX HXr) as (Hm & _ & px & Hpx & _ & HSpx & _).
    destruct (t_matching _ _ _ _ _ tree) as (_ & _ & Hxy0 & _).
    rewrite Hpx, Nat2Z.id, Horig.
    split_and!; [done| |by apply (tree_edges X)].
    destruct (Hxy0 X HX) as [?|[? _]]; [done|lia].
  - intros Hp'. destruct (decide (X = r)) as [<-|HXr].
    + rewrite list_lookup_total_insert_eq by lia. lia.
    + destruct (t_S _ _ _ _ _ tree X HX HSX HXr) as (_ & _ & px & Hpx & _). lia.
Qed.

(** The augmentation: the new arrays are a matching, the root is matched,
    no row and no column loses its partner, and every matched pair still
    satisfies [E]. *)
Lemma augment_inverts fuel (x y : nat) xy' yx' :
  x < NX → in_S st0 !!! x = true → y < NY → yx st0 !!! y = (-1)%Z →
  (∀ x, x < NX → xy st0 !!! x ≠ (-1)%Z → E x (Z.to_nat (xy st0 !!! x))) →
  E x y →
  augment fuel (prev st0) (xy st0) (yx st0) (Z.of_nat x) (Z.of_nat y) = Returned (xy', yx') →
  matching NX NY xy' yx'
  ∧ (∀ x, x < NX → xy' !!! x ≠ (-1)%Z → E x (Z.to_nat (xy' !!! x)))
  ∧ (∀ x, x < NX → xy' !!! x ≠ (-1)%Z ↔ xy st0 !!! x ≠ (-1)%Z ∨ x = r)
  ∧ (∀ y, y < NY → yx' !!! y = (-1)%Z → yx st0 !!! y = (-1)%Z).
Proof.
  intros Hx HSx Hy Hfree HE0 HExy Hrun.
  destruct (t_matching _ _ _ _ _ tree) as (Hlx & Hly & Hxy & Hyx).
  destruct (augment_rule (inverting NX NY r d E st0) fuel (prev st0) (xy st0) (yx st0)
              (Z.of_nat x) (Z.of_nat y) xy' yx') as [cy' HJ]; [| |done|].
  { intros. by apply inverting_step. }
  { unfold inverting, augmenting. split_and!; try done; try lia.
    - intros y0 Hy0 _. by apply Hyx.
    - intros x0 Hx0 _ Heq. destruct (Hxy x0 Hx0) as [?|[_ Hb]]; [lia|].
      rewrite Heq, Nat2Z.id in Hb. lia.
    - intros _ x0 Hx0. by eapply tree_prev_root.
    - intros _. rewrite !Nat2Z.id. split_and!; [done|lia|done]. }
  destruct HJ as ((Hlx' & Hly' & Hxy' & Hyx' & _ & Hend & _) & HE' & Hkeep & Hfrom & Hyxk & _ & _ & Hroot).
  split_and!.
  - split_and!; [done..|]. intros y0 Hy0. apply Hyx'; [done|]. rewrite Hend by done. lia.
  - done.
  - intros x0 Hx0. split.
    + intros Hm. destruct (Hfrom x0 Hx0 Hm) as [?|HS0]; [by left|].
      destruct (decide (x0 = r)) as [|Hne]; [by right|left].
      by destruct (t_S _ _ _ _ _ tree x0 Hx0 HS0 Hne).
    + intros [?| ->]; [by apply Hkeep|by apply Hroot].
  - done.
Qed.
End InvertFacts.

(** ** AssignmentSolver: the arrays describe a matching *)

Section MatchingFacts.
Context {F : Type} `{Scalar F}.
Variable value : list (list F).
Variables NX NY : nat.

Lemma init_solver_matching :
  shaped NX NY (init_solver value NX NY)
  ∧ matching NX NY (xy (init_solver value NX NY)) (yx (init_solver value NX NY)).
Proof.
  split.
  - unfold shaped. simpl. rewrite length_fmap, length_seq, !length_replicate. done.
  - unfold matching. simpl. rewrite !length_replicate. split_and!; [done|done|..].
    + intros x Hx. left. by rewrite lookup_total_replicate_2.
    + intros y Hy. left. by rewrite lookup_total_replicate_2.
Qed.

Lemma init_solver_matched_rows : matched_rows NX NY (init_solver value NX NY) 0.
Proof.
  destruct init_solver_matching as [Hsh Hm]. split_and!; [done|done|].
  exists []. split_and!; [constructor|done|].
  intros x. split; [by intros ?%elem_of_nil|]. intros [Hx Hmx]. simpl in Hmx.
  by rewrite lookup_total_replicate_2 in Hmx.
Qed.

(** One turn of the outer loop, when its search and its augmentation
    return: one more row is matched. *)
Lemma match_step_matched_rows fuel (st st1 : solver F) n root x y xy' yx' :
  matched_rows NX NY st n → find_root NX st = Some root →
  main_cycle value NY fuel (start_tree value NX NY root st) [root] = Returned (st1, x, y) →
  augment fuel (prev st1) (xy st1) (yx st1) (Z.of_nat x) (Z.of_nat y) = Returned (xy', yx') →
  matched_rows NX NY
    (mkSolver (lx st1) (ly st1) xy' yx' (in_S st1) (in_T st1)
       (slack st1) (slackx st1) (prev st1)) (n + 1)
  ∧ found NX NY root st1 x y ∧ xy st1 = xy st ∧ yx st1 = yx st.
Proof.
  intros (Hsh & Hm & ms & Hnd & Hlen & Hms) Hroot Hmain Haug.
  destruct (find_root_spec _ _ _ Hroot) as [Hr Hxy].
  destruct (tree_ok_start value NX NY st root (λ _, 0) Hsh Hm Hr Hxy) as [Hok Hq].
  assert (Hs : searching NX NY root (start_tree value NX NY root st) [root])
    by (split; [by eexists|done]).
  pose proof (main_cycle_found value NX NY _ _ _ _ _ _ _ Hs Hmain) as Hfound.
  assert (Hsame : xy st1 = xy st ∧ yx st1 = yx st).
  { apply (main_cycle_rule value NY
             (λ st0 _, xy st0 = xy st ∧ yx st0 = yx st)
             (λ st0 _ _, xy st0 = xy st ∧ yx st0 = yx st)
             fuel (start_tree value NX NY root st) [root] st1 x y); [..|done|done].
    - intros x0 q0 st0 st2 q2 H0 Hrow.
      by destruct (bfs_row_rule value (λ st0 _, xy st0 = xy st ∧ yx st0 = yx st)
                     _ _ _ _ _ _ _ ltac:(done) H0 Hrow).
    - intros x0 q0 st0 st2 q2 y0 H0 Hrow.
      by destruct (bfs_row_rule value (λ st0 _, xy st0 = xy st ∧ yx st0 = yx st)
                     _ _ _ _ _ _ _ ltac:(done) H0 Hrow).
    - intros st0 st2 q2 H0 Hg.
      by destruct (grow_row_rule value (λ st0 _, xy st0 = xy st ∧ yx st0 = yx st)
                     (seq 0 NY) (update_labels NY st0) [] _ _ _ ltac:(done) H0 Hg).
    - intros st0 st2 q2 x0 y0 H0 Hg.
      by destruct (grow_row_rule value (λ st0 _, xy st0 = xy st ∧ yx st0 = yx st)
                     (seq 0 NY) (update_labels NY st0) [] _ _ _ ltac:(done) H0 Hg). }
  destruct Hfound as ([d1 Hok1] & Hx & HSx & Hy & HT & Hfree).
  destruct (augment_inverts NX NY root d1 (λ _ _, True) st1 Hok1 ltac:(done)
              fuel x y xy' yx' Hx HSx Hy Hfree ltac:(done) I Haug)
    as (Hm' & _ & Hrows & _).
  split_and!; [|by split_and!; [eexists|..]|apply Hsame..].
  split_and!; [apply (t_shaped _ _ _ _ _ Hok1)|done|].
  exists (root :: ms). destruct Hsame as [Hxy1 _].
  split_and!.
  - apply list.NoDup_cons. split; [|done]. intros [_ Hin]%Hms; done.
  - simpl. lia.
  - intros x0. simpl. rewrite elem_of_cons, Hms. split.
    + intros [->|[Hx0 Hm0]].
      * split; [done|]. apply Hrows; [done|]. by right.
      * split; [done|]. apply Hrows; [done|]. left. by rewrite Hxy1.
    + intros [Hx0 Hm0]. apply Hrows in Hm0; [|done].
      destruct Hm0 as [Hm0| ->]; [|by left].
      right. split; [done|]. by rewrite <- Hxy1.
Qed.

Lemma NoDup_below_perm (ms : list nat) n :
  NoDup ms → length ms = n → (∀ x, x ∈ ms → x < n) → ms ≡ₚ seq 0 n.
Proof.
  intros Hnd Hlen Hlt. apply submseteq_length_Permutation.
  - apply NoDup_submseteq; [done|]. intros x Hx. apply elem_of_seq. specialize (Hlt x Hx). lia.
  - rewrite length_seq. lia.
Qed.

(** However the comparisons of labels turn out, when the solver returns
    its arrays describe a matching, and the matching covers the smaller of
    [NX] and [NY] rows. *)
Lemma hungarian_matching fuel (st : solver F) :
  hungarian value NX NY fuel = Returned st →
  matched_rows NX NY st (NX `min` NY).
Proof.
  unfold hungarian. intros Hrun.
  destruct (match_loop_rule value NX NY (matched_rows NX NY)
              fuel (init_solver value NX NY) 0 st) as [HR _]; [| | |done|done].
  - clear. intros fuel st n root st1 x y xy' yx' HR _ Hroot Hmain Haug.
    by destruct (match_step_matched_rows _ _ _ _ _ _ _ _ _ HR Hroot Hmain Haug).
  - apply init_solver_matched_rows.
  - lia.
Qed.

End MatchingFacts.

Section OptimizeFacts.
Context {F : Type} `{Scalar F}.
Implicit Types (v out : list (Assignment F)) (a b : Assignment F).

Lemma max_id_ge_init (id : Assignment F → nat) v m :
  m ≤ fold_left (λ m a, m `max` id a) v m.
Proof.
  revert m. induction v as [|b v IH]; intros m; simpl; [lia|].
  etrans; [|apply IH]. lia.
Qed.

Lemma max_id_bound (id : Assignment F → nat) v a : a ∈ v → id a ≤ max_id id v.
Proof.
  unfold max_id. generalize 0.
  induction v as [|b v IH]; intros m; [by intros ?%elem_of_nil|].
  intros [->|Hin]%elem_of_cons; simpl.
  - etrans; [|apply max_id_ge_init]. lia.
  - by apply IH.
Qed.

(** What [Optimize] returns: the pairings that agree with the arrays of a
    matching between rows (the smaller side) and columns. *)
Lemma Optimize_returned fuel v out :
  Optimize fuel v = Returned out →
  ∃ (by_character : bool) (st : solver F) NX NY,
    by_character = bool_decide (max_id character v < max_id task v)
    ∧ NX = (if by_character then max_id character v + 1 else max_id task v + 1)
    ∧ NY = (if by_character then max_id task v + 1 else max_id character v + 1)
    ∧ hungarian (value_matrix by_character NX NY v) NX NY fuel = Returned st
    ∧ matching NX NY (xy st) (yx st)
    ∧ out ≡ₚ filter (λ a, selected by_character st a) v.
Proof.
  unfold Optimize. intros Hrun.
  apply bind_returned in Hrun as (st & Hh & Hout).
  eexists _, st, _, _. split_and!; [done|done|done|done|by eapply hungarian_matching|].
  injection Hout as <-. unfold selected.
  case_bool_decide; apply erase_unless_perm.
Qed.

(** Two kept pairings that share a character or a task propose the same
    (character, task) pair. *)
Lemma Optimize_injective fuel v out a b :
  Optimize fuel v = Returned out → a ∈ out → b ∈ out →
  character a = character b ∨ task a = task b → pair_of a = pair_of b.
Proof.
  intros (bc & st & NX & NY & Hbc & HNX & HNY & _ & Hm & Hout)%Optimize_returned Ha Hb.
  rewrite Hout in Ha, Hb.
  apply list_elem_of_filter in Ha as [Hsa Ha], Hb as [Hsb Hb].
  pose proof (max_id_bound character v a Ha). pose proof (max_id_bound character v b Hb).
  pose proof (max_id_bound task v a Ha). pose proof (max_id_bound task v b Hb).
  destruct Hm as (_ & _ & Hxy & Hyx).
  unfold selected, pair_of in *. destruct bc.
  - symmetry in Hbc. apply bool_decide_eq_true_1 in Hbc.
    apply bool_decide_unpack in Hsa, Hsb.
    intros [Hc|Ht].
    + f_equal; [done|]. rewrite Hc in Hsa. lia.
    + f_equal; [|done].
      destruct (Hxy (character a) ltac:(lia)) as [?|[_ Hba]]; [lia|].
      destruct (Hxy (character b) ltac:(lia)) as [?|[_ Hbb]]; [lia|].
      rewrite <- Hsa in Hba. rewrite <- Hsb, <- Ht in Hbb. lia.
  - symmetry in Hbc. apply bool_decide_eq_false_1 in Hbc.
    apply bool_decide_unpack in Hsa, Hsb.
    intros [Hc|Ht].
    + f_equal; [done|]. rewrite Hc in Hsa. lia.
    + f_equal; [|done].
      destruct (Hyx (character a) ltac:(lia)) as [?|[_ Hba]]; [lia|].
      destruct (Hyx (character b) ltac:(lia)) as [?|[_ Hbb]]; [lia|].
      rewrite <- Hsa in Hba. rewrite <- Hsb, <- Ht in Hbb. lia.
Qed.
End OptimizeFacts.

(** ** Properties of [Optimize] and [LimitAssignments] that do not depend on
       the arithmetic of costs *)

(** C7 as the specification states it, with duplicates permitted, fails:
    both copies of a selected pair are kept, so character 0 and task 0
    occur in two retained pairings. *)
Lemma Optimize_unique_counterexample :
  ∃ out, Optimize 10 [pairing 0 0 1; pairing 0 0 2] = Returned out
         ∧ pairings_of_character 0 out = 2 ∧ pairings_of_task 0 out = 2.
Proof. eexists. split; [vm_compute; reflexivity|]. split; reflexivity. Qed.

(** C7 (uniqueness), amended.  For every input list, duplicates
    permitted: after [Optimize] returns, retained pairings that share a
    character or a task propose the same (character, task) pair, so no
    character and no task occurs in retained pairings of two different
    pairs; and when no pair is proposed twice, no character and no task
    occurs in more than one retained pairing. *)
Theorem Optimize_unique {F : Type} `{Scalar F}
    (v out : list (Assignment F)) (fuel : nat) :
  Optimize fuel v = Returned out →
  (∀ a b, a ∈ out → b ∈ out →
     character a = character b ∨ task a = task b → pair_of a = pair_of b)
  ∧ (NoDup (pair_of <$> v) →
     ∀ k, pairings_of_character k out ≤ 1 ∧ pairings_of_task k out ≤ 1).
Proof.
  intros Hrun. split; [intros a b; by apply (Optimize_injective fuel v out)|].
  intros Hnd k.
  assert (Hout : NoDup (pair_of <$> out)).
  { destruct (Optimize_returned _ _ _ Hrun) as (bc & st & NX & NY & _ & _ & _ & _ & _ & ->).
    eapply sublist_NoDup; [done|]. apply fmap_sublist, sublist_filter. }
  assert (Hsub : ∀ (P : Assignment F → Prop) `{!∀ a, Decision (P a)},
             (∀ a b, a ∈ out → b ∈ out → P a → P b → pair_of a = pair_of b) →
             length (filter P out) ≤ 1).
  { intros P HP Hinj.
    pose proof (sublist_NoDup _ _ Hout (fmap_sublist pair_of _ _ (sublist_filter P out))) as Hnd'.
    destruct (filter P out) as [|a [|b l]] eqn:Hf; simpl; [lia|lia|exfalso].
    assert (Ha : a ∈ filter P out) by (rewrite Hf; apply list_elem_of_here).
    assert (Hb : b ∈ filter P out)
      by (rewrite Hf; apply list_elem_of_further, list_elem_of_here).
    apply list_elem_of_filter in Ha as [HPa Ha], Hb as [HPb Hb].
    simpl in Hnd'. apply list.NoDup_cons in Hnd' as [Hnotin _].
    apply Hnotin. rewrite (Hinj a b Ha Hb HPa HPb). apply list_elem_of_here. }
  split; apply Hsub.
  - intros a b Ha Hb <- Hb'. eapply Optimize_injective; eauto.
  - intros a b Ha Hb <- Hb'. eapply Optimize_injective; eauto.
Qed.

Lemma Optimize_unique_witness :
  (∀ a b, a ∈ [pairing 0 0 1; pairing 0 0 2; pairing 1 1 4] →
          b ∈ [pairing 0 0 1; pairing 0 0 2; pairing 1 1 4] →
     character a = character b ∨ task a = task b → pair_of a = pair_of b)
  ∧ (NoDup (pair_of <$> [pairing 0 0 1; pairing 0 0 2; pairing 1 0 3; pairing 1 1 4]) →
     ∀ k, pairings_of_character k [pairing 0 0 1; pairing 0 0 2; pairing 1 1 4] ≤ 1
          ∧ pairings_of_task k [pairing 0 0 1; pairing 0 0 2; pairing 1 1 4] ≤ 1).
Proof.
  apply (Optimize_unique [pairing 0 0 1; pairing 0 0 2; pairing 1 0 3; pairing 1 1 4]
           [pairing 0 0 1; pairing 0 0 2; pairing 1 1 4] 10).
  vm_compute. reflexivity.
Defined.

(** When [Optimize] returns, a pair that the matching selects keeps every
    copy: the output holds as many pairings of that pair as the input. *)
Lemma Optimize_copies_returned {F : Type} `{Scalar F}
    (v out : list (Assignment F)) (fuel : nat) (a : Assignment F) :
  Optimize fuel v = Returned out → a ∈ out →
  length (filter (λ b, pair_of b = pair_of a) out)
  = length (filter (λ b, pair_of b = pair_of a) v).
Proof.
  intros (bc & st & NX & NY & _ & _ & _ & _ & _ & Hout)%Optimize_returned Ha.
  rewrite Hout in Ha. apply list_elem_of_filter in Ha as [Hsa Ha].
  rewrite Hout, list_filter_filter. f_equal. apply list_filter_iff.
  intros b. split; [by intros [? _]|]. intros Hb. split; [done|].
  unfold selected, pair_of in *. injection Hb as -> ->. done.
Qed.

(** C9 (idempotence) does not hold of the code.  The first run keeps
    (0,1,5) and (1,0,5); run again on these two, [Optimize] keeps nothing:
    the most expensive pairing gets the value [max_cost - cost + 1.0 = 1.0],
    which is the value of a pair that was not proposed, and the columns are
    scanned from the left. *)
Theorem Optimize_not_idempotent :
  Optimize 10 [pairing 0 1 5; pairing 1 0 5; pairing 0 0 9]
  = Returned [pairing 0 1 5; pairing 1 0 5]
  ∧ Optimize 10 [pairing 0 1 5; pairing 1 0 5] = Returned [].
Proof. split; vm_compute; reflexivity. Qed.

(** What a second run does keep: running [Optimize] on the output of a
    first run returns a sub-multiset of that output, and so of the first
    input. *)
Theorem Optimize_twice {F : Type} `{Scalar F}
    (v out out' : list (Assignment F)) (fuel fuel' : nat) :
  Optimize fuel v = Returned out → Optimize fuel' out = Returned out' →
  out' ⊆+ out ∧ out' ⊆+ v.
Proof.
  intros (? & ? & ? & ? & _ & _ & _ & _ & _ & Hout)%Optimize_returned
         (? & ? & ? & ? & _ & _ & _ & _ & _ & Hout')%Optimize_returned.
  assert (out' ⊆+ out)
    by (rewrite Hout'; apply sublist_submseteq, sublist_filter).
  split; [done|]. etrans; [done|].
  rewrite Hout. apply sublist_submseteq, sublist_filter.
Qed.

Lemma Optimize_twice_witness :
  [pairing 0 0 10; pairing 1 1 10] ⊆+ [pairing 0 0 10; pairing 1 1 10]
  ∧ [pairing 0 0 10; pairing 1 1 10]
    ⊆+ [pairing 0 0 10; pairing 1 0 15; pairing 0 1 20; pairing 1 1 10].
Proof.
  apply (Optimize_twice _ _ _ 10 10); vm_compute; reflexivity.
Defined.

(** C10 (subset).  Both operations only remove and reorder: what
    [LimitAssignments] leaves, and what [Optimize] leaves when it returns,
    is a sub-multiset of the input, so every retained pairing is a pairing
    of the input with the same character, task and cost. *)
Theorem retained_from_input {F : Type} `{Scalar F}
    (v out : list (Assignment F)) (Kc Kt : Z) (fuel : nat) :
  LimitAssignments v Kc Kt ⊆+ v
  ∧ (Optimize fuel v = Returned out → out ⊆+ v ∧ ∀ a, a ∈ out → a ∈ v).
Proof.
  split.
  - unfold LimitAssignments. etrans; [apply limit_loop_submseteq|].
    by rewrite sort_by_cost_perm.
  - intros (? & ? & ? & ? & _ & _ & _ & _ & _ & Hout)%Optimize_returned.
    assert (Hsub : out ⊆+ v) by (rewrite Hout; apply sublist_submseteq, sublist_filter).
    split; [done|]. intros a Ha. by eapply elem_of_submseteq.
Qed.

Lemma retained_from_input_witness :
  [pairing 0 0 10; pairing 1 1 10]
  ⊆+ [pairing 0 0 10; pairing 1 0 15; pairing 0 1 20; pairing 1 1 10].
Proof.
  apply (retained_from_input
           [pairing 0 0 10; pairing 1 0 15; pairing 0 1 20; pairing 1 1 10]
           [pairing 0 0 10; pairing 1 1 10] 1 1 10).
  vm_compute. reflexivity.
Defined.

(** ** Infinite costs *)

Section NeverReturns.
Context {F : Type} `{Scalar F}.
Variable value : list (list F).
Variables NX NY : nat.

(** A state that [update_labels] and the scan for new tight columns leave
    as it is: [while (true)] has no way out of it. *)
Lemma main_cycle_stuck (st : solver F) :
  grow_row value (seq 0 NY) (update_labels NY st) [] = (st, [], None) →
  ∀ fuel, main_cycle value NY fuel st [] = OutOfFuel.
Proof.
  intros Hstuck fuel. induction fuel as [|fuel IH]; [done|].
  rewrite main_cycle_S. simpl. by rewrite Hstuck.
Qed.

Lemma main_cycle_never (st st1 : solver F) x :
  bfs_row value x (seq 0 NY) st [] = (st1, [], None) →
  grow_row value (seq 0 NY) (update_labels NY st1) [] = (st1, [], None) →
  ∀ fuel, main_cycle value NY fuel st [x] = OutOfFuel.
Proof.
  intros Hrow Hstuck [|fuel]; [done|].
  rewrite main_cycle_S. simpl. rewrite Hrow. simpl.
  assert (Hbfs : bfs value NY fuel st1 [] = Returned (st1, None)) by (by destruct fuel).
  rewrite Hbfs, bind_Returned, Hstuck. by apply main_cycle_stuck.
Qed.

Lemma match_loop_never (st st1 : solver F) n root :
  n < NX `min` NY →
  find_root NX st = Some root →
  bfs_row value root (seq 0 NY) (start_tree value NX NY root st) [] = (st1, [], None) →
  grow_row value (seq 0 NY) (update_labels NY st1) [] = (st1, [], None) →
  ∀ fuel, match_loop value NX NY fuel st n = OutOfFuel.
Proof.
  intros Hn Hroot Hrow Hstuck [|fuel].
  - simpl. by rewrite bool_decide_eq_true_2.
  - rewrite match_loop_S, bool_decide_eq_true_2, Hroot by done.
    by rewrite (main_cycle_never _ _ _ Hrow Hstuck), bind_OutOfFuel.
Qed.
End NeverReturns.

(** C2 (infinity avoidance).  On the input of scenario C, [(0,0,∞)],
    [(0,1,5)], [(1,0,3)], the header takes [max_cost] over all costs, the
    infinite one included; every supplied pair then has the value [∞] or
    NaN, no column ever compares as tight, and [Optimize] does not return
    whatever the number of turns its loops are given. *)
Theorem Optimize_scenario_C_never_returns (fuel : nat) :
  max_cost [pairing 0 0 infinity; pairing 0 1 5; pairing 1 0 3] = infinity
  ∧ value_matrix false 2 2 [pairing 0 0 infinity; pairing 0 1 5; pairing 1 0 3]
    = [[nan; infinity]; [infinity; 1%float]]
  ∧ Optimize fuel [pairing 0 0 infinity; pairing 0 1 5; pairing 1 0 3] = OutOfFuel.
Proof.
  split_and!; [vm_compute; reflexivity..|].
  unfold Optimize.
  replace (max_id character [pairing 0 0 infinity; pairing 0 1 5; pairing 1 0 3])
    with 1 by reflexivity.
  replace (max_id task [pairing 0 0 infinity; pairing 0 1 5; pairing 1 0 3])
    with 1 by reflexivity.
  rewrite bool_decide_eq_false_2 by lia. simpl "+".
  unfold hungarian.
  erewrite (match_loop_never _ 2 2 _ _ 0 0); [done|simpl; lia|vm_compute; reflexivity..].
Qed.

(** C3 (termination).  One character and two tasks, one of them at an
    infinite cost: the main loop does not complete its single
    augmentation, whatever the number of turns its loops are given. *)
Theorem Optimize_infinite_cost_never_returns (fuel : nat) :
  Optimize fuel [pairing 0 0 1; pairing 0 1 infinity] = OutOfFuel.
Proof.
  unfold Optimize.
  replace (max_id character [pairing 0 0 1; pairing 0 1 infinity]) with 0 by reflexivity.
  replace (max_id task [pairing 0 0 1; pairing 0 1 infinity]) with 1 by reflexivity.
  rewrite bool_decide_eq_true_2 by lia. simpl "+".
  unfold hungarian.
  erewrite (match_loop_never _ 1 2 _ _ 0 0); [done|simpl; lia|vm_compute; reflexivity..].
Qed.

(** ** Exact arithmetic *)

Lemma this_plus (a b : Qc) : (this (a + b)%Qc == this a + this b)%Q.
Proof. apply Qred_correct. Qed.

Lemma this_opp (a : Qc) : (this (- a)%Qc == - this a)%Q.
Proof. apply Qred_correct. Qed.

Lemma this_Q2Qc (q : Q) : (this (Q2Qc q) == q)%Q.
Proof. apply Qred_correct. Qed.

Lemma Qc_ltb_spec (a b : Qc) : Qc_ltb a b = true ↔ (this a < this b)%Q.
Proof. unfold Qc_ltb. rewrite bool_decide_eq_true. done. Qed.

Lemma Qc_ltb_false (a b : Qc) : Qc_ltb a b = false ↔ (this b <= this a)%Q.
Proof.
  unfold Qc_ltb. rewrite bool_decide_eq_false. unfold Qclt.
  split; [apply Qnot_lt_le|apply Qle_not_lt].
Qed.

Section FiniteScalars.
Implicit Types a b : xreal.

Lemma fin_XFin q : fin (XFin q).
Proof. by eexists. Qed.

Lemma fin_zero : fin f_zero.
Proof. exact (fin_XFin 0%Qc). Qed.

Lemma fin_dbl_max : fin f_dbl_max ∧ (0 <= qv f_dbl_max)%Q.
Proof.
  split; [exact (fin_XFin _)|].
  change (qv f_dbl_max) with (this (Q2Qc (inject_Z (2 ^ 1024 - 2 ^ 971)))).
  rewrite this_Q2Qc. unfold Qle. simpl. lia.
Qed.

Lemma fin_add a b : fin a → fin b → fin (f_add a b) ∧ (qv (f_add a b) == qv a + qv b)%Q.
Proof.
  intros [p ->] [q ->]. change (f_add (XFin p) (XFin q)) with (XFin (p + q)%Qc).
  split; [apply fin_XFin|apply this_plus].
Qed.

Lemma fin_sub a b : fin a → fin b → fin (f_sub a b) ∧ (qv (f_sub a b) == qv a - qv b)%Q.
Proof.
  intros [p ->] [q ->]. change (f_sub (XFin p) (XFin q)) with (XFin (p + - q)%Qc).
  split; [apply fin_XFin|].
  change (qv (XFin ?x)) with (this x). rewrite this_plus, this_opp. reflexivity.
Qed.

Lemma fin_ltb a b : fin a → fin b → f_ltb a b = true ↔ (qv a < qv b)%Q.
Proof. intros [p ->] [q ->]. apply Qc_ltb_spec. Qed.

Lemma fin_ltb_false a b : fin a → fin b → f_ltb a b = false ↔ (qv b <= qv a)%Q.
Proof. intros [p ->] [q ->]. apply Qc_ltb_false. Qed.

Lemma fin_max a b :
  fin a → fin b → fin (f_max a b) ∧ (qv a <= qv (f_max a b))%Q ∧ (qv b <= qv (f_max a b))%Q.
Proof.
  intros Ha Hb. unfold f_max. destruct (f_ltb a b) eqn:Hlt.
  - apply fin_ltb in Hlt; [|done..]. split_and!; [done|lra|lra].
  - apply fin_ltb_false in Hlt; [|done..]. split_and!; [done|lra|lra].
Qed.

Lemma fin_min a b :
  fin a → fin b →
  fin (f_min a b) ∧ (qv (f_min a b) <= qv a)%Q ∧ (qv (f_min a b) <= qv b)%Q
  ∧ (f_min a b = a ∨ f_min a b = b).
Proof.
  intros Ha Hb. unfold f_min. destruct (f_ltb b a) eqn:Hlt.
  - apply fin_ltb in Hlt; [|done..]. split_and!; [done|lra|lra|by right].
  - apply fin_ltb_false in Hlt; [|done..]. split_and!; [done|lra|lra|by left].
Qed.

(** [eq(a, b)] on finite values: the two differ by less than the tolerance. *)
Lemma fin_eq a b :
  fin a → fin b → f_eq a b = true ↔ (- tol < qv a - qv b < tol)%Q.
Proof.
  intros [p ->] [q ->]. unfold f_eq.
  change (f_ltb (f_abs (f_sub (XFin p) (XFin q))) f_tol)
    with (Qc_ltb (if Qc_ltb (p + - q) 0 then - (p + - q) else p + - q)%Qc
            (Q2Qc (1 # 10000))).
  change (qv (XFin ?x)) with (this x).
  rewrite Qc_ltb_spec, this_Q2Qc. fold tol.
  destruct (Qc_ltb (p + - q) 0) eqn:Hs.
  - apply Qc_ltb_spec in Hs. rewrite this_plus, this_opp in Hs.
    rewrite this_opp, this_plus, this_opp.
    change (this 0%Qc) with 0%Q in Hs. split; intros; lra.
  - apply Qc_ltb_false in Hs. rewrite this_plus, this_opp in Hs.
    rewrite this_plus, this_opp.
    change (this 0%Qc) with 0%Q in Hs. split; intros; lra.
Qed.

Lemma fin_lookup (l : list xreal) i : Forall fin l → i < length l → fin (l !!! i).
Proof.
  intros Hl Hi. destruct (lookup_lt_is_Some_2 l i Hi) as [a Ha].
  rewrite (list_lookup_total_correct _ _ _ Ha).
  by eapply Forall_lookup_1.
Qed.
End FiniteScalars.

(** Reads a field of a state built by one of the operations of the solver,
    and nothing else. *)
Ltac fields :=
  cbn [lx ly xy yx in_S in_T slack slackx prev
       start_tree add_to_tree set_T update_labels init_solver] in *.

Section ExactLabels.
Variable value : list (list xreal).
Variables NX NY : nat.
Hypothesis value_fin : ∀ x y, x < NX → y < NY → fin ((value !!! x) !!! y).
Implicit Types (st : solver xreal).

Lemma excess_gap st x y :
  shaped NX NY st → Forall fin (lx st) → Forall fin (ly st) → x < NX → y < NY →
  fin (excess value st x y) ∧ (qv (excess value st x y) == gap value st x y)%Q.
Proof.
  intros (Hlx & Hly & _) Hfx Hfy Hx Hy. unfold excess, gap, val_q.
  pose proof (fin_lookup _ x Hfx ltac:(lia)) as Hfa.
  pose proof (fin_lookup _ y Hfy ltac:(lia)) as Hfb.
  destruct (fin_add _ _ Hfa Hfb) as [Hfs Hs].
  destruct (fin_sub _ _ Hfs (value_fin x y Hx Hy)) as [Hfd Hd].
  split; [done|]. rewrite Hd, Hs. reflexivity.
Qed.

Lemma lookup_total_fmap_seq {A} `{Inhabited A} (f : nat → A) n i :
  i < n → (f <$> seq 0 n) !!! i = f i.
Proof.
  intros Hi. apply list_lookup_total_correct.
  rewrite list_lookup_fmap, lookup_seq_lt by done. done.
Qed.

Lemma Forall_fin_imap (f : nat → xreal → xreal) (l : list xreal) :
  (∀ i a, i < length l → fin a → fin (f i a)) → Forall fin l → Forall fin (imap f l).
Proof.
  intros Hf Hl. apply Forall_lookup_2. intros i b Hb.
  rewrite list_lookup_imap in Hb.
  destruct (l !! i) as [a|] eqn:Ha; [|done]. simpl in Hb. injection Hb as <-.
  apply Hf; [by eapply lookup_lt_Some|by eapply Forall_lookup_1].
Qed.

(** The first labels: [lx[x]] is the largest value of row [x], or [0]. *)
Lemma init_solver_labels : labels_out value NX NY (init_solver value NX NY).
Proof.
  assert (Hrow : ∀ x ys (a : xreal), x < NX → fin a → Forall (λ y, y < NY) ys →
    fin (fold_left (λ (l : xreal) (y : nat), f_max l ((value !!! x) !!! y)) ys a)
    ∧ (qv a <= qv (fold_left (λ (l : xreal) (y : nat), f_max l ((value !!! x) !!! y)) ys a))%Q
    ∧ ∀ y, y ∈ ys →
        (val_q value x y
         <= qv (fold_left (λ (l : xreal) (y : nat), f_max l ((value !!! x) !!! y)) ys a))%Q).
  { intros x ys. induction ys as [|y ys IH]; intros a Hx Ha Hys; simpl.
    - split_and!; [done|lra|]. by intros ? ?%elem_of_nil.
    - apply list.Forall_cons in Hys as [Hy Hys].
      destruct (fin_max a ((value !!! x) !!! y) Ha (value_fin x y Hx Hy)) as (Hfm & Hm1 & Hm2).
      destruct (IH _ Hx Hfm Hys) as (Hf & Hge & Hall).
      split_and!; [done|lra|].
      intros y' [->|Hin]%elem_of_cons; [unfold val_q; lra|by apply Hall]. }
  assert (Hseq : Forall (λ y, y < NY) (seq 0 NY)).
  { apply list.Forall_forall. intros y Hy%elem_of_seq. lia. }
  split; simpl.
  - apply Forall_fmap, list.Forall_forall. intros x Hx%elem_of_seq. simpl.
    apply Hrow; [lia|apply fin_zero|done].
  - apply Forall_replicate. apply fin_zero.
  - intros x y Hx Hy. unfold gap. simpl.
    rewrite lookup_total_fmap_seq by done.
    rewrite lookup_total_replicate_2 by done.
    destruct (Hrow x (seq 0 NY) f_zero Hx fin_zero Hseq) as (_ & _ & Hall).
    specialize (Hall y ltac:(apply elem_of_seq; lia)).
    change (@f_zero xreal exact) with (XFin 0%Qc) in *.
    change (qv (XFin 0%Qc)) with 0%Q. lra.
  - intros y Hy. rewrite lookup_total_replicate_2 by done.
    change (@f_zero xreal exact) with (XFin 0%Qc) in *.
    change (qv (XFin 0%Qc)) with 0%Q. split; [lra|]. intros _. reflexivity.
  - intros x Hx. rewrite lookup_total_replicate_2 by done. done.
Qed.

Lemma labels_out_ext st st' :
  lx st' = lx st → ly st' = ly st → xy st' = xy st → yx st' = yx st →
  labels_out value NX NY st → labels_out value NX NY st'.
Proof.
  intros Hlx Hly Hxy Hyx [? ? ? ? ?].
  split; unfold gap in *; rewrite ?Hlx, ?Hly, ?Hxy, ?Hyx; done.
Qed.

(** The search starts with S = {root} and the slacks of the root. *)
Lemma labels_ok_start st root :
  shaped NX NY st → labels_out value NX NY st → root < NX →
  labels_ok value NX NY root (start_tree value NX NY root st).
Proof.
  intros Hsh Hout Hroot.
  pose proof (lo_fin_lx _ _ _ _ Hout) as Hfx. pose proof (lo_fin_ly _ _ _ _ Hout) as Hfy.
  split.
  - by apply (labels_out_ext st).
  - fields. apply Forall_fmap, list.Forall_forall. intros y Hy%elem_of_seq. simpl.
    apply excess_gap; [done..|lia].
  - intros x px Hx HS Hne. fields.
    rewrite list_lookup_total_insert_ne, lookup_total_replicate_2 in HS by done. done.
  - intros y Hy. fields.
    rewrite lookup_total_fmap_seq, lookup_total_replicate_2 by done.
    exact (proj2 (excess_gap st root y Hsh Hfx Hfy Hroot Hy)).
  - intros x y Hx Hy HS. fields.
    rewrite lookup_total_fmap_seq by done.
    destruct (decide (x = root)) as [->|Hne].
    + destruct (excess_gap st root y Hsh Hfx Hfy Hroot Hy) as [_ ->].
      unfold gap. fields. lra.
    + rewrite list_lookup_total_insert_ne, lookup_total_replicate_2 in HS by done. done.
Qed.

(** A row enters the tree below [px], through the column [y] it is
    matched to, along an edge that is tight up to the tolerance. *)
Lemma labels_ok_add r d st y px :
  tree_ok NX NY r d st → labels_ok value NX NY r st →
  y < NY → in_T st !!! y = false → yx st !!! y ≠ (-1)%Z →
  px < NX → in_S st !!! px = true → (gap value st px y < tol)%Q →
  labels_ok value NX NY r
    (add_to_tree value (Z.to_nat (yx st !!! y)) (Z.of_nat px) (set_T y st)).
Proof.
  intros Hok Hl Hy HT Hyx Hpx HSpx Htight.
  destruct (tree_partner_fresh _ _ _ _ _ _ Hok Hy HT Hyx) as (Hx' & Hxy & HS & Hne).
  set (x' := Z.to_nat (yx st !!! y)) in *.
  pose proof (t_shaped _ _ _ _ _ Hok) as Hsh.
  destruct Hsh as (Hlx & Hly & HlS & HlT & Hls & Hlsx & Hlp).
  pose proof (t_shaped _ _ _ _ _ Hok) as Hsh.
  destruct Hl as [Hout Hfs Htree Hslack Hmin].
  pose proof (lo_fin_lx _ _ _ _ Hout) as Hfx. pose proof (lo_fin_ly _ _ _ _ Hout) as Hfy.
  assert (Hex : ∀ y0, y0 < NY →
            fin (excess value st x' y0)
            ∧ (qv (excess value st x' y0) == gap value st x' y0)%Q)
    by (intros; by apply excess_gap).
  split.
  - by apply (labels_out_ext st).
  - fields. apply Forall_fin_imap; [|done]. intros y0 a Hy0 Ha.
    change (excess value (set_T y st) x' y0) with (excess value st x' y0).
    destruct (Hex y0 ltac:(lia)). by case_match.
  - intros x px0 Hx HSx Hxr Hp. fields.
    change (gap value _ px0 ?c) with (gap value st px0 c).
    change (xy (add_to_tree value x' (Z.of_nat px) (set_T y st))) with (xy st).
    destruct (decide (x = x')) as [->|Hxx].
    + rewrite (list_lookup_total_insert_eq (prev st)) in Hp by lia.
      apply Nat2Z.inj in Hp as <-. by rewrite Hxy, Nat2Z.id.
    + rewrite list_lookup_total_insert_ne in HSx by done.
      rewrite list_lookup_total_insert_ne in Hp by done. by apply (Htree x).
  - intros y0 Hy0. fields.
    change (gap value _ ?a ?b) with (gap value st a b).
    rewrite !lookup_total_imap by lia. destruct (Hex y0 Hy0) as [_ Hq].
    change (excess value (set_T y st) x' y0) with (excess value st x' y0).
    case_match; [done|by apply Hslack].
  - intros x y0 Hx Hy0 HSx. fields.
    change (gap value _ ?a ?b) with (gap value st a b).
    rewrite lookup_total_imap by lia. destruct (Hex y0 Hy0) as [Hfe Hq].
    change (excess value (set_T y st) x' y0) with (excess value st x' y0).
    pose proof (fin_lookup _ y0 Hfs ltac:(lia)) as Hfsl.
    destruct (f_ltb (excess value st x' y0) (slack st !!! y0)) eqn:Hc.
    + apply fin_ltb in Hc; [|done..].
      destruct (decide (x = x')) as [->|Hxx]; [lra|].
      rewrite list_lookup_total_insert_ne in HSx by done.
      specialize (Hmin x y0 Hx Hy0 HSx). lra.
    + apply fin_ltb_false in Hc; [|done..].
      destruct (decide (x = x')) as [->|Hxx]; [lra|].
      rewrite list_lookup_total_insert_ne in HSx by done.
      by apply Hmin.
Qed.

(** [delta] is finite, not negative, and below the slack of every column
    outside T. *)
Lemma min_slack_spec st :
  length (slack st) = NY → Forall fin (slack st) →
  (∀ y, y < NY → (0 <= qv (slack st !!! y))%Q) →
  fin (min_slack NY st) ∧ (0 <= qv (min_slack NY st))%Q
  ∧ ∀ y, y < NY → in_T st !!! y = false → (qv (min_slack NY st) <= qv (slack st !!! y))%Q.
Proof.
  intros Hlen Hfs Hpos. unfold min_slack.
  assert (Hgen : ∀ ys (a : xreal), fin a → (0 <= qv a)%Q → Forall (λ y, y < NY) ys →
    let m := fold_left (λ (delta : xreal) (y : nat),
                if negb (in_T st !!! y) then f_min delta (slack st !!! y) else delta) ys a in
    fin m ∧ (0 <= qv m)%Q ∧ (qv m <= qv a)%Q
    ∧ ∀ y, y ∈ ys → in_T st !!! y = false → (qv m <= qv (slack st !!! y))%Q).
  { induction ys as [|y ys IH]; intros a Ha Hpa Hys; simpl.
    - split_and!; [done|done|lra|]. by intros ? ?%elem_of_nil.
    - apply list.Forall_cons in Hys as [Hy Hys].
      pose proof (fin_lookup _ y Hfs ltac:(lia)) as Hfy.
      destruct (fin_min a (slack st !!! y) Ha Hfy) as (Hfm & Hm1 & Hm2 & Hor).
      destruct (in_T st !!! y) eqn:HT; simpl.
      + destruct (IH a Ha Hpa Hys) as (Hf & Hp & Hle & Hall).
        split_and!; [done..|]. intros y' [->|Hin]%elem_of_cons HT'; [congruence|by apply Hall].
      + assert (Hpm : (0 <= qv (f_min a (slack st !!! y)))%Q).
        { destruct Hor as [-> | ->]; [done|by apply Hpos]. }
        destruct (IH _ Hfm Hpm Hys) as (Hf & Hp & Hle & Hall).
        split_and!; [done|done|lra|].
        intros y' [->|Hin]%elem_of_cons HT'; [lra|by apply Hall]. }
  destruct fin_dbl_max as [Hfd Hpd].
  destruct (Hgen (seq 0 NY) f_dbl_max Hfd Hpd) as (Hf & Hp & _ & Hall).
  { apply list.Forall_forall. intros y Hy%elem_of_seq. lia. }
  split_and!; [done|done|]. intros y Hy. apply Hall. apply elem_of_seq. lia.
Qed.

(** The labels after [update_labels]: the sum of the two labels of a pair
    keeps its value inside S x T and outside both, loses [delta] in
    S x (Y - T), where it stays above the value of the pair, and gains
    [delta] elsewhere. *)
Lemma labels_ok_update r d st :
  tree_ok NX NY r d st → labels_ok value NX NY r st →
  labels_ok value NX NY r (update_labels NY st).
Proof.
  intros Hok [Hout Hfs Htree Hslack Hmin].
  destruct (t_shaped _ _ _ _ _ Hok) as (Hlx & Hly & HlS & HlT & Hls & Hlsx & Hlp).
  destruct Hout as [Hfx Hfy Hfeas Hlyp Hmatched].
  assert (Hspos : ∀ y, y < NY → (0 <= qv (slack st !!! y))%Q).
  { intros y Hy. rewrite (Hslack y Hy). apply Hfeas; [|done].
    by apply (t_slackx _ _ _ _ _ Hok). }
  destruct (min_slack_spec st Hls Hfs Hspos) as (Hfd & Hdpos & Hdle).
  set (delta := min_slack NY st) in *.
  assert (HLx : ∀ x, x < NX →
            fin (lx (update_labels NY st) !!! x)
            ∧ (qv (lx (update_labels NY st) !!! x)
               == qv (lx st !!! x) - (if (in_S st !!! x : bool) then qv delta else 0))%Q).
  { intros x Hx. fields. rewrite lookup_total_imap by lia. fold delta.
    pose proof (fin_lookup _ x Hfx ltac:(lia)) as Hf.
    destruct (in_S st !!! x); [|split; [done|lra]].
    apply fin_sub; done. }
  assert (HLy : ∀ y, y < NY →
            fin (ly (update_labels NY st) !!! y)
            ∧ (qv (ly (update_labels NY st) !!! y)
               == qv (ly st !!! y) + (if (in_T st !!! y : bool) then qv delta else 0))%Q).
  { intros y Hy. fields. rewrite lookup_total_imap by lia. fold delta.
    pose proof (fin_lookup _ y Hfy ltac:(lia)) as Hf.
    destruct (in_T st !!! y); [|split; [done|lra]].
    apply fin_add; done. }
  assert (HSl : ∀ y, y < NY →
            fin (slack (update_labels NY st) !!! y)
            ∧ (qv (slack (update_labels NY st) !!! y)
               == qv (slack st !!! y) - (if (in_T st !!! y : bool) then 0 else qv delta))%Q).
  { intros y Hy. fields. rewrite lookup_total_imap by lia. fold delta.
    pose proof (fin_lookup _ y Hfs ltac:(lia)) as Hf.
    destruct (in_T st !!! y); simpl; [split; [done|lra]|].
    apply fin_sub; done. }
  assert (Hgap : ∀ x y, x < NX → y < NY →
            (gap value (update_labels NY st) x y
             == gap value st x y - (if (in_S st !!! x : bool) then qv delta else 0)
                + (if (in_T st !!! y : bool) then qv delta else 0))%Q).
  { intros x y Hx Hy. unfold gap.
    destruct (HLx x Hx) as [_ ->]. destruct (HLy y Hy) as [_ ->]. lra. }
  assert (Hedge : ∀ x y, x < NX → y < NY → in_S st !!! x = true → in_T st !!! y = true →
            (gap value (update_labels NY st) x y == gap value st x y)%Q).
  { intros x y Hx Hy HS HT. rewrite Hgap, HS, HT by done. lra. }
  destruct (t_matching _ _ _ _ _ Hok) as (_ & _ & Hxy & Hyx).
  destruct (t_root _ _ _ _ _ Hok) as (Hr & HSr & Hpr & Hxyr).
  assert (Hf_lx : Forall fin (lx (update_labels NY st))).
  { apply Forall_lookup_2. intros x a Ha.
    rewrite <- (list_lookup_total_correct _ _ _ Ha). apply HLx.
    apply lookup_lt_Some in Ha. fields. rewrite length_imap in Ha. lia. }
  assert (Hf_ly : Forall fin (ly (update_labels NY st))).
  { apply Forall_lookup_2. intros y a Ha.
    rewrite <- (list_lookup_total_correct _ _ _ Ha). apply HLy.
    apply lookup_lt_Some in Ha. fields. rewrite length_imap in Ha. lia. }
  assert (Hf_sl : Forall fin (slack (update_labels NY st))).
  { apply Forall_lookup_2. intros y a Ha.
    rewrite <- (list_lookup_total_correct _ _ _ Ha). apply HSl.
    apply lookup_lt_Some in Ha. fields. rewrite length_imap in Ha. lia. }
  split; [split|..]; try done.
  - intros x y Hx Hy. rewrite Hgap by done. specialize (Hfeas x y Hx Hy).
    destruct (in_S st !!! x) eqn:HS, (in_T st !!! y) eqn:HT; try lra.
    specialize (Hmin x y Hx Hy HS). specialize (Hdle y Hy HT). lra.
  - intros y Hy. destruct (HLy y Hy) as [_ ->]. destruct (Hlyp y Hy) as [Hp Hz].
    change (yx (update_labels NY st)) with (yx st).
    split; [destruct (in_T st !!! y); lra|]. intros Hfree.
    destruct (in_T st !!! y) eqn:HT.
    + by destruct (t_T _ _ _ _ _ Hok y Hy HT).
    + rewrite (Hz Hfree). lra.
  - intros x Hx. change (xy (update_labels NY st)) with (xy st). intros Hm.
    destruct (Hxy x Hx) as [?|[Hrange Hback]]; [done|].
    assert (Hy : Z.to_nat (xy st !!! x) < NY) by lia.
    rewrite Hgap by done. specialize (Hmatched x Hx Hm).
    destruct (in_S st !!! x) eqn:HS.
    + assert (x ≠ r) by (intros ->; done).
      destruct (t_S _ _ _ _ _ Hok x Hx HS ltac:(done)) as (_ & -> & _). lra.
    + destruct (in_T st !!! Z.to_nat (xy st !!! x)) eqn:HT; [|lra].
      destruct (t_T _ _ _ _ _ Hok _ Hy HT) as [_ HS'].
      rewrite Hback, Nat2Z.id in HS'. congruence.
  - intros x px Hx. change (xy (update_labels NY st)) with (xy st).
    change (in_S (update_labels NY st)) with (in_S st).
    change (prev (update_labels NY st)) with (prev st). intros HS Hne Hp.
    destruct (t_S _ _ _ _ _ Hok x Hx HS Hne) as (Hm & HT & px' & Hp' & Hpx & HSpx & _).
    rewrite Hp in Hp'. apply Nat2Z.inj in Hp' as <-.
    destruct (Hxy x Hx) as [?|[Hrange _]]; [done|].
    rewrite Hedge by (done || lia). by apply (Htree x).
  - intros y Hy. change (slackx (update_labels NY st)) with (slackx st).
    destruct (t_slackx _ _ _ _ _ Hok y Hy) as [Hsx HSsx].
    destruct (HSl y Hy) as [_ ->]. rewrite Hgap, HSsx, (Hslack y Hy) by done.
    destruct (in_T st !!! y); lra.
  - intros x y Hx Hy. change (in_S (update_labels NY st)) with (in_S st). intros HS.
    destruct (HSl y Hy) as [_ ->]. rewrite Hgap, HS by done.
    specialize (Hmin x y Hx Hy HS). destruct (in_T st !!! y); lra.
Qed.

Lemma tight_gap st x y :
  shaped NX NY st → Forall fin (lx st) → Forall fin (ly st) → x < NX → y < NY →
  f_eq ((value !!! x) !!! y) (f_add (lx st !!! x) (ly st !!! y)) = true →
  (gap value st x y < tol)%Q.
Proof.
  intros (Hlx & Hly & _) Hfx Hfy Hx Hy Heq.
  pose proof (fin_lookup _ x Hfx ltac:(lia)) as Hfa.
  pose proof (fin_lookup _ y Hfy ltac:(lia)) as Hfb.
  destruct (fin_add _ _ Hfa Hfb) as [Hfs Hs].
  apply fin_eq in Heq; [|by apply value_fin|done].
  unfold gap, val_q. rewrite Hs in Heq. lra.
Qed.

Lemma searching_exact_bfs_row r x q st st1 q1 found_y :
  searching_exact value NX NY r st (x :: q) →
  bfs_row value x (seq 0 NY) st q = (st1, q1, found_y) →
  match found_y with
  | None => searching_exact value NX NY r st1 q1
  | Some y => found_exact value NX NY r st1 x y
  end.
Proof.
  intros [Hs Hl] Hrun.
  pose proof (searching_bfs_row value NX NY _ _ _ _ _ _ _ Hs Hrun) as Hgen.
  destruct Hs as [Hd Hq]. apply list.Forall_cons in Hq as [[Hx HSx] Hq].
  destruct (bfs_row_rule value
              (λ st q, (searching NX NY r st q ∧ in_S st !!! x = true)
                       ∧ labels_ok value NX NY r st)
              x (seq 0 NY) st q st1 q1 found_y) as [[[Hs1 HSx1] Hl1] Hr]; [|done|done|].
  { intros y st0 q0 Hy%elem_of_seq [[Hs0 HS0] Hl0] Htight HT Hyx. split; [split|].
    - apply searching_add; [done|lia|done..].
    - fields. by apply lookup_total_insert_true.
    - destruct Hs0 as [[d0 Hok0] _].
      pose proof (l_out _ _ _ _ _ Hl0) as Hout0.
      eapply labels_ok_add; [done..|lia|done|done|done|done|].
      eapply tight_gap; [apply (t_shaped _ _ _ _ _ Hok0)| | |done|lia|done].
      + apply (lo_fin_lx _ _ _ _ Hout0).
      + apply (lo_fin_ly _ _ _ _ Hout0). }
  destruct found_y as [y|]; [|by split].
  destruct (Hr y eq_refl) as (Hy%elem_of_seq & Htight & _).
  split_and!; [done|done|].
  destruct Hs1 as [[d1 Hok1] _]. pose proof (l_out _ _ _ _ _ Hl1) as Hout1.
  eapply tight_gap; [apply (t_shaped _ _ _ _ _ Hok1)| | |done|lia|done].
  - apply (lo_fin_lx _ _ _ _ Hout1).
  - apply (lo_fin_ly _ _ _ _ Hout1).
Qed.

Lemma slack_gap r d st y :
  tree_ok NX NY r d st → labels_ok value NX NY r st → y < NY →
  f_eq (slack st !!! y) f_zero = true →
  (gap value st (slackx st !!! y) y < tol)%Q.
Proof.
  intros Hok Hl Hy Heq.
  destruct (t_shaped _ _ _ _ _ Hok) as (_ & _ & _ & _ & Hls & _).
  apply fin_eq in Heq; [|apply fin_lookup; [apply (l_fin_slack _ _ _ _ _ Hl)|lia]|apply fin_zero].
  rewrite <- (l_slack _ _ _ _ _ Hl y Hy).
  change (qv f_zero) with (this 0%Qc) in Heq. change (this 0%Qc) with 0%Q in Heq. lra.
Qed.

Lemma searching_exact_grow_row r st st1 q1 found_xy :
  searching_exact value NX NY r st [] →
  grow_row value (seq 0 NY) (update_labels NY st) [] = (st1, q1, found_xy) →
  match found_xy with
  | None => searching_exact value NX NY r st1 q1
  | Some (x, y) => found_exact value NX NY r st1 x y
  end.
Proof.
  intros [Hs Hl] Hrun.
  pose proof (searching_grow_row value NX NY _ _ _ _ _ Hs Hrun) as Hgen.
  destruct Hs as [[d Hok] _].
  destruct (grow_row_rule value
              (λ st q, searching NX NY r st q ∧ labels_ok value NX NY r st)
              (seq 0 NY) (update_labels NY st) [] st1 q1 found_xy) as [[Hs1 Hl1] Hr];
    [| |done|].
  { intros y st0 q0 Hy%elem_of_seq [Hs0 Hl0] HT Hz Hyx.
    destruct Hs0 as [[d0 Hok0] Hq0].
    destruct (tree_partner_fresh _ _ _ _ _ y Hok0 ltac:(lia) HT Hyx) as (_ & _ & HS & _).
    split; [|congruence]. intros _.
    destruct (t_slackx _ _ _ _ _ Hok0 y ltac:(lia)).
    split.
    - apply searching_add; [by split; [eexists|]|lia|done..].
    - eapply labels_ok_add; [done..|lia|done|done|done|done|].
      eapply slack_gap; [done|done|lia|done]. }
  { split; [split; [|by apply Forall_nil]|].
    - exists d. by apply tree_ok_update_labels.
    - by eapply labels_ok_update. }
  destruct found_xy as [[x y]|]; [|by split].
  destruct (Hr x y eq_refl) as (Hy%elem_of_seq & -> & Hz & _).
  split_and!; [done|done|].
  destruct Hs1 as [[d1 Hok1] _]. eapply slack_gap; [done|done|lia|done].
Qed.

Lemma main_cycle_found_exact r fuel st q st' x y :
  searching_exact value NX NY r st q →
  main_cycle value NY fuel st q = Returned (st', x, y) →
  found_exact value NX NY r st' x y.
Proof.
  apply (main_cycle_rule value NY (searching_exact value NX NY r) (found_exact value NX NY r)).
  - intros x0 q0 st0 st1 q1 Hs Hrow. apply (searching_exact_bfs_row _ _ _ _ _ _ _ Hs Hrow).
  - intros x0 q0 st0 st1 q1 y0 Hs Hrow. apply (searching_exact_bfs_row _ _ _ _ _ _ _ Hs Hrow).
  - intros st0 st1 q1 Hs Hg. apply (searching_exact_grow_row _ _ _ _ _ Hs Hg).
  - intros st0 st1 q1 x0 y0 Hs Hg. apply (searching_exact_grow_row _ _ _ _ _ Hs Hg).
Qed.

(** One turn of the outer loop keeps the labels feasible and the matched
    pairs tight. *)
Lemma match_step_labels fuel st st1 n root x y xy' yx' :
  matched_rows NX NY st n → labels_out value NX NY st →
  find_root NX st = Some root →
  main_cycle value NY fuel (start_tree value NX NY root st) [root] = Returned (st1, x, y) →
  augment fuel (prev st1) (xy st1) (yx st1) (Z.of_nat x) (Z.of_nat y) = Returned (xy', yx') →
  labels_out value NX NY
    (mkSolver (lx st1) (ly st1) xy' yx' (in_S st1) (in_T st1)
       (slack st1) (slackx st1) (prev st1)).
Proof.
  intros (Hsh & Hm & _) Hout Hroot Hmain Haug.
  destruct (find_root_spec _ _ _ Hroot) as [Hr Hxy].
  destruct (tree_ok_start value NX NY st root (λ _, 0) Hsh Hm Hr Hxy) as [Hok Hq].
  assert (Hs : searching_exact value NX NY root (start_tree value NX NY root st) [root]).
  { split; [split; [by eexists|done]|]. by apply labels_ok_start. }
  destruct (main_cycle_found_exact _ _ _ _ _ _ _ Hs Hmain)
    as (([d1 Hok1] & Hx & HSx & Hy & HT & Hfree) & Hl1 & Htight).
  destruct (augment_inverts NX NY root d1 (λ x y, (gap value st1 x y < tol)%Q) st1 Hok1
              (l_tree _ _ _ _ _ Hl1) fuel x y xy' yx' Hx HSx Hy Hfree
              (lo_matched _ _ _ _ (l_out _ _ _ _ _ Hl1)) Htight Haug)
    as (Hm' & HE & _ & Hyx').
  destruct (l_out _ _ _ _ _ Hl1) as [Hfx Hfy Hfeas Hly _].
  split; try done.
  intros y0 Hy0. destruct (Hly y0 Hy0) as [Hp Hz]. split; [done|].
  fields. intros Hf. apply Hz. by apply Hyx'.
Qed.

(** When the solver returns, in exact arithmetic on finite values: every
    row is matched, the labels are feasible, and the matched pairs are
    tight up to the tolerance. *)
Lemma hungarian_exact fuel st :
  hungarian value NX NY fuel = Returned st →
  matched_rows NX NY st (NX `min` NY) ∧ labels_out value NX NY st.
Proof.
  unfold hungarian. intros Hrun.
  destruct (match_loop_rule value NX NY
              (λ st n, matched_rows NX NY st n ∧ labels_out value NX NY st)
              fuel (init_solver value NX NY) 0 st) as [HR _]; [| | |done|done].
  - intros fuel0 st0 n root st1 x y xy' yx' [HR Hl] _ Hroot Hmain Haug. split.
    + by destruct (match_step_matched_rows _ _ _ _ _ _ _ _ _ _ _ _ HR Hroot Hmain Haug).
    + by eapply match_step_labels.
  - split; [apply init_solver_matched_rows|apply init_solver_labels].
  - lia.
Qed.
End ExactLabels.

(** ** The value matrix *)

Section ValueMatrix.
Context {F : Type} `{Scalar F}.
Variable bc : bool.
Variables NX NY : nat.
Variable C : F.
Implicit Types (v : list (Assignment F)) (a b : Assignment F) (M : list (list F)).

Lemma write_value_rectangular M a : rectangular NX NY M → rectangular NX NY (write_value bc C M a).
Proof.
  intros [Hl Hr]. unfold write_value. split; [by rewrite length_insert|].
  intros x Hx. destruct (decide (x = row_of bc a)) as [->|Hne].
  - rewrite list_lookup_total_insert_eq by lia. rewrite length_insert. by apply Hr.
  - rewrite list_lookup_total_insert_ne by done. by apply Hr.
Qed.

Lemma write_value_lookup M a x y :
  rectangular NX NY M → row_of bc a < NX → col_of bc a < NY → x < NX → y < NY →
  (write_value bc C M a !!! x) !!! y
  = if decide ((x, y) = (row_of bc a, col_of bc a))
    then f_add (f_sub C (cost a)) f_one else (M !!! x) !!! y.
Proof.
  intros [Hl Hr] Hra Hca Hx Hy. unfold write_value.
  destruct (decide (x = row_of bc a)) as [->|Hne].
  - rewrite list_lookup_total_insert_eq by lia.
    destruct (decide (y = col_of bc a)) as [->|Hne'].
    + rewrite list_lookup_total_insert_eq by (rewrite Hr; lia).
      by rewrite decide_True.
    + rewrite list_lookup_total_insert_ne by done.
      rewrite decide_False; [done|]. intros [= ?]. done.
  - rewrite list_lookup_total_insert_ne by done.
    rewrite decide_False; [done|]. intros [= ?]. done.
Qed.

Lemma fold_write_value v M :
  rectangular NX NY M →
  (∀ a, a ∈ v → row_of bc a < NX ∧ col_of bc a < NY) →
  NoDup ((λ a, (row_of bc a, col_of bc a)) <$> v) →
  rectangular NX NY (fold_left (write_value bc C) v M)
  ∧ (∀ a, a ∈ v →
       (fold_left (write_value bc C) v M !!! row_of bc a) !!! col_of bc a
       = f_add (f_sub C (cost a)) f_one)
  ∧ (∀ x y, x < NX → y < NY →
       (∀ a, a ∈ v → (x, y) ≠ (row_of bc a, col_of bc a)) →
       (fold_left (write_value bc C) v M !!! x) !!! y = (M !!! x) !!! y).
Proof.
  revert M. induction v as [|b v IH]; intros M HM Hrange Hnd; simpl.
  { split_and!; [done| |done]. by intros ? ?%elem_of_nil. }
  rewrite fmap_cons in Hnd. apply list.NoDup_cons in Hnd as [Hnotin Hnd].
  destruct (Hrange b (list_elem_of_here _ _)) as [Hrb Hcb].
  destruct (IH (write_value bc C M b) (write_value_rectangular _ _ HM)
              (λ a Ha, Hrange a (list_elem_of_further _ _ _ Ha)) Hnd) as (Hrect & Hin & Hout).
  split_and!; [done|..].
  - intros a [->|Ha]%elem_of_cons; [|by apply Hin].
    rewrite Hout; [|done|done|].
    + rewrite write_value_lookup by done. by rewrite decide_True.
    + intros a Ha Heq. apply Hnotin. rewrite Heq. apply list_elem_of_fmap. by exists a.
  - intros x y Hx Hy Hno. rewrite Hout; [|done|done|].
    + rewrite write_value_lookup by done.
      rewrite decide_False; [done|]. apply Hno, list_elem_of_here.
    + intros a Ha. apply Hno. by apply list_elem_of_further.
Qed.

(** A cell holds what the matrix held at first, or the value of a pairing. *)
Lemma fold_write_value_cell v M x y :
  rectangular NX NY M →
  (∀ a, a ∈ v → row_of bc a < NX ∧ col_of bc a < NY) → x < NX → y < NY →
  (fold_left (write_value bc C) v M !!! x) !!! y = (M !!! x) !!! y
  ∨ ∃ a, a ∈ v
      ∧ (fold_left (write_value bc C) v M !!! x) !!! y = f_add (f_sub C (cost a)) f_one.
Proof.
  revert M. induction v as [|b v IH]; intros M HM Hrange Hx Hy; simpl; [by left|].
  destruct (Hrange b (list_elem_of_here _ _)) as [Hrb Hcb].
  destruct (IH (write_value bc C M b) (write_value_rectangular _ _ HM)
              (λ a Ha, Hrange a (list_elem_of_further _ _ _ Ha)) Hx Hy) as [Heq|(a & Ha & Heq)].
  - rewrite Heq, write_value_lookup by done.
    destruct (decide ((x, y) = (row_of bc b, col_of bc b))); [right|by left].
    exists b. split; [by left|done].
  - right. exists a. split; [by right|done].
Qed.
End ValueMatrix.

(** ** The matching of the solver is optimal up to the tolerance *)

Section Sums.
Context {A : Type}.
Implicit Types (f g : A → Q) (l k : list A).

Lemma Qsum_app f l k : (Qsum f (l ++ k) == Qsum f l + Qsum f k)%Q.
Proof. induction l as [|a l IH]; simpl; [lra|]. rewrite IH. lra. Qed.

Lemma Qsum_perm f l k : l ≡ₚ k → (Qsum f l == Qsum f k)%Q.
Proof.
  induction 1 as [|a l k _ IH|a b l|l k m _ IH1 _ IH2]; simpl; lra.
Qed.

Lemma Qsum_le f g l : (∀ a, a ∈ l → (f a <= g a)%Q) → (Qsum f l <= Qsum g l)%Q.
Proof.
  induction l as [|a l IH]; intros Hfg; simpl; [lra|].
  pose proof (Hfg a (list_elem_of_here _ _)).
  pose proof (IH (λ b Hb, Hfg b (list_elem_of_further _ _ _ Hb))). lra.
Qed.

Lemma Qsum_eq f g l : (∀ a, a ∈ l → (f a == g a)%Q) → (Qsum f l == Qsum g l)%Q.
Proof.
  induction l as [|a l IH]; intros Hfg; simpl; [lra|].
  pose proof (Hfg a (list_elem_of_here _ _)).
  pose proof (IH (λ b Hb, Hfg b (list_elem_of_further _ _ _ Hb))). lra.
Qed.

Lemma Qsum_plus f g l : (Qsum (λ a, f a + g a) l == Qsum f l + Qsum g l)%Q.
Proof. induction l as [|a l IH]; simpl; [lra|]. rewrite IH. lra. Qed.

Lemma Qsum_const (c : Q) l : (Qsum (λ _, c) l == inject_Z (Z.of_nat (length l)) * c)%Q.
Proof.
  induction l as [|a l IH].
  { change (0 == 0 * c)%Q. lra. }
  change (Qsum (λ _, c) (a :: l)) with (c + Qsum (λ _, c) l)%Q. rewrite IH.
  change (length (a :: l)) with (S (length l)).
  rewrite Nat2Z.inj_succ, <- Z.add_1_r, inject_Z_plus.
  change (inject_Z 1) with 1%Q. lra.
Qed.

Lemma Qsum_nonneg f l : (∀ a, a ∈ l → (0 <= f a)%Q) → (0 <= Qsum f l)%Q.
Proof.
  induction l as [|a l IH]; intros Hf; simpl; [lra|].
  pose proof (Hf a (list_elem_of_here _ _)).
  pose proof (IH (λ b Hb, Hf b (list_elem_of_further _ _ _ Hb))). lra.
Qed.

Lemma Qsum_zero f l : (∀ a, a ∈ l → (f a == 0)%Q) → (Qsum f l == 0)%Q.
Proof.
  induction l as [|a l IH]; intros Hf; simpl; [lra|].
  pose proof (Hf a (list_elem_of_here _ _)).
  pose proof (IH (λ b Hb, Hf b (list_elem_of_further _ _ _ Hb))). lra.
Qed.

Lemma Qsum_fmap {B} (h : B → A) f (l : list B) : Qsum f (h <$> l) = Qsum (λ b, f (h b)) l.
Proof.
  induction l as [|b l IH]; [done|].
  change (Qsum f (h <$> b :: l)) with (f (h b) + Qsum f (h <$> l))%Q. by rewrite IH.
Qed.
End Sums.

Lemma Qsum_submseteq {A} (f : A → Q) (l k : list A) :
  l ⊆+ k → (∀ a, a ∈ k → (0 <= f a)%Q) → (Qsum f l <= Qsum f k)%Q.
Proof.
  intros [k' Hk']%submseteq_Permutation Hpos.
  rewrite (Qsum_perm f _ _ Hk'), Qsum_app.
  assert (0 <= Qsum f k')%Q; [|lra].
  apply Qsum_nonneg. intros a Ha. apply Hpos. rewrite Hk'. apply elem_of_app. by right.
Qed.

Lemma matched_rows_all {F} NX NY (st : solver F) :
  matched_rows NX NY st NX → ∀ x, x < NX → xy st !!! x ≠ (-1)%Z.
Proof.
  intros (_ & _ & ms & Hnd & Hlen & Hms) x Hx.
  assert (Hperm : ms ≡ₚ seq 0 NX).
  { apply NoDup_below_perm; [done..|]. intros x0 Hx0. by apply Hms. }
  apply Hms. rewrite Hperm. apply elem_of_seq. lia.
Qed.

Section Optimal.
Variable value : list (list xreal).
Variables NX NY : nat.
Variable st : solver xreal.
Hypothesis rows : matched_rows NX NY st NX.
Hypothesis labels : labels_out value NX NY st.

Lemma partner_spec x :
  x < NX → partner st x < NY ∧ yx st !!! partner st x = Z.of_nat x.
Proof.
  intros Hx. destruct rows as (_ & (_ & _ & Hxy & _) & _).
  pose proof (matched_rows_all _ _ _ rows x Hx).
  unfold partner. destruct (Hxy x Hx) as [?|[? ?]]; [done|]. split; [lia|done].
Qed.

Lemma partner_NoDup : NoDup (partner st <$> seq 0 NX).
Proof.
  apply NoDup_fmap_2_strong; [|apply NoDup_seq].
  intros x x' Hx%elem_of_seq Hx'%elem_of_seq Heq.
  destruct (partner_spec x ltac:(lia)) as [_ H1].
  destruct (partner_spec x' ltac:(lia)) as [_ H2].
  rewrite Heq in H1. rewrite H1 in H2. lia.
Qed.

(** The labels of the columns sum to the labels of the matched columns. *)
Lemma column_labels_matched :
  (Qsum (λ y, qv (ly st !!! y)) (seq 0 NY)
   == Qsum (λ x, qv (ly st !!! partner st x)) (seq 0 NX))%Q.
Proof.
  assert (Hsub : partner st <$> seq 0 NX ⊆+ seq 0 NY).
  { apply NoDup_submseteq; [apply partner_NoDup|].
    intros y (x & -> & Hx%elem_of_seq)%list_elem_of_fmap.
    apply elem_of_seq. destruct (partner_spec x ltac:(lia)). lia. }
  apply submseteq_Permutation in Hsub as [k Hk].
  rewrite (Qsum_perm _ _ _ Hk), Qsum_app, Qsum_fmap.
  assert (Hz : (Qsum (λ y, qv (ly st !!! y)) k == 0)%Q); [|lra].
  apply Qsum_zero. intros y Hy.
  assert (HyNY : y < NY).
  { assert (y ∈ seq 0 NY) as ?%elem_of_seq; [|lia].
    rewrite Hk. apply elem_of_app. by right. }
  assert (Hnd : NoDup ((partner st <$> seq 0 NX) ++ k)) by (rewrite <- Hk; apply NoDup_seq).
  apply list.NoDup_app in Hnd as (_ & Hdisj & _).
  apply (lo_ly _ _ _ _ labels y HyNY).
  destruct rows as (_ & (_ & _ & _ & Hyx) & _).
  destruct (Hyx y HyNY) as [?|[Hrange Hback]]; [done|exfalso].
  apply (Hdisj y); [|done].
  apply list_elem_of_fmap. exists (Z.to_nat (yx st !!! y)). split.
  - unfold partner. rewrite Hback. by rewrite Nat2Z.id.
  - apply elem_of_seq. lia.
Qed.

(** Any other way to give each row a column of its own has a total value
    at most [NX] tolerances above that of the matching of the solver. *)
Lemma labels_optimal (es : list (nat * nat)) :
  fst <$> es ≡ₚ seq 0 NX → NoDup (snd <$> es) → (∀ e, e ∈ es → e.2 < NY) →
  (Qsum (λ e, val_q value e.1 e.2) es
   <= Qsum (λ x, val_q value x (partner st x)) (seq 0 NX)
      + inject_Z (Z.of_nat NX) * tol)%Q.
Proof.
  intros Hrows Hnd Hcols.
  assert (Hfst : ∀ e, e ∈ es → e.1 < NX).
  { intros e He. assert (e.1 ∈ seq 0 NX) as ?%elem_of_seq; [|lia].
    rewrite <- Hrows. apply list_elem_of_fmap. by exists e. }
  assert (H1 : (Qsum (λ e, val_q value e.1 e.2) es
                <= Qsum (λ e, qv (lx st !!! e.1) + qv (ly st !!! e.2)) es)%Q).
  { apply Qsum_le. intros e He.
    pose proof (lo_feas _ _ _ _ labels e.1 e.2 (Hfst e He) (Hcols e He)) as Hf.
    unfold gap in Hf. lra. }
  rewrite Qsum_plus in H1.
  assert (H2 : (Qsum (λ e, qv (lx st !!! e.1)) es
                == Qsum (λ x, qv (lx st !!! x)) (seq 0 NX))%Q).
  { rewrite <- (Qsum_fmap fst (λ x, qv (lx st !!! x))). by apply Qsum_perm. }
  assert (H3 : (Qsum (λ e, qv (ly st !!! e.2)) es
                <= Qsum (λ y, qv (ly st !!! y)) (seq 0 NY))%Q).
  { rewrite <- (Qsum_fmap snd (λ y, qv (ly st !!! y))). apply Qsum_submseteq.
    - apply NoDup_submseteq; [done|].
      intros y (e & -> & He)%list_elem_of_fmap. apply elem_of_seq.
      specialize (Hcols e He). lia.
    - intros y Hy%elem_of_seq. apply (lo_ly _ _ _ _ labels). lia. }
  rewrite column_labels_matched in H3.
  assert (H4 : (Qsum (λ x, qv (lx st !!! x) + qv (ly st !!! partner st x)) (seq 0 NX)
                <= Qsum (λ x, val_q value x (partner st x) + tol) (seq 0 NX))%Q).
  { apply Qsum_le. intros x Hx%elem_of_seq.
    pose proof (lo_matched _ _ _ _ labels x ltac:(lia)
                  (matched_rows_all _ _ _ rows x ltac:(lia))) as Hm.
    unfold gap in Hm. fold (partner st x) in Hm. lra. }
  rewrite !Qsum_plus in H4. rewrite Qsum_const, length_seq in H4. lra.
Qed.
End Optimal.

(** ** Termination of the solver *)

Lemma NoDup_below_length (l : list nat) n : NoDup l → (∀ x, x ∈ l → x < n) → length l ≤ n.
Proof.
  intros Hnd Hlt. transitivity (length (seq 0 n)); [|by rewrite length_seq].
  apply submseteq_length.
  apply NoDup_submseteq; [done|]. intros x Hx. apply elem_of_seq. specialize (Hlt x Hx). lia.
Qed.

Lemma count_false_insert (l : list bool) y :
  y < length l → l !!! y = false →
  length (filter (λ b : bool, b = false) (<[y := true]> l)) + 1
  = length (filter (λ b : bool, b = false) l).
Proof.
  revert y. induction l as [|b l IH]; intros y Hy Hb; simpl in Hy; [lia|].
  destruct y as [|y]; simpl in *.
  - subst b. rewrite filter_cons_False by done. rewrite filter_cons_True by done.
    simpl. lia.
  - specialize (IH y ltac:(lia) Hb).
    destruct b.
    + rewrite !filter_cons_False by done. done.
    + rewrite !filter_cons_True by done. simpl. lia.
Qed.

Section Counting.
Context {F : Type} `{Scalar F}.
Variable value : list (list F).
Variables NX NY : nat.
Implicit Types (st : solver F) (q : list nat).

Lemma free_cols_set_T st y :
  y < length (in_T st) → in_T st !!! y = false → free_cols (set_T y st) + 1 = free_cols st.
Proof. apply count_false_insert. Qed.

Lemma free_cols_le st : free_cols st ≤ length (in_T st).
Proof. apply length_filter. Qed.

(** Each row that enters the queue comes with a column that enters T. *)
Lemma bfs_row_free x ys st q st' q' r :
  (∀ y, y ∈ ys → y < NY) → length (in_T st) = NY →
  bfs_row value x ys st q = (st', q', r) →
  length (in_T st') = NY ∧ free_cols st' ≤ free_cols st
  ∧ length q' + free_cols st' ≤ length q + free_cols st.
Proof.
  intros Hys Hlen Hrun.
  destruct (bfs_row_rule value
              (λ st0 q0, length (in_T st0) = NY ∧ free_cols st0 ≤ free_cols st
                         ∧ length q0 + free_cols st0 ≤ length q + free_cols st)
              x ys st q st' q' r) as [HP _]; [|by auto with lia|done|done].
  intros y st0 q0 Hy (Hl0 & Hf0 & Hq0) _ HT _.
  pose proof (free_cols_set_T st0 y ltac:(specialize (Hys y Hy); lia) HT) as Hset.
  change (free_cols (add_to_tree value (Z.to_nat (yx st0 !!! y)) (Z.of_nat x) (set_T y st0)))
    with (free_cols (set_T y st0)).
  change (in_T (add_to_tree value (Z.to_nat (yx st0 !!! y)) (Z.of_nat x) (set_T y st0)))
    with (<[y := true]> (in_T st0)).
  rewrite length_insert, length_app. simpl. lia.
Qed.

Lemma grow_row_free ys st q st' q' r :
  (∀ y, y ∈ ys → y < NY) → length (in_T st) = NY →
  grow_row value ys st q = (st', q', r) →
  length (in_T st') = NY ∧ free_cols st' ≤ free_cols st
  ∧ length q' + free_cols st' ≤ length q + free_cols st.
Proof.
  intros Hys Hlen Hrun.
  destruct (grow_row_rule value
              (λ st0 q0, length (in_T st0) = NY ∧ free_cols st0 ≤ free_cols st
                         ∧ length q0 + free_cols st0 ≤ length q + free_cols st)
              ys st q st' q' r) as [HP _]; [|by auto with lia|done|done].
  intros y st0 q0 Hy (Hl0 & Hf0 & Hq0) HT _ _.
  pose proof (free_cols_set_T st0 y ltac:(specialize (Hys y Hy); lia) HT) as Hset.
  split; intros _.
  - change (free_cols (add_to_tree value (Z.to_nat (yx st0 !!! y))
                         (Z.of_nat (slackx st0 !!! y)) (set_T y st0)))
      with (free_cols (set_T y st0)).
    change (in_T (add_to_tree value (Z.to_nat (yx st0 !!! y))
                    (Z.of_nat (slackx st0 !!! y)) (set_T y st0)))
      with (<[y := true]> (in_T st0)).
    rewrite length_insert, length_app. simpl. lia.
  - change (in_T (set_T y st0)) with (<[y := true]> (in_T st0)).
    rewrite length_insert. lia.
Qed.

(** A column outside T whose slack is zero either ends the search or
    enters T. *)
Lemma grow_row_progress ystar ys st q st' q' :
  (∀ y, y ∈ ys → y < NY) → length (in_T st) = NY →
  ystar ∈ ys → in_T st !!! ystar = false → f_eq (slack st !!! ystar) f_zero = true →
  grow_row value ys st q = (st', q', None) → free_cols st' < free_cols st.
Proof.
  revert st q. induction ys as [|y ys IH]; intros st q Hys Hlen Hin HT Hz Hrun.
  { by apply elem_of_nil in Hin. }
  assert (Hys' : ∀ y0, y0 ∈ ys → y0 < NY) by (intros y0 ?; apply Hys; by right).
  simpl in Hrun.
  destruct (in_T st !!! y) eqn:HTy; simpl in Hrun.
  { apply elem_of_cons in Hin as [->|Hin]; [congruence|]. by eapply IH. }
  destruct (f_eq (slack st !!! y) f_zero) eqn:Hzy; simpl in Hrun.
  - case_bool_decide as Hyx; [done|].
    pose proof (free_cols_set_T st y ltac:(specialize (Hys y (list_elem_of_here _ _)); lia) HTy)
      as Hset.
    assert (Hl' : length (in_T (set_T y st)) = NY).
    { change (in_T (set_T y st)) with (<[y := true]> (in_T st)). by rewrite length_insert. }
    change (in_S (set_T y st)) with (in_S st) in Hrun.
    destruct (in_S st !!! Z.to_nat (yx st !!! y)); simpl in Hrun.
    + destruct (grow_row_free _ _ _ _ _ _ Hys' Hl' Hrun) as (_ & Hle & _). lia.
    + apply grow_row_free in Hrun as (_ & Hle & _); [|done|done].
      change (free_cols (add_to_tree value ?x ?p (set_T y st)))
        with (free_cols (set_T y st)) in Hle. lia.
  - apply elem_of_cons in Hin as [->|Hin]; [congruence|]. by eapply IH.
Qed.

(** The queue empties: [while (rd < wr)] returns. *)
Lemma bfs_returns fuel st q :
  length (in_T st) = NY → length q + free_cols st ≤ fuel →
  ∃ st' r, bfs value NY fuel st q = Returned (st', r)
           ∧ length (in_T st') = NY ∧ free_cols st' ≤ free_cols st.
Proof.
  revert st q. induction fuel as [|fuel IH]; intros st q Hlen Hfuel.
  { destruct q; simpl in *; [|lia]. by exists st, None. }
  destruct q as [|x q]; [by exists st, None|]. simpl.
  destruct (bfs_row value x (seq 0 NY) st q) as [[st1 q1] [y|]] eqn:Hrow.
  - apply bfs_row_free in Hrow as (Hl1 & Hf1 & _); [|intros y0 ?%elem_of_seq; lia|done].
    by exists st1, (Some (x, y)).
  - apply bfs_row_free in Hrow as (Hl1 & Hf1 & Hq1); [|intros y0 ?%elem_of_seq; lia|done].
    simpl in Hfuel.
    destruct (IH st1 q1 Hl1 ltac:(lia)) as (st' & r & Hrun & Hl' & Hf').
    exists st', r. split_and!; [done|done|lia].
Qed.

(** An unmatched row with a label above [DBL_MIN] gives [root] a value. *)
Lemma find_root_some st x0 :
  x0 < NX → xy st !!! x0 = (-1)%Z → f_ltb f_dbl_min (lx st !!! x0) = true →
  ∃ root, find_root NX st = Some root.
Proof.
  intros Hx0 Hfree Hlt. unfold find_root.
  set (step := λ '(best_lx, root) (x : nat),
         if bool_decide (xy st !!! x = (-1)%Z) then
           if f_ltb best_lx (lx st !!! x) then (lx st !!! x, Some x) else (best_lx, root)
         else (best_lx, root)).
  assert (Hkeep : ∀ xs (acc : F * option nat), is_Some acc.2 → is_Some (fold_left step xs acc).2).
  { induction xs as [|x xs IH]; intros [b r] Hr; simpl; [done|]. apply IH.
    case_bool_decide; [|done]. destruct (f_ltb b (lx st !!! x)); [by eexists|done]. }
  assert (Hfind : ∀ xs (acc : F * option nat),
            (acc.2 = None → acc.1 = f_dbl_min) → x0 ∈ xs → is_Some (fold_left step xs acc).2).
  { induction xs as [|x xs IH]; intros [b r] Hacc Hin; simpl; [by apply elem_of_nil in Hin|].
    apply elem_of_cons in Hin as [<-|Hin].
    - apply Hkeep. rewrite bool_decide_true by done.
      destruct r as [r|].
      + destruct (f_ltb b (lx st !!! x0)); by eexists.
      + simpl in Hacc. rewrite (Hacc eq_refl), Hlt. by eexists.
    - apply IH; [|done]. case_bool_decide; [|done].
      destruct (f_ltb b (lx st !!! x)); [done|done]. }
  destruct (Hfind (seq 0 NX) (f_dbl_min, None)) as [root Hroot]; [done|apply elem_of_seq; lia|].
  by exists root.
Qed.
End Counting.

Section Exposed.
Context {F : Type}.
Variables NX NY : nat.

(** With a row unmatched and no more rows than columns, a column is
    unmatched. *)
Lemma exposed_column (xy1 yx1 : list Z) r :
  matching NX NY xy1 yx1 → NX ≤ NY → r < NX → xy1 !!! r = (-1)%Z →
  ∃ y, y < NY ∧ yx1 !!! y = (-1)%Z.
Proof.
  intros (Hlx & Hly & Hxy & Hyx) Hle Hr Hfree.
  destruct (decide (Exists (λ y, yx1 !!! y = (-1)%Z) (seq 0 NY))) as [Hex|Hno].
  { apply list.Exists_exists in Hex as (y & Hy%elem_of_seq & Hy1). exists y. split; [lia|done]. }
  exfalso. apply (not_Exists_Forall _) in Hno. rewrite list.Forall_forall in Hno.
  assert (Hm : ∀ y, y < NY →
            (0 ≤ yx1 !!! y < Z.of_nat NX)%Z ∧ xy1 !!! Z.to_nat (yx1 !!! y) = Z.of_nat y).
  { intros y Hy. destruct (Hyx y Hy) as [Hn|?]; [|done].
    exfalso. apply (Hno y); [apply elem_of_seq; lia|done]. }
  assert (Hnd : NoDup (r :: ((λ y, Z.to_nat (yx1 !!! y)) <$> seq 0 NY))).
  { apply list.NoDup_cons. split.
    - intros (y & Hfy & Hy%elem_of_seq)%list_elem_of_fmap.
      destruct (Hm y ltac:(lia)) as [_ Hb]. rewrite <- Hfy in Hb. lia.
    - apply NoDup_fmap_2_strong; [|apply NoDup_seq].
      intros y1 y2 H1%elem_of_seq H2%elem_of_seq Heq.
      destruct (Hm y1 ltac:(lia)) as [_ Hb1]. destruct (Hm y2 ltac:(lia)) as [_ Hb2].
      rewrite Heq in Hb1. lia. }
  apply NoDup_below_length with (n := NX) in Hnd.
  - simpl in Hnd. rewrite length_fmap, length_seq in Hnd. lia.
  - intros x [->|(y & -> & Hy%elem_of_seq)%list_elem_of_fmap]%elem_of_cons; [done|].
    destruct (Hm y ltac:(lia)). lia.
Qed.

(** While fewer than [NX] rows are matched, a row is unmatched. *)
Lemma unmatched_row (st : solver F) n :
  matched_rows NX NY st n → n < NX → ∃ x, x < NX ∧ xy st !!! x = (-1)%Z.
Proof.
  intros (_ & _ & ms & Hnd & Hlen & Hms) Hn.
  destruct (decide (Exists (λ x, xy st !!! x = (-1)%Z) (seq 0 NX))) as [Hex|Hno].
  { apply list.Exists_exists in Hex as (x & Hx%elem_of_seq & Hx1). exists x. split; [lia|done]. }
  exfalso. apply (not_Exists_Forall _) in Hno. rewrite list.Forall_forall in Hno.
  assert (Hsub : seq 0 NX ⊆+ ms).
  { apply NoDup_submseteq; [apply NoDup_seq|]. intros x Hx. apply Hms.
    split; [apply elem_of_seq in Hx; lia|]. by apply Hno. }
  apply submseteq_length in Hsub. rewrite length_seq in Hsub. lia.
Qed.
End Exposed.

(** The walk along [prev] climbs the tree, so it ends at the root within
    [NX] steps. *)
Section AugmentReturns.
Context {F : Type}.
Variables NX NY r : nat.
Variable d : nat → nat.
Variable st0 : solver F.
Hypothesis tree : tree_ok NX NY r d st0.

Lemma augment_walk_returns fuel xy1 yx1 cx cy (seen : list nat) :
  inverting NX NY r d (λ _ _, True) st0 xy1 yx1 cx cy → cx ≠ (-1)%Z →
  NoDup seen →
  (∀ x, x ∈ seen → x < NX ∧ ((0 ≤ cx)%Z → d (Z.to_nat cx) < d x)) →
  NX ≤ length seen + fuel →
  ∃ res, augment fuel (prev st0) xy1 yx1 cx cy = Returned res.
Proof.
  revert xy1 yx1 cx cy seen.
  induction fuel as [|fuel IH]; intros xy1 yx1 cx cy seen Hinv Hcx Hnd Hseen Hfuel.
  - simpl. case_bool_decide as Hend; [by eexists|]. exfalso.
    destruct Hinv as ((_ & _ & _ & _ & _ & _ & _ & Hrange & _) & _).
    assert (Hcx0 : (0 ≤ cx)%Z) by lia.
    assert (Hnd' : NoDup (Z.to_nat cx :: seen)).
    { apply list.NoDup_cons. split; [|done]. intros Hin.
      destruct (Hseen _ Hin) as [_ Hd]. specialize (Hd Hcx0). lia. }
    apply NoDup_below_length with (n := NX) in Hnd'; [simpl in Hnd'; lia|].
    intros x [->|Hx]%elem_of_cons; [lia|]. by apply Hseen.
  - simpl. case_bool_decide as Hend; [by eexists|].
    pose proof Hinv as ((_ & _ & _ & _ & _ & _ & _ & Hrange & _) & _ & _ & _ & _ & _ & Hpend & _).
    assert (Hcx0 : (0 ≤ cx)%Z) by lia.
    destruct (Hpend Hcx0) as (HS & Hcy0 & _).
    rewrite bool_decide_false by lia. rewrite bool_decide_false by lia. simpl.
    assert (HX : Z.to_nat cx < NX) by lia.
    destruct (t_root _ _ _ _ _ tree) as (Hr & HSr & Hpr & Hxyr).
    apply (IH _ _ _ _ (Z.to_nat cx :: seen)).
    + apply (inverting_step NX NY r d (λ _ _, True) st0 tree); [done|done|done|done].
    + destruct (decide (Z.to_nat cx = r)) as [->|Hne]; [lia|].
      destruct (t_S _ _ _ _ _ tree _ HX HS Hne) as (_ & _ & px & -> & _). lia.
    + apply list.NoDup_cons. split; [|done]. intros Hin.
      destruct (Hseen _ Hin) as [_ Hd]. specialize (Hd Hcx0). lia.
    + intros x Hx. destruct (decide (Z.to_nat cx = r)) as [Heq|Hne].
      { rewrite Heq, Hpr. split; [|lia].
        apply elem_of_cons in Hx as [->|Hx]; [lia|]. by apply Hseen. }
      destruct (t_S _ _ _ _ _ tree _ HX HS Hne) as (_ & _ & px & -> & _ & _ & Hd).
      rewrite Nat2Z.id.
      apply elem_of_cons in Hx as [->|Hx]; [split; [done|lia]|].
      destruct (Hseen _ Hx) as [? Hdx]. specialize (Hdx Hcx0). split; [done|lia].
    + simpl. lia.
Qed.

Lemma augment_returns fuel (x y : nat) :
  x < NX → in_S st0 !!! x = true → y < NY → yx st0 !!! y = (-1)%Z → NX ≤ fuel →
  ∃ res, augment fuel (prev st0) (xy st0) (yx st0) (Z.of_nat x) (Z.of_nat y) = Returned res.
Proof.
  intros Hx HSx Hy Hfree Hfuel.
  destruct (t_matching _ _ _ _ _ tree) as (Hlx & Hly & Hxy & Hyx).
  apply (augment_walk_returns fuel _ _ _ _ []); [|lia|apply NoDup_nil_2| |simpl; lia].
  - unfold inverting, augmenting. split_and!; try done; try lia.
    + intros y0 Hy0 _. by apply Hyx.
    + intros x0 Hx0 _ Heq. destruct (Hxy x0 Hx0) as [?|[_ Hb]]; [lia|].
      rewrite Heq, Nat2Z.id in Hb. lia.
    + intros _ x0 Hx0. by eapply tree_prev_root.
    + intros _. rewrite !Nat2Z.id. split_and!; [done|lia|done].
  - by intros ? ?%elem_of_nil.
Qed.
End AugmentReturns.

Lemma dbl_min_lt_one : (qv (@f_dbl_min xreal exact) < 1)%Q.
Proof.
  change (qv f_dbl_min) with (this (Q2Qc (1 # 2 ^ 1022))).
  rewrite this_Q2Qc. unfold Qlt. simpl. lia.
Qed.

Section Unchanged.
Context {F : Type} `{Scalar F}.
Variable value : list (list F).
Variable NY : nat.

(** The search writes [lx] in [update_labels] only. *)
Lemma bfs_row_lx x ys (st : solver F) q st' q' r :
  bfs_row value x ys st q = (st', q', r) → lx st' = lx st.
Proof.
  intros Hrun.
  by destruct (bfs_row_rule value (λ st0 _, lx st0 = lx st) x ys st q st' q' r) as [HP _].
Qed.

Lemma grow_row_lx ys (st : solver F) q st' q' r :
  grow_row value ys st q = (st', q', r) → lx st' = lx st.
Proof.
  intros Hrun.
  by destruct (grow_row_rule value (λ st0 _, lx st0 = lx st) ys st q st' q' r) as [HP _].
Qed.

Lemma bfs_lx fuel (st : solver F) q st' r :
  bfs value NY fuel st q = Returned (st', r) → lx st' = lx st.
Proof.
  intros Hrun.
  pose proof (bfs_rule value NY (λ st0 _, lx st0 = lx st) (λ st0 _ _, lx st0 = lx st)
                fuel st q st' r) as Hrule.
  destruct r as [[x y]|]; apply Hrule; try done.
  - intros x0 q0 st0 st1 q1 <- Hrow. by eapply bfs_row_lx.
  - intros x0 q0 st0 st1 q1 y0 <- Hrow. by eapply bfs_row_lx.
  - intros x0 q0 st0 st1 q1 <- Hrow. by eapply bfs_row_lx.
  - intros x0 q0 st0 st1 q1 y0 <- Hrow. by eapply bfs_row_lx.
Qed.
End Unchanged.

Section ExactTermination.
Variable value : list (list xreal).
Variables NX NY : nat.
Variable B : Q.
Hypothesis value_fin : ∀ x y, x < NX → y < NY → fin ((value !!! x) !!! y).
Hypothesis value_range : ∀ x y, x < NX → y < NY → (1 <= val_q value x y <= B)%Q.
Hypothesis B_range : (1 <= B)%Q ∧ (B - 1 <= qv (@f_dbl_max xreal exact))%Q.
Hypothesis NX_le_NY : NX ≤ NY.

(** [delta] is the slack of a column outside T, as soon as one of them has
    a slack that [DBL_MAX] does not cut. *)
Lemma min_slack_attained (st : solver xreal) y0 :
  length (slack st) = NY → Forall fin (slack st) →
  (∀ y, y < NY → (0 <= qv (slack st !!! y))%Q) →
  y0 < NY → in_T st !!! y0 = false → (qv (slack st !!! y0) <= qv (@f_dbl_max xreal exact))%Q →
  ∃ y, y < NY ∧ in_T st !!! y = false ∧ (qv (slack st !!! y) == qv (min_slack NY st))%Q.
Proof.
  intros Hlen Hfs Hpos Hy0 HT0 Hle0.
  destruct (min_slack_spec NY st Hlen Hfs Hpos) as (_ & _ & Hmin).
  assert (Hgen : ∀ ys (a : xreal), fin a → Forall (λ y, y < NY) ys →
    let m := fold_left (λ (delta : xreal) (y : nat),
                if negb (in_T st !!! y) then f_min delta (slack st !!! y) else delta) ys a in
    m = a ∨ ∃ y, y ∈ ys ∧ in_T st !!! y = false ∧ m = slack st !!! y).
  { induction ys as [|y ys IH]; intros a Ha Hys; simpl; [by left|].
    apply list.Forall_cons in Hys as [Hy Hys].
    pose proof (fin_lookup _ y Hfs ltac:(lia)) as Hfy.
    destruct (fin_min a (slack st !!! y) Ha Hfy) as (Hfm & _ & _ & Hor).
    destruct (in_T st !!! y) eqn:HT; simpl.
    - destruct (IH a Ha Hys) as [?|(y' & ? & ? & ?)]; [by left|right].
      exists y'. split_and!; [by right|done..].
    - destruct (IH _ Hfm Hys) as [Hm|(y' & ? & ? & ?)].
      + destruct Hor as [Hor|Hor]; [left; congruence|right].
        exists y. split_and!; [by left|done|congruence].
      + right. exists y'. split_and!; [by right|done..]. }
  destruct fin_dbl_max as [Hfd _].
  destruct (Hgen (seq 0 NY) f_dbl_max Hfd) as [Hm|(y & Hy%elem_of_seq & HT & Hm)].
  { apply list.Forall_forall. intros y Hy%elem_of_seq. lia. }
  - exists y0. split_and!; [done..|]. specialize (Hmin y0 Hy0 HT0).
    fold (min_slack NY st) in Hm. rewrite Hm in *. lra.
  - exists y. split_and!; [lia|done|]. fold (min_slack NY st) in Hm. by rewrite Hm.
Qed.

Lemma init_solver_lx_below : lx_below NX B (init_solver value NX NY).
Proof.
  intros x Hx. fields. rewrite lookup_total_fmap_seq by done.
  assert (Hgen : ∀ ys (a : xreal), (qv a <= B)%Q → Forall (λ y, y < NY) ys →
    (qv (fold_left (λ (l : xreal) (y : nat), f_max l ((value !!! x) !!! y)) ys a) <= B)%Q).
  { induction ys as [|y ys IH]; intros a Ha Hys; simpl; [done|].
    apply list.Forall_cons in Hys as [Hy Hys]. apply IH; [|done].
    unfold f_max. destruct (f_ltb a ((value !!! x) !!! y)); [|done].
    apply (value_range x y Hx Hy). }
  apply Hgen.
  - change (qv f_zero) with (this 0%Qc). change (this 0%Qc) with 0%Q. lra.
  - apply list.Forall_forall. intros y Hy%elem_of_seq. lia.
Qed.

Lemma lx_below_ext (st st' : solver xreal) : lx st' = lx st → lx_below NX B st → lx_below NX B st'.
Proof. unfold lx_below. by intros ->. Qed.

Lemma slack_nonneg r d st :
  tree_ok NX NY r d st → labels_ok value NX NY r st →
  ∀ y, y < NY → (0 <= qv (slack st !!! y))%Q.
Proof.
  intros Hok Hl y Hy. rewrite (l_slack _ _ _ _ _ Hl y Hy).
  apply (lo_feas _ _ _ _ (l_out _ _ _ _ _ Hl)); [|done].
  by apply (t_slackx _ _ _ _ _ Hok).
Qed.

Lemma update_labels_lx_below r d st :
  tree_ok NX NY r d st → labels_ok value NX NY r st →
  lx_below NX B st → lx_below NX B (update_labels NY st).
Proof.
  intros Hok Hl Hb x Hx.
  destruct (t_shaped _ _ _ _ _ Hok) as (Hlx & _ & _ & _ & Hls & _).
  destruct (min_slack_spec NY st Hls (l_fin_slack _ _ _ _ _ Hl) (slack_nonneg r d st Hok Hl))
    as (Hfd & Hdpos & _).
  fields. rewrite lookup_total_imap by lia.
  pose proof (fin_lookup _ x (lo_fin_lx _ _ _ _ (l_out _ _ _ _ _ Hl)) ltac:(lia)) as Hf.
  specialize (Hb x Hx).
  destruct (in_S st !!! x); [|done].
  destruct (fin_sub _ _ Hf Hfd) as [_ ->]. lra.
Qed.

(** After [update_labels] a column outside T has slack zero. *)
Lemma update_labels_zero r d st :
  tree_ok NX NY r d st → labels_ok value NX NY r st → lx_below NX B st →
  ∃ y, y < NY ∧ in_T (update_labels NY st) !!! y = false
       ∧ f_eq (slack (update_labels NY st) !!! y) f_zero = true.
Proof.
  intros Hok Hl Hb.
  destruct (t_shaped _ _ _ _ _ Hok) as (Hlx & _ & _ & HlT & Hls & _).
  destruct (t_root _ _ _ _ _ Hok) as (Hr & _ & _ & Hxyr).
  destruct (exposed_column NX NY _ _ r (t_matching _ _ _ _ _ Hok) NX_le_NY Hr Hxyr)
    as (y0 & Hy0 & Hfree).
  assert (HT0 : in_T st !!! y0 = false).
  { destruct (in_T st !!! y0) eqn:HT; [|done].
    by destruct (t_T _ _ _ _ _ Hok y0 Hy0 HT). }
  pose proof (slack_nonneg r d st Hok Hl) as Hpos.
  pose proof (l_fin_slack _ _ _ _ _ Hl) as Hfs.
  assert (Hle0 : (qv (slack st !!! y0) <= qv (@f_dbl_max xreal exact))%Q).
  { rewrite (l_slack _ _ _ _ _ Hl y0 Hy0). unfold gap.
    destruct (t_slackx _ _ _ _ _ Hok y0 Hy0) as [Hsx _].
    destruct (lo_ly _ _ _ _ (l_out _ _ _ _ _ Hl) y0 Hy0) as [_ Hz].
    rewrite (Hz Hfree). specialize (Hb _ Hsx).
    destruct (value_range _ y0 Hsx Hy0). destruct B_range. lra. }
  destruct (min_slack_attained st y0 Hls Hfs Hpos Hy0 HT0 Hle0) as (y & Hy & HT & Heq).
  destruct (min_slack_spec NY st Hls Hfs Hpos) as (Hfd & _ & _).
  exists y. split_and!; [done|done|].
  fields. rewrite lookup_total_imap by lia. rewrite HT. cbn [negb].
  pose proof (fin_lookup _ y Hfs ltac:(lia)) as Hfy.
  destruct (fin_sub _ _ Hfy Hfd) as [Hf Hs].
  apply fin_eq; [done|apply fin_zero|]. rewrite Hs, Heq.
  change (qv f_zero) with (this 0%Qc). change (this 0%Qc) with 0%Q.
  unfold tol. lra.
Qed.

(** [while (true)] returns: each turn that does not find an exposed column
    puts a column in T. *)
Lemma main_cycle_returns r fuel st q :
  searching_exact value NX NY r st q → lx_below NX B st →
  2 * free_cols st + length q < fuel →
  ∃ st' x y, main_cycle value NY fuel st q = Returned (st', x, y) ∧ lx_below NX B st'.
Proof.
  revert st q. induction fuel as [|fuel IH]; intros st q Hs Hb Hfuel; [lia|].
  rewrite main_cycle_S.
  pose proof Hs as [[[d Hok] _] _].
  destruct (t_shaped _ _ _ _ _ Hok) as (_ & _ & _ & HlT & _).
  destruct (bfs_returns value NY (S fuel) st q HlT ltac:(lia)) as (st1 & r1 & Hbfs & HlT1 & Hf1).
  rewrite Hbfs, bind_Returned.
  pose proof (lx_below_ext _ _ (bfs_lx _ _ _ _ _ _ _ Hbfs) Hb) as Hb1.
  destruct r1 as [[x1 y1]|]; [by exists st1, x1, y1|].
  assert (Hs1 : searching_exact value NX NY r st1 []).
  { apply (bfs_rule value NY (searching_exact value NX NY r) (λ _ _ _, True)
             _ _ _ _ None) in Hbfs; [done| |done|done].
    intros x0 q0 st0 st2 q2 Hs0 Hrow.
    apply (searching_exact_bfs_row value NX NY value_fin _ _ _ _ _ _ _ Hs0 Hrow). }
  destruct Hs1 as [[[d1 Hok1] Hq1] Hl1].
  destruct (grow_row value (seq 0 NY) (update_labels NY st1) []) as [[st2 q2] [[x2 y2]|]] eqn:Hg.
  - exists st2, x2, y2. split; [done|].
    apply (lx_below_ext _ _ (grow_row_lx _ _ _ _ _ _ _ Hg)).
    by eapply update_labels_lx_below.
  - apply IH.
    + apply (searching_exact_grow_row value NX NY value_fin r st1 st2 q2 None); [|done].
      split; [split; [by eexists|done]|done].
    + apply (lx_below_ext _ _ (grow_row_lx _ _ _ _ _ _ _ Hg)).
      by eapply update_labels_lx_below.
    + destruct (update_labels_zero r d1 st1 Hok1 Hl1 Hb1) as (ystar & Hystar & HT & Hz).
      assert (Hseq : ∀ y, y ∈ seq 0 NY → y < NY) by (intros y ?%elem_of_seq; lia).
      pose proof (grow_row_progress value NY ystar _ (update_labels NY st1) _ _ _ Hseq HlT1
                    ltac:(apply elem_of_seq; lia) HT Hz Hg) as Hlt.
      destruct (grow_row_free value NY _ (update_labels NY st1) _ _ _ _ Hseq HlT1 Hg)
        as (_ & _ & Hq2).
      change (free_cols (update_labels NY st1)) with (free_cols st1) in *.
      simpl in Hq2. lia.
Qed.

(** The outer loop returns after its [NX] augmentations. *)
Lemma match_loop_returns fuel st n :
  matched_rows NX NY st n → labels_out value NX NY st → lx_below NX B st →
  n ≤ NX → (NX - n) + 2 * NY + 2 ≤ fuel →
  ∃ st', match_loop value NX NY fuel st n = Returned st'.
Proof.
  revert st n. induction fuel as [|fuel IH]; intros st n HR Hl Hb Hn Hfuel; [lia|].
  rewrite match_loop_S. case_bool_decide as Hlt; [|by eexists].
  replace (NX `min` NY) with NX in Hlt by lia.
  destruct (unmatched_row NX NY st n HR Hlt) as (x0 & Hx0 & Hfree0).
  pose proof HR as (Hsh & Hm & _).
  destruct (exposed_column NX NY _ _ x0 Hm NX_le_NY Hx0 Hfree0) as (y0 & Hy0 & Hfy0).
  destruct (find_root_some NX st x0 Hx0 Hfree0) as [root Hroot].
  { destruct Hsh as (Hlx & _).
    apply fin_ltb; [apply fin_XFin|apply fin_lookup; [apply (lo_fin_lx _ _ _ _ Hl)|lia]|].
    pose proof (lo_feas _ _ _ _ Hl x0 y0 Hx0 Hy0) as Hfeas. unfold gap in Hfeas.
    destruct (lo_ly _ _ _ _ Hl y0 Hy0) as [_ Hz]. rewrite (Hz Hfy0) in Hfeas.
    destruct (value_range x0 y0 Hx0 Hy0). pose proof dbl_min_lt_one. lra. }
  rewrite Hroot.
  destruct (find_root_spec _ _ _ Hroot) as [Hr Hxyr].
  destruct (tree_ok_start value NX NY st root (λ _, 0) Hsh Hm Hr Hxyr) as [Hok Hq].
  assert (Hs : searching_exact value NX NY root (start_tree value NX NY root st) [root]).
  { split; [split; [by eexists|done]|]. by apply labels_ok_start. }
  assert (Hfc : free_cols (start_tree value NX NY root st) = NY).
  { unfold free_cols. fields. clear. induction NY as [|k IHk]; [done|].
    cbn [replicate]. rewrite filter_cons_True by done. cbn [length]. by rewrite IHk. }
  destruct (main_cycle_returns root (S fuel) _ [root] Hs) as (st1 & x & y & Hmain & Hb1).
  { by apply (lx_below_ext st). }
  { rewrite Hfc. simpl. lia. }
  rewrite Hmain, bind_Returned.
  destruct (main_cycle_found_exact value NX NY value_fin _ _ _ _ _ _ _ Hs Hmain)
    as (([d1 Hok1] & Hx & HSx & Hy & HT & Hfree) & Hl1 & Htight).
  destruct (augment_returns NX NY root d1 st1 Hok1 (S fuel) x y Hx HSx Hy Hfree ltac:(lia))
    as ([xy' yx'] & Haug).
  rewrite Haug, bind_Returned.
  apply IH.
  - by destruct (match_step_matched_rows value NX NY _ _ _ _ _ _ _ _ _ HR Hroot Hmain Haug).
  - by eapply match_step_labels.
  - by apply (lx_below_ext st1).
  - lia.
  - lia.
Qed.

(** The solver returns, with fuel for its [NX] augmentations and for the
    longest search. *)
Lemma hungarian_returns fuel :
  NX + 2 * NY + 2 ≤ fuel → ∃ st, hungarian value NX NY fuel = Returned st.
Proof.
  intros Hfuel. apply match_loop_returns.
  - apply init_solver_matched_rows.
  - by apply init_solver_labels.
  - apply init_solver_lx_below.
  - lia.
  - lia.
Qed.
End ExactTermination.

(** ** [Optimize] on complete inputs, in exact arithmetic *)

Lemma NoDup_fmap_eq {A B} (f : A → B) (l : list A) a b :
  NoDup (f <$> l) → a ∈ l → b ∈ l → f a = f b → a = b.
Proof.
  induction l as [|c l IH]; [by intros _ ?%elem_of_nil|].
  rewrite fmap_cons. intros [Hnotin Hnd]%list.NoDup_cons.
  intros [->|Ha]%elem_of_cons [->|Hb]%elem_of_cons Heq; try done.
  - exfalso. apply Hnotin. rewrite Heq. apply list_elem_of_fmap. by exists b.
  - exfalso. apply Hnotin. rewrite <- Heq. apply list_elem_of_fmap. by exists a.
  - by apply IH.
Qed.

Section Orientation.
Context {F : Type} `{Scalar F}.
Implicit Types (v : list (Assignment F)) (a b : Assignment F).

Lemma value_matrix_fold bc NX NY v :
  value_matrix bc NX NY v
  = fold_left (write_value bc (max_cost v)) v (replicate NX (replicate NY f_one)).
Proof. done. Qed.

Lemma replicate_rectangular NX NY (c : F) : rectangular NX NY (replicate NX (replicate NY c)).
Proof.
  split; [by rewrite length_replicate|]. intros x Hx.
  by rewrite lookup_total_replicate_2, length_replicate.
Qed.

(** The sizes chosen at lines 207-216, and where the pairings fall. *)
Lemma orientation v (bc : bool) NX NY :
  bc = bool_decide (max_id character v < max_id task v) →
  NX = (if bc then max_id character v + 1 else max_id task v + 1) →
  NY = (if bc then max_id task v + 1 else max_id character v + 1) →
  NX ≤ NY ∧ NX = smaller_side v
  ∧ ∀ a, a ∈ v → row_of bc a < NX ∧ col_of bc a < NY.
Proof.
  intros Hbc -> ->. unfold smaller_side.
  assert (Hids : ∀ a, a ∈ v → character a ≤ max_id character v ∧ task a ≤ max_id task v).
  { intros a Ha. split; by apply max_id_bound. }
  destruct bc; symmetry in Hbc.
  - apply bool_decide_eq_true_1 in Hbc. split_and!; [lia..|].
    intros a Ha. destruct (Hids a Ha). simpl. lia.
  - apply bool_decide_eq_false_1 in Hbc. split_and!; [lia..|].
    intros a Ha. destruct (Hids a Ha). simpl. lia.
Qed.

Lemma NoDup_rows_cols bc v :
  NoDup (pair_of <$> v) → NoDup ((λ a, (row_of bc a, col_of bc a)) <$> v).
Proof.
  intros Hnd. destruct bc; [done|].
  assert (Heq : (λ a : Assignment F, (row_of false a, col_of false a)) <$> v
                = (λ p : nat * nat, (p.2, p.1)) <$> (pair_of <$> v)).
  { rewrite <- list_fmap_compose. done. }
  rewrite Heq. apply NoDup_fmap_2; [|done]. by intros [??] [??] [= -> ->].
Qed.

(** A pairing is kept when its column is the partner of its row. *)
Lemma selected_partner bc NX NY (st : solver F) a :
  matching NX NY (xy st) (yx st) → row_of bc a < NX → col_of bc a < NY →
  selected bc st a = true ↔ xy st !!! row_of bc a = Z.of_nat (col_of bc a).
Proof.
  intros (_ & _ & Hxy & Hyx) Hr Hc. unfold selected. destruct bc; simpl in *.
  - rewrite bool_decide_eq_true. split; intros; lia.
  - rewrite bool_decide_eq_true. split; intros Heq.
    + destruct (Hyx (character a) Hc) as [?|[_ Hb]]; [lia|].
      rewrite <- Heq, Nat2Z.id in Hb. done.
    + destruct (Hxy (task a) Hr) as [?|[_ Hb]]; [lia|].
      rewrite Heq, Nat2Z.id in Hb. lia.
Qed.
End Orientation.

Section CompleteInputs.
Context {F : Type} `{Scalar F}.
Variable v : list (Assignment F).
Variable bc : bool.
Variables NX NY : nat.
Variable st : solver F.
Hypothesis v_complete : complete v.
Hypothesis Hbc : bc = bool_decide (max_id character v < max_id task v).
Hypothesis HNX : NX = (if bc then max_id character v + 1 else max_id task v + 1).
Hypothesis HNY : NY = (if bc then max_id task v + 1 else max_id character v + 1).
Hypothesis rows : matched_rows NX NY st NX.

Lemma complete_cell x y :
  x < NX → y < NY → ∃ a, a ∈ v ∧ row_of bc a = x ∧ col_of bc a = y.
Proof using v_complete HNX HNY.
  clear rows Hbc. intros Hx Hy. destruct v_complete as [_ Hall]. subst NX NY. destruct bc.
  - destruct (Hall x y ltac:(lia) ltac:(lia)) as (a & Ha & [= <- <-]). by exists a.
  - destruct (Hall y x ltac:(lia) ltac:(lia)) as (a & Ha & [= <- <-]). by exists a.
Qed.

Lemma kept_partner a :
  a ∈ filter (λ a, selected bc st a) v →
  a ∈ v ∧ row_of bc a < NX ∧ col_of bc a = partner st (row_of bc a).
Proof.
  intros [Hs Ha]%list_elem_of_filter.
  destruct (orientation v bc NX NY Hbc HNX HNY) as (_ & _ & Hrange).
  destruct (Hrange a Ha) as [Hr Hc]. destruct rows as (_ & Hm & _).
  apply Is_true_true, (selected_partner _ _ _ _ _ Hm Hr Hc) in Hs.
  split_and!; [done..|]. unfold partner. rewrite Hs. by rewrite Nat2Z.id.
Qed.

Lemma kept_eq a b :
  a ∈ filter (λ a, selected bc st a) v → b ∈ filter (λ a, selected bc st a) v →
  row_of bc a = row_of bc b ∨ col_of bc a = col_of bc b → a = b.
Proof.
  intros Ha Hb Hor.
  destruct (kept_partner a Ha) as (Hav & Hra & Hca).
  destruct (kept_partner b Hb) as (Hbv & Hrb & Hcb).
  destruct v_complete as [Hnd _].
  assert (Hrow : row_of bc a = row_of bc b).
  { destruct Hor as [?|Hc]; [done|].
    destruct rows as (_ & (_ & _ & Hxy & _) & _).
    pose proof (matched_rows_all _ _ _ rows _ Hra) as Hma.
    pose proof (matched_rows_all _ _ _ rows _ Hrb) as Hmb.
    destruct (Hxy _ Hra) as [?|[Hr1 Hb1]]; [done|].
    destruct (Hxy _ Hrb) as [?|[Hr2 Hb2]]; [done|].
    rewrite Hca, Hcb in Hc. unfold partner in Hc.
    assert (xy st !!! row_of bc a = xy st !!! row_of bc b) as Heq by lia.
    rewrite Heq in Hb1. rewrite Hb1 in Hb2. lia. }
  apply (NoDup_fmap_eq _ _ _ _ (NoDup_rows_cols bc v Hnd) Hav Hbv).
  f_equal; [done|]. by rewrite Hca, Hcb, Hrow.
Qed.

(** On a complete input the kept pairings are one per row, in distinct
    columns. *)
Lemma kept_rows :
  row_of bc <$> filter (λ a, selected bc st a) v ≡ₚ seq 0 NX
  ∧ NoDup (col_of bc <$> filter (λ a, selected bc st a) v).
Proof.
  destruct v_complete as [Hnd _].
  assert (Hndf : NoDup (filter (λ a, selected bc st a) v)).
  { apply list.NoDup_filter. by eapply NoDup_fmap_1. }
  split.
  - apply NoDup_Permutation.
    + apply NoDup_fmap_2_strong; [|done]. intros a b Ha Hb Heq. apply kept_eq; auto.
    + apply NoDup_seq.
    + intros x. rewrite elem_of_seq, list_elem_of_fmap. split.
      * intros (a & -> & Ha). destruct (kept_partner a Ha) as (_ & ? & _). lia.
      * intros [_ Hx]. simpl in Hx.
        assert (Hp : partner st x < NY).
        { destruct rows as (_ & (_ & _ & Hxy & _) & _).
          pose proof (matched_rows_all _ _ _ rows x Hx).
          unfold partner. destruct (Hxy x Hx) as [?|[? _]]; [done|lia]. }
        destruct (complete_cell x (partner st x) Hx Hp) as (a & Ha & Hr & Hc).
        exists a. split; [done|]. apply list_elem_of_filter. split; [|done].
        apply Is_true_true. destruct rows as (_ & Hm & _).
        apply (selected_partner bc NX NY); [done|lia|lia|].
        rewrite Hr, Hc. unfold partner.
        destruct Hm as (_ & _ & Hxy & _).
        pose proof (matched_rows_all _ _ _ rows x Hx).
        destruct (Hxy x Hx) as [?|[? _]]; [done|lia].
  - apply NoDup_fmap_2_strong; [|done]. intros a b Ha Hb Heq. apply kept_eq; auto.
Qed.
End CompleteInputs.

Lemma max_cost_fin (v : list (Assignment xreal)) : finite_costs v → fin (max_cost v).
Proof.
  unfold max_cost. generalize (fin_zero). generalize (@f_zero xreal exact).
  induction v as [|a v IH]; intros m Hm Hv; simpl; [done|].
  apply list.Forall_cons in Hv as [Ha Hv].
  apply IH; [|done]. by apply fin_max.
Qed.

Section OptimalAssignment.
Variable v : list (Assignment xreal).
Variable bc : bool.
Variables NX NY : nat.
Variable st : solver xreal.
Hypothesis v_finite : finite_costs v.
Hypothesis v_complete : complete v.
Hypothesis Hbc : bc = bool_decide (max_id character v < max_id task v).
Hypothesis HNX : NX = (if bc then max_id character v + 1 else max_id task v + 1).
Hypothesis HNY : NY = (if bc then max_id task v + 1 else max_id character v + 1).

(** The value of a proposed pair: [max_cost - cost + 1]. *)
Lemma value_of_pairing a :
  a ∈ v →
  fin ((value_matrix bc NX NY v !!! row_of bc a) !!! col_of bc a)
  ∧ (val_q (value_matrix bc NX NY v) (row_of bc a) (col_of bc a)
     == qv (max_cost v) - qv (cost a) + 1)%Q.
Proof.
  intros Ha. destruct v_complete as [Hnd _].
  destruct (orientation v bc NX NY Hbc HNX HNY) as (_ & _ & Hrange).
  destruct (fold_write_value bc NX NY (max_cost v) v _
              (replicate_rectangular NX NY f_one) Hrange (NoDup_rows_cols bc v Hnd))
    as (_ & Hin & _).
  unfold val_q. rewrite value_matrix_fold, (Hin a Ha).
  assert (Hfa : fin (cost a)) by (by eapply list.Forall_forall in v_finite).
  destruct (fin_sub _ _ (max_cost_fin v v_finite) Hfa) as [Hfs Hs].
  assert (Hone : fin (@f_one xreal exact)) by (by exists 1%Qc).
  destruct (fin_add _ _ Hfs Hone) as [Hfd Hd].
  split; [done|]. rewrite Hd, Hs. change (qv f_one) with (this 1%Qc).
  change (this 1%Qc) with 1%Q. reflexivity.
Qed.

Lemma value_matrix_fin x y :
  x < NX → y < NY → fin ((value_matrix bc NX NY v !!! x) !!! y).
Proof.
  intros Hx Hy.
  destruct (complete_cell v bc NX NY v_complete HNX HNY x y Hx Hy) as (a & Ha & <- & <-).
  by apply value_of_pairing.
Qed.

Hypothesis solved : matched_rows NX NY st NX.
Hypothesis labels : labels_out (value_matrix bc NX NY v) NX NY st.

(** The total cost of what is kept, through the values of the matching. *)
Lemma total_cost_kept :
  (total_cost (filter (λ a, selected bc st a) v)
   == inject_Z (Z.of_nat NX) * (qv (max_cost v) + 1)
      - Qsum (λ x, val_q (value_matrix bc NX NY v) x (partner st x)) (seq 0 NX))%Q.
Proof.
  destruct (kept_rows v bc NX NY st v_complete Hbc HNX HNY solved) as [Hrows _].
  unfold total_cost.
  assert (H1 : (Qsum (λ a, qv (cost a)) (filter (λ a, selected bc st a) v)
                == Qsum (λ a, (qv (max_cost v) + 1)
                              + - val_q (value_matrix bc NX NY v) (row_of bc a)
                                  (partner st (row_of bc a)))
                     (filter (λ a, selected bc st a) v))%Q).
  { apply Qsum_eq. intros a Ha.
    destruct (kept_partner v bc NX NY st Hbc HNX HNY solved a Ha) as (Hav & _ & Hc).
    destruct (value_of_pairing a Hav) as [_ Hval]. rewrite <- Hc, Hval. lra. }
  rewrite H1, Qsum_plus, Qsum_const.
  rewrite <- (Qsum_fmap (row_of bc)
                (λ x, - val_q (value_matrix bc NX NY v) x (partner st x))%Q).
  rewrite (Qsum_perm _ _ _ Hrows).
  rewrite <- (length_fmap (row_of bc)), (Permutation_length Hrows), length_seq.
  assert (H2 : ∀ l : list nat,
    (Qsum (λ x, - val_q (value_matrix bc NX NY v) x (partner st x)) l
     == - Qsum (λ x, val_q (value_matrix bc NX NY v) x (partner st x)) l)%Q).
  { induction l as [|x l IH]; simpl; [lra|]. rewrite IH. lra. }
  rewrite H2. lra.
Qed.

(** The total cost of any matching that covers the smaller side. *)
Lemma total_cost_covering (M : list (Assignment xreal)) :
  covering_matching v M →
  let es := (λ a, (row_of bc a, col_of bc a)) <$> M in
  fst <$> es ≡ₚ seq 0 NX ∧ NoDup (snd <$> es) ∧ (∀ e, e ∈ es → e.2 < NY)
  ∧ (total_cost M
     == inject_Z (Z.of_nat NX) * (qv (max_cost v) + 1)
        - Qsum (λ e, val_q (value_matrix bc NX NY v) e.1 e.2) es)%Q.
Proof using v_finite v_complete Hbc HNX HNY.
  clear solved labels. intros (Hsub & Hnc & Hnt & Hlen).
  destruct (orientation v bc NX NY Hbc HNX HNY) as (_ & Hside & Hrange).
  assert (HinM : ∀ a, a ∈ M → a ∈ v) by (intros a Ha; by eapply elem_of_submseteq).
  cbv zeta. rewrite <- !list_fmap_compose.
  assert (Hr : NoDup (row_of bc <$> M) ∧ NoDup (col_of bc <$> M)) by (by destruct bc).
  destruct Hr as [Hr Hc].
  split_and!.
  - apply NoDup_below_perm; [done|by rewrite length_fmap, Hlen, Hside|].
    intros x (a & -> & Ha)%list_elem_of_fmap. by apply Hrange, HinM.
  - done.
  - intros e (a & -> & Ha)%list_elem_of_fmap. by apply Hrange, HinM.
  - unfold total_cost. rewrite Qsum_fmap.
    assert (H1 : (Qsum (λ a, qv (cost a)) M
                  == Qsum (λ a, (qv (max_cost v) + 1)
                                + - val_q (value_matrix bc NX NY v) (row_of bc a) (col_of bc a))
                       M)%Q).
    { apply Qsum_eq. intros a Ha. destruct (value_of_pairing a (HinM a Ha)) as [_ ->]. lra. }
    rewrite H1, Qsum_plus, Qsum_const, Hlen, <- Hside.
    assert (H2 : ∀ l : list (Assignment xreal),
      (Qsum (λ a, - val_q (value_matrix bc NX NY v) (row_of bc a) (col_of bc a)) l
       == - Qsum (λ a, val_q (value_matrix bc NX NY v) (row_of bc a) (col_of bc a)) l)%Q).
    { induction l as [|x l IH]; simpl; [lra|]. rewrite IH. lra. }
    rewrite H2. simpl. lra.
Qed.
End OptimalAssignment.

(** ** [Optimize] returns, in exact arithmetic *)

Lemma bounded_costs_finite (v : list (Assignment xreal)) : bounded_costs v → finite_costs v.
Proof. apply Forall_impl. by intros a [? _]. Qed.

Lemma max_cost_bounds (v : list (Assignment xreal)) :
  bounded_costs v →
  fin (max_cost v)
  ∧ (0 <= qv (max_cost v) <= qv (@f_dbl_max xreal exact))%Q
  ∧ ∀ a, a ∈ v → (qv (cost a) <= qv (max_cost v))%Q.
Proof.
  unfold max_cost.
  assert (Hgen : ∀ (v : list (Assignment xreal)) (m : xreal),
    fin m → (0 <= qv m <= qv (@f_dbl_max xreal exact))%Q → bounded_costs v →
    let r := fold_left (λ m a, f_max m (cost a)) v m in
    fin r ∧ (0 <= qv r <= qv (@f_dbl_max xreal exact))%Q ∧ (qv m <= qv r)%Q
    ∧ ∀ a, a ∈ v → (qv (cost a) <= qv r)%Q).
  { clear v. induction v as [|b v IH]; intros m Hm Hr Hv; cbn [fold_left].
    - split_and!; [done|lra|lra|lra|]. by intros ? ?%elem_of_nil.
    - apply list.Forall_cons in Hv as [[Hfb Hb] Hv].
      destruct (fin_max m (cost b) Hm Hfb) as (Hfm & Hm1 & Hm2).
      assert (Hr' : (0 <= qv (f_max m (cost b)) <= qv (@f_dbl_max xreal exact))%Q).
      { split; [lra|]. unfold f_max. destruct (f_ltb m (cost b)); lra. }
      destruct (IH _ Hfm Hr' Hv) as (Hf & Hrr & Hle & Hall).
      split_and!; [done|lra|lra|lra|].
      intros a [->|Ha]%elem_of_cons; [lra|by apply Hall]. }
  intros Hv. destruct (Hgen v f_zero fin_zero) as (Hf & Hr & _ & Hall); [|done|done].
  change (qv f_zero) with (this 0%Qc). change (this 0%Qc) with 0%Q.
  destruct fin_dbl_max. lra.
Qed.

(** Every value lies between the baseline [1.0] and [max_cost + 1.0]. *)
Lemma value_matrix_range (v : list (Assignment xreal)) bc NX NY x y :
  bounded_costs v →
  (∀ a, a ∈ v → row_of bc a < NX ∧ col_of bc a < NY) → x < NX → y < NY →
  fin ((value_matrix bc NX NY v !!! x) !!! y)
  ∧ (1 <= val_q (value_matrix bc NX NY v) x y <= qv (max_cost v) + 1)%Q.
Proof.
  intros Hv Hrange Hx Hy.
  destruct (max_cost_bounds v Hv) as (Hfc & Hc & Hle).
  assert (Hone : fin (@f_one xreal exact)) by (by exists 1%Qc).
  unfold val_q. rewrite value_matrix_fold.
  destruct (fold_write_value_cell bc NX NY (max_cost v) v _ x y
              (replicate_rectangular NX NY f_one) Hrange Hx Hy) as [->|(a & Ha & ->)].
  - rewrite lookup_total_replicate_2 by done. rewrite lookup_total_replicate_2 by done.
    split; [done|]. change (qv f_one) with (this 1%Qc). change (this 1%Qc) with 1%Q. lra.
  - apply (proj1 (list.Forall_forall _ _) Hv) in Ha as Hb. destruct Hb as [Hfa Hb].
    destruct (fin_sub _ _ Hfc Hfa) as [Hfs Hs].
    destruct (fin_add _ _ Hfs Hone) as [Hfd Hd].
    split; [done|]. rewrite Hd, Hs. change (qv f_one) with (this 1%Qc).
    change (this 1%Qc) with 1%Q. specialize (Hle a Ha). lra.
Qed.

Lemma Optimize_returns (v : list (Assignment xreal)) fuel :
  bounded_costs v → 3 * (max_id character v `max` max_id task v) + 5 ≤ fuel →
  ∃ out, Optimize fuel v = Returned out.
Proof.
  intros Hv Hfuel. unfold Optimize.
  set (bc := bool_decide (max_id character v < max_id task v)).
  set (NX := if bc then max_id character v + 1 else max_id task v + 1).
  set (NY := if bc then max_id task v + 1 else max_id character v + 1).
  destruct (orientation v bc NX NY eq_refl eq_refl eq_refl) as (Hle & _ & Hrange).
  destruct (max_cost_bounds v Hv) as (_ & Hc & _).
  destruct (hungarian_returns (value_matrix bc NX NY v) NX NY (qv (max_cost v) + 1)) with (fuel := fuel)
    as [st Hst].
  - intros x y Hx Hy. by apply value_matrix_range.
  - intros x y Hx Hy. by apply value_matrix_range.
  - split; lra.
  - done.
  - subst NX NY. destruct bc; lia.
  - rewrite Hst. by eexists.
Qed.

(** ** Optimality *)

(** A single proposed pairing between character 0 and task 1 is erased:
    its value [max_cost - cost + 1.0] is the [1.0] of the pair (0, 0) that
    was not proposed, and column 0 is scanned first. *)
Example Optimize_single_pairing : Optimize 10 [pairing 0 1 5] = Returned [].
Proof. vm_compute. reflexivity. Qed.

Lemma Optimize_optimal_returned (v out M : list (Assignment xreal)) (fuel : nat) :
  finite_costs v → complete v → Optimize fuel v = Returned out →
  covering_matching v M →
  covering_matching v out
  ∧ (total_cost out <= total_cost M + inject_Z (Z.of_nat (smaller_side v)) * tol)%Q.
Proof.
  intros Hfin Hcomplete Hrun HM.
  destruct (Optimize_returned _ _ _ Hrun)
    as (bc & st & NX & NY & Hbc & HNX & HNY & Hh & _ & Hout).
  destruct (orientation v bc NX NY Hbc HNX HNY) as (Hle & Hside & Hrange).
  destruct (hungarian_exact _ NX NY
              (value_matrix_fin v bc NX NY Hfin Hcomplete Hbc HNX HNY) fuel st Hh)
    as [Hrows Hlabels].
  replace (NX `min` NY) with NX in Hrows by lia.
  destruct (kept_rows v bc NX NY st Hcomplete Hbc HNX HNY Hrows) as [Hkr Hkc].
  split.
  - split_and!.
    + rewrite Hout. apply sublist_submseteq, sublist_filter.
    + rewrite Hout. destruct bc; [|done]. rewrite Hkr. apply NoDup_seq.
    + rewrite Hout. destruct bc; [done|]. rewrite Hkr. apply NoDup_seq.
    + rewrite Hout, <- (length_fmap (row_of bc)), (Permutation_length Hkr), length_seq.
      done.
  - destruct (total_cost_covering v bc NX NY Hfin Hcomplete Hbc HNX HNY M HM)
      as (Hes1 & Hes2 & Hes3 & HcM).
    pose proof (labels_optimal _ NX NY st Hrows Hlabels _ Hes1 Hes2 Hes3) as Hopt.
    pose proof (total_cost_kept v bc NX NY st Hfin Hcomplete Hbc HNX HNY Hrows) as Hck.
    unfold total_cost in *. rewrite (Qsum_perm _ _ _ Hout), Hck, HcM, <- Hside. lra.
Qed.

Lemma bounded_pairing_q c t (q : Q) :
  (0 <= q <= inject_Z (2 ^ 1024 - 2 ^ 971))%Q →
  fin (cost (pairing_q c t q))
  ∧ (0 <= qv (cost (pairing_q c t q)) <= qv (@f_dbl_max xreal exact))%Q.
Proof.
  intros Hq. split; [by eexists|].
  change (qv (cost (pairing_q c t q))) with (this (Q2Qc q)).
  change (qv f_dbl_max) with (this (Q2Qc (inject_Z (2 ^ 1024 - 2 ^ 971)))).
  rewrite !this_Q2Qc. done.
Qed.

(** In exact arithmetic, on costs that are finite, not negative and at
    most [DBL_MAX]: when every pair of a character and a task of the
    identifier ranges is proposed exactly once, [Optimize] returns, the
    retained pairings are a matching that covers the smaller side, and their
    total cost is at most [N] tolerances (N x 0.0001, [N] the size of the
    smaller side) above the total cost of any matching of proposed pairings
    that covers the smaller side. *)
Lemma Optimize_optimal_exact (v M : list (Assignment xreal)) (fuel : nat) :
  bounded_costs v → complete v → covering_matching v M →
  3 * (max_id character v `max` max_id task v) + 5 ≤ fuel →
  ∃ out, Optimize fuel v = Returned out
    ∧ covering_matching v out
    ∧ (total_cost out <= total_cost M + inject_Z (Z.of_nat (smaller_side v)) * tol)%Q.
Proof.
  intros Hv Hcomplete HM Hfuel.
  destruct (Optimize_returns v fuel Hv Hfuel) as [out Hrun].
  exists out. split; [done|].
  by apply (Optimize_optimal_returned v out M fuel (bounded_costs_finite v Hv)).
Qed.

(** ** Further properties of [Optimize] *)

(** In exact arithmetic, on costs that are finite, not negative and at
    most [DBL_MAX], [Optimize] returns on every list, sparse or with
    repeated pairs, and what it returns is a part of its input. *)
Theorem Optimize_terminates (v : list (Assignment xreal)) (fuel : nat) :
  bounded_costs v → 3 * (max_id character v `max` max_id task v) + 5 ≤ fuel →
  ∃ out, Optimize fuel v = Returned out ∧ out ⊆+ v.
Proof.
  intros Hv Hfuel. destruct (Optimize_returns v fuel Hv Hfuel) as [out Hrun].
  exists out. split; [done|].
  destruct (Optimize_returned _ _ _ Hrun) as (? & ? & ? & ? & _ & _ & _ & _ & _ & ->).
  apply sublist_submseteq, sublist_filter.
Qed.

Lemma Optimize_terminates_witness :
  ∃ out, Optimize 8 [pairing_q 0 1 5; pairing_q 0 1 7; pairing_q 1 0 (1 # 3)] = Returned out
         ∧ out ⊆+ [pairing_q 0 1 5; pairing_q 0 1 7; pairing_q 1 0 (1 # 3)].
Proof.
  apply Optimize_terminates.
  - repeat apply list.Forall_cons_2; [..|apply Forall_nil_2];
      apply bounded_pairing_q; split; vm_compute; discriminate.
  - vm_compute. lia.
Defined.

(** On any scalars, IEEE doubles included: when every pair of a character
    and a task of the identifier ranges is proposed exactly once and
    [Optimize] returns, the retained pairings are a matching with one
    pairing for each identifier of the smaller side. *)
Theorem Optimize_covers_smaller_side {F : Type} `{Scalar F}
    (v out : list (Assignment F)) (fuel : nat) :
  complete v → Optimize fuel v = Returned out → covering_matching v out.
Proof.
  intros Hcomplete Hrun.
  destruct (Optimize_returned _ _ _ Hrun)
    as (bc & st & NX & NY & Hbc & HNX & HNY & Hh & _ & Hout).
  destruct (orientation v bc NX NY Hbc HNX HNY) as (Hle & Hside & Hrange).
  pose proof (hungarian_matching _ NX NY fuel st Hh) as Hrows.
  replace (NX `min` NY) with NX in Hrows by lia.
  destruct (kept_rows v bc NX NY st Hcomplete Hbc HNX HNY Hrows) as [Hkr Hkc].
  split_and!.
  - rewrite Hout. apply sublist_submseteq, sublist_filter.
  - rewrite Hout. destruct bc; [|done]. rewrite Hkr. apply NoDup_seq.
  - rewrite Hout. destruct bc; [done|]. rewrite Hkr. apply NoDup_seq.
  - rewrite Hout, <- (length_fmap (row_of bc)), (Permutation_length Hkr), length_seq.
    done.
Qed.

Lemma Optimize_covers_smaller_side_witness :
  covering_matching (all_pairs 3 3 (λ _ _, 7%float))
    [pairing 0 0 7; pairing 2 2 7; pairing 1 1 7].
Proof.
  apply (Optimize_covers_smaller_side (all_pairs 3 3 (λ _ _, 7%float)) _ 20).
  - split.
    + apply (bool_decide_unpack _). vm_compute. reflexivity.
    + intros c t Hc Ht. vm_compute in Hc, Ht.
      exists (pairing c t 7). split; [|reflexivity].
      assert (Hc' : c = 0 ∨ c = 1 ∨ c = 2) by lia.
      assert (Ht' : t = 0 ∨ t = 1 ∨ t = 2) by lia.
      destruct Hc' as [-> | [-> | ->]], Ht' as [-> | [-> | ->]];
        repeat first [apply list_elem_of_here | apply list_elem_of_further].
  - vm_compute. reflexivity.
Defined.

(** The scenarios of the specification that involve finite costs, run on
    IEEE doubles. *)

(** The 2 x 2 swap: total 20, against 25 for the greedy choice. *)
Example Optimize_scenario_A :
  Optimize 10 [pairing 0 0 10; pairing 1 0 15; pairing 0 1 20; pairing 1 1 10]
  = Returned [pairing 0 0 10; pairing 1 1 10].
Proof. vm_compute. reflexivity. Qed.

(** "That guy": the far character takes a task at cost 1, nine of the ten
    near characters take the other tasks, character 9 stays idle, and the
    total is 901. *)
Example Optimize_scenario_B :
  ∃ out, Optimize 40 that_guy = Returned out
         ∧ pair_of <$> out
           = [(10, 0); (0, 1); (8, 9); (7, 8); (6, 7); (5, 6); (4, 5); (3, 4); (2, 3); (1, 2)]
         ∧ cost_sum out = 901%float.
Proof. eexists. split_and!; vm_compute; reflexivity. Qed.

(** The empty list: the solver still runs on a 1 x 1 matrix, and nothing
    is kept. *)
Example Optimize_scenario_E : Optimize 3 ([] : list (Assignment float)) = Returned [].
Proof. vm_compute. reflexivity. Qed.

(** Equal costs: a perfect matching of size 3 and total 21. *)
Example Optimize_scenario_F :
  ∃ out, Optimize 20 (all_pairs 3 3 (λ _ _, 7%float)) = Returned out
         ∧ pair_of <$> out = [(0, 0); (2, 2); (1, 1)]
         ∧ cost_sum out = 21%float.
Proof. eexists. split_and!; vm_compute; reflexivity. Qed.

(** ** More on [LimitAssignments] *)

Section CandidateFilterMore.
Context {F : Type} `{Scalar F}.
Implicit Types (v : list (Assignment F)) (a b : Assignment F).

Lemma pairings_of_character_app c v1 v2 :
  pairings_of_character c (v1 ++ v2) = pairings_of_character c v1 + pairings_of_character c v2.
Proof. unfold pairings_of_character. by rewrite list.filter_app, length_app. Qed.

Lemma pairings_of_task_app t v1 v2 :
  pairings_of_task t (v1 ++ v2) = pairings_of_task t v1 + pairings_of_task t v2.
Proof. unfold pairings_of_task. by rewrite list.filter_app, length_app. Qed.

Lemma pairings_of_character_perm c v1 v2 :
  v1 ≡ₚ v2 → pairings_of_character c v1 = pairings_of_character c v2.
Proof. unfold pairings_of_character. by intros ->. Qed.

Lemma pairings_of_task_perm t v1 v2 :
  v1 ≡ₚ v2 → pairings_of_task t v1 = pairings_of_task t v2.
Proof. unfold pairings_of_task. by intros ->. Qed.

(** The pairing under examination counts once more in the vector than in
    the part already retained. *)
Lemma pairings_before v i a :
  v !! i = Some a →
  pairings_of_character (character a) (take i v) < pairings_of_character (character a) v
  ∧ pairings_of_task (task a) (take i v) < pairings_of_task (task a) v.
Proof.
  intros Ha.
  assert (Hc : pairings_of_character (character a) (a :: drop (S i) v)
               = S (pairings_of_character (character a) (drop (S i) v))).
  { unfold pairings_of_character. by rewrite filter_cons_True by done. }
  assert (Ht : pairings_of_task (task a) (a :: drop (S i) v)
               = S (pairings_of_task (task a) (drop (S i) v))).
  { unfold pairings_of_task. by rewrite filter_cons_True by done. }
  rewrite <- (take_drop_middle v i a Ha) at 2 4.
  rewrite pairings_of_character_app, pairings_of_task_app, Hc, Ht. lia.
Qed.

(** While no identifier is proposed more often than its limit, the loop
    refuses nothing. *)
Lemma limit_loop_keeps fuel Kc Kt v i tpc cpt :
  (∀ a, a ∈ v → character a < length tpc ∧ task a < length cpt) →
  (∀ c, c < length tpc → tpc !!! c = Z.of_nat (pairings_of_character c (take i v))) →
  (∀ t, t < length cpt → cpt !!! t = Z.of_nat (pairings_of_task t (take i v))) →
  (∀ c, (Z.of_nat (pairings_of_character c v) ≤ Kc)%Z) →
  (∀ t, (Z.of_nat (pairings_of_task t v) ≤ Kt)%Z) →
  limit_loop fuel Kc Kt v i tpc cpt = v.
Proof.
  revert i tpc cpt.
  induction fuel as [|fuel IH]; intros i tpc cpt Hrange Htpc Hcpt Hc Ht; simpl; [done|].
  case_bool_decide as Hlt; [|done].
  destruct (lookup_lt_is_Some_2 v i Hlt) as [a Ha].
  rewrite (list_lookup_total_correct _ _ _ Ha).
  destruct (Hrange a) as [Hca Hta]; [by eapply list_elem_of_lookup_2|].
  destruct (pairings_before v i a Ha) as [Hbc Hbt].
  specialize (Hc (character a)) as Hca'. specialize (Ht (task a)) as Hta'.
  destruct (Z.leb_spec Kc (tpc !!! character a)) as [Hfull|_].
  { rewrite Htpc in Hfull by done. lia. }
  destruct (Z.leb_spec Kt (cpt !!! task a)) as [Hfull|_].
  { rewrite Hcpt in Hfull by done. lia. }
  apply IH; rewrite ?Nat.add_1_r, ?(take_S_r _ _ _ Ha), ?length_insert; auto.
  - intros c Hlc. rewrite pairings_of_character_snoc.
    destruct (decide (character a = c)) as [->|Hne].
    + rewrite list_lookup_total_insert_eq by done. rewrite Htpc by done. lia.
    + rewrite list_lookup_total_insert_ne by done. rewrite Htpc by done. lia.
  - intros t Hlt'. rewrite pairings_of_task_snoc.
    destruct (decide (task a = t)) as [->|Hne].
    + rewrite list_lookup_total_insert_eq by done. rewrite Hcpt by done. lia.
    + rewrite list_lookup_total_insert_ne by done. rewrite Hcpt by done. lia.
Qed.

Lemma LimitAssignments_sorted v Kc Kt :
  (∀ c, (Z.of_nat (pairings_of_character c v) ≤ Kc)%Z) →
  (∀ t, (Z.of_nat (pairings_of_task t v) ≤ Kt)%Z) →
  LimitAssignments v Kc Kt = sort_by_cost v.
Proof.
  intros Hc Ht. unfold LimitAssignments.
  apply limit_loop_keeps; rewrite ?take_0, ?length_replicate.
  - intros a Ha.
    pose proof (last_id_bound character _ _ Ha).
    pose proof (last_id_bound task _ _ Ha). lia.
  - intros c Hlc. by rewrite lookup_total_replicate_2.
  - intros t Hlt. by rewrite lookup_total_replicate_2.
  - intros c. by rewrite (pairings_of_character_perm c _ v (sort_by_cost_perm v)).
  - intros t. by rewrite (pairings_of_task_perm t _ v (sort_by_cost_perm v)).
Qed.

(** With a limit of zero or less on either side, every pairing is
    refused. *)
Lemma limit_loop_refuses_all fuel Kc Kt v tpc cpt :
  length v ≤ fuel → (Kc ≤ 0 ∨ Kt ≤ 0)%Z →
  (∀ a, a ∈ v → character a < length tpc ∧ task a < length cpt) →
  (∀ c, c < length tpc → tpc !!! c = 0%Z) →
  (∀ t, t < length cpt → cpt !!! t = 0%Z) →
  limit_loop fuel Kc Kt v 0 tpc cpt = [].
Proof.
  revert v. induction fuel as [|fuel IH]; intros v Hfuel HK Hrange Htpc Hcpt; simpl.
  { destruct v; simpl in *; [done|lia]. }
  case_bool_decide as Hlt; [|destruct v; simpl in *; [done|lia]].
  destruct (lookup_lt_is_Some_2 v 0 Hlt) as [a Ha].
  rewrite (list_lookup_total_correct _ _ _ Ha).
  destruct (Hrange a) as [Hca Hta]; [by eapply list_elem_of_lookup_2|].
  destruct (swap_remove_spec v 0 Hlt) as (Hl & _).
  assert (Hdrop : ∀ b0, b0 ∈ swap_remove v 0 →
            character b0 < length tpc ∧ task b0 < length cpt).
  { intros b0 Hb0. apply Hrange.
    by eapply elem_of_submseteq; [|apply swap_remove_submseteq]. }
  rewrite Htpc, Hcpt by done.
  destruct (Z.leb_spec Kc 0); [apply IH; auto; lia|].
  destruct (Z.leb_spec Kt 0); [apply IH; auto; lia|lia].
Qed.
End CandidateFilterMore.



(** A limit of zero or less, on either side, empties the list. *)
Theorem LimitAssignments_no_room {F : Type} `{Scalar F}
    (v : list (Assignment F)) (Kc Kt : Z) :
  (Kc ≤ 0 ∨ Kt ≤ 0)%Z → LimitAssignments v Kc Kt = [].
Proof.
  intros HK. unfold LimitAssignments.
  apply limit_loop_refuses_all; rewrite ?length_replicate; [done|done|..].
  - intros a Ha.
    pose proof (last_id_bound character _ _ Ha).
    pose proof (last_id_bound task _ _ Ha). lia.
  - intros c Hc. by rewrite lookup_total_replicate_2.
  - intros t Ht. by rewrite lookup_total_replicate_2.
Qed.

Lemma LimitAssignments_no_room_witness :
  LimitAssignments [mkAssignment 0 0 1%float; mkAssignment 0 1 2%float] 0 3 = [].
Proof. apply LimitAssignments_no_room. lia. Defined.

(** Filtering twice with the same limits drops nothing the second time. *)
Theorem LimitAssignments_again {F : Type} `{Scalar F}
    (v : list (Assignment F)) (Kc Kt : Z) :
  (0 ≤ Kc)%Z → (0 ≤ Kt)%Z →
  LimitAssignments (LimitAssignments v Kc Kt) Kc Kt ≡ₚ LimitAssignments v Kc Kt.
Proof.
  intros HKc HKt.
  assert (Hcaps : ∀ k,
    (Z.of_nat (pairings_of_character k (LimitAssignments v Kc Kt)) ≤ Kc)%Z
    ∧ (Z.of_nat (pairings_of_task k (LimitAssignments v Kc Kt)) ≤ Kt)%Z).
  { unfold LimitAssignments.
    apply limit_loop_caps; rewrite ?take_0, ?length_replicate; try done; try lia.
    - intros a Ha.
      pose proof (last_id_bound character _ _ Ha).
      pose proof (last_id_bound task _ _ Ha). lia.
    - intros c Hc. by rewrite lookup_total_replicate_2.
    - intros t Ht. by rewrite lookup_total_replicate_2. }
  rewrite (LimitAssignments_sorted (LimitAssignments v Kc Kt) Kc Kt).
  - apply sort_by_cost_perm.
  - intros c. apply Hcaps.
  - intros t. apply Hcaps.
Qed.

Lemma LimitAssignments_again_witness :
  LimitAssignments
    (LimitAssignments
       [mkAssignment 0 0 1%float; mkAssignment 0 1 2%float;
        mkAssignment 1 1 3%float; mkAssignment 1 2 4%float] 1 1) 1 1
  ≡ₚ LimitAssignments
       [mkAssignment 0 0 1%float; mkAssignment 0 1 2%float;
        mkAssignment 1 1 3%float; mkAssignment 1 2 4%float] 1 1.
Proof. apply LimitAssignments_again; lia. Defined.

Section Cheapest.
Context {F : Type} `{Scalar F}.
Implicit Types (v : list (Assignment F)) (a b : Assignment F).

(** The part of the vector already examined stays where it is. *)
Lemma limit_loop_take fuel Kc Kt v i tpc cpt :
  i ≤ length v → take i (limit_loop fuel Kc Kt v i tpc cpt) = take i v.
Proof.
  revert v i tpc cpt. induction fuel as [|fuel IH]; intros v i tpc cpt Hi; simpl; [done|].
  case_bool_decide as Hlt; [|done].
  destruct (swap_remove_spec v i Hlt) as (Hl & Htk & _).
  repeat case_match.
  - rewrite IH by lia. done.
  - rewrite IH by lia. done.
  - match goal with |- take i ?l = _ =>
      trans (take i (take (i + 1) l)); [rewrite take_take; f_equal; lia|] end.
    rewrite IH by lia. rewrite take_take. f_equal. lia.
Qed.

Hypothesis ltb_irrefl : ∀ x : F, f_ltb x x = false.
Hypothesis ltb_trans :
  ∀ x y z : F, f_ltb x y = true → f_ltb y z = true → f_ltb x z = true.

Lemma linear_insert_last a r h :
  f_ltb (cost a) (cost h) = false → ∃ t, linear_insert a (r ++ [h]) = t ++ [h].
Proof.
  intros Hah. induction r as [|b r [t IH]]; simpl.
  - rewrite Hah. by exists [a].
  - destruct (f_ltb (cost a) (cost b)).
    + exists (b :: t). by rewrite IH.
    + by exists (a :: b :: r).
Qed.

(** One turn of the sort keeps a cheapest pairing first. *)
Lemma insert_by_cost_head h s a :
  (∀ b, b ∈ h :: s → f_ltb (cost b) (cost h) = false) →
  ∃ h' s', insert_by_cost (h :: s) a = h' :: s'
           ∧ ∀ b, b ∈ a :: h :: s → f_ltb (cost b) (cost h') = false.
Proof.
  intros Hmin. simpl. destruct (f_ltb (cost a) (cost h)) eqn:Hah.
  - exists a, (h :: s). split; [done|].
    intros b [->|Hb]%elem_of_cons; [apply ltb_irrefl|].
    destruct (f_ltb (cost b) (cost a)) eqn:Hba; [|done].
    rewrite <- (Hmin b Hb). symmetry. by eapply ltb_trans.
  - rewrite reverse_cons.
    destruct (linear_insert_last a (reverse s) h Hah) as [t ->].
    rewrite reverse_app. simpl. exists h, (reverse t). split; [done|].
    intros b [->|Hb]%elem_of_cons; [done|by apply Hmin].
Qed.

Lemma fold_insert_by_cost_head v h s :
  (∀ b, b ∈ h :: s → f_ltb (cost b) (cost h) = false) →
  ∃ h' s', fold_left insert_by_cost v (h :: s) = h' :: s'
           ∧ ∀ b, b ∈ (h :: s) ++ v → f_ltb (cost b) (cost h') = false.
Proof.
  revert h s. induction v as [|a v IH]; intros h s Hmin; simpl.
  - exists h, s. split; [done|]. intros b. rewrite app_nil_r. apply Hmin.
  - destruct (insert_by_cost_head h s a Hmin) as (h1 & s1 & Heq & Hmin1).
    simpl in Heq. rewrite Heq.
    assert (Hmin1' : ∀ b, b ∈ h1 :: s1 → f_ltb (cost b) (cost h1) = false).
    { intros b Hb. apply Hmin1. rewrite <- (insert_by_cost_perm a (h :: s)).
      simpl. by rewrite Heq. }
    destruct (IH h1 s1 Hmin1') as (h' & s' & Hfold & Hmin').
    exists h', s'. split; [done|]. intros b Hb. apply Hmin'.
    assert (Hp : h1 :: s1 ≡ₚ a :: h :: s).
    { rewrite <- (insert_by_cost_perm a (h :: s)). simpl. by rewrite Heq. }
    rewrite elem_of_app in *. rewrite Hp.
    change (h :: s ++ a :: v) with ((h :: s) ++ a :: v) in Hb.
    rewrite elem_of_app, (elem_of_cons v) in Hb. rewrite (elem_of_cons (h :: s)).
    tauto.
Qed.

(** No pairing is cheaper than the first of the sorted vector. *)
Lemma sort_by_cost_head v h s :
  sort_by_cost v = h :: s → ∀ b, b ∈ v → f_ltb (cost b) (cost h) = false.
Proof.
  unfold sort_by_cost. destruct v as [|a v]; [done|]. simpl. intros Hsort b Hb.
  destruct (fold_insert_by_cost_head v a []) as (h' & s' & Hfold & Hmin).
  { intros b' ->%list_elem_of_singleton. apply ltb_irrefl. }
  rewrite Hfold in Hsort. injection Hsort as <- <-. by apply Hmin.
Qed.

(** With room for one pairing on each side, the head of the sorted vector
    is retained, and it stays first. *)
Lemma LimitAssignments_head v Kc Kt h s :
  (1 ≤ Kc)%Z → (1 ≤ Kt)%Z → sort_by_cost v = h :: s →
  LimitAssignments v Kc Kt !! 0 = Some h.
Proof.
  intros HKc HKt Hsort. unfold LimitAssignments. rewrite Hsort.
  assert (Hrange : character h < Z.to_nat (last_id character (h :: s) + 1)
                   ∧ task h < Z.to_nat (last_id task (h :: s) + 1)).
  { pose proof (last_id_bound character (h :: s) h (list_elem_of_here _ _)).
    pose proof (last_id_bound task (h :: s) h (list_elem_of_here _ _)). lia. }
  destruct Hrange as [Hc Ht].
  cbn [length limit_loop]. rewrite bool_decide_true by (simpl; lia).
  change ((h :: s) !!! 0) with h.
  rewrite !lookup_total_replicate_2 by done.
  destruct (Z.leb_spec Kc 0); [lia|]. destruct (Z.leb_spec Kt 0); [lia|].
  rewrite <- (lookup_take_lt _ 1 0) by lia.
  rewrite limit_loop_take by (simpl; lia). done.
Qed.
End Cheapest.

(** On scalars whose [<] is a strict order: with room for at least one
    pairing per character and per task, the first retained pairing is one
    that no pairing of the input is cheaper than. *)
Theorem LimitAssignments_keeps_cheapest {F : Type} `{Scalar F}
    (v : list (Assignment F)) (Kc Kt : Z) :
  (∀ x : F, f_ltb x x = false) →
  (∀ x y z : F, f_ltb x y = true → f_ltb y z = true → f_ltb x z = true) →
  (1 ≤ Kc)%Z → (1 ≤ Kt)%Z → v ≠ [] →
  ∃ a, LimitAssignments v Kc Kt !! 0 = Some a
       ∧ a ∈ v ∧ ∀ b, b ∈ v → f_ltb (cost b) (cost a) = false.
Proof.
  intros Hirr Htrans HKc HKt Hne.
  destruct (sort_by_cost v) as [|h s] eqn:Hsort.
  { pose proof (sort_by_cost_perm v) as Hp. rewrite Hsort in Hp.
    apply Permutation_nil_l in Hp. done. }
  exists h. split_and!.
  - by eapply LimitAssignments_head.
  - rewrite <- (sort_by_cost_perm v), Hsort. apply list_elem_of_here.
  - by eapply sort_by_cost_head.
Qed.

Lemma xltb_irrefl (x : xreal) : f_ltb x x = false.
Proof.
  destruct x as [q| | |]; try done.
  apply Qc_ltb_false. apply Qle_refl.
Qed.

Lemma xltb_trans (x y z : xreal) :
  f_ltb x y = true → f_ltb y z = true → f_ltb x z = true.
Proof.
  destruct x as [p| | |], y as [q| | |], z as [r| | |]; try done.
  change (Qc_ltb p q = true → Qc_ltb q r = true → Qc_ltb p r = true).
  rewrite !Qc_ltb_spec. apply Qlt_trans.
Qed.

Lemma LimitAssignments_keeps_cheapest_witness :
  ∃ a, LimitAssignments [pairing_q 0 0 3; pairing_q 1 1 2; pairing_q 0 1 5] 1 1 !! 0 = Some a
       ∧ a ∈ [pairing_q 0 0 3; pairing_q 1 1 2; pairing_q 0 1 5]
       ∧ ∀ b, b ∈ [pairing_q 0 0 3; pairing_q 1 1 2; pairing_q 0 1 5] →
           f_ltb (cost b) (cost a) = false.
Proof.
  apply LimitAssignments_keeps_cheapest.
  - exact xltb_irrefl.
  - exact xltb_trans.
  - lia.
  - lia.
  - discriminate.
Defined.

(** *** What is dropped *)

Section Dropped.
Context {F : Type} `{Scalar F}.
Implicit Types (v : list (Assignment F)) (a b : Assignment F).

Lemma swap_remove_perm v i b : v !! i = Some b → v ≡ₚ b :: swap_remove v i.
Proof.
  intros Hb. pose proof (lookup_lt_Some _ _ _ Hb) as Hlt.
  destruct (swap_remove_spec v i Hlt) as (_ & Htk & Hdr).
  rewrite <- (take_drop_middle v i b Hb) at 1.
  rewrite <- (take_drop i (swap_remove v i)), Htk, Hdr.
  by rewrite Permutation_middle.
Qed.

Lemma pairings_of_character_take c v i :
  pairings_of_character c (take i v) ≤ pairings_of_character c v.
Proof. rewrite <- (take_drop i v) at 2. rewrite pairings_of_character_app. lia. Qed.

Lemma pairings_of_task_take t v i :
  pairings_of_task t (take i v) ≤ pairings_of_task t v.
Proof. rewrite <- (take_drop i v) at 2. rewrite pairings_of_task_app. lia. Qed.

(** Every pairing that leaves the vector was refused, for a character or a
    task that the part already retained holds at its limit. *)
Lemma limit_loop_dropped fuel Kc Kt v i tpc cpt :
  length v ≤ i + fuel → i ≤ length v →
  (∀ b, b ∈ v → character b < length tpc ∧ task b < length cpt) →
  (∀ c, c < length tpc → tpc !!! c = Z.of_nat (pairings_of_character c (take i v))) →
  (∀ t, t < length cpt → cpt !!! t = Z.of_nat (pairings_of_task t (take i v))) →
  ∃ dropped, v ≡ₚ limit_loop fuel Kc Kt v i tpc cpt ++ dropped
    ∧ ∀ a, a ∈ dropped →
        (Kc ≤ Z.of_nat (pairings_of_character (character a)
                          (limit_loop fuel Kc Kt v i tpc cpt)))%Z
        ∨ (Kt ≤ Z.of_nat (pairings_of_task (task a)
                            (limit_loop fuel Kc Kt v i tpc cpt)))%Z.
Proof.
  revert v i tpc cpt.
  induction fuel as [|fuel IH]; intros v i tpc cpt Hfuel Hi Hrange Htpc Hcpt; simpl.
  { exists []. split; [by rewrite app_nil_r|]. by intros a ?%elem_of_nil. }
  case_bool_decide as Hlt.
  2:{ exists []. split; [by rewrite app_nil_r|]. by intros a ?%elem_of_nil. }
  destruct (lookup_lt_is_Some_2 v i Hlt) as [b Hb].
  rewrite (list_lookup_total_correct _ _ _ Hb).
  destruct (Hrange b) as [Hcb Htb]; [by eapply list_elem_of_lookup_2|].
  destruct (swap_remove_spec v i Hlt) as (Hl & Htk & Hdr).
  assert (Hdrop : ∀ b0, b0 ∈ swap_remove v i →
            character b0 < length tpc ∧ task b0 < length cpt).
  { intros b0 Hb0. apply Hrange.
    by eapply elem_of_submseteq; [|apply swap_remove_submseteq]. }
  assert (Hrefuse :
    (Kc ≤ tpc !!! character b)%Z ∨ (Kt ≤ cpt !!! task b)%Z →
    (∀ c, c < length tpc → tpc !!! c
          = Z.of_nat (pairings_of_character c (take i (swap_remove v i)))) →
    (∀ t, t < length cpt → cpt !!! t
          = Z.of_nat (pairings_of_task t (take i (swap_remove v i)))) →
    ∃ dropped, v ≡ₚ limit_loop fuel Kc Kt (swap_remove v i) i tpc cpt ++ dropped
      ∧ ∀ a, a ∈ dropped →
          (Kc ≤ Z.of_nat (pairings_of_character (character a)
                            (limit_loop fuel Kc Kt (swap_remove v i) i tpc cpt)))%Z
          ∨ (Kt ≤ Z.of_nat (pairings_of_task (task a)
                              (limit_loop fuel Kc Kt (swap_remove v i) i tpc cpt)))%Z).
  { intros Hfull Htpc' Hcpt'.
    destruct (IH (swap_remove v i) i tpc cpt) as (d' & Hperm & Hsat); auto; [lia|lia|].
    exists (b :: d'). split.
    - etrans; [apply (swap_remove_perm v i b Hb)|].
      etrans; [apply Permutation_skip, Hperm|]. apply Permutation_middle.
    - intros a [->|Ha]%elem_of_cons; [|by apply Hsat].
      pose proof (limit_loop_take fuel Kc Kt (swap_remove v i) i tpc cpt ltac:(lia)) as Hpre.
      pose proof (pairings_of_character_take (character b)
                    (limit_loop fuel Kc Kt (swap_remove v i) i tpc cpt) i) as Hmc.
      pose proof (pairings_of_task_take (task b)
                    (limit_loop fuel Kc Kt (swap_remove v i) i tpc cpt) i) as Hmt.
      rewrite Hpre in Hmc, Hmt.
      rewrite Htpc', Hcpt' in Hfull by done.
      destruct Hfull; [left|right]; lia. }
  destruct (Z.leb_spec Kc (tpc !!! character b)) as [Hfull|Hroom].
  { apply Hrefuse; [by left|by rewrite Htk..]. }
  destruct (Z.leb_spec Kt (cpt !!! task b)) as [Hfull'|Hroom'].
  { apply Hrefuse; [by right|by rewrite Htk..]. }
  apply IH; rewrite ?Nat.add_1_r, ?(take_S_r _ _ _ Hb), ?length_insert; auto; try lia.
  - intros c Hlc. rewrite pairings_of_character_snoc.
    destruct (decide (character b = c)) as [->|Hne].
    + rewrite list_lookup_total_insert_eq by done. rewrite Htpc by done. lia.
    + rewrite list_lookup_total_insert_ne by done. rewrite Htpc by done. lia.
  - intros t Hlt'. rewrite pairings_of_task_snoc.
    destruct (decide (task b = t)) as [->|Hne].
    + rewrite list_lookup_total_insert_eq by done. rewrite Hcpt by done. lia.
    + rewrite list_lookup_total_insert_ne by done. rewrite Hcpt by done. lia.
Qed.
End Dropped.

(** Nothing is dropped without need.  Split the input into what is
    retained and what is dropped, copy by copy: every dropped pairing has
    its character in [limit_per_character] retained pairings or its task
    in [limit_per_task] retained pairings. *)
Theorem LimitAssignments_saturated {F : Type} `{Scalar F}
    (v dropped : list (Assignment F)) (Kc Kt : Z) (a : Assignment F) :
  (0 ≤ Kc)%Z → (0 ≤ Kt)%Z →
  v ≡ₚ LimitAssignments v Kc Kt ++ dropped → a ∈ dropped →
  Z.of_nat (pairings_of_character (character a) (LimitAssignments v Kc Kt)) = Kc
  ∨ Z.of_nat (pairings_of_task (task a) (LimitAssignments v Kc Kt)) = Kt.
Proof.
  intros HKc HKt Hsplit Ha.
  assert (Hrange : ∀ b, b ∈ sort_by_cost v →
            character b < length (replicate (Z.to_nat (last_id character (sort_by_cost v) + 1)) 0%Z)
            ∧ task b < length (replicate (Z.to_nat (last_id task (sort_by_cost v) + 1)) 0%Z)).
  { intros b Hb. rewrite !length_replicate.
    pose proof (last_id_bound character _ _ Hb).
    pose proof (last_id_bound task _ _ Hb). lia. }
  destruct (limit_loop_caps (length (sort_by_cost v)) Kc Kt (sort_by_cost v) 0
              (replicate (Z.to_nat (last_id character (sort_by_cost v) + 1)) 0%Z)
              (replicate (Z.to_nat (last_id task (sort_by_cost v) + 1)) 0%Z))
    with (k := character a) as [Hcap _]; rewrite ?take_0; try done; try lia.
  { intros c Hc. rewrite length_replicate in Hc. by rewrite lookup_total_replicate_2. }
  { intros t Ht. rewrite length_replicate in Ht. by rewrite lookup_total_replicate_2. }
  destruct (limit_loop_caps (length (sort_by_cost v)) Kc Kt (sort_by_cost v) 0
              (replicate (Z.to_nat (last_id character (sort_by_cost v) + 1)) 0%Z)
              (replicate (Z.to_nat (last_id task (sort_by_cost v) + 1)) 0%Z))
    with (k := task a) as [_ Hcap']; rewrite ?take_0; try done; try lia.
  { intros c Hc. rewrite length_replicate in Hc. by rewrite lookup_total_replicate_2. }
  { intros t Ht. rewrite length_replicate in Ht. by rewrite lookup_total_replicate_2. }
  destruct (limit_loop_dropped (length (sort_by_cost v)) Kc Kt (sort_by_cost v) 0
              (replicate (Z.to_nat (last_id character (sort_by_cost v) + 1)) 0%Z)
              (replicate (Z.to_nat (last_id task (sort_by_cost v) + 1)) 0%Z))
    as (d0 & Hperm & Hsat); rewrite ?take_0; try done; try lia.
  { intros c Hc. rewrite length_replicate in Hc. by rewrite lookup_total_replicate_2. }
  { intros t Ht. rewrite length_replicate in Ht. by rewrite lookup_total_replicate_2. }
  fold (LimitAssignments v Kc Kt) in Hperm, Hsat, Hcap, Hcap'.
  assert (Hd : dropped ≡ₚ d0).
  { apply (Permutation_app_inv_l (LimitAssignments v Kc Kt)).
    by rewrite <- Hsplit, <- Hperm, sort_by_cost_perm. }
  rewrite Hd in Ha. destruct (Hsat a Ha); [left|right]; lia.
Qed.

Lemma LimitAssignments_saturated_witness :
  Z.of_nat (pairings_of_character 0
    (LimitAssignments [mkAssignment 0 0 1%float; mkAssignment 0 0 1%float] 1 1)) = 1%Z
  ∨ Z.of_nat (pairings_of_task 0
      (LimitAssignments [mkAssignment 0 0 1%float; mkAssignment 0 0 1%float] 1 1)) = 1%Z.
Proof.
  apply (LimitAssignments_saturated
           [mkAssignment 0 0 1%float; mkAssignment 0 0 1%float]
           [mkAssignment 0 0 1%float] 1 1 (mkAssignment 0 0 1%float)).
  - lia.
  - lia.
  - vm_compute. reflexivity.
  - apply list_elem_of_here.
Defined.

(** ** What [Optimize] maximises on sparse inputs *)

(** A partial matching between rows and columns extends to one that gives
    every row a column of its own, when there are no more rows than
    columns. *)
Lemma extend_matching (NX NY : nat) (es : list (nat * nat)) :
  NX ≤ NY → NoDup (es.*1) → NoDup (es.*2) →
  (∀ e, e ∈ es → e.1 < NX ∧ e.2 < NY) →
  ∃ ext, (es ++ ext).*1 ≡ₚ seq 0 NX ∧ NoDup ((es ++ ext).*2)
         ∧ (∀ e, e ∈ ext → e.1 < NX ∧ e.2 < NY)
         ∧ length es + length ext = NX.
Proof.
  intros Hle Hnd1 Hnd2 Hrange.
  set (freeR := list_difference (seq 0 NX) (es.*1)).
  set (freeC := list_difference (seq 0 NY) (es.*2)).
  assert (HpR : es.*1 ++ freeR ≡ₚ seq 0 NX).
  { apply NoDup_Permutation.
    - apply list.NoDup_app. split_and!; [done| |by apply NoDup_list_difference, NoDup_seq].
      intros x Hx [_ ?]%list_elem_of_difference. done.
    - apply NoDup_seq.
    - intros x. unfold freeR, freeC.
      rewrite elem_of_app, list_elem_of_difference, elem_of_seq. split.
      + intros [(e & -> & He)%list_elem_of_fmap|[? _]]; [|done].
        destruct (Hrange e He). lia.
      + intros Hx. destruct (decide (x ∈ es.*1)); [by left|by right]. }
  assert (HpC : es.*2 ++ freeC ≡ₚ seq 0 NY).
  { apply NoDup_Permutation.
    - apply list.NoDup_app. split_and!; [done| |by apply NoDup_list_difference, NoDup_seq].
      intros x Hx [_ ?]%list_elem_of_difference. done.
    - apply NoDup_seq.
    - intros x. unfold freeR, freeC.
      rewrite elem_of_app, list_elem_of_difference, elem_of_seq. split.
      + intros [(e & -> & He)%list_elem_of_fmap|[? _]]; [|done].
        destruct (Hrange e He). lia.
      + intros Hx. destruct (decide (x ∈ es.*2)); [by left|by right]. }
  pose proof (Permutation_length HpR) as HlR.
  pose proof (Permutation_length HpC) as HlC.
  rewrite length_app, length_fmap, length_seq in HlR, HlC.
  exists (zip freeR (take (length freeR) freeC)).
  assert (Hfst : (zip freeR (take (length freeR) freeC)).*1 = freeR).
  { apply fst_zip. rewrite length_take. lia. }
  assert (Hsnd : (zip freeR (take (length freeR) freeC)).*2 = take (length freeR) freeC).
  { apply snd_zip. rewrite length_take. lia. }
  split_and!.
  - by rewrite fmap_app, Hfst.
  - rewrite fmap_app, Hsnd.
    apply (sublist_NoDup _ (es.*2 ++ freeC)); [by rewrite HpC; apply NoDup_seq|].
    apply sublist_app; [done|apply sublist_take].
  - intros e He. split.
    + assert (e.1 ∈ freeR) as [?%elem_of_seq _]%list_elem_of_difference; [|lia].
      rewrite <- Hfst. apply list_elem_of_fmap. by exists e.
    + assert (e.2 ∈ take (length freeR) freeC) as Hin.
      { rewrite <- Hsnd. apply list_elem_of_fmap. by exists e. }
      eapply elem_of_submseteq in Hin; [|apply sublist_submseteq, sublist_take].
      apply list_elem_of_difference in Hin as [?%elem_of_seq _]. lia.
  - rewrite <- (length_fmap fst (zip _ _)), Hfst. lia.
Qed.

Section Savings.
Variable v : list (Assignment xreal).
Variable bc : bool.
Variables NX NY : nat.
Variable st : solver xreal.
Hypothesis v_bounded : bounded_costs v.
Hypothesis v_nodup : NoDup (pair_of <$> v).
Hypothesis Hbc : bc = bool_decide (max_id character v < max_id task v).
Hypothesis HNX : NX = (if bc then max_id character v + 1 else max_id task v + 1).
Hypothesis HNY : NY = (if bc then max_id task v + 1 else max_id character v + 1).

(** The value of a proposed pair is its saving above the baseline. *)
Lemma value_supplied a :
  a ∈ v →
  (val_q (value_matrix bc NX NY v) (row_of bc a) (col_of bc a) == saving v a + 1)%Q.
Proof.
  intros Ha.
  destruct (orientation v bc NX NY Hbc HNX HNY) as (_ & _ & Hrange).
  destruct (fold_write_value bc NX NY (max_cost v) v _
              (replicate_rectangular NX NY f_one) Hrange (NoDup_rows_cols bc v v_nodup))
    as (_ & Hin & _).
  unfold val_q, saving. rewrite value_matrix_fold, (Hin a Ha).
  destruct (max_cost_bounds v v_bounded) as (Hfc & _ & _).
  apply (proj1 (list.Forall_forall _ _) v_bounded) in Ha as [Hfa _].
  assert (Hone : fin (@f_one xreal exact)) by (by exists 1%Qc).
  destruct (fin_sub _ _ Hfc Hfa) as [Hfs Hs].
  destruct (fin_add _ _ Hfs Hone) as [_ Hd].
  rewrite Hd, Hs. change (qv f_one) with (this 1%Qc). change (this 1%Qc) with 1%Q. lra.
Qed.

(** The value of a pair that is not proposed is the baseline. *)
Lemma value_absent x y :
  x < NX → y < NY → (∀ a, a ∈ v → (x, y) ≠ (row_of bc a, col_of bc a)) →
  (val_q (value_matrix bc NX NY v) x y == 1)%Q.
Proof.
  intros Hx Hy Hno.
  destruct (orientation v bc NX NY Hbc HNX HNY) as (_ & _ & Hrange).
  destruct (fold_write_value bc NX NY (max_cost v) v _
              (replicate_rectangular NX NY f_one) Hrange (NoDup_rows_cols bc v v_nodup))
    as (_ & _ & Hout).
  unfold val_q. rewrite value_matrix_fold, (Hout x y Hx Hy Hno).
  rewrite lookup_total_replicate_2 by done. rewrite lookup_total_replicate_2 by done.
  change (qv f_one) with (this 1%Qc). change (this 1%Qc) with 1%Q. lra.
Qed.

Lemma saving_nonneg a : a ∈ v → (0 <= saving v a)%Q.
Proof.
  intros Ha. destruct (max_cost_bounds v v_bounded) as (_ & _ & Hle).
  specialize (Hle a Ha). unfold saving. lra.
Qed.

(** The total value of a matching of proposed pairs, once it is extended to
    every row. *)
Lemma matching_value (M : list (Assignment xreal)) :
  M ⊆+ v → NoDup (character <$> M) → NoDup (task <$> M) →
  ∃ es : list (nat * nat),
    es.*1 ≡ₚ seq 0 NX ∧ NoDup (es.*2) ∧ (∀ e, e ∈ es → e.2 < NY)
    ∧ (Qsum (saving v) M + inject_Z (Z.of_nat NX)
       <= Qsum (λ e, val_q (value_matrix bc NX NY v) e.1 e.2) es)%Q.
Proof.
  intros Hsub Hnc Hnt.
  destruct (orientation v bc NX NY Hbc HNX HNY) as (Hle & _ & Hrange).
  assert (HinM : ∀ a, a ∈ M → a ∈ v) by (intros a Ha; by eapply elem_of_submseteq).
  assert (Hr : NoDup (row_of bc <$> M) ∧ NoDup (col_of bc <$> M)) by (by destruct bc).
  destruct Hr as [Hr Hc].
  set (cells := (λ a : Assignment xreal, (row_of bc a, col_of bc a)) <$> M).
  assert (Hc1 : cells.*1 = row_of bc <$> M).
  { unfold cells. by rewrite <- list_fmap_compose. }
  assert (Hc2 : cells.*2 = col_of bc <$> M).
  { unfold cells. by rewrite <- list_fmap_compose. }
  destruct (extend_matching NX NY cells Hle) as (ext & Hp & Hnd & Hext & Hlen).
  { by rewrite Hc1. }
  { by rewrite Hc2. }
  { intros e (a & -> & Ha)%list_elem_of_fmap. by apply Hrange, HinM. }
  exists (cells ++ ext). split_and!; [done|done| |].
  - intros e [(a & -> & Ha)%list_elem_of_fmap|He]%elem_of_app.
    + by apply Hrange, HinM.
    + by apply Hext.
  - rewrite Qsum_app. unfold cells at 1. rewrite Qsum_fmap.
    assert (H1 : (Qsum (λ a, val_q (value_matrix bc NX NY v) (row_of bc a, col_of bc a).1
                               (row_of bc a, col_of bc a).2) M
                  == Qsum (λ a, saving v a + 1) M)%Q).
    { apply Qsum_eq. intros a Ha. by apply value_supplied, HinM. }
    assert (H2 : (Qsum (λ _, 1) ext
                  <= Qsum (λ e, val_q (value_matrix bc NX NY v) e.1 e.2) ext)%Q).
    { apply Qsum_le. intros e He. destruct (Hext e He) as [Hx Hy].
      by destruct (value_matrix_range v bc NX NY _ _ v_bounded Hrange Hx Hy) as [_ [? _]]. }
    rewrite H1, Qsum_plus, Qsum_const. rewrite Qsum_const in H2.
    unfold cells in Hlen. rewrite length_fmap in Hlen.
    assert (HN : Z.of_nat NX = (Z.of_nat (length M) + Z.of_nat (length ext))%Z) by lia.
    rewrite HN, inject_Z_plus. lra.
Qed.

Hypothesis solved : matched_rows NX NY st NX.

Lemma kept_rows_NoDup : NoDup (row_of bc <$> filter (λ a, selected bc st a) v).
Proof.
  apply NoDup_fmap_2_strong.
  - intros a b Ha Hb Heq.
    destruct (kept_partner v bc NX NY st Hbc HNX HNY solved a Ha) as (Hav & _ & Hca).
    destruct (kept_partner v bc NX NY st Hbc HNX HNY solved b Hb) as (Hbv & _ & Hcb).
    apply (NoDup_fmap_eq _ _ _ _ (NoDup_rows_cols bc v v_nodup) Hav Hbv).
    f_equal; [done|]. by rewrite Hca, Hcb, Heq.
  - apply list.NoDup_filter. by eapply NoDup_fmap_1.
Qed.

(** The total value of the matching of the solver: the savings of the
    pairings kept, and the baseline for every row. *)
Lemma solution_value :
  (Qsum (λ x, val_q (value_matrix bc NX NY v) x (partner st x)) (seq 0 NX)
   == Qsum (saving v) (filter (λ a, selected bc st a) v) + inject_Z (Z.of_nat NX))%Q.
Proof.
  destruct (orientation v bc NX NY Hbc HNX HNY) as (_ & _ & Hrange).
  set (kept := filter (λ a, selected bc st a) v).
  assert (Hsub : row_of bc <$> kept ⊆+ seq 0 NX).
  { apply NoDup_submseteq; [apply kept_rows_NoDup|].
    intros x (a & -> & Ha)%list_elem_of_fmap.
    destruct (kept_partner v bc NX NY st Hbc HNX HNY solved a Ha) as (_ & ? & _).
    apply elem_of_seq. lia. }
  apply submseteq_Permutation in Hsub as [rest Hperm].
  assert (Hnd : NoDup ((row_of bc <$> kept) ++ rest)).
  { rewrite <- Hperm. apply NoDup_seq. }
  apply list.NoDup_app in Hnd as (_ & Hdisj & _).
  pose proof (Permutation_length Hperm) as Hlen.
  rewrite length_seq, length_app, length_fmap in Hlen.
  rewrite (Qsum_perm _ _ _ Hperm), Qsum_app, Qsum_fmap.
  assert (H1 : (Qsum (λ a, val_q (value_matrix bc NX NY v) (row_of bc a)
                             (partner st (row_of bc a))) kept
                == Qsum (λ a, saving v a + 1) kept)%Q).
  { apply Qsum_eq. intros a Ha.
    destruct (kept_partner v bc NX NY st Hbc HNX HNY solved a Ha) as (Hav & _ & Hc).
    rewrite <- Hc. by apply value_supplied. }
  assert (H2 : (Qsum (λ x, val_q (value_matrix bc NX NY v) x (partner st x)) rest
                == Qsum (λ _, 1) rest)%Q).
  { apply Qsum_eq. intros x Hx.
    assert (HxN : x < NX).
    { assert (x ∈ seq 0 NX) as ?%elem_of_seq; [|lia].
      rewrite Hperm. apply elem_of_app. by right. }
    destruct (partner_spec NX NY st solved x HxN) as [Hp Hback].
    apply value_absent; [done|done|].
    intros a Ha [= Hra Hca].
    apply (Hdisj x); [|done].
    apply list_elem_of_fmap. exists a. split; [done|].
    apply list_elem_of_filter. split; [|done].
    apply Is_true_true. destruct solved as (_ & Hm & _).
    destruct (Hrange a Ha) as [Hr Hc].
    apply (selected_partner bc NX NY st a Hm Hr Hc).
    rewrite <- Hra, <- Hca. unfold partner.
    pose proof (matched_rows_all _ _ _ solved x HxN).
    destruct Hm as (_ & _ & Hxy & _).
    destruct (Hxy x HxN) as [?|[? _]]; [done|lia]. }
  rewrite H1, H2, Qsum_plus, !Qsum_const.
  assert (HN : Z.of_nat NX = (Z.of_nat (length kept) + Z.of_nat (length rest))%Z) by lia.
  rewrite HN, inject_Z_plus. lra.
Qed.

Hypothesis labels : labels_out (value_matrix bc NX NY v) NX NY st.

Lemma kept_saving (M : list (Assignment xreal)) :
  M ⊆+ v → NoDup (character <$> M) → NoDup (task <$> M) →
  (Qsum (saving v) M
   <= Qsum (saving v) (filter (λ a, selected bc st a) v)
      + inject_Z (Z.of_nat NX) * tol)%Q.
Proof.
  intros Hsub Hnc Hnt.
  destruct (matching_value M Hsub Hnc Hnt) as (es & Hes1 & Hes2 & Hes3 & HM).
  pose proof (labels_optimal _ NX NY st solved labels es Hes1 Hes2 Hes3) as Hopt.
  pose proof solution_value as Hsol. lra.
Qed.
End Savings.

(** In exact arithmetic, on any list without repeated pairs, sparse lists
    included: the total saving [max_cost - cost] of the retained pairings
    is, up to [N] tolerances, at least that of every matching made of
    proposed pairings, whatever its size. *)
Lemma Optimize_saving (v : list (Assignment xreal)) (fuel : nat) :
  bounded_costs v → NoDup (pair_of <$> v) →
  3 * (max_id character v `max` max_id task v) + 5 ≤ fuel →
  ∃ out, Optimize fuel v = Returned out ∧
    ∀ M, M ⊆+ v → NoDup (character <$> M) → NoDup (task <$> M) →
      (Qsum (saving v) M
       <= Qsum (saving v) out + inject_Z (Z.of_nat (smaller_side v)) * tol)%Q.
Proof.
  intros Hv Hnd Hfuel.
  destruct (Optimize_returns v fuel Hv Hfuel) as [out Hrun].
  exists out. split; [done|]. intros M Hsub Hnc Hnt.
  destruct (Optimize_returned _ _ _ Hrun)
    as (bc & st & NX & NY & Hbc & HNX & HNY & Hh & _ & Hout).
  destruct (orientation v bc NX NY Hbc HNX HNY) as (Hle & Hside & Hrange).
  destruct (hungarian_exact _ NX NY
              (λ x y Hx Hy, proj1 (value_matrix_range v bc NX NY x y Hv Hrange Hx Hy))
              fuel st Hh) as [Hrows Hlabels].
  replace (NX `min` NY) with NX in Hrows by lia.
  rewrite (Qsum_perm _ _ _ Hout), <- Hside.
  by apply (kept_saving v bc NX NY st Hv Hnd Hbc HNX HNY Hrows Hlabels).
Qed.

(** On any scalars: when no pair is proposed twice and [Optimize] returns,
    it retains at most [min(max_character, max_task) + 1] pairings. *)
Theorem Optimize_size {F : Type} `{Scalar F} (v out : list (Assignment F)) (fuel : nat) :
  NoDup (pair_of <$> v) → Optimize fuel v = Returned out → length out ≤ smaller_side v.
Proof.
  intros Hnd Hrun.
  destruct (Optimize_returned _ _ _ Hrun)
    as (bc & st & NX & NY & Hbc & HNX & HNY & Hh & Hm & Hout).
  destruct (orientation v bc NX NY Hbc HNX HNY) as (Hle & Hside & Hrange).
  rewrite (Permutation_length Hout), <- Hside, <- (length_fmap (row_of bc)).
  apply NoDup_below_length.
  - apply NoDup_fmap_2_strong; [|by apply list.NoDup_filter; eapply NoDup_fmap_1].
    intros a b [Hsa Ha]%list_elem_of_filter [Hsb Hb]%list_elem_of_filter Heq.
    destruct (Hrange a Ha) as [Hra Hca]. destruct (Hrange b Hb) as [Hrb Hcb].
    apply Is_true_true, (selected_partner bc NX NY st a Hm Hra Hca) in Hsa.
    apply Is_true_true, (selected_partner bc NX NY st b Hm Hrb Hcb) in Hsb.
    apply (NoDup_fmap_eq _ _ _ _ (NoDup_rows_cols bc v Hnd) Ha Hb).
    f_equal; [done|]. rewrite Heq in Hsa. rewrite Hsa in Hsb. lia.
  - intros x (a & -> & [_ Ha]%list_elem_of_filter)%list_elem_of_fmap. by apply Hrange.
Qed.

Lemma Optimize_size_witness :
  length [pairing 0 0 10; pairing 1 1 10]
  ≤ smaller_side [pairing 0 0 10; pairing 1 0 15; pairing 0 1 20; pairing 1 1 10].
Proof.
  apply (Optimize_size _ _ 10).
  - apply (bool_decide_unpack _). vm_compute. reflexivity.
  - vm_compute. reflexivity.
Defined.

(** ** The JavaScript wrappers *)

(** *** [compute_cost] *)

Lemma js_or_fin (q d : Qc) :
  js_or (Some (XFin q)) (XFin d) = XFin (if decide (q = 0%Qc) then d else q).
Proof.
  unfold js_or, js_truthy. change (@f_zero xreal exact) with (XFin 0%Qc).
  change (f_ltb (XFin q) (XFin 0%Qc)) with (Qc_ltb q 0).
  change (f_ltb (XFin 0%Qc) (XFin q)) with (Qc_ltb 0 q).
  destruct (decide (q = 0%Qc)) as [->|Hne].
  - by rewrite (proj2 (Qc_ltb_false 0 0)) by apply Qle_refl.
  - destruct (Qc_ltb q 0) eqn:H1; [done|]. destruct (Qc_ltb 0 q) eqn:H2; [done|].
    apply Qc_ltb_false in H1, H2. exfalso. apply Hne. apply Qc_is_canon.
    change (this 0%Qc) with 0%Q in *. lra.
Qed.

(** What reaches [ComputeCost] from a field that holds a finite number or
    is missing. *)
Lemma js_or_field (f : option Qc) (d : Qc) :
  js_or (XFin <$> f) (XFin d)
  = XFin (match f with Some q => if decide (q = 0%Qc) then d else q | None => d end).
Proof. destruct f as [q|]; [apply js_or_fin|done]. Qed.



(** *** [optimize] *)

Section ObjectFacts.
Context {K : Type} `{EqDecision K}.
Implicit Types (obj : list (K * nat)) (k : K).

Lemma js_get_elem obj k x : js_get obj k = Some x → (k, x) ∈ obj.
Proof.
  induction obj as [|[k' x'] obj IH]; simpl; [done|].
  case_decide as Hk; [intros [= <-]; subst; by left|]. intros ?. right. by apply IH.
Qed.

Lemma js_get_None obj k : js_get obj k = None ↔ k ∉ obj.*1.
Proof.
  induction obj as [|[k' x'] obj IH]; simpl.
  - split; [intros _ ?%elem_of_nil; done|done].
  - case_decide as Hk.
    + split; [done|]. intros Hnot. exfalso. apply Hnot. subst. by left.
    + rewrite IH, not_elem_of_cons. split; [intros ?; split; [congruence|done]|by intros [_ ?]].
Qed.

Lemma js_get_app obj obj' k :
  js_get (obj ++ obj') k
  = match js_get obj k with Some x => Some x | None => js_get obj' k end.
Proof.
  induction obj as [|[k' x'] obj IH]; simpl; [done|]. by case_decide.
Qed.

Lemma js_get_app_l obj obj' k x : js_get obj k = Some x → js_get (obj ++ obj') k = Some x.
Proof. intros Hk. by rewrite js_get_app, Hk. Qed.

(** In a dense object a name has one identifier and an identifier one
    name. *)
Lemma dense_get obj k x : dense obj → (k, x) ∈ obj → js_get obj k = Some x.
Proof.
  intros [Hnd _] Hin. destruct (js_get obj k) as [x'|] eqn:Hget.
  - apply js_get_elem in Hget.
    assert ((k, x') = (k, x)) as [= ->]; [|done].
    by apply (NoDup_fmap_eq fst obj _ _ Hnd Hget Hin).
  - apply js_get_None in Hget. exfalso. apply Hget.
    apply list_elem_of_fmap. by exists (k, x).
Qed.

Lemma dense_name obj k k' x :
  dense obj → js_get obj k = Some x → js_get obj k' = Some x → k = k'.
Proof.
  intros [_ Hids] H1%js_get_elem H2%js_get_elem.
  assert (Hnd : NoDup (obj.*2)) by (rewrite Hids; apply NoDup_seq).
  assert ((k, x) = (k', x)) as [= ->]; [|done].
  by apply (NoDup_fmap_eq snd obj _ _ Hnd H1 H2).
Qed.

Lemma dense_bound obj k x : dense obj → js_get obj k = Some x → x < length obj.
Proof.
  intros [_ Hids] Hin%js_get_elem.
  assert (x ∈ obj.*2) as Hx by (apply list_elem_of_fmap; by exists (k, x)).
  rewrite Hids in Hx. apply elem_of_seq in Hx. lia.
Qed.

Lemma dense_snoc obj k : dense obj → k ∉ obj.*1 → dense (obj ++ [(k, length obj)]).
Proof.
  intros [Hnd Hids] Hk. split.
  - rewrite fmap_app. apply list.NoDup_app. split_and!; [done| |apply NoDup_singleton].
    intros k' Hk' ->%list_elem_of_singleton. done.
  - rewrite fmap_app, Hids, length_app. simpl. by rewrite seq_app.
Qed.

Lemma dense_nil : dense ([] : list (K * nat)).
Proof. split; [apply NoDup_nil_2|done]. Qed.
End ObjectFacts.

Section ArrayFacts.
Context {K : Type}.
Implicit Types (acc : list (option K)) (k : K).

Lemma array_get_set acc i k j :
  array_get (array_set acc i k) j = if decide (j = i) then Some k else array_get acc j.
Proof.
  unfold array_get, array_set. case_bool_decide as Hi.
  - destruct (decide (j = i)) as [->|Hne].
    + by rewrite list_lookup_insert_eq.
    + by rewrite list_lookup_insert_ne.
  - destruct (decide (j = i)) as [->|Hne].
    + rewrite lookup_app_r by lia. rewrite lookup_app_r by (rewrite length_replicate; lia).
      rewrite length_replicate. by replace (i - length acc - (i - length acc)) with 0 by lia.
    + destruct (decide (j < length acc)) as [Hj|Hj].
      { by rewrite lookup_app_l. }
      rewrite lookup_app_r by lia. rewrite (lookup_ge_None_2 acc) by lia.
      destruct (decide (j < i)) as [Hji|Hji].
      * rewrite lookup_app_l by (rewrite length_replicate; lia).
        by rewrite lookup_replicate_2 by lia.
      * rewrite lookup_app_r by (rewrite length_replicate; lia).
        rewrite length_replicate. rewrite lookup_ge_None_2; [done|]. simpl. lia.
Qed.
End ArrayFacts.

Section OptimizeJsFacts.
Context {K F : Type} `{EqDecision K} `{Scalar F}.
Variable inherited : K → bool.
Variable object_keys : list (K * nat) → list K.
Hypothesis object_keys_perm : ∀ obj, object_keys obj ≡ₚ obj.*1.
Implicit Types (obj : list (K * nat)) (k : K).

Lemma object_keys_length obj : length (object_keys obj) = length obj.
Proof. by rewrite (Permutation_length (object_keys_perm obj)), length_fmap. Qed.

(** A name gets the identifier it had, or the next free one. *)
Lemma intern_spec obj k obj' x :
  dense obj → intern inherited object_keys obj k = Some (obj', x) →
  dense obj' ∧ js_get obj' k = Some x ∧ ∃ ext, obj' = obj ++ ext.
Proof.
  intros Hd. unfold intern. destruct (js_get obj k) as [x'|] eqn:Hget.
  - intros [= <- <-]. split_and!; [done|done|by exists []; rewrite app_nil_r].
  - destruct (inherited k); [done|]. rewrite object_keys_length. intros [= <- <-].
    split_and!.
    + apply dense_snoc; [done|]. by apply js_get_None.
    + rewrite js_get_app, Hget. simpl. by rewrite decide_True.
    + by eexists.
Qed.

Lemma intern_total obj k :
  inherited k = false → ∃ r, intern inherited object_keys obj k = Some r.
Proof.
  intros Hk. unfold intern. destruct (js_get obj k); [by eexists|]. rewrite Hk. by eexists.
Qed.

(** What the first loop builds: two dense objects, and for each pairing of
    the input, in order, a pairing of the identifiers of its names at the
    same cost. *)
Lemma encode_spec (input : list (NamedAssignment K F)) mc mt acc mc' mt' acc' :
  dense mc → dense mt →
  encode inherited object_keys input mc mt acc = Some (mc', mt', acc') →
  dense mc' ∧ dense mt' ∧ (∃ e, mc' = mc ++ e) ∧ (∃ e, mt' = mt ++ e)
  ∧ ∃ ids, acc' = acc ++ ids
      ∧ Forall2 (λ a c, js_get mc' (named_character a) = Some (character c)
                        ∧ js_get mt' (named_task a) = Some (task c)
                        ∧ cost c = named_cost a) input ids.
Proof.
  revert mc mt acc. induction input as [|a input IH]; intros mc mt acc Hmc Hmt; simpl.
  { intros [= <- <- <-]. split_and!; [done|done|by exists []; rewrite app_nil_r..|].
    exists []. by rewrite app_nil_r. }
  destruct (intern inherited object_keys mc (named_character a)) as [[mc1 x]|] eqn:Hx; [|done].
  destruct (intern inherited object_keys mt (named_task a)) as [[mt1 y]|] eqn:Hy; [|done].
  simpl. intros Hrun.
  destruct (intern_spec _ _ _ _ Hmc Hx) as (Hmc1 & Hgx & e1 & ->).
  destruct (intern_spec _ _ _ _ Hmt Hy) as (Hmt1 & Hgy & e2 & ->).
  destruct (IH _ _ _ Hmc1 Hmt1 Hrun) as (Hd1 & Hd2 & [e1' ->] & [e2' ->] & ids & -> & Hall).
  split_and!; [done|done|by exists (e1 ++ e1'); rewrite app_assoc
              |by exists (e2 ++ e2'); rewrite app_assoc|].
  exists (mkAssignment x y (named_cost a) :: ids). split; [by rewrite <- app_assoc|].
  constructor; [|done]. split_and!; [by apply js_get_app_l|by apply js_get_app_l|done].
Qed.

Lemma encode_total (input : list (NamedAssignment K F)) mc mt acc :
  (∀ a, a ∈ input → inherited (named_character a) = false ∧ inherited (named_task a) = false) →
  ∃ r, encode inherited object_keys input mc mt acc = Some r.
Proof.
  revert mc mt acc. induction input as [|a input IH]; intros mc mt acc Hin; simpl.
  { by eexists. }
  destruct (Hin a (list_elem_of_here _ _)) as [Hc Ht].
  destruct (intern_total mc _ Hc) as [[mc1 x] ->].
  destruct (intern_total mt _ Ht) as [[mt1 y] ->]. simpl.
  apply IH. intros b Hb. apply Hin. by right.
Qed.

(** The array built from a dense object reads an identifier back to its
    name. *)
Lemma invert_fold obj (ks : list K) (acc : list (option K)) i :
  (∀ k, k ∈ ks → js_get obj k ≠ Some i) →
  array_get
    (fold_left (λ acc k, match js_get obj k with
                         | Some i => array_set acc i k
                         | None => acc
                         end) ks acc) i
  = array_get acc i.
Proof.
  revert acc. induction ks as [|h ks IH]; intros acc Hno; simpl; [done|].
  rewrite IH by (intros k Hk; apply Hno; by right).
  pose proof (Hno h (list_elem_of_here _ _)) as Hh.
  destruct (js_get obj h) as [ih|]; [|done].
  rewrite array_get_set. rewrite decide_False; [done|]. intros ->. done.
Qed.

Lemma invert_spec obj k i :
  dense obj → js_get obj k = Some i → array_get (invert object_keys obj) i = Some k.
Proof.
  intros Hd Hget. unfold invert.
  assert (Hk : k ∈ object_keys obj).
  { rewrite object_keys_perm. apply js_get_elem in Hget.
    apply list_elem_of_fmap. by exists (k, i). }
  assert (Hnd : NoDup (object_keys obj)).
  { rewrite object_keys_perm. apply Hd. }
  revert Hk Hnd. generalize (object_keys obj) ([] : list (option K)).
  intros ks. induction ks as [|h ks IH]; intros acc Hk Hnd; [by apply elem_of_nil in Hk|].
  apply list.NoDup_cons in Hnd as [Hh Hnd]. simpl.
  apply elem_of_cons in Hk as [<-|Hk].
  - rewrite Hget, invert_fold.
    + rewrite array_get_set. by rewrite decide_True.
    + intros k' Hk' Hget'. apply Hh. by rewrite (dense_name obj k k' i Hd Hget Hget').
  - by apply IH.
Qed.
End OptimizeJsFacts.

Lemma NoDup_Forall2 {A B C D} (R : A → B → Prop) (f : A → C) (g : B → D) l1 l2 :
  Forall2 R l1 l2 →
  (∀ a b a' b', R a b → R a' b' → g b = g b' → f a = f a') →
  NoDup (f <$> l1) → NoDup (g <$> l2).
Proof.
  intros Hall Hinj. induction Hall as [|a b l1 l2 Hab Hall IH].
  { intros _. apply NoDup_nil_2. }
  rewrite !fmap_cons. intros [Hnotin Hnd]%list.NoDup_cons.
  apply list.NoDup_cons. split; [|by apply IH].
  intros (b' & Hg & Hb')%list_elem_of_fmap.
  apply list_elem_of_lookup_1 in Hb' as [i Hi].
  destruct (Forall2_lookup_r _ _ _ _ _ Hall Hi) as (a' & Ha' & Hab').
  apply Hnotin. rewrite (Hinj a b a' b' Hab Hab' Hg).
  apply list_elem_of_fmap. exists a'. split; [done|]. by eapply list_elem_of_lookup_2.
Qed.

Lemma max_id_le {F} (id : Assignment F → nat) (v : list (Assignment F)) (B : nat) :
  (∀ a, a ∈ v → id a ≤ B) → max_id id v ≤ B.
Proof.
  unfold max_id. assert (Hz : 0 ≤ B) by lia. revert Hz. generalize 0.
  induction v as [|a v IH]; intros m Hm Hall; simpl; [done|].
  apply IH; [|intros b Hb; apply Hall; by right].
  pose proof (Hall a (list_elem_of_here _ _)). lia.
Qed.

Section OptimizeJsTheorems.
Context {K F : Type} `{EqDecision K} `{Scalar F}.
Variable inherited : K → bool.
Variable object_keys : list (K * nat) → list K.
Hypothesis object_keys_perm : ∀ obj, object_keys obj ≡ₚ obj.*1.

(** What a run of [optimize] that returns went through. *)
Lemma optimize_returned fuel (input : list (NamedAssignment K F)) out :
  optimize inherited object_keys fuel input = Returned out →
  ∃ mc mt ids optimized,
    dense mc ∧ dense mt
    ∧ Forall2 (λ a c, js_get mc (named_character a) = Some (character c)
                      ∧ js_get mt (named_task a) = Some (task c)
                      ∧ cost c = named_cost a) input ids
    ∧ Optimize fuel ids = Returned optimized
    ∧ out = (λ c, mkResult (array_get (invert object_keys mc) (character c))
                    (array_get (invert object_keys mt) (task c)) (cost c)) <$> optimized.
Proof.
  unfold optimize.
  destruct (encode inherited object_keys input [] [] []) as [[[mc mt] ac]|] eqn:Henc; [|done].
  destruct (encode_spec inherited object_keys object_keys_perm input [] [] [] mc mt ac
              dense_nil dense_nil Henc) as (Hmc & Hmt & _ & _ & ids & -> & Hall).
  simpl. destruct (Optimize fuel ids) as [optimized| |] eqn:Hopt; [|done..].
  intros [= <-]. by exists mc, mt, ids, optimized.
Qed.

Lemma decode_encoded (input : list (NamedAssignment K F)) mc mt ids :
  dense mc → dense mt →
  Forall2 (λ a c, js_get mc (named_character a) = Some (character c)
                  ∧ js_get mt (named_task a) = Some (task c)
                  ∧ cost c = named_cost a) input ids →
  (λ c, mkResult (array_get (invert object_keys mc) (character c))
          (array_get (invert object_keys mt) (task c)) (cost c)) <$> ids
  = named_result <$> input.
Proof.
  intros Hmc Hmt Hall. induction Hall as [|a c input ids (Hc & Ht & Hcost) Hall IH]; [done|].
  rewrite !fmap_cons, IH. f_equal. unfold named_result.
  rewrite (invert_spec object_keys object_keys_perm mc _ _ Hmc Hc).
  rewrite (invert_spec object_keys object_keys_perm mt _ _ Hmt Ht).
  by rewrite Hcost.
Qed.
End OptimizeJsTheorems.

(** The round trip through identifiers: whatever [Object.keys] lists the
    own keys in, every object that [optimize] returns is a pairing of the
    input, with its two names and its cost, and none is returned more often
    than it was proposed. *)
Theorem optimize_returns_proposed {K F : Type} `{EqDecision K} `{Scalar F}
    (inherited : K → bool) (object_keys : list (K * nat) → list K)
    (fuel : nat) (input : list (NamedAssignment K F)) (out : list (NamedResult K F)) :
  (∀ obj, object_keys obj ≡ₚ obj.*1) →
  optimize inherited object_keys fuel input = Returned out →
  out ⊆+ named_result <$> input.
Proof.
  intros Hkeys Hrun.
  destruct (optimize_returned inherited object_keys Hkeys fuel input out Hrun)
    as (mc & mt & ids & optimized & Hmc & Hmt & Hall & Hopt & ->).
  rewrite <- (decode_encoded object_keys Hkeys input mc mt ids Hmc Hmt Hall).
  apply fmap_submseteq.
  destruct (Optimize_returned _ _ _ Hopt) as (? & ? & ? & ? & _ & _ & _ & _ & _ & ->).
  apply sublist_submseteq, sublist_filter.
Qed.

Lemma optimize_returns_proposed_witness :
  [mkResult (Some 7) (Some 3) 10%float; mkResult (Some 8) (Some 4) 10%float]
  ⊆+ named_result <$> [mkNamed 7 3 10%float; mkNamed 8 3 15%float;
                        mkNamed 7 4 20%float; mkNamed 8 4 10%float].
Proof.
  apply (optimize_returns_proposed (λ _ : nat, false) (λ obj, obj.*1) 10).
  - done.
  - vm_compute. reflexivity.
Defined.

(** "At most one task per character": when no (character, task) pair is
    proposed twice, no character name and no task name occurs twice in what
    [optimize] returns. *)
Theorem optimize_one_task_each {K F : Type} `{EqDecision K} `{Scalar F}
    (inherited : K → bool) (object_keys : list (K * nat) → list K)
    (fuel : nat) (input : list (NamedAssignment K F)) (out : list (NamedResult K F)) :
  (∀ obj, object_keys obj ≡ₚ obj.*1) →
  NoDup ((λ a, (named_character a, named_task a)) <$> input) →
  optimize inherited object_keys fuel input = Returned out →
  NoDup (result_character <$> out) ∧ NoDup (result_task <$> out).
Proof.
  intros Hkeys Hnd Hrun.
  destruct (optimize_returned inherited object_keys Hkeys fuel input out Hrun)
    as (mc & mt & ids & optimized & Hmc & Hmt & Hall & Hopt & ->).
  assert (Hids : NoDup (pair_of <$> ids)).
  { apply (NoDup_Forall2 _ (λ a, (named_character a, named_task a)) pair_of _ _ Hall);
      [|done].
    intros a c a' c' (Hc & Ht & _) (Hc' & Ht' & _) [= Hcc Htt].
    rewrite Hcc in Hc. rewrite Htt in Ht.
    by rewrite (dense_name mc _ _ _ Hmc Hc Hc'), (dense_name mt _ _ _ Hmt Ht Ht'). }
  assert (Hsub : optimized ⊆+ ids).
  { destruct (Optimize_returned _ _ _ Hopt) as (? & ? & ? & ? & _ & _ & _ & _ & _ & ->).
    apply sublist_submseteq, sublist_filter. }
  assert (Hopt_nd : NoDup (pair_of <$> optimized)).
  { destruct (Optimize_returned _ _ _ Hopt) as (? & ? & ? & ? & _ & _ & _ & _ & _ & ->).
    eapply sublist_NoDup; [done|]. apply fmap_sublist, sublist_filter. }
  assert (Hname : ∀ c, c ∈ optimized →
            ∃ a : NamedAssignment K F,
              js_get mc (named_character a) = Some (character c)
              ∧ js_get mt (named_task a) = Some (task c)).
  { intros c Hc. eapply elem_of_submseteq in Hc; [|done].
    apply list_elem_of_lookup_1 in Hc as [i Hi].
    destruct (Forall2_lookup_r _ _ _ _ _ Hall Hi) as (a & _ & Hc & Ht & _). by exists a. }
  rewrite <- !list_fmap_compose. split.
  - apply NoDup_fmap_2_strong; [|by eapply NoDup_fmap_1].
    intros c c' Hc Hc'. simpl.
    destruct (Hname c Hc) as (a & Ha & _). destruct (Hname c' Hc') as (a' & Ha' & _).
    rewrite (invert_spec object_keys Hkeys mc _ _ Hmc Ha).
    rewrite (invert_spec object_keys Hkeys mc _ _ Hmc Ha'). intros [= Heq].
    rewrite Heq in Ha. rewrite Ha in Ha'. injection Ha' as Hcc.
    apply (NoDup_fmap_eq pair_of optimized _ _ Hopt_nd Hc Hc').
    apply (Optimize_injective _ _ _ _ _ Hopt Hc Hc'). by left.
  - apply NoDup_fmap_2_strong; [|by eapply NoDup_fmap_1].
    intros c c' Hc Hc'. simpl.
    destruct (Hname c Hc) as (a & _ & Ha). destruct (Hname c' Hc') as (a' & _ & Ha').
    rewrite (invert_spec object_keys Hkeys mt _ _ Hmt Ha).
    rewrite (invert_spec object_keys Hkeys mt _ _ Hmt Ha'). intros [= Heq].
    rewrite Heq in Ha. rewrite Ha in Ha'. injection Ha' as Htt.
    apply (NoDup_fmap_eq pair_of optimized _ _ Hopt_nd Hc Hc').
    apply (Optimize_injective _ _ _ _ _ Hopt Hc Hc'). by right.
Qed.

Lemma optimize_one_task_each_witness :
  NoDup (result_character <$>
           [mkResult (Some 7) (Some 3) 10%float; mkResult (Some 8) (Some 4) 10%float])
  ∧ NoDup (result_task <$>
             [mkResult (Some 7) (Some 3) 10%float; mkResult (Some 8) (Some 4) 10%float]).
Proof.
  apply (optimize_one_task_each (λ _ : nat, false) (λ obj, obj.*1) 10
           [mkNamed 7 3 10%float; mkNamed 8 3 15%float;
            mkNamed 7 4 20%float; mkNamed 8 4 10%float]).
  - done.
  - apply (bool_decide_unpack _). vm_compute. reflexivity.
  - vm_compute. reflexivity.
Defined.

Section OptimizeJsReturns.
Context {K : Type} `{EqDecision K}.
Variable inherited : K → bool.
Variable object_keys : list (K * nat) → list K.
Hypothesis object_keys_perm : ∀ obj, object_keys obj ≡ₚ obj.*1.

Lemma intern_length (obj : list (K * nat)) k obj' x :
  intern inherited object_keys obj k = Some (obj', x) → length obj' ≤ length obj + 1.
Proof.
  unfold intern. destruct (js_get obj k); [intros [= <- <-]; lia|].
  destruct (inherited k); [done|]. intros [= <- <-]. rewrite length_app. simpl. lia.
Qed.

Lemma encode_length {F} (input : list (NamedAssignment K F)) mc mt acc mc' mt' acc' :
  encode inherited object_keys input mc mt acc = Some (mc', mt', acc') →
  length mc' ≤ length mc + length input ∧ length mt' ≤ length mt + length input.
Proof.
  revert mc mt acc. induction input as [|a input IH]; intros mc mt acc; simpl.
  { intros [= <- <- <-]. lia. }
  destruct (intern inherited object_keys mc (named_character a)) as [[mc1 x]|] eqn:Hx; [|done].
  destruct (intern inherited object_keys mt (named_task a)) as [[mt1 y]|] eqn:Hy; [|done].
  simpl. intros Hrun. apply IH in Hrun. apply intern_length in Hx, Hy. lia.
Qed.
End OptimizeJsReturns.

(** In exact arithmetic, [optimize] returns: when no name is a property
    that every object inherits and the costs are finite, not negative and at
    most [DBL_MAX], the call neither fails nor loops, whatever names are
    used and however sparse the list is. *)
Theorem optimize_returns {K : Type} `{EqDecision K}
    (inherited : K → bool) (object_keys : list (K * nat) → list K)
    (fuel : nat) (input : list (NamedAssignment K xreal)) :
  (∀ obj, object_keys obj ≡ₚ obj.*1) →
  (∀ a, a ∈ input → inherited (named_character a) = false ∧ inherited (named_task a) = false) →
  Forall (λ a, fin (named_cost a)
               ∧ (0 <= qv (named_cost a) <= qv (@f_dbl_max xreal exact))%Q) input →
  3 * length input + 5 ≤ fuel →
  ∃ out, optimize inherited object_keys fuel input = Returned out.
Proof.
  intros Hkeys Hnames Hcosts Hfuel. unfold optimize.
  destruct (encode_total inherited object_keys input [] [] [] Hnames) as [[[mc mt] ac] Henc].
  rewrite Henc.
  destruct (encode_spec inherited object_keys Hkeys input [] [] [] mc mt ac
              dense_nil dense_nil Henc) as (Hmc & Hmt & _ & _ & ids & -> & Hall).
  destruct (encode_length inherited object_keys input [] [] [] mc mt _ Henc) as [Hlc Hlt].
  simpl in Hlc, Hlt. simpl.
  assert (Hin : ∀ c, c ∈ ids → ∃ a, a ∈ input
            ∧ js_get mc (named_character a) = Some (character c)
            ∧ js_get mt (named_task a) = Some (task c) ∧ cost c = named_cost a).
  { intros c Hc. apply list_elem_of_lookup_1 in Hc as [i Hi].
    destruct (Forall2_lookup_r _ _ _ _ _ Hall Hi) as (a & Ha & ?).
    exists a. split; [by eapply list_elem_of_lookup_2|done]. }
  destruct (Optimize_returns ids fuel) as [optimized ->]; [| |by eexists].
  - apply list.Forall_forall. intros c Hc. destruct (Hin c Hc) as (a & Ha & _ & _ & ->).
    by apply (proj1 (list.Forall_forall _ _) Hcosts).
  - assert (max_id character ids ≤ length input).
    { apply max_id_le. intros c Hc. destruct (Hin c Hc) as (a & _ & Hg & _).
      pose proof (dense_bound mc _ _ Hmc Hg). lia. }
    assert (max_id task ids ≤ length input).
    { apply max_id_le. intros c Hc. destruct (Hin c Hc) as (a & _ & _ & Hg & _).
      pose proof (dense_bound mt _ _ Hmt Hg). lia. }
    lia.
Qed.

Lemma optimize_returns_witness :
  ∃ out, optimize (λ k : nat, bool_decide (k = 0)) (λ obj, reverse (obj.*1)) 11
           [mkNamed 7 3 (XFin (Q2Qc 10)); mkNamed 8 3 (XFin (Q2Qc 15))] = Returned out.
Proof.
  apply optimize_returns.
  - intros obj. apply reverse_Permutation.
  - intros a Ha. apply elem_of_cons in Ha as [->|Ha]; [done|].
    apply elem_of_cons in Ha as [->|Ha]; [done|]. by apply elem_of_nil in Ha.
  - repeat apply list.Forall_cons_2; [..|apply Forall_nil_2];
      (split; [by eexists|]; split; vm_compute; discriminate).
  - simpl. lia.
Defined.

(** ** The demonstration *)

(** *** Who gets work *)

Lemma Optimize_covering {F : Type} `{Scalar F} (v out : list (Assignment F)) (fuel : nat) :
  complete v → Optimize fuel v = Returned out → covering_matching v out.
Proof.
  intros Hcomplete Hrun.
  destruct (Optimize_returned _ _ _ Hrun)
    as (bc & st & NX & NY & Hbc & HNX & HNY & Hh & _ & Hout).
  destruct (orientation v bc NX NY Hbc HNX HNY) as (Hle & Hside & Hrange).
  pose proof (hungarian_matching _ NX NY fuel st Hh) as Hrows.
  replace (NX `min` NY) with NX in Hrows by lia.
  destruct (kept_rows v bc NX NY st Hcomplete Hbc HNX HNY Hrows) as [Hkr Hkc].
  split_and!.
  - rewrite Hout. apply sublist_submseteq, sublist_filter.
  - rewrite Hout. destruct bc; [|done]. rewrite Hkr. apply NoDup_seq.
  - rewrite Hout. destruct bc; [done|]. rewrite Hkr. apply NoDup_seq.
  - rewrite Hout, <- (length_fmap (row_of bc)), (Permutation_length Hkr), length_seq.
    done.
Qed.

Section DemoAssignments.
Context {F : Type} `{Scalar F}.
Variable of_int : Z → F.
Implicit Types (cs : list Character) (ws : list Work) (a : Assignment F).

Lemma demo_assignments_elem cs ws a :
  a ∈ demo_assignments of_int cs ws
  ↔ ∃ i j, i < length cs ∧ j < length ws
           ∧ a = mkAssignment i j (demo_cost of_int (cs !!! i) (ws !!! j)).
Proof.
  unfold demo_assignments. rewrite list_elem_of_bind. split.
  - intros (i & (j & ->%list_elem_of_singleton & Hj%elem_of_seq)%list_elem_of_bind
              & Hi%elem_of_seq).
    exists i, j. split_and!; [lia|lia|done].
  - intros (i & j & Hi & Hj & ->). exists i. split; [|apply elem_of_seq; lia].
    apply list_elem_of_bind. exists j. split; [by apply list_elem_of_singleton|].
    apply elem_of_seq. lia.
Qed.

Lemma demo_assignments_NoDup cs ws :
  NoDup (pair_of <$> demo_assignments of_int cs ws).
Proof.
  apply NoDup_fmap_2_strong.
  { intros a b (i & j & _ & _ & ->)%demo_assignments_elem
      (i' & j' & _ & _ & ->)%demo_assignments_elem [= -> ->]. done. }
  unfold demo_assignments. apply NoDup_bind; [| |apply NoDup_seq].
  - intros i1 i2 a _ _ (j1 & ->%list_elem_of_singleton & _)%list_elem_of_bind
      (j2 & [= -> _]%list_elem_of_singleton & _)%list_elem_of_bind. done.
  - intros i _. apply NoDup_bind; [| |apply NoDup_seq].
    + by intros j1 j2 a _ _ ->%list_elem_of_singleton [= ->]%list_elem_of_singleton.
    + intros j _. apply NoDup_singleton.
Qed.

Lemma demo_assignments_max cs ws :
  cs ≠ [] → ws ≠ [] →
  max_id character (demo_assignments of_int cs ws) = length cs - 1
  ∧ max_id task (demo_assignments of_int cs ws) = length ws - 1.
Proof.
  intros Hcs Hws.
  assert (0 < length cs) by (destruct cs; simpl; [done|lia]).
  assert (0 < length ws) by (destruct ws; simpl; [done|lia]).
  assert (Hlast : mkAssignment (length cs - 1) (length ws - 1)
                    (demo_cost of_int (cs !!! (length cs - 1)) (ws !!! (length ws - 1)))
                  ∈ demo_assignments of_int cs ws).
  { apply demo_assignments_elem. exists (length cs - 1), (length ws - 1).
    split_and!; [lia|lia|done]. }
  pose proof (max_id_bound character _ _ Hlast) as Hc.
  pose proof (max_id_bound task _ _ Hlast) as Ht. simpl in Hc, Ht.
  assert (max_id character (demo_assignments of_int cs ws) ≤ length cs - 1).
  { apply max_id_le. intros a (i & j & ? & ? & ->)%demo_assignments_elem. simpl. lia. }
  assert (max_id task (demo_assignments of_int cs ws) ≤ length ws - 1).
  { apply max_id_le. intros a (i & j & ? & ? & ->)%demo_assignments_elem. simpl. lia. }
  lia.
Qed.

(** The demonstration proposes every pair of a character and a piece of
    work, once. *)
Lemma demo_assignments_complete cs ws :
  cs ≠ [] → ws ≠ [] → complete (demo_assignments of_int cs ws).
Proof.
  intros Hcs Hws. destruct (demo_assignments_max cs ws Hcs Hws) as [Hc Ht].
  split; [apply demo_assignments_NoDup|]. intros c t Hcc Htt.
  assert (0 < length cs) by (destruct cs; simpl; [done|lia]).
  assert (0 < length ws) by (destruct ws; simpl; [done|lia]).
  exists (mkAssignment c t (demo_cost of_int (cs !!! c) (ws !!! t))). split; [|done].
  apply demo_assignments_elem. exists c, t. split_and!; [lia|lia|done].
Qed.

Lemma demo_assigned cs ws fuel out :
  cs ≠ [] → ws ≠ [] →
  Optimize fuel (demo_assignments of_int cs ws) = Returned out →
  length out = length cs `min` length ws
  ∧ NoDup (character <$> out) ∧ NoDup (task <$> out)
  ∧ ∀ a, a ∈ out → character a < length cs ∧ task a < length ws.
Proof.
  intros Hcs Hws Hrun.
  destruct (Optimize_covering _ _ _ (demo_assignments_complete cs ws Hcs Hws) Hrun)
    as (Hsub & Hnc & Hnt & Hlen).
  destruct (demo_assignments_max cs ws Hcs Hws) as [Hc Ht].
  assert (0 < length cs) by (destruct cs; simpl; [done|lia]).
  assert (0 < length ws) by (destruct ws; simpl; [done|lia]).
  split_and!; [|done|done|].
  - rewrite Hlen. unfold smaller_side. rewrite Hc, Ht. lia.
  - intros a Ha. eapply elem_of_submseteq in Ha; [|done].
    apply demo_assignments_elem in Ha as (i & j & ? & ? & ->). done.
Qed.
End DemoAssignments.

(** On any scalars and for any conversion of [int] to [double]: when the
    solver returns in a step of the demonstration, as many characters as
    possible are at work, [min(#characters, #work)] of them, no character
    has two pieces of work, no piece of work two characters, and every
    identifier is an index of its vector. *)
Theorem step_assigns_all {F : Type} `{Scalar F} (of_int : Z → F) (fuel : nat)
    (cs cs' : list Character) (ws ws' : list Work) (out : list (Assignment F)) :
  cs ≠ [] → ws ≠ [] →
  step_assigned of_int fuel cs ws = Returned (out, cs', ws') →
  length out = length cs `min` length ws
  ∧ NoDup (character <$> out) ∧ NoDup (task <$> out)
  ∧ ∀ a, a ∈ out → character a < length cs ∧ task a < length ws.
Proof.
  intros Hcs Hws. unfold step_assigned.
  destruct (Optimize fuel (demo_assignments of_int cs ws)) as [out0| |] eqn:Hrun; [|done..].
  simpl. destruct (advance out0 cs ws) as [cs1 ws1]. intros [= <- _ _].
  by apply (demo_assigned of_int cs ws fuel).
Qed.

Lemma step_assigns_all_witness :
  length [mkAssignment 1 2 (demo_cost xreal_of_int (mkCharacter 5 5) (mkWork 9 9 3));
          mkAssignment 0 1 (demo_cost xreal_of_int (mkCharacter 0 0) (mkWork 1 0 10))]
  = length [mkCharacter 0 0; mkCharacter 5 5]
    `min` length [mkWork 5 6 10; mkWork 1 0 10; mkWork 9 9 3]
  ∧ NoDup (character <$>
       [mkAssignment 1 2 (demo_cost xreal_of_int (mkCharacter 5 5) (mkWork 9 9 3));
        mkAssignment 0 1 (demo_cost xreal_of_int (mkCharacter 0 0) (mkWork 1 0 10))])
  ∧ NoDup (task <$>
       [mkAssignment 1 2 (demo_cost xreal_of_int (mkCharacter 5 5) (mkWork 9 9 3));
        mkAssignment 0 1 (demo_cost xreal_of_int (mkCharacter 0 0) (mkWork 1 0 10))])
  ∧ ∀ a, a ∈ [mkAssignment 1 2 (demo_cost xreal_of_int (mkCharacter 5 5) (mkWork 9 9 3));
              mkAssignment 0 1 (demo_cost xreal_of_int (mkCharacter 0 0) (mkWork 1 0 10))] →
      character a < length [mkCharacter 0 0; mkCharacter 5 5]
      ∧ task a < length [mkWork 5 6 10; mkWork 1 0 10; mkWork 9 9 3].
Proof.
  apply (step_assigns_all xreal_of_int 20 _
           [mkCharacter 1 0; mkCharacter 6 6] _ [mkWork 5 6 10; mkWork 1 0 10; mkWork 9 9 3]).
  - discriminate.
  - discriminate.
  - vm_compute. reflexivity.
Defined.

(** *** How the characters move *)

Lemma sign_sgn (d : Z) : sign d = Z.sgn d.
Proof.
  unfold sign. destruct (Z.eqb_spec d 0); [lia|]. destruct (Z.ltb_spec 0 d); lia.
Qed.

Lemma abs_abs (d : Z) : abs d = Z.abs d.
Proof. unfold abs. destruct (Z.ltb_spec d 0); lia. Qed.

(** One turn of the loop takes one from what remains for the pair: a step
    closer in the larger of the two distances, or a unit of work. *)
Lemma advance_one_remaining (cs : list Character) (ws : list Work) (i j : nat) :
  i < length cs → j < length ws →
  remaining ((advance_one cs ws i j).1 !!! i) ((advance_one cs ws i j).2 !!! j)
  = (remaining (cs !!! i) (ws !!! j) - 1)%Z.
Proof.
  intros Hi Hj. unfold advance_one. cbn [fst snd].
  rewrite list_lookup_total_insert_eq by done.
  rewrite list_lookup_total_insert_eq by done.
  destruct (cs !!! i) as [cx cy]. destruct (ws !!! j) as [wx wy wt].
  unfold remaining. cbn [char_x char_y work_x work_y work_t].
  rewrite !sign_sgn.
  destruct (Z.eqb_spec (wx - cx) 0) as [Hx|Hx], (Z.eqb_spec (wy - cy) 0) as [Hy|Hy];
    cbn [andb work_x work_y work_t]; rewrite !abs_abs; lia.
Qed.

Lemma advance_one_length cs ws i j :
  length (advance_one cs ws i j).1 = length cs
  ∧ length (advance_one cs ws i j).2 = length ws.
Proof. unfold advance_one. cbn [fst snd]. by rewrite !length_insert. Qed.

Lemma advance_one_local cs ws cs1 ws1 i j :
  i < length cs → j < length ws → i < length cs1 → j < length ws1 →
  cs1 !!! i = cs !!! i → ws1 !!! j = ws !!! j →
  (advance_one cs1 ws1 i j).1 !!! i = (advance_one cs ws i j).1 !!! i
  ∧ (advance_one cs1 ws1 i j).2 !!! j = (advance_one cs ws i j).2 !!! j.
Proof.
  intros Hi Hj Hi1 Hj1 Hc Hw. unfold advance_one. cbn [fst snd].
  rewrite !list_lookup_total_insert_eq by done. by rewrite Hc, Hw.
Qed.

Lemma advance_one_others cs ws i j :
  (∀ i', i' ≠ i → (advance_one cs ws i j).1 !!! i' = cs !!! i')
  ∧ (∀ j', j' ≠ j → (advance_one cs ws i j).2 !!! j' = ws !!! j').
Proof.
  unfold advance_one. cbn [fst snd].
  split; intros k Hk; by rewrite list_lookup_total_insert_ne.
Qed.

(** The loop over a matching: every pair is advanced from the positions of
    the start, and nothing else changes. *)
Lemma advance_loop {F : Type} (out : list (Assignment F)) cs ws :
  NoDup (character <$> out) → NoDup (task <$> out) →
  (∀ a, a ∈ out → character a < length cs ∧ task a < length ws) →
  let r := fold_left (λ '(characters, work) a,
                        advance_one characters work (character a) (task a)) out (cs, ws) in
  length r.1 = length cs ∧ length r.2 = length ws
  ∧ (∀ a, a ∈ out →
       r.1 !!! character a = (advance_one cs ws (character a) (task a)).1 !!! character a
       ∧ r.2 !!! task a = (advance_one cs ws (character a) (task a)).2 !!! task a)
  ∧ (∀ i, i ∉ character <$> out → r.1 !!! i = cs !!! i)
  ∧ (∀ j, j ∉ task <$> out → r.2 !!! j = ws !!! j).
Proof.
  revert cs ws. induction out as [|a out IH]; intros cs ws Hnc Hnt Hrange.
  { simpl. split_and!; try done. by intros a ?%elem_of_nil. }
  rewrite fmap_cons in Hnc, Hnt.
  apply list.NoDup_cons in Hnc as [Hca Hnc]. apply list.NoDup_cons in Hnt as [Hta Hnt].
  destruct (Hrange a ltac:(left)) as [Hi Hj].
  destruct (advance_one_length cs ws (character a) (task a)) as [Hl1 Hl2].
  destruct (advance_one_others cs ws (character a) (task a)) as [Ho1 Ho2].
  cbn [fold_left].
  destruct (advance_one cs ws (character a) (task a)) as [cs1 ws1] eqn:Hone.
  cbn [fst snd] in Hl1, Hl2, Ho1, Ho2.
  specialize (IH cs1 ws1 Hnc Hnt).
  destruct IH as (HL1 & HL2 & Hin & Hoc & Hot).
  { intros b Hb. rewrite Hl1, Hl2. apply Hrange. by right. }
  cbn zeta. split_and!.
  - by rewrite HL1.
  - by rewrite HL2.
  - intros b [->|Hb]%elem_of_cons.
    + rewrite Hoc, Hot by done. by rewrite Hone.
    + destruct (Hin b Hb) as [-> ->].
      destruct (Hrange b ltac:(by right)) as [Hbi Hbj].
      apply advance_one_local; try lia.
      * apply Ho1. intros Heq. apply Hca. rewrite <- Heq.
        apply list_elem_of_fmap. by exists b.
      * apply Ho2. intros Heq. apply Hta. rewrite <- Heq.
        apply list_elem_of_fmap. by exists b.
  - intros i Hni. rewrite fmap_cons, not_elem_of_cons in Hni. destruct Hni as [Hne Hni].
    rewrite Hoc by done. by apply Ho1.
  - intros j Hnj. rewrite fmap_cons, not_elem_of_cons in Hnj. destruct Hnj as [Hne Hnj].
    rewrite Hot by done. by apply Ho2.
Qed.

Section DemoMatching.
Context {F : Type} `{Scalar F}.
Variable of_int : Z → F.

(** Whatever the two vectors hold, what the solver keeps is a matching of
    indices of the vectors. *)
Lemma demo_matching cs ws fuel (out : list (Assignment F)) :
  Optimize fuel (demo_assignments of_int cs ws) = Returned out →
  NoDup (character <$> out) ∧ NoDup (task <$> out)
  ∧ ∀ a, a ∈ out → character a < length cs ∧ task a < length ws.
Proof.
  intros Hrun.
  destruct (decide (cs = [])) as [Hcs|Hcs]; [|destruct (decide (ws = [])) as [Hws|Hws]].
  - assert (Hout : out = []).
    { destruct (Optimize_returned _ _ _ Hrun) as (? & ? & ? & ? & _ & _ & _ & _ & _ & Hp).
      rewrite Hcs in Hp. by apply Permutation_nil_r in Hp. }
    rewrite Hout. split_and!; [apply NoDup_nil_2..|]. by intros a ?%elem_of_nil.
  - assert (Hnil : demo_assignments of_int cs ws = []).
    { destruct (demo_assignments of_int cs ws) as [|a l] eqn:Hd; [done|].
      assert (Ha : a ∈ demo_assignments of_int cs ws) by (rewrite Hd; left).
      apply demo_assignments_elem in Ha as (i & j & _ & Hj & _). rewrite Hws in Hj.
      simpl in Hj. lia. }
    assert (Hout : out = []).
    { destruct (Optimize_returned _ _ _ Hrun) as (? & ? & ? & ? & _ & _ & _ & _ & _ & Hp).
      rewrite Hnil in Hp. by apply Permutation_nil_r in Hp. }
    rewrite Hout. split_and!; [apply NoDup_nil_2..|]. by intros a ?%elem_of_nil.
  - destruct (demo_assigned of_int cs ws fuel out Hcs Hws Hrun) as (_ & ? & ? & ?). done.
Qed.
End DemoMatching.

Lemma rem_on_board (x : Z) : (0 ≤ x < SIZE)%Z → Z.rem x SIZE = x.
Proof. intros Hx. apply Z.rem_small. done. Qed.

Lemma advance_one_board cs ws i j :
  i < length cs → j < length ws → on_board cs ws →
  on_board (advance_one cs ws i j).1 (advance_one cs ws i j).2.
Proof.
  intros Hi Hj [Hc Hw]. unfold advance_one. cbn [fst snd].
  pose proof (proj1 (list.Forall_lookup _ _) Hc i (cs !!! i)) as Hci.
  pose proof (proj1 (list.Forall_lookup _ _) Hw j (ws !!! j)) as Hwj.
  rewrite list_lookup_lookup_total_lt in Hci by done.
  rewrite list_lookup_lookup_total_lt in Hwj by done.
  specialize (Hci eq_refl). specialize (Hwj eq_refl).
  destruct (cs !!! i) as [cx cy]. destruct (ws !!! j) as [wx wy wt].
  cbn [char_x char_y work_x work_y work_t] in *.
  split; apply Forall_insert; try done.
  - cbn [char_x char_y]. rewrite !sign_sgn. lia.
  - destruct ((wx - cx =? 0)%Z && (wy - cy =? 0)%Z); done.
Qed.

Lemma advance_loop_board {F : Type} (out : list (Assignment F)) cs ws :
  (∀ a, a ∈ out → character a < length cs ∧ task a < length ws) →
  on_board cs ws →
  let r := fold_left (λ '(characters, work) a,
                        advance_one characters work (character a) (task a)) out (cs, ws) in
  on_board r.1 r.2.
Proof.
  revert cs ws. induction out as [|a out IH]; intros cs ws Hrange Hb; [done|].
  cbn [fold_left]. destruct (Hrange a ltac:(left)) as [Hi Hj].
  pose proof (advance_one_board cs ws _ _ Hi Hj Hb) as Hb1.
  destruct (advance_one_length cs ws (character a) (task a)) as [Hl1 Hl2].
  destruct (advance_one cs ws (character a) (task a)) as [cs1 ws1].
  apply IH; [|done]. intros b Hb'. cbn [fst snd] in Hl1, Hl2. rewrite Hl1, Hl2.
  apply Hrange. by right.
Qed.

Lemma wrap_on_board cs :
  Forall (λ c, (0 ≤ char_x c < SIZE)%Z ∧ (0 ≤ char_y c < SIZE)%Z) cs →
  (λ c, mkCharacter (Z.rem (char_x c) SIZE) (Z.rem (char_y c) SIZE)) <$> cs = cs.
Proof.
  induction 1 as [|[cx cy] cs [Hx Hy] _ IH]; [done|].
  rewrite fmap_cons, IH. cbn [char_x char_y] in *.
  by rewrite !rem_on_board.
Qed.

(** On the board the wrap changes nothing, so [advance] is its loop. *)
Lemma advance_on_board {F : Type} (out : list (Assignment F)) cs ws :
  (∀ a, a ∈ out → character a < length cs ∧ task a < length ws) →
  on_board cs ws →
  advance out cs ws
  = fold_left (λ '(characters, work) a,
                 advance_one characters work (character a) (task a)) out (cs, ws)
  ∧ on_board (advance out cs ws).1 (advance out cs ws).2.
Proof.
  intros Hrange Hb. pose proof (advance_loop_board out cs ws Hrange Hb) as Hr.
  cbn zeta in Hr. unfold advance.
  destruct (fold_left _ out (cs, ws)) as [cs1 ws1]. cbn [fst snd] in *.
  destruct Hr as [Hc Hw]. rewrite wrap_on_board by done. done.
Qed.

Lemma advance_one_time cs ws i j :
  j < length ws →
  (work_t (ws !!! j) - 1 ≤ work_t ((advance_one cs ws i j).2 !!! j))%Z.
Proof.
  intros Hj. unfold advance_one. cbn [fst snd].
  rewrite list_lookup_total_insert_eq by done.
  destruct (_ && _); cbn [work_t]; lia.
Qed.

Section StepFacts.
Context {F : Type} `{Scalar F}.
Variable of_int : Z → F.

Lemma step_assigned_returned fuel cs ws out cs' ws' :
  on_board cs ws →
  step_assigned of_int fuel cs ws = Returned (out, cs', ws') →
  Optimize fuel (demo_assignments of_int cs ws) = Returned out
  ∧ (cs', ws') = fold_left (λ '(characters, work) a,
                    advance_one characters work (character a) (task a)) out (cs, ws)
  ∧ on_board cs' ws'.
Proof.
  intros Hb. unfold step_assigned.
  destruct (Optimize fuel (demo_assignments of_int cs ws)) as [out0| |] eqn:Hrun; [|done..].
  simpl. destruct (demo_matching of_int cs ws fuel out0 Hrun) as (_ & _ & Hrange).
  destruct (advance_on_board out0 cs ws Hrange Hb) as [Heq Hb'].
  destruct (advance out0 cs ws) as [cs1 ws1]. intros [= <- <- <-]. done.
Qed.

Lemma step_assigned_board fuel cs ws out cs' ws' :
  on_board cs ws → Forall (λ w, (1 ≤ work_t w)%Z) ws →
  step_assigned of_int fuel cs ws = Returned (out, cs', ws') →
  on_board cs' ws' ∧ work_left ws'.
Proof.
  intros Hb Hpos Hrun.
  destruct (step_assigned_returned _ _ _ _ _ _ Hb Hrun) as (Hopt & Hfold & Hb').
  split; [done|].
  destruct (demo_matching of_int cs ws fuel out Hopt) as (Hnc & Hnt & Hrange).
  pose proof (advance_loop out cs ws Hnc Hnt Hrange) as Hloop. cbn zeta in Hloop.
  rewrite <- Hfold in Hloop. cbn [fst snd] in Hloop.
  destruct Hloop as (_ & Hlen & Hin & _ & Hot).
  apply list.Forall_lookup. intros j w' Hj.
  assert (Hjl : j < length ws) by (rewrite <- Hlen; by eapply lookup_lt_Some).
  apply list_lookup_total_correct in Hj. subst w'.
  assert (Hwj : (1 ≤ work_t (ws !!! j))%Z).
  { apply (proj1 (list.Forall_lookup _ _) Hpos j). by apply list_lookup_lookup_total_lt. }
  destruct (decide (j ∈ task <$> out)) as [Hjo|Hjo].
  - apply list_elem_of_fmap in Hjo as (a & -> & Ha). destruct (Hin a Ha) as [_ ->].
    pose proof (advance_one_time cs ws (character a) (task a) Hjl). lia.
  - rewrite Hot by done. lia.
Qed.
End StepFacts.

Lemma remove_finished_keeps (P : Work → Prop) ws :
  Forall P ws → Forall (λ w, P w ∧ work_t w ≠ 0%Z) (remove_finished ws).
Proof.
  intros HP. unfold remove_finished. rewrite erase_unless_perm.
  apply list.Forall_forall. intros w [Hk Hw]%list_elem_of_filter.
  split; [by apply (proj1 (list.Forall_forall _ _) HP)|].
  destruct (Z.eqb_spec (work_t w) 0); [done|lia].
Qed.

(** The first loop of [step] erases the finished work and nothing else:
    what is left is the work with time to spend, each piece as often as
    before (the loop changes the order). *)
Theorem remove_finished_spec (ws : list Work) :
  remove_finished ws ≡ₚ filter (λ w, work_t w ≠ 0%Z) ws.
Proof.
  unfold remove_finished. rewrite erase_unless_perm.
  erewrite list_filter_iff; [done|]. intros w. simpl.
  destruct (Z.eqb_spec (work_t w) 0); simpl; split; done.
Qed.

(** Every assigned character comes one unit closer to the end of its work
    (a step on the board, or a unit of the work when it is there); the
    other characters and the other work are left as they are. *)
Theorem step_progress {F : Type} `{Scalar F} (of_int : Z → F) (fuel : nat)
    (cs cs' : list Character) (ws ws' : list Work) (out : list (Assignment F)) :
  on_board cs ws →
  step_assigned of_int fuel cs ws = Returned (out, cs', ws') →
  (∀ a, a ∈ out →
     remaining (cs' !!! character a) (ws' !!! task a)
     = (remaining (cs !!! character a) (ws !!! task a) - 1)%Z)
  ∧ (∀ i, i ∉ character <$> out → cs' !!! i = cs !!! i)
  ∧ (∀ j, j ∉ task <$> out → ws' !!! j = ws !!! j).
Proof.
  intros Hb Hrun.
  destruct (step_assigned_returned _ _ _ _ _ _ _ Hb Hrun) as (Hopt & Hfold & _).
  destruct (demo_matching of_int cs ws fuel out Hopt) as (Hnc & Hnt & Hrange).
  pose proof (advance_loop out cs ws Hnc Hnt Hrange) as Hloop. cbn zeta in Hloop.
  rewrite <- Hfold in Hloop. cbn [fst snd] in Hloop.
  destruct Hloop as (_ & _ & Hin & Hoc & Hot).
  split_and!; [|done|done].
  intros a Ha. destruct (Hin a Ha) as [-> ->]. destruct (Hrange a Ha) as [Hi Hj].
  by apply advance_one_remaining.
Qed.

Lemma step_progress_witness :
  (∀ a, a ∈ [mkAssignment 1 2 (demo_cost xreal_of_int (mkCharacter 5 5) (mkWork 9 9 3));
             mkAssignment 0 1 (demo_cost xreal_of_int (mkCharacter 0 0) (mkWork 1 0 10))] →
     remaining ([mkCharacter 1 0; mkCharacter 6 6] !!! character a)
       ([mkWork 5 6 10; mkWork 1 0 10; mkWork 9 9 3] !!! task a)
     = (remaining ([mkCharacter 0 0; mkCharacter 5 5] !!! character a)
          ([mkWork 5 6 10; mkWork 1 0 10; mkWork 9 9 3] !!! task a) - 1)%Z)
  ∧ (∀ i, i ∉ character <$>
            [mkAssignment 1 2 (demo_cost xreal_of_int (mkCharacter 5 5) (mkWork 9 9 3));
             mkAssignment 0 1 (demo_cost xreal_of_int (mkCharacter 0 0) (mkWork 1 0 10))] →
       [mkCharacter 1 0; mkCharacter 6 6] !!! i = [mkCharacter 0 0; mkCharacter 5 5] !!! i)
  ∧ (∀ j, j ∉ task <$>
            [mkAssignment 1 2 (demo_cost xreal_of_int (mkCharacter 5 5) (mkWork 9 9 3));
             mkAssignment 0 1 (demo_cost xreal_of_int (mkCharacter 0 0) (mkWork 1 0 10))] →
       [mkWork 5 6 10; mkWork 1 0 10; mkWork 9 9 3] !!! j
       = [mkWork 5 6 10; mkWork 1 0 10; mkWork 9 9 3] !!! j).
Proof.
  apply (step_progress xreal_of_int 20).
  - split; repeat constructor; unfold SIZE; cbn; lia.
  - vm_compute. reflexivity.
Defined.

(** The board and the clocks are kept by [step]: when the positions lie on
    the board and no work has a negative time left, and every stage puts
    its characters and its work on the board with some time to spend on
    each piece of work, the same holds after the step. *)
Theorem step_keeps_board {F : Type} `{Scalar F} (of_int : Z → F)
    (stages : list (list Character * list Work)) (fuel : nat) (s s' : Demo) :
  on_board (characters s) (work s) → work_left (work s) →
  Forall (λ st, on_board st.1 st.2 ∧ Forall (λ w, (1 ≤ work_t w)%Z) st.2) stages →
  step of_int stages fuel s = Returned s' →
  on_board (characters s') (work s') ∧ work_left (work s').
Proof.
  intros [Hbc Hbw] Hleft Hstages. unfold step.
  pose proof (remove_finished_keeps _ _ Hbw) as Hbw'.
  pose proof (remove_finished_keeps _ _ Hleft) as Hleft'.
  assert (Hb1 : on_board (characters s) (remove_finished (work s))).
  { split; [done|]. eapply list.Forall_impl; [exact Hbw'|]. by intros w [? _]. }
  assert (Hpos : Forall (λ w, (1 ≤ work_t w)%Z) (remove_finished (work s))).
  { eapply list.Forall_impl; [exact Hleft'|]. intros w [? ?]. simpl in *. lia. }
  assert (Hrun : ∀ stage steps cs ws,
    on_board cs ws → Forall (λ w, (1 ≤ work_t w)%Z) ws →
    ('(_, characters, work) ← step_assigned of_int fuel cs ws;
     Returned (mkDemo (game_over s) stage steps characters work)) = Returned s' →
    on_board (characters s') (work s') ∧ work_left (work s')).
  { intros stage steps cs ws Hb Hp Hr.
    destruct (step_assigned of_int fuel cs ws) as [[[out cs'] ws']| |] eqn:Hsa; [|done..].
    simpl in Hr. injection Hr as <-. cbn [characters work].
    by eapply step_assigned_board. }
  case_bool_decide as Hempty.
  - destruct (_ || _) eqn:Hlast.
    + intros [= <-]. cbn [characters work]. split; [done|].
      eapply list.Forall_impl; [exact Hleft'|]. by intros w [? _].
    + apply orb_false_iff in Hlast as [Hneg Hlt].
      apply Z.ltb_ge in Hneg. apply Z.leb_gt in Hlt.
      assert (Hst : Z.to_nat (stage s + 1) < length stages) by lia.
      pose proof (proj1 (list.Forall_lookup _ _) Hstages _ _
                    (list_lookup_lookup_total_lt _ _ Hst)) as [Hb Hp].
      destruct (stages !!! Z.to_nat (stage s + 1)) as [cs ws]. by apply Hrun.
  - by apply Hrun.
Qed.

Lemma step_keeps_board_witness :
  on_board (characters (mkDemo false 0 1 [mkCharacter 1 1] [mkWork 1 1 1]))
    (work (mkDemo false 0 1 [mkCharacter 1 1] [mkWork 1 1 1]))
  ∧ work_left (work (mkDemo false 0 1 [mkCharacter 1 1] [mkWork 1 1 1])).
Proof.
  apply (step_keeps_board xreal_of_int [([mkCharacter 0 0], [mkWork 1 1 1])] 20
           (mkDemo false (-1) 0 [] [])).
  - split; constructor.
  - constructor.
  - repeat constructor; unfold SIZE; cbn; lia.
  - vm_compute. reflexivity.
Defined.

(** *** The step returns *)

Lemma demo_cost_bounded (c : Character) (w : Work) :
  (0 ≤ char_x c < SIZE)%Z → (0 ≤ char_y c < SIZE)%Z →
  (0 ≤ work_x w < SIZE)%Z → (0 ≤ work_y w < SIZE)%Z →
  (0 ≤ work_t w ≤ 2147483647)%Z →
  fin (demo_cost xreal_of_int c w)
  ∧ (0 <= qv (demo_cost xreal_of_int c w) <= qv (@f_dbl_max xreal exact))%Q.
Proof.
  intros Hcx Hcy Hwx Hwy Ht. unfold demo_cost, xreal_of_int.
  set (m := Z.max _ _).
  assert (Hm : (0 ≤ m ≤ 255)%Z).
  { unfold m. rewrite !abs_abs. unfold SIZE in *. lia. }
  clearbody m. split; [by eexists|].
  change (qv (f_add (XFin (Q2Qc (inject_Z m))) (XFin (Q2Qc (inject_Z (work_t w))))))
    with (this (Q2Qc (inject_Z m) + Q2Qc (inject_Z (work_t w)))%Qc).
  change (qv f_dbl_max) with (this (Q2Qc (inject_Z (2 ^ 1024 - 2 ^ 971)))).
  unfold Qcplus. rewrite !this_Q2Qc, <- inject_Z_plus, <- !Zle_Qle.
  set (M := (2 ^ 1024 - 2 ^ 971)%Z).
  assert (HM : (2 ^ 32 ≤ M)%Z) by (vm_compute; discriminate).
  clearbody M. split; [|lia].
  change 0%Q with (inject_Z 0). rewrite <- Zle_Qle. lia.
Qed.

Lemma demo_assignments_bounded cs ws :
  on_board cs ws → Forall (λ w, (0 ≤ work_t w ≤ 2147483647)%Z) ws →
  bounded_costs (demo_assignments xreal_of_int cs ws).
Proof.
  intros [Hc Hw] Ht. apply list.Forall_forall.
  intros a (i & j & Hi & Hj & ->)%demo_assignments_elem. cbn [cost].
  pose proof (proj1 (list.Forall_lookup _ _) Hc i _ (list_lookup_lookup_total_lt _ _ Hi))
    as [? ?].
  pose proof (proj1 (list.Forall_lookup _ _) Hw j _ (list_lookup_lookup_total_lt _ _ Hj))
    as [? ?].
  pose proof (proj1 (list.Forall_lookup _ _) Ht j _ (list_lookup_lookup_total_lt _ _ Hj)).
  by apply demo_cost_bounded.
Qed.

Lemma step_assigned_returns fuel cs ws :
  on_board cs ws → Forall (λ w, (0 ≤ work_t w ≤ 2147483647)%Z) ws →
  3 * (length cs `max` length ws) + 5 ≤ fuel →
  ∃ r, step_assigned xreal_of_int fuel cs ws = Returned r.
Proof.
  intros Hb Ht Hfuel. unfold step_assigned.
  destruct (Optimize_returns (demo_assignments xreal_of_int cs ws) fuel) as [out ->].
  - by apply demo_assignments_bounded.
  - assert (max_id character (demo_assignments xreal_of_int cs ws) ≤ length cs).
    { apply max_id_le. intros a (i & j & ? & ? & ->)%demo_assignments_elem. simpl. lia. }
    assert (max_id task (demo_assignments xreal_of_int cs ws) ≤ length ws).
    { apply max_id_le. intros a (i & j & ? & ? & ->)%demo_assignments_elem. simpl. lia. }
    lia.
  - simpl. destruct (advance out cs ws) as [cs' ws']. by eexists.
Qed.

Lemma remove_finished_length ws : length (remove_finished ws) ≤ length ws.
Proof.
  unfold remove_finished. rewrite erase_unless_perm. apply length_filter.
Qed.

(** In exact arithmetic [step] returns: from positions on the board and
    times that an [int] holds and that are not negative, with stages of
    the same kind, and once the loops of the solver are given three turns
    for each character or piece of work, and five more. *)
Theorem step_returns (stages : list (list Character * list Work)) (fuel : nat) (s : Demo) :
  on_board (characters s) (work s) →
  Forall (λ w, (0 ≤ work_t w ≤ 2147483647)%Z) (work s) →
  Forall (λ st, on_board st.1 st.2
                ∧ Forall (λ w, (0 ≤ work_t w ≤ 2147483647)%Z) st.2
                ∧ 3 * (length st.1 `max` length st.2) + 5 ≤ fuel) stages →
  3 * (length (characters s) `max` length (work s)) + 5 ≤ fuel →
  ∃ s', step xreal_of_int stages fuel s = Returned s'.
Proof.
  intros [Hbc Hbw] Ht Hstages Hfuel. unfold step.
  pose proof (remove_finished_keeps _ _ Hbw) as Hbw'.
  pose proof (remove_finished_keeps _ _ Ht) as Ht'.
  pose proof (remove_finished_length (work s)) as Hlen.
  assert (Hrun : ∀ stage steps cs ws,
    on_board cs ws → Forall (λ w, (0 ≤ work_t w ≤ 2147483647)%Z) ws →
    3 * (length cs `max` length ws) + 5 ≤ fuel →
    ∃ s', ('(_, characters, work) ← step_assigned xreal_of_int fuel cs ws;
           Returned (mkDemo (game_over s) stage steps characters work)) = Returned s').
  { intros stage steps cs ws Hb Hw Hf.
    destruct (step_assigned_returns fuel cs ws Hb Hw Hf) as [[[out cs'] ws'] ->].
    simpl. by eexists. }
  case_bool_decide as Hempty.
  - destruct (_ || _) eqn:Hlast; [by eexists|].
    apply orb_false_iff in Hlast as [Hneg Hlt].
    apply Z.ltb_ge in Hneg. apply Z.leb_gt in Hlt.
    assert (Hst : Z.to_nat (stage s + 1) < length stages) by lia.
    pose proof (proj1 (list.Forall_lookup _ _) Hstages _ _
                  (list_lookup_lookup_total_lt _ _ Hst)) as (Hb & Hp & Hf).
    destruct (stages !!! Z.to_nat (stage s + 1)) as [cs ws]. by apply Hrun.
  - apply Hrun.
    + split; [done|]. eapply list.Forall_impl; [exact Hbw'|]. by intros w [? _].
    + eapply list.Forall_impl; [exact Ht'|]. by intros w [? _].
    + lia.
Qed.

Lemma step_returns_witness :
  ∃ s', step xreal_of_int [([mkCharacter 0 0], [mkWork 1 1 1])] 20
          (mkDemo false 0 3 [mkCharacter 7 7; mkCharacter 2 3] [mkWork 1 1 0; mkWork 9 2 4])
        = Returned s'.
Proof.
  apply step_returns.
  - split; repeat constructor; unfold SIZE; cbn; lia.
  - repeat constructor; cbn; lia.
  - repeat constructor; unfold SIZE; cbn; lia.
  - cbn. lia.
Defined.

(** ** Whole numbers on IEEE doubles

    The sum, the difference, the absolute value and the order of whole
    numbers of fewer than 54 bits are computed on doubles without error.
    The proofs go through the description of the operations on doubles by
    sign, mantissa and exponent ([SpecFloat]). *)

Local Open Scope Z_scope.

Lemma digits2_pos_bounds (p : positive) :
  2 ^ (Zpos (digits2_pos p) - 1) ≤ Zpos p < 2 ^ Zpos (digits2_pos p).
Proof.
  induction p as [p IH|p IH|]; simpl digits2_pos.
  - rewrite Pos2Z.inj_succ. replace (Z.succ (Z.pos (digits2_pos p)) - 1) with (Z.succ (Z.pos (digits2_pos p) - 1)) by lia.
    rewrite !Z.pow_succ_r by lia. lia.
  - rewrite Pos2Z.inj_succ. replace (Z.succ (Z.pos (digits2_pos p)) - 1) with (Z.succ (Z.pos (digits2_pos p) - 1)) by lia.
    rewrite !Z.pow_succ_r by lia. lia.
  - simpl. lia.
Qed.

Lemma iter_xO_value (m k : positive) : Zpos (Pos.iter xO m k) = Zpos m * 2 ^ Zpos k.
Proof.
  induction k as [|k IH] using Pos.peano_ind.
  - simpl. lia.
  - rewrite Pos.iter_succ, Pos2Z.inj_xO, IH, Pos2Z.inj_succ, Z.pow_succ_r by lia. lia.
Qed.

Lemma shl_value (m : positive) (k : Z) : 0 ≤ k → Zpos (shl m k) = Zpos m * 2 ^ k.
Proof.
  intros Hk. destruct k as [|k|k]; [simpl; lia| |lia]. apply iter_xO_value.
Qed.

Lemma iter_xO_digits (m k : positive) :
  digits2_pos (Pos.iter xO m k) = (digits2_pos m + k)%positive.
Proof.
  induction k as [|k IH] using Pos.peano_ind.
  - simpl. lia.
  - rewrite Pos.iter_succ. simpl. rewrite IH. lia.
Qed.

Lemma shl_digits (m : positive) (k : Z) :
  0 ≤ k → Zpos (digits2_pos (shl m k)) = Zpos (digits2_pos m) + k.
Proof.
  intros Hk. destruct k as [|k|k]; [simpl; lia| |lia].
  simpl. rewrite iter_xO_digits. lia.
Qed.

Lemma shl_shl (m : positive) (j k : Z) : 0 ≤ j → 0 ≤ k → shl (shl m j) k = shl m (j + k).
Proof.
  intros Hj Hk. apply Pos2Z.inj. rewrite !shl_value by lia.
  rewrite Z.pow_add_r by lia. lia.
Qed.

Lemma iter_pos_iter {A} (f : A → A) (p : positive) (x : A) : SpecFloat.iter_pos f p x = Pos.iter f x p.
Proof.
  revert x. induction p as [p IH|p IH|]; intros x; simpl; [|by rewrite !IH|done].
  rewrite !IH. by rewrite <- !Pos.iter_swap.
Qed.

(** Shifting out zeros is exact. *)
Lemma shr_exact (m k : positive) :
  Pos.iter shr_1 (Build_shr_record (Zpos (Pos.iter xO m k)) false false) k
  = Build_shr_record (Zpos m) false false.
Proof.
  induction k as [|k IH] using Pos.peano_ind.
  - reflexivity.
  - rewrite !Pos.iter_succ, <- Pos.iter_swap. simpl. apply IH.
Qed.

Lemma fexp_eq (e : Z) : fexp prec emax e = Z.max (e - 53) (-1074).
Proof. reflexivity. Qed.

Lemma shl_align_spec (m : positive) (e e' : Z) :
  shl_align m e e' = if (e' <? e) then (shl m (e - e'), e') else (m, e).
Proof.
  unfold shl_align. destruct (Z.ltb_spec e' e) as [Hlt|Hge].
  - destruct (e' - e) as [|d|d] eqn:Hd; try lia.
    replace (e - e') with (Zpos d) by lia. reflexivity.
  - destruct (e' - e) as [|d|d] eqn:Hd; try lia; reflexivity.
Qed.

Lemma shl_0 (m : positive) : shl m 0 = m.
Proof. reflexivity. Qed.

(** A mantissa and an exponent in canonical form are left as they are. *)
Lemma round_aux_canonical (s : bool) (m : positive) (e : Z) :
  bounded prec emax m e = true →
  binary_round_aux prec emax s (Zpos m) e loc_Exact = S754_finite s m e.
Proof.
  unfold bounded, canonical_mantissa. intros [Hc He]%andb_true_iff.
  apply Z.eqb_eq in Hc. unfold binary_round_aux, shr_fexp.
  cbn [Zdigits2 shr_record_of_loc]. rewrite Hc, Z.sub_diag.
  cbn [shr shr_m loc_of_shr_record round_nearest_even Zdigits2 shr_record_of_loc].
  rewrite Hc, Z.sub_diag. cbn [shr shr_m]. by rewrite He.
Qed.

(** Zeros appended to a mantissa that has digits enough are shifted out
    again. *)
Lemma round_aux_shift (s : bool) (m : positive) (e k : Z) :
  0 ≤ k → e ≤ fexp prec emax (Zpos (digits2_pos m) + e) →
  binary_round_aux prec emax s (Zpos (shl m k)) (e - k) loc_Exact
  = binary_round_aux prec emax s (Zpos m) e loc_Exact.
Proof.
  intros Hk He. unfold binary_round_aux.
  assert (Hshr : shr_fexp prec emax (Zpos (shl m k)) (e - k) loc_Exact
                 = shr_fexp prec emax (Zpos m) e loc_Exact); [|by rewrite Hshr].
  unfold shr_fexp. cbn [Zdigits2 shr_record_of_loc].
  rewrite shl_digits by done.
  replace (Z.pos (digits2_pos m) + k + (e - k)) with (Z.pos (digits2_pos m) + e) by lia.
  set (t := fexp prec emax (Z.pos (digits2_pos m) + e)) in *.
  destruct k as [|k|k]; [|clear Hk|lia].
  { rewrite shl_0. by replace (e - 0) with e by lia. }
  destruct (t - e) as [|n|n] eqn:Hn; [| |lia].
  - replace (t - (e - Z.pos k)) with (Zpos k) by lia.
    cbn [shr shl]. rewrite iter_pos_iter, shr_exact. f_equal. lia.
  - replace (t - (e - Z.pos k)) with (Zpos (n + k)) by lia.
    cbn [shr shl]. rewrite !iter_pos_iter, Pos.iter_add, shr_exact. f_equal. lia.
Qed.

(** [binary_round] gives the canonical form of the number it is given,
    whether it has digits to spare or digits missing. *)
Lemma binary_round_spare (s : bool) (m : positive) (e k : Z) :
  bounded prec emax m e = true → 0 ≤ k →
  binary_round prec emax s (shl m k) (e - k) = S754_finite s m e.
Proof.
  intros Hb Hk. pose proof Hb as [Hc _]%andb_true_iff.
  apply Z.eqb_eq in Hc. unfold binary_round.
  rewrite shl_digits by done.
  replace (Z.pos (digits2_pos m) + k + (e - k)) with (Z.pos (digits2_pos m) + e) by lia.
  rewrite Hc, shl_align_spec.
  destruct (Z.ltb_spec e (e - k)); [lia|].
  rewrite round_aux_shift by lia. by apply round_aux_canonical.
Qed.

Lemma binary_round_missing (s : bool) (p : positive) (e k : Z) :
  bounded prec emax (shl p k) (e - k) = true → 0 ≤ k →
  binary_round prec emax s p e = S754_finite s (shl p k) (e - k).
Proof.
  intros Hb Hk. pose proof Hb as [Hc _]%andb_true_iff.
  apply Z.eqb_eq in Hc. unfold binary_round.
  rewrite shl_digits in Hc by done.
  replace (Z.pos (digits2_pos p) + k + (e - k)) with (Z.pos (digits2_pos p) + e) in Hc by lia.
  rewrite Hc, shl_align_spec.
  destruct (Z.ltb_spec (e - k) e).
  - replace (e - (e - k)) with k by lia. by apply round_aux_canonical.
  - assert (k = 0) as -> by lia. rewrite shl_0 in *.
    replace (e - 0) with e in * by lia. by apply round_aux_canonical.
Qed.

(** *** Whole numbers of at most 53 bits *)

Lemma digits_le_53 (p : positive) : Zpos p < 2 ^ 53 → Zpos (digits2_pos p) ≤ 53.
Proof.
  intros Hp. destruct (digits2_pos_bounds p) as [Hlo _].
  destruct (Z.le_gt_cases (Zpos (digits2_pos p)) 53) as [|Hgt]; [done|exfalso].
  assert (2 ^ 53 ≤ 2 ^ (Zpos (digits2_pos p) - 1)) by (apply Z.pow_le_mono_r; lia).
  lia.
Qed.

Lemma cm_bounded (p : positive) : Zpos p < 2 ^ 53 → bounded prec emax (cm p) (ce p) = true.
Proof.
  intros Hp. pose proof (digits_le_53 p Hp).
  unfold bounded, canonical_mantissa, cm, ce. apply andb_true_iff. split.
  - apply Z.eqb_eq. rewrite shl_digits, fexp_eq by lia. lia.
  - apply Z.leb_le. unfold emax, prec. lia.
Qed.

Lemma cm_value (p : positive) : Zpos p < 2 ^ 53 → Zpos (cm p) = Zpos p * 2 ^ (- ce p).
Proof.
  intros Hp. pose proof (digits_le_53 p Hp). unfold cm, ce.
  rewrite shl_value by lia. f_equal. f_equal. lia.
Qed.

Lemma cm_digits (p : positive) : Zpos p < 2 ^ 53 → Zpos (digits2_pos (cm p)) = 53.
Proof.
  intros Hp. pose proof (digits_le_53 p Hp). unfold cm. rewrite shl_digits by lia. lia.
Qed.

(** The number [p * 2 ^ J] given with the exponent [-J] rounds to the
    canonical form of [p]. *)
Lemma binary_round_whole (s : bool) (p : positive) (J : Z) :
  Zpos p < 2 ^ 53 → 0 ≤ J →
  binary_round prec emax s (shl p J) (- J) = S754_finite s (cm p) (ce p).
Proof.
  intros Hp HJ. pose proof (digits_le_53 p Hp) as Hd.
  destruct (Z.le_gt_cases J (53 - Zpos (digits2_pos p))) as [Hle|Hgt].
  - rewrite (binary_round_missing s (shl p J) (- J) (53 - Zpos (digits2_pos p) - J)).
    + rewrite shl_shl by lia. unfold cm, ce. f_equal; [f_equal|]; lia.
    + rewrite shl_shl by lia.
      replace (J + (53 - Z.pos (digits2_pos p) - J)) with (53 - Z.pos (digits2_pos p)) by lia.
      replace (- J - (53 - Z.pos (digits2_pos p) - J)) with (ce p) by (unfold ce; lia).
      by apply cm_bounded.
    + lia.
  - replace (shl p J) with (shl (cm p) (J - (53 - Zpos (digits2_pos p)))).
    2:{ unfold cm. rewrite shl_shl by lia. f_equal. lia. }
    replace (- J) with (ce p - (J - (53 - Zpos (digits2_pos p)))) by (unfold ce; lia).
    apply binary_round_spare; [by apply cm_bounded|lia].
Qed.

Lemma Zf_pos (p : positive) :
  Zpos p < 2 ^ 53 → Zf (Zpos p) = S754_finite false (cm p) (ce p).
Proof. intros Hp. apply (binary_round_whole false p 0 Hp). lia. Qed.

Lemma Zf_neg (p : positive) :
  Zpos p < 2 ^ 53 → Zf (Zneg p) = S754_finite true (cm p) (ce p).
Proof. intros Hp. apply (binary_round_whole true p 0 Hp). lia. Qed.

Lemma Zf_0 : Zf 0 = S754_zero false.
Proof. reflexivity. Qed.

Lemma normalize_whole (n J : Z) :
  Z.abs n < 2 ^ 53 → 0 ≤ J →
  binary_normalize prec emax (n * 2 ^ J) (- J) false = Zf n.
Proof.
  intros Hn HJ. destruct n as [|p|p].
  - reflexivity.
  - rewrite Zf_pos by lia. rewrite <- shl_value by done. cbn [binary_normalize].
    apply binary_round_whole; lia.
  - rewrite Zf_neg by lia.
    replace (Z.neg p * 2 ^ J) with (Z.neg (shl p J)).
    2:{ rewrite <- !Pos2Z.opp_pos, shl_value by done. lia. }
    cbn [binary_normalize]. apply binary_round_whole; lia.
Qed.

Lemma Zf_nonzero (n : Z) :
  n ≠ 0 → whole n →
  Zf n = S754_finite (n <? 0) (cm (Z.to_pos (Z.abs n))) (ce (Z.to_pos (Z.abs n))).
Proof.
  unfold whole. intros Hn Hw. destruct n as [|p|p]; [done|..].
  - rewrite Zf_pos by lia. reflexivity.
  - rewrite Zf_neg by lia. reflexivity.
Qed.

Lemma ce_nonpos (p : positive) : Zpos p < 2 ^ 53 → ce p ≤ 0.
Proof. intros Hp. pose proof (digits_le_53 p Hp). unfold ce. lia. Qed.

Lemma fst_shl_align (m : positive) (e e' : Z) :
  e' ≤ e → fst (shl_align m e e') = shl m (e - e').
Proof.
  intros He. rewrite shl_align_spec. destruct (Z.ltb_spec e' e); [done|].
  replace (e - e') with 0 by lia. reflexivity.
Qed.

(** The mantissa of a whole number, brought to a smaller exponent. *)
Lemma aligned_value (n e : Z) :
  n ≠ 0 → whole n → e ≤ ce (Z.to_pos (Z.abs n)) →
  cond_Zopp (n <? 0)
    (Zpos (fst (shl_align (cm (Z.to_pos (Z.abs n))) (ce (Z.to_pos (Z.abs n))) e)))
  = n * 2 ^ (- e).
Proof.
  unfold whole. intros Hn Hw He.
  set (p := Z.to_pos (Z.abs n)) in *.
  assert (Hp : Zpos p = Z.abs n) by (unfold p; lia).
  pose proof (ce_nonpos p ltac:(lia)) as Hce.
  rewrite fst_shl_align, shl_value, cm_value by lia.
  rewrite <- Z.mul_assoc, <- Z.pow_add_r by lia.
  replace (- ce p + (ce p - e)) with (- e) by lia.
  rewrite Hp. unfold cond_Zopp. destruct (Z.ltb_spec n 0); lia.
Qed.

Lemma Zf_add (a b : Z) :
  whole a → whole b → whole (a + b) → SFadd prec emax (Zf a) (Zf b) = Zf (a + b).
Proof.
  intros Ha Hb Hab.
  destruct (decide (a = 0)) as [->|Hna].
  { rewrite Z.add_0_l, Zf_0. destruct (decide (b = 0)) as [->|Hnb]; [done|].
    by rewrite (Zf_nonzero b). }
  destruct (decide (b = 0)) as [->|Hnb].
  { rewrite Z.add_0_r, Zf_0. by rewrite (Zf_nonzero a). }
  rewrite (Zf_nonzero a), (Zf_nonzero b) by done. cbn [SFadd].
  set (pa := Z.to_pos (Z.abs a)). set (pb := Z.to_pos (Z.abs b)).
  pose proof (ce_nonpos pa ltac:(unfold whole, pa in *; lia)).
  pose proof (ce_nonpos pb ltac:(unfold whole, pb in *; lia)).
  unfold pa, pb. rewrite !aligned_value by (done || lia).
  fold pa pb. rewrite <- Z.mul_add_distr_r.
  set (J := - Z.min (ce pa) (ce pb)).
  replace (Z.min (ce pa) (ce pb)) with (- J) by (unfold J; lia).
  apply normalize_whole; [done|unfold J; lia].
Qed.

Lemma Zf_opp (a : Z) : whole a → SFopp (Zf a) = (if decide (a = 0) then S754_zero true else Zf (- a)).
Proof.
  intros Ha. destruct (decide (a = 0)) as [->|Hna]; [done|].
  assert (Hw : whole (- a)) by (unfold whole in *; lia).
  rewrite (Zf_nonzero a), (Zf_nonzero (- a)) by (done || lia). cbn [SFopp].
  rewrite Z.abs_opp. f_equal.
  destruct (Z.ltb_spec a 0), (Z.ltb_spec (- a) 0); simpl; (done || lia).
Qed.

Lemma Zf_sub (a b : Z) :
  whole a → whole b → whole (a - b) → SFsub prec emax (Zf a) (Zf b) = Zf (a - b).
Proof.
  intros Ha Hb Hab.
  destruct (decide (b = 0)) as [->|Hnb].
  { rewrite Z.sub_0_r, Zf_0. destruct (decide (a = 0)) as [->|Hna]; [done|].
    by rewrite (Zf_nonzero a). }
  destruct (decide (a = 0)) as [->|Hna].
  { rewrite Z.sub_0_l, Zf_0. rewrite (Zf_nonzero b) by done. cbn [SFsub].
    assert (Hw : whole (- b)) by (unfold whole in *; lia).
    rewrite (Zf_nonzero (- b)) by (done || lia). rewrite Z.abs_opp. f_equal.
    destruct (Z.ltb_spec b 0), (Z.ltb_spec (- b) 0); simpl; (done || lia). }
  rewrite (Zf_nonzero a), (Zf_nonzero b) by done. cbn [SFsub].
  set (pa := Z.to_pos (Z.abs a)). set (pb := Z.to_pos (Z.abs b)).
  pose proof (ce_nonpos pa ltac:(unfold whole, pa in *; lia)).
  pose proof (ce_nonpos pb ltac:(unfold whole, pb in *; lia)).
  unfold pa, pb. rewrite !aligned_value by (done || lia).
  fold pa pb. rewrite <- Z.mul_sub_distr_r.
  set (J := - Z.min (ce pa) (ce pb)).
  replace (Z.min (ce pa) (ce pb)) with (- J) by (unfold J; lia).
  apply normalize_whole; [done|unfold J; lia].
Qed.

Lemma Zf_abs (a : Z) : whole a → SFabs (Zf a) = Zf (Z.abs a).
Proof.
  intros Ha. destruct (decide (a = 0)) as [->|Hna]; [done|].
  assert (Hw : whole (Z.abs a)) by (unfold whole in *; lia).
  rewrite (Zf_nonzero a), (Zf_nonzero (Z.abs a)) by (done || lia). cbn [SFabs].
  rewrite Z.abs_idemp. f_equal. destruct (Z.ltb_spec (Z.abs a) 0); [lia|done].
Qed.

(** *** Order *)

Lemma ce_compare (p q : positive) :
  Zpos p < 2 ^ 53 → Zpos q < 2 ^ 53 →
  match ce p ?= ce q with
  | Lt => Lt
  | Gt => Gt
  | Eq => Pos.compare_cont Eq (cm p) (cm q)
  end = (Zpos p ?= Zpos q).
Proof.
  intros Hp Hq. unfold ce, cm.
  pose proof (digits_le_53 p Hp). pose proof (digits_le_53 q Hq).
  destruct (digits2_pos_bounds p) as [Hlp Hup]. destruct (digits2_pos_bounds q) as [Hlq Huq].
  destruct (Z.compare_spec (Zpos (digits2_pos p) - 53) (Zpos (digits2_pos q) - 53)) as [He|Hl|Hg].
  - assert (Hd : digits2_pos p = digits2_pos q) by lia. rewrite Hd.
    change (Pos.compare_cont Eq (shl p (53 - Z.pos (digits2_pos q))) (shl q (53 - Z.pos (digits2_pos q))))
      with (Pos.compare (shl p (53 - Z.pos (digits2_pos q))) (shl q (53 - Z.pos (digits2_pos q)))).
    rewrite (Pos2Z.inj_compare (shl p _) (shl q _)), !shl_value by lia.
    symmetry. apply Zmult_compare_compat_r. apply Z.lt_gt, Z.pow_pos_nonneg; lia.
  - symmetry. apply Z.compare_lt_iff.
    assert (2 ^ Zpos (digits2_pos p) ≤ 2 ^ (Zpos (digits2_pos q) - 1))
      by (apply Z.pow_le_mono_r; lia).
    lia.
  - symmetry. apply Z.compare_gt_iff.
    assert (2 ^ Zpos (digits2_pos q) ≤ 2 ^ (Zpos (digits2_pos p) - 1))
      by (apply Z.pow_le_mono_r; lia).
    lia.
Qed.

Lemma Zf_compare (a b : Z) : whole a → whole b → SFcompare (Zf a) (Zf b) = Some (a ?= b).
Proof.
  unfold whole. intros Ha Hb.
  destruct a as [|p|p], b as [|q|q]; rewrite ?Zf_0, ?Zf_pos, ?Zf_neg by lia;
    cbn [SFcompare]; try reflexivity.
  - f_equal. apply ce_compare; lia.
  - f_equal. change (Z.neg p ?= Z.neg q) with (CompOpp (Z.pos p ?= Z.pos q)).
    rewrite <- (ce_compare p q) by lia.
    by destruct (ce p ?= ce q).
Qed.

Lemma Zf_ltb (a b : Z) : whole a → whole b → SFltb (Zf a) (Zf b) = (a <? b).
Proof.
  intros Ha Hb. unfold SFltb, Z.ltb. rewrite Zf_compare by done. by destruct (a ?= b).
Qed.

Lemma Zf_valid (n : Z) : whole n → valid_binary (Zf n) = true.
Proof.
  unfold whole. intros Hn. destruct n as [|p|p]; [done|..].
  - rewrite Zf_pos by lia. apply cm_bounded. lia.
  - rewrite Zf_neg by lia. apply cm_bounded. lia.
Qed.

(** *** On the primitive floats *)

Lemma Prim2SF_of_int (n : Z) : whole n → Prim2SF (of_int n) = Zf n.
Proof. intros Hn. apply Prim2SF_SF2Prim. by apply Zf_valid. Qed.

Lemma of_int_add (a b : Z) :
  whole a → whole b → whole (a + b) → (of_int a + of_int b)%float = of_int (a + b).
Proof.
  intros Ha Hb Hab. apply Prim2SF_inj.
  rewrite add_spec, !Prim2SF_of_int by done. by apply Zf_add.
Qed.

Lemma of_int_sub (a b : Z) :
  whole a → whole b → whole (a - b) → (of_int a - of_int b)%float = of_int (a - b).
Proof.
  intros Ha Hb Hab. apply Prim2SF_inj.
  rewrite sub_spec, !Prim2SF_of_int by done. by apply Zf_sub.
Qed.

Lemma of_int_abs (a : Z) : whole a → PrimFloat.abs (of_int a) = of_int (Z.abs a).
Proof.
  intros Ha. apply Prim2SF_inj.
  rewrite abs_spec, !Prim2SF_of_int by (unfold whole in *; lia). by apply Zf_abs.
Qed.

Lemma of_int_ltb (a b : Z) : whole a → whole b → (of_int a <? of_int b)%float = (a <? b).
Proof.
  intros Ha Hb. rewrite ltb_spec, !Prim2SF_of_int by done. by apply Zf_ltb.
Qed.

Lemma of_int_0 : of_int 0 = 0%float.
Proof. reflexivity. Qed.

Lemma of_int_1 : of_int 1 = 1%float.
Proof. vm_compute. reflexivity. Qed.

Lemma ce_lower (p : positive) : -52 ≤ ce p.
Proof. unfold ce. lia. Qed.

(** The tolerance [0.0001] lies between [0] and [1]. *)
Lemma of_int_ltb_tol (n : Z) :
  whole n → (of_int n <? 0x1.a36e2eb1c432dp-14)%float = (n <? 1).
Proof.
  unfold whole. intros Hn. rewrite ltb_spec, Prim2SF_of_int by done.
  replace (Prim2SF 0x1.a36e2eb1c432dp-14) with (S754_finite false 7378697629483821 (-66))
    by (vm_compute; reflexivity).
  destruct n as [|p|p]; rewrite ?Zf_0, ?Zf_pos, ?Zf_neg by lia; try reflexivity.
  unfold SFltb. cbn [SFcompare]. pose proof (ce_lower p).
  destruct (Z.compare_spec (ce p) (-66)); lia.
Qed.

(** [DBL_MAX] is above every whole number of 53 bits. *)
Lemma of_int_ltb_dbl_max (n : Z) :
  whole n → (of_int n <? 0x1.fffffffffffffp+1023)%float = true.
Proof.
  unfold whole. intros Hn. rewrite ltb_spec, Prim2SF_of_int by done.
  replace (Prim2SF 0x1.fffffffffffffp+1023) with (S754_finite false 9007199254740991 971)
    by (vm_compute; reflexivity).
  destruct n as [|p|p]; rewrite ?Zf_0, ?Zf_pos, ?Zf_neg by lia; try reflexivity.
  unfold SFltb. cbn [SFcompare]. pose proof (ce_nonpos p ltac:(lia)).
  destruct (Z.compare_spec (ce p) 971); first [lia|done].
Qed.

(** [DBL_MIN] lies between [0] and [1]. *)
Lemma of_int_dbl_min_ltb (n : Z) :
  whole n → (0x1p-1022 <? of_int n)%float = (0 <? n).
Proof.
  unfold whole. intros Hn. rewrite ltb_spec, Prim2SF_of_int by done.
  replace (Prim2SF 0x1p-1022) with (S754_finite false 4503599627370496 (-1074))
    by (vm_compute; reflexivity).
  destruct n as [|p|p]; rewrite ?Zf_0, ?Zf_pos, ?Zf_neg by lia; try reflexivity.
  unfold SFltb. cbn [SFcompare]. pose proof (ce_lower p).
  destruct (Z.compare_spec (-1074) (ce p)); first [lia|done].
Qed.

Local Close Scope Z_scope.

(** ** The solver on whole numbers, on doubles and in exact arithmetic *)

Lemma of_int_exact : Exact of_int.
Proof.
  split.
  - apply of_int_0.
  - apply of_int_1.
  - apply of_int_add.
  - apply of_int_sub.
  - apply of_int_abs.
  - apply of_int_ltb.
  - apply of_int_ltb_tol.
  - apply of_int_ltb_dbl_max.
  - apply of_int_dbl_min_ltb.
Qed.

Lemma Q2Qc_inject_lt (a : Z) (q : Q) :
  Qc_ltb (Q2Qc (inject_Z a)) (Q2Qc q) = true ↔ (inject_Z a < q)%Q.
Proof. rewrite Qc_ltb_spec, !this_Q2Qc. done. Qed.

Lemma xreal_of_int_exact : Exact xreal_of_int.
Proof.
  split; unfold xreal_of_int.
  - first [reflexivity|f_equal; by apply Qc_is_canon].
  - first [reflexivity|f_equal; by apply Qc_is_canon].
  - intros a b _ _ _. simpl. f_equal. apply Qc_is_canon.
    rewrite this_plus, !this_Q2Qc, inject_Z_plus. reflexivity.
  - intros a b _ _ _. simpl. f_equal. apply Qc_is_canon.
    rewrite this_plus, this_opp, !this_Q2Qc. unfold Z.sub.
    rewrite inject_Z_plus, inject_Z_opp. reflexivity.
  - intros a _. simpl. f_equal. apply Qc_is_canon.
    destruct (Qc_ltb (Q2Qc (inject_Z a)) 0) eqn:Hlt.
    + apply Qc_ltb_spec in Hlt. rewrite !this_Q2Qc in Hlt.
      change 0%Q with (inject_Z 0) in Hlt. rewrite <- Zlt_Qlt in Hlt.
      rewrite this_opp, !this_Q2Qc, <- inject_Z_opp. by rewrite Z.abs_neq by lia.
    + apply Qc_ltb_false in Hlt. rewrite !this_Q2Qc in Hlt.
      change 0%Q with (inject_Z 0) in Hlt. rewrite <- Zle_Qle in Hlt.
      rewrite !this_Q2Qc. by rewrite Z.abs_eq by lia.
  - intros a b _ _. simpl. destruct (Z.ltb_spec a b) as [Hlt|Hge].
    + apply Qc_ltb_spec. rewrite !this_Q2Qc, <- Zlt_Qlt. done.
    + apply Qc_ltb_false. rewrite !this_Q2Qc, <- Zle_Qle. done.
  - intros a _. simpl. destruct (Z.ltb_spec a 1) as [Hlt|Hge].
    + apply Qc_ltb_spec. rewrite !this_Q2Qc.
      assert (inject_Z a <= inject_Z 0)%Q by (rewrite <- Zle_Qle; lia).
      change (inject_Z 0) with 0%Q in *. unfold Qlt, Qle in *. simpl in *. lia.
    + apply Qc_ltb_false. rewrite !this_Q2Qc.
      assert (inject_Z 1 <= inject_Z a)%Q by (rewrite <- Zle_Qle; lia).
      unfold Qle in *. simpl in *. lia.
  - unfold whole. intros a Ha. simpl. apply Qc_ltb_spec.
    rewrite !this_Q2Qc, <- Zlt_Qlt.
    assert (2 ^ 53 < 2 ^ 1024 - 2 ^ 971)%Z by (vm_compute; reflexivity). lia.
  - intros a _. simpl. destruct (Z.ltb_spec 0 a) as [Hlt|Hge].
    + apply Qc_ltb_spec. rewrite !this_Q2Qc.
      assert (inject_Z 1 <= inject_Z a)%Q by (rewrite <- Zle_Qle; lia).
      assert (1 # 2 ^ 1022 < inject_Z 1)%Q by (vm_compute; reflexivity).
      eapply Qlt_le_trans; done.
    + apply Qc_ltb_false. rewrite !this_Q2Qc.
      assert (inject_Z a <= inject_Z 0)%Q by (rewrite <- Zle_Qle; lia).
      assert (inject_Z 0 <= 1 # 2 ^ 1022)%Q by (vm_compute; discriminate).
      eapply Qle_trans; done.
Qed.

Lemma pow_2_49 : (2 ^ 49 = 562949953421312)%Z.
Proof. reflexivity. Qed.
Lemma pow_2_51 : (2 ^ 51 = 2251799813685248)%Z.
Proof. reflexivity. Qed.
Lemma pow_2_53 : (2 ^ 53 = 9007199254740992)%Z.
Proof. reflexivity. Qed.

(** Opens the three ranges for [lia]. *)
Ltac ranges :=
  unfold lab, slk, whole in *; rewrite ?pow_2_49, ?pow_2_51, ?pow_2_53 in *;
  repeat match goal with
         | H : ?T |- _ =>
             lazymatch T with
             | (_ ≤ _)%Z => fail
             | (_ < _)%Z => fail
             | @eq Z _ _ => fail
             | (_ ≤ _)%Z ∧ _ => fail
             | (_ < _)%Z ∧ _ => fail
             | _ => clear H
             end
         end.

Section Embedding.
Context {G : Type} {SG : Scalar G} (emb : Z → G) {EX : Exact emb}.
Local Existing Instance whole_numbers.
Local Existing Instance scalar_inhabited | 0.
Implicit Types (st : solver Z) (value : list (list Z)).

Lemma emb_lookup (l : list Z) (i : nat) : (emb <$> l) !!! i = emb (l !!! i).
Proof.
  rewrite !list_lookup_total_alt, list_lookup_fmap.
  destruct (l !! i); simpl; [done|]. symmetry. apply emb_zero.
Qed.

Lemma emb_value value (x y : nat) :
  (((λ row : list Z, emb <$> row) <$> value) !!! x) !!! y = emb ((value !!! x) !!! y).
Proof.
  rewrite <- emb_lookup. f_equal.
  rewrite !list_lookup_total_alt, list_lookup_fmap. by destruct (value !! x).
Qed.

Lemma lab_lookup (l : list Z) (i : nat) : Forall lab l → lab (l !!! i).
Proof.
  intros Hl. rewrite list_lookup_total_alt. destruct (l !! i) as [n|] eqn:Hi; simpl.
  - by apply (proj1 (list.Forall_lookup _ _) Hl i).
  - ranges. simpl. lia.
Qed.

Lemma slk_lookup (l : list Z) (i : nat) : Forall slk l → slk (l !!! i).
Proof.
  intros Hl. rewrite list_lookup_total_alt. destruct (l !! i) as [n|] eqn:Hi; simpl.
  - by apply (proj1 (list.Forall_lookup _ _) Hl i).
  - ranges. simpl. lia.
Qed.

Lemma lab_value value (x y : nat) : safe_value value → lab ((value !!! x) !!! y).
Proof.
  intros Hv. apply lab_lookup. rewrite list_lookup_total_alt.
  destruct (value !! x) as [row|] eqn:Hx; simpl; [|done].
  by apply (proj1 (list.Forall_lookup _ _) Hv x).
Qed.

Lemma emb_eq (a b : Z) :
  whole a → whole b → whole (a - b) → f_eq (emb a) (emb b) = f_eq a b.
Proof.
  intros Ha Hb Hab. unfold f_eq.
  rewrite emb_sub, emb_abs, emb_ltb_tol by (done || (ranges; lia)). done.
Qed.

Lemma emb_max (a b : Z) : whole a → whole b → f_max (emb a) (emb b) = emb (f_max a b).
Proof. intros Ha Hb. unfold f_max. rewrite emb_ltb by done. simpl. by destruct (a <? b)%Z. Qed.

Lemma emb_excess value st (x y : nat) :
  safe_value value → safe st →
  excess ((λ row : list Z, emb <$> row) <$> value) (map_solver emb st) x y = emb (excess value st x y)
  ∧ slk (excess value st x y).
Proof.
  intros Hv (Hx & Hy & _). unfold excess. cbn [map_solver lx ly].
  rewrite !emb_lookup, emb_value.
  pose proof (lab_lookup _ x Hx). pose proof (lab_lookup _ y Hy).
  pose proof (lab_value value x y Hv).
  rewrite emb_add, emb_sub by (ranges; simpl; lia).
  split; [done|]. ranges. simpl. lia.
Qed.

(** [delta] is the slack of a column outside T, when there is one. *)
Lemma emb_min_slack (NY : nat) st :
  safe st → (∃ y, y < NY ∧ in_T st !!! y = false) →
  min_slack NY (map_solver emb st) = emb (min_slack NY st) ∧ slk (min_slack NY st).
Proof.
  intros (_ & _ & Hs) (y0 & Hy0 & HT0). unfold min_slack. cbn [map_solver in_T slack].
  assert (Hgen : ∀ ys (aG : G) (aZ : Z),
    (aG = f_dbl_max ∧ aZ = f_dbl_max) ∨ (aG = emb aZ ∧ slk aZ) →
    let rG := fold_left (λ (delta : G) (y : nat),
                if negb (in_T st !!! y) then f_min delta ((emb <$> slack st) !!! y) else delta)
                ys aG in
    let rZ := fold_left (λ (delta : Z) (y : nat),
                if negb (in_T st !!! y) then f_min delta (slack st !!! y) else delta)
                ys aZ in
    ((rG = f_dbl_max ∧ rZ = f_dbl_max) ∨ (rG = emb rZ ∧ slk rZ))
    ∧ ((∃ y, y ∈ ys ∧ in_T st !!! y = false) ∨ (aG = emb aZ ∧ slk aZ) →
       rG = emb rZ ∧ slk rZ)).
  { induction ys as [|y ys IH]; intros aG aZ Ha; simpl.
    - split; [done|]. intros [(y & []%elem_of_nil & _)|?]; done.
    - pose proof (slk_lookup _ y Hs) as Hsy.
      destruct (in_T st !!! y) eqn:HT; simpl.
      + destruct (IH aG aZ Ha) as [IH1 IH2]. split; [done|].
        intros [(y' & [->|Hin]%elem_of_cons & HT')|Hsec]; [congruence| |].
        * apply IH2. left. by exists y'.
        * apply IH2. by right.
      + assert (Hstep : f_min aG ((emb <$> slack st) !!! y) = emb (f_min aZ (slack st !!! y))
                        ∧ slk (f_min aZ (slack st !!! y))).
        { rewrite emb_lookup. unfold f_min.
          destruct Ha as [[-> ->]|[-> Hsz]].
          - rewrite emb_ltb_dbl_max by (ranges; lia). simpl.
            destruct (Z.ltb_spec (slack st !!! y) (2 ^ 53)); [done|]. ranges. lia.
          - rewrite emb_ltb by (ranges; lia). simpl.
            by destruct (slack st !!! y <? aZ)%Z. }
        destruct (IH _ _ (or_intror Hstep)) as [IH1 IH2]. split; [done|].
        intros _. apply IH2. by right. }
  destruct (Hgen (seq 0 NY) f_dbl_max f_dbl_max (or_introl (conj eq_refl eq_refl))) as [_ Hsec].
  apply Hsec. left. exists y0. split; [apply elem_of_seq; lia|done].
Qed.

Lemma emb_update_labels (NY : nat) st :
  safe st → (∃ y, y < NY ∧ in_T st !!! y = false) →
  update_labels NY (map_solver emb st) = map_solver emb (update_labels NY st).
Proof.
  intros Hsafe Hfree. destruct (emb_min_slack NY st Hsafe Hfree) as [Hd Hsd].
  destruct Hsafe as (Hx & Hy & Hs).
  unfold update_labels. rewrite Hd. unfold map_solver.
  cbn [lx ly xy yx in_S in_T slack slackx prev].
  rewrite !imap_fmap, !fmap_imap. f_equal; apply imap_ext; intros i l Hl; simpl.
  - pose proof (proj1 (list.Forall_lookup _ _) Hx i l Hl).
    destruct (in_S st !!! i); [|done]. apply emb_sub; ranges; lia.
  - pose proof (proj1 (list.Forall_lookup _ _) Hy i l Hl).
    destruct (in_T st !!! i); [|done]. apply emb_add; ranges; lia.
  - pose proof (proj1 (list.Forall_lookup _ _) Hs i l Hl).
    destruct (in_T st !!! i); [done|]. apply emb_sub; ranges; lia.
Qed.

Lemma emb_add_to_tree value (x : nat) (px : Z) st :
  safe_value value → safe st →
  add_to_tree ((λ row : list Z, emb <$> row) <$> value) x px (map_solver emb st)
  = map_solver emb (add_to_tree value x px st)
  ∧ safe (add_to_tree value x px st).
Proof.
  intros Hv Hsafe. pose proof Hsafe as (Hx & Hy & Hs). split.
  - unfold add_to_tree.
    replace (map_solver emb {|
      lx := lx st; ly := ly st; xy := xy st; yx := yx st;
      in_S := <[x:=true]> (in_S st); in_T := in_T st;
      slack := imap (λ (y : nat) (s : Z),
                 if f_ltb (excess value st x y) s then excess value st x y else s) (slack st);
      slackx := imap (λ y sx : nat,
                 if f_ltb (excess value st x y) (slack st !!! y) then x else sx) (slackx st);
      prev := <[x:=px]> (prev st) |})
    with {|
      lx := emb <$> lx st; ly := emb <$> ly st; xy := xy st; yx := yx st;
      in_S := <[x:=true]> (in_S st); in_T := in_T st;
      slack := emb <$> imap (λ (y : nat) (s : Z),
                 if f_ltb (excess value st x y) s then excess value st x y else s) (slack st);
      slackx := imap (λ y sx : nat,
                 if f_ltb (excess value st x y) (slack st !!! y) then x else sx) (slackx st);
      prev := <[x:=px]> (prev st) |} by reflexivity.
    cbn [map_solver lx ly xy yx in_S in_T slack slackx prev].
    f_equal.
    + cbn [map_solver slack]. rewrite imap_fmap, fmap_imap. apply imap_ext. intros y s Hy'. simpl.
      destruct (emb_excess value st x y Hv Hsafe) as [-> He].
      pose proof (proj1 (list.Forall_lookup _ _) Hs y s Hy').
      rewrite emb_ltb by (ranges; lia). simpl. by destruct (_ <? _)%Z.
    + cbn [map_solver slack slackx]. apply imap_ext. intros y sx Hy'.
      destruct (emb_excess value st x y Hv Hsafe) as [-> He].
      rewrite emb_lookup. pose proof (slk_lookup _ y Hs).
      rewrite emb_ltb by (ranges; lia). done.
  - split_and!; [done|done|]. cbn [add_to_tree slack].
    apply list.Forall_lookup. intros y s' Hy'.
    apply list_lookup_imap_Some in Hy' as (s & Hs' & ->).
    destruct (emb_excess value st x y Hv Hsafe) as [_ He].
    pose proof (proj1 (list.Forall_lookup _ _) Hs y s Hs'). simpl.
    by destruct (_ <? _)%Z.
Qed.

Lemma emb_set_T (y : nat) st : set_T y (map_solver emb st) = map_solver emb (set_T y st).
Proof. reflexivity. Qed.

Lemma safe_set_T (y : nat) st : safe st → safe (set_T y st).
Proof. done. Qed.

Lemma emb_start_tree value (NX NY root : nat) st :
  safe_value value → safe st →
  start_tree ((λ row : list Z, emb <$> row) <$> value) NX NY root (map_solver emb st)
  = map_solver emb (start_tree value NX NY root st)
  ∧ safe (start_tree value NX NY root st).
Proof.
  intros Hv Hsafe. pose proof Hsafe as (Hx & Hy & Hs). split.
  - unfold start_tree, map_solver.
    cbn [lx ly xy yx in_S in_T slack slackx prev]. f_equal.
    rewrite <- list_fmap_compose. apply list_fmap_ext. intros i y _. simpl.
    destruct (emb_excess value st root y Hv Hsafe) as [He _].
    unfold map_solver in He. by rewrite He.
  - split_and!; [done|done|]. cbn [start_tree slack].
    apply list.Forall_fmap, list.Forall_forall. intros y _. simpl.
    by destruct (emb_excess value st root y Hv Hsafe) as [_ He].
Qed.

Lemma emb_init_solver value (NX NY : nat) :
  safe_value value →
  init_solver ((λ row : list Z, emb <$> row) <$> value) NX NY
  = map_solver emb (init_solver value NX NY)
  ∧ safe (init_solver value NX NY).
Proof.
  intros Hv.
  assert (Hgen : ∀ x ys (a : Z), lab a →
    fold_left (λ (l : G) (y : nat),
       f_max l ((((λ row : list Z, emb <$> row) <$> value) !!! x) !!! y)) ys (emb a)
    = emb (fold_left (λ (l : Z) (y : nat), f_max l ((value !!! x) !!! y)) ys a)
    ∧ lab (fold_left (λ (l : Z) (y : nat), f_max l ((value !!! x) !!! y)) ys a)).
  { intros x. induction ys as [|y ys IH]; intros a Ha; simpl; [done|].
    pose proof (lab_value value x y Hv) as Hl.
    rewrite emb_value, emb_max by (ranges; lia). apply IH.
    unfold f_max. simpl. by destruct (_ <? _)%Z. }
  assert (H0 : lab 0) by (ranges; simpl; lia).
  split.
  - unfold init_solver, map_solver. cbn [lx ly xy yx in_S in_T slack slackx prev].
    rewrite !fmap_replicate, emb_zero. f_equal.
    rewrite <- list_fmap_compose. apply list_fmap_ext. intros i x _. simpl.
    rewrite <- emb_zero. by destruct (Hgen x (seq 0 NY) 0%Z H0) as [-> _].
  - split_and!; cbn [init_solver lx ly slack].
    + apply list.Forall_fmap, list.Forall_forall. intros x _. simpl.
      by destruct (Hgen x (seq 0 NY) 0%Z H0) as [_ ?].
    + by apply Forall_replicate.
    + apply Forall_replicate. ranges. simpl. lia.
Qed.

Lemma emb_find_root (NX : nat) st :
  safe st → find_root NX (map_solver emb st) = find_root NX st.
Proof.
  intros (Hx & _ & _). unfold find_root. cbn [map_solver lx xy].
  match goal with
  | |- (fold_left ?fG _ _).2 = (fold_left ?fZ _ _).2 =>
      assert (Hgen : ∀ xs (bG : G) (bZ : Z) (root : option nat),
        (bG = f_dbl_min ∧ bZ = f_dbl_min) ∨ (bG = emb bZ ∧ lab bZ) →
        (fold_left fG xs (bG, root)).2 = (fold_left fZ xs (bZ, root)).2)
  end.
  { induction xs as [|x xs IH]; intros bG bZ root Hb; simpl; [done|].
    case_bool_decide; [|by apply IH].
    rewrite emb_lookup. pose proof (lab_lookup _ x Hx) as Hl.
    assert (Hcmp : f_ltb bG (emb (lx st !!! x)) = f_ltb bZ (lx st !!! x)).
    { destruct Hb as [[-> ->]|[-> Hb]].
      - rewrite emb_dbl_min_ltb by (ranges; lia). done.
      - rewrite emb_ltb by (ranges; lia). done. }
    rewrite Hcmp. change (f_ltb bZ (lx st !!! x)) with (bZ <? lx st !!! x)%Z.
    destruct (bZ <? lx st !!! x)%Z; apply IH; [|done]. by right. }
  apply Hgen. by left.
Qed.

Local Abbreviation embV value := ((λ row : list Z, emb <$> row) <$> value).

Lemma emb_tight value st (x y : nat) :
  safe_value value → safe st →
  f_eq ((embV value !!! x) !!! y)
       (f_add (lx (map_solver emb st) !!! x) (ly (map_solver emb st) !!! y))
  = f_eq ((value !!! x) !!! y) (f_add (lx st !!! x) (ly st !!! y)).
Proof.
  intros Hv (Hx & Hy & _). cbn [map_solver lx ly].
  rewrite !emb_lookup, emb_value.
  pose proof (lab_lookup _ x Hx). pose proof (lab_lookup _ y Hy).
  pose proof (lab_value value x y Hv).
  rewrite emb_add by (ranges; simpl; lia).
  apply emb_eq; ranges; simpl; lia.
Qed.

Lemma emb_bfs_row value (x : nat) ys st q :
  safe_value value → safe st →
  bfs_row (embV value) x ys (map_solver emb st) q
  = (map_solver emb (bfs_row value x ys st q).1.1,
     (bfs_row value x ys st q).1.2, (bfs_row value x ys st q).2)
  ∧ safe (bfs_row value x ys st q).1.1.
Proof.
  intros Hv. revert st q. induction ys as [|y ys IH]; intros st q Hsafe; [done|].
  cbn [bfs_row]. rewrite (emb_tight value st x y Hv Hsafe).
  change (in_T (map_solver emb st)) with (in_T st).
  change (yx (map_solver emb st)) with (yx st).
  destruct (f_eq _ _ && negb (in_T st !!! y)); [|by apply IH].
  case_bool_decide; [done|].
  rewrite emb_set_T.
  match goal with
  | |- context [add_to_tree value ?x' _ (set_T y st)] =>
      destruct (emb_add_to_tree value x' (Z.of_nat x) (set_T y st) Hv)
        as [-> Hsafe']; [by apply safe_set_T|]
  end.
  by apply IH.
Qed.

Lemma emb_grow_row value ys st q :
  safe_value value → safe st →
  grow_row (embV value) ys (map_solver emb st) q
  = (map_solver emb (grow_row value ys st q).1.1,
     (grow_row value ys st q).1.2, (grow_row value ys st q).2)
  ∧ safe (grow_row value ys st q).1.1.
Proof.
  intros Hv. revert st q. induction ys as [|y ys IH]; intros st q Hsafe; [done|].
  cbn [grow_row].
  change (in_T (map_solver emb st)) with (in_T st).
  change (yx (map_solver emb st)) with (yx st).
  change (slackx (map_solver emb st)) with (slackx st).
  change (slack (map_solver emb st)) with (emb <$> slack st).
  rewrite emb_lookup, <- emb_zero.
  pose proof Hsafe as (_ & _ & Hs). pose proof (slk_lookup _ y Hs) as Hsy.
  rewrite emb_eq by (ranges; simpl; lia).
  change (f_eq (slack st !!! y) 0%Z) with (f_eq (slack st !!! y) f_zero).
  destruct (negb (in_T st !!! y) && f_eq (slack st !!! y) f_zero); [|by apply IH].
  case_bool_decide; [done|].
  rewrite emb_set_T.
  change (in_S (map_solver emb (set_T y st))) with (in_S (set_T y st)).
  change (slackx (map_solver emb (set_T y st))) with (slackx (set_T y st)).
  destruct (negb (in_S (set_T y st) !!! _)).
  - match goal with
    | |- context [add_to_tree value ?x' ?px (set_T y st)] =>
        destruct (emb_add_to_tree value x' px (set_T y st) Hv)
          as [-> Hsafe']; [by apply safe_set_T|]
    end.
    by apply IH.
  - apply IH. by apply safe_set_T.
Qed.

(** The outcome of a run on whole numbers, sent through [g]. *)
Lemma emb_bfs value (NY : nat) fuel st q :
  safe_value value → safe st →
  bfs (embV value) NY fuel (map_solver emb st) q
  = (r ← bfs value NY fuel st q; Returned (map_solver emb r.1, r.2))
  ∧ ∀ st' found, bfs value NY fuel st q = Returned (st', found) → safe st'.
Proof.
  intros Hv. revert st q. induction fuel as [|fuel IH]; intros st q Hsafe.
  - destruct q; simpl; [|done]. split; [done|]. by intros ?? [= <- <-].
  - destruct q as [|x q]; [simpl; split; [done|]; by intros ?? [= <- <-]|].
    cbn [bfs].
    destruct (emb_bfs_row value x (seq 0 NY) st q Hv Hsafe) as [-> Hsafe'].
    destruct (bfs_row value x (seq 0 NY) st q) as [[st1 q1] [y|]]; cbn [fst snd] in *.
    + split; [done|]. by intros ?? [= <- <-].
    + by apply IH.
Qed.
End Embedding.

(** ** The solver on whole costs: doubles and exact arithmetic in step *)

(** *** The ranges of the labels, in exact arithmetic *)

Section Ranges.
Variable value : list (list xreal).
Variables NX NY : nat.
Variable B : Q.
Hypothesis value_range : ∀ x y, x < NX → y < NY → (1 <= val_q value x y <= B)%Q.
Hypothesis B_pos : (1 <= B)%Q.

(** While a column is unmatched, the labels of the rows lie in [[1, B]]
    and those of the columns in [[0, B]]. *)
Lemma labels_range (st : solver xreal) y0 :
  matching NX NY (xy st) (yx st) → labels_out value NX NY st → lx_below NX B st →
  y0 < NY → yx st !!! y0 = (-1)%Z →
  (∀ x, x < NX → (1 <= qv (lx st !!! x) <= B)%Q)
  ∧ (∀ y, y < NY → (0 <= qv (ly st !!! y) <= B)%Q).
Proof.
  intros Hm Hl Hb Hy0 Hfree.
  assert (Hrows : ∀ x, x < NX → (1 <= qv (lx st !!! x) <= B)%Q).
  { intros x Hx. split; [|by apply Hb].
    pose proof (lo_feas _ _ _ _ Hl x y0 Hx Hy0) as Hf. unfold gap in Hf.
    destruct (lo_ly _ _ _ _ Hl y0 Hy0) as [_ Hz]. rewrite (Hz Hfree) in Hf.
    destruct (value_range x y0 Hx Hy0). lra. }
  split; [done|]. intros y Hy.
  destruct (lo_ly _ _ _ _ Hl y Hy) as [Hpos Hz]. split; [done|].
  destruct Hm as (_ & _ & Hxy & Hyx).
  destruct (Hyx y Hy) as [Hn|[Hr Hback]].
  - rewrite (Hz Hn). lra.
  - assert (Hx' : Z.to_nat (yx st !!! y) < NX) by lia.
    pose proof (lo_matched _ _ _ _ Hl _ Hx') as Ht.
    rewrite Hback, Nat2Z.id in Ht. specialize (Ht ltac:(lia)). unfold gap in Ht.
    destruct (Hrows _ Hx'). destruct (value_range _ y Hx' Hy). unfold tol in Ht. lra.
Qed.

(** During a search the slacks lie in [[0, 2 B]]. *)
Lemma slack_range r d (st : solver xreal) :
  NX ≤ NY → tree_ok NX NY r d st → labels_ok value NX NY r st → lx_below NX B st →
  (∀ x, x < NX → (1 <= qv (lx st !!! x) <= B)%Q)
  ∧ (∀ y, y < NY → (0 <= qv (ly st !!! y) <= B)%Q)
  ∧ (∀ y, y < NY → (0 <= qv (slack st !!! y) <= B + B)%Q).
Proof.
  intros Hle Hok Hl Hb.
  destruct (t_root _ _ _ _ _ Hok) as (Hr & _ & _ & Hxyr).
  destruct (exposed_column NX NY _ _ r (t_matching _ _ _ _ _ Hok) Hle Hr Hxyr)
    as (y0 & Hy0 & Hfree).
  destruct (labels_range st y0 (t_matching _ _ _ _ _ Hok) (l_out _ _ _ _ _ Hl) Hb Hy0 Hfree)
    as [Hrows Hcols].
  split_and!; [done|done|]. intros y Hy.
  rewrite (l_slack _ _ _ _ _ Hl y Hy).
  destruct (t_slackx _ _ _ _ _ Hok y Hy) as [Hsx _].
  pose proof (lo_feas _ _ _ _ (l_out _ _ _ _ _ Hl) _ y Hsx Hy) as Hf.
  split; [done|]. unfold gap.
  destruct (Hrows _ Hsx). destruct (Hcols y Hy). destruct (value_range _ y Hsx Hy). lra.
Qed.
End Ranges.

Lemma qv_xreal_of_int (n : Z) : (qv (xreal_of_int n) == inject_Z n)%Q.
Proof. apply this_Q2Qc. Qed.

Lemma xreal_of_int_lookup (l : list Z) (i : nat) :
  i < length l → ∃ n, l !! i = Some n ∧ (xreal_of_int <$> l) !!! i = xreal_of_int n.
Proof.
  intros Hi. destruct (lookup_lt_is_Some_2 l i Hi) as [n Hn]. exists n. split; [done|].
  by rewrite list_lookup_total_alt, list_lookup_fmap, Hn.
Qed.

Lemma range_lookup (l : list Z) (lo hi : Z) :
  (∀ i, i < length l →
     (inject_Z lo <= qv ((xreal_of_int <$> l) !!! i) <= inject_Z hi)%Q) →
  Forall (λ n, (lo ≤ n ≤ hi)%Z) l.
Proof.
  intros Hr. apply list.Forall_lookup. intros i n Hi.
  pose proof (lookup_lt_Some _ _ _ Hi) as Hlt.
  destruct (xreal_of_int_lookup l i Hlt) as (n' & Hn' & Heq).
  assert (n' = n) as -> by congruence.
  specialize (Hr i Hlt). rewrite Heq, qv_xreal_of_int in Hr.
  by rewrite !Zle_Qle.
Qed.

Lemma dbl_max_above : (inject_Z (2 ^ 49) <= qv (@f_dbl_max xreal exact))%Q.
Proof. vm_compute. discriminate. Qed.

(** *** The three runs side by side *)

Section Lockstep.
Context {G : Type} {SG : Scalar G} (emb : Z → G) {EX : Exact emb}.
Variable value : list (list Z).
Variables NX NY : nat.
Variable B : Z.
Local Existing Instance whole_numbers.
Local Existing Instance scalar_inhabited | 0.
Hypothesis value_safe : safe_value value.
Hypothesis value_range : ∀ x y, x < NX → y < NY → (1 ≤ (value !!! x) !!! y ≤ B)%Z.
Hypothesis B_range : (1 ≤ B ≤ 2 ^ 49)%Z.
Hypothesis NX_le_NY : NX ≤ NY.

Local Abbreviation embV g := ((λ row : list Z, g <$> row) <$> value).
Local Abbreviation VX := ((λ row : list Z, xreal_of_int <$> row) <$> value).
Local Abbreviation mapX := (map_solver xreal_of_int).
Local Abbreviation BQ := (inject_Z B).

Lemma VX_fin x y : x < NX → y < NY → fin ((VX !!! x) !!! y).
Proof. intros _ _. rewrite (emb_value xreal_of_int (EX := xreal_of_int_exact)). apply fin_XFin. Qed.

Lemma VX_range x y : x < NX → y < NY → (1 <= val_q VX x y <= BQ)%Q.
Proof.
  intros Hx Hy. unfold val_q.
  rewrite (emb_value xreal_of_int (EX := xreal_of_int_exact)), qv_xreal_of_int.
  change 1%Q with (inject_Z 1). rewrite <- !Zle_Qle. by apply value_range.
Qed.

Lemma BQ_range : (1 <= BQ)%Q ∧ (BQ - 1 <= qv (@f_dbl_max xreal exact))%Q.
Proof.
  pose proof dbl_max_above as Hd.
  assert (H1 : (inject_Z 1 <= BQ)%Q) by (rewrite <- Zle_Qle; lia).
  assert (H2 : (BQ <= inject_Z (2 ^ 49))%Q) by (rewrite <- Zle_Qle; lia).
  change (inject_Z 1) with 1%Q in H1. split; [done|]. lra.
Qed.

Lemma lab_of_range (l : list Z) (N : nat) :
  length l = N →
  (∀ i, i < N → (0 <= qv ((xreal_of_int <$> l) !!! i) <= BQ)%Q) → Forall lab l.
Proof.
  intros Hlen Hr.
  eapply list.Forall_impl; [apply (range_lookup l 0 B)|].
  - intros i Hi. apply Hr. lia.
  - intros n Hn. simpl in Hn. ranges. lia.
Qed.

Lemma slk_of_range (l : list Z) (N : nat) :
  length l = N →
  (∀ i, i < N → (0 <= qv ((xreal_of_int <$> l) !!! i) <= BQ + BQ)%Q) → Forall slk l.
Proof.
  intros Hlen Hr.
  eapply list.Forall_impl; [apply (range_lookup l 0 (B + B))|].
  - intros i Hi. rewrite inject_Z_plus. apply Hr. lia.
  - intros n Hn. simpl in Hn. ranges. lia.
Qed.

(** Between two augmentations, while a row is unmatched. *)
Lemma lock_labels st n :
  matched_rows NX NY (mapX st) n → n < NX →
  labels_out VX NX NY (mapX st) → lx_below NX BQ (mapX st) →
  Forall lab (lx st) ∧ Forall lab (ly st).
Proof.
  intros HR Hn Hl Hb.
  destruct (unmatched_row NX NY _ n HR Hn) as (x0 & Hx0 & Hfree0).
  pose proof HR as ((Hlx & Hly & _) & Hm & _).
  destruct (exposed_column NX NY _ _ x0 Hm NX_le_NY Hx0 Hfree0) as (y0 & Hy0 & Hfy0).
  destruct (labels_range VX NX NY BQ VX_range (proj1 BQ_range) (mapX st) y0 Hm Hl Hb Hy0 Hfy0)
    as [Hrows Hcols].
  cbn [map_solver lx ly] in Hlx, Hly, Hrows, Hcols. rewrite length_fmap in Hlx, Hly.
  split.
  - apply (lab_of_range _ NX Hlx). intros i Hi. destruct (Hrows i Hi). split; [lra|done].
  - apply (lab_of_range _ NY Hly). intros i Hi. by apply Hcols.
Qed.

(** During a search. *)
Lemma lock_safe r d st :
  tree_ok NX NY r d (mapX st) → labels_ok VX NX NY r (mapX st) →
  lx_below NX BQ (mapX st) → safe st.
Proof.
  intros Hok Hl Hb.
  destruct (slack_range VX NX NY BQ VX_range (proj1 BQ_range) r d (mapX st) NX_le_NY Hok Hl Hb)
    as (Hrows & Hcols & Hslack).
  destruct (t_shaped _ _ _ _ _ Hok) as (Hlx & Hly & _ & _ & Hls & _).
  cbn [map_solver lx ly slack] in Hlx, Hly, Hls, Hrows, Hcols, Hslack.
  rewrite length_fmap in Hlx, Hly, Hls.
  split_and!.
  - apply (lab_of_range _ NX Hlx). intros i Hi. destruct (Hrows i Hi). split; [lra|done].
  - apply (lab_of_range _ NY Hly). intros i Hi. by apply Hcols.
  - apply (slk_of_range _ NY Hls). intros i Hi. by apply Hslack.
Qed.

Lemma lock_free r d st :
  tree_ok NX NY r d (mapX st) → ∃ y, y < NY ∧ in_T st !!! y = false.
Proof.
  intros Hok.
  destruct (t_root _ _ _ _ _ Hok) as (Hr & _ & _ & Hxyr).
  destruct (exposed_column NX NY _ _ r (t_matching _ _ _ _ _ Hok) NX_le_NY Hr Hxyr)
    as (y0 & Hy0 & Hfree).
  exists y0. split; [done|].
  destruct (in_T st !!! y0) eqn:HT; [|done].
  by destruct (t_T _ _ _ _ _ Hok y0 Hy0 HT).
Qed.

(** [while (true)]: the run on the scalars [G] and the run in exact
    arithmetic do what the run on whole numbers does. *)
Lemma lock_main_cycle r fuel st q :
  searching_exact VX NX NY r (mapX st) q → lx_below NX BQ (mapX st) →
  main_cycle (embV emb) NY fuel (map_solver emb st) q
  = (res ← main_cycle value NY fuel st q; Returned (map_solver emb res.1.1, res.1.2, res.2))
  ∧ main_cycle VX NY fuel (mapX st) q
    = (res ← main_cycle value NY fuel st q; Returned (mapX res.1.1, res.1.2, res.2))
  ∧ ∀ st' x y, main_cycle value NY fuel st q = Returned (st', x, y) →
      safe st' ∧ lx_below NX BQ (mapX st').
Proof.
  revert st q. induction fuel as [|fuel IH]; intros st q Hs Hb; [done|].
  rewrite !main_cycle_S.
  pose proof Hs as [[[d Hok] Hq] Hl].
  pose proof (lock_safe r d st Hok Hl Hb) as Hsafe.
  destruct (emb_bfs emb value NY (S fuel) st q value_safe Hsafe) as [HbG HsZ].
  destruct (emb_bfs xreal_of_int (EX := xreal_of_int_exact) value NY (S fuel) st q
              value_safe Hsafe) as [HbX _].
  rewrite HbG, HbX.
  destruct (bfs value NY (S fuel) st q) as [[st1 found1]| |] eqn:HbZ; [|done..].
  rewrite !bind_Returned in *. cbn [fst snd] in *.
  pose proof (lx_below_ext NX BQ _ _ (bfs_lx _ _ _ _ _ _ _ HbX) Hb) as Hb1.
  pose proof (HsZ st1 found1 eq_refl) as Hsafe1.
  destruct found1 as [[x1 y1]|].
  { split_and!; [done|done|]. by intros ??? [= <- <- <-]. }
  assert (Hs1 : searching_exact VX NX NY r (mapX st1) []).
  { apply (bfs_rule VX NY (searching_exact VX NX NY r) (λ _ _ _, True)
             _ _ _ _ None) in HbX; [done| |done|done].
    intros x0 q0 st0 st2 q2 Hs0 Hrow.
    apply (searching_exact_bfs_row VX NX NY VX_fin _ _ _ _ _ _ _ Hs0 Hrow). }
  destruct Hs1 as [[[d1 Hok1] Hq1] Hl1].
  pose proof (lock_free r d1 st1 Hok1) as Hfree1.
  pose proof (emb_update_labels emb NY st1 Hsafe1 Hfree1) as HuG.
  pose proof (emb_update_labels xreal_of_int (EX := xreal_of_int_exact) NY st1 Hsafe1 Hfree1)
    as HuX.
  rewrite HuG, HuX.
  assert (Hb2 : lx_below NX BQ (mapX (update_labels NY st1))).
  { rewrite <- HuX.
    by apply (update_labels_lx_below VX NX NY BQ NX_le_NY r d1). }
  assert (Hsafe2 : safe (update_labels NY st1)).
  { apply (lock_safe r d1); [| |done]; rewrite <- HuX.
    - by apply tree_ok_update_labels.
    - by apply (labels_ok_update VX NX NY r d1). }
  destruct (emb_grow_row emb value (seq 0 NY) (update_labels NY st1) [] value_safe Hsafe2)
    as [HgG HsZ2].
  destruct (emb_grow_row xreal_of_int (EX := xreal_of_int_exact) value (seq 0 NY)
              (update_labels NY st1) [] value_safe Hsafe2) as [HgX _].
  rewrite HgG, HgX.
  assert (Hs2 := searching_exact_grow_row VX NX NY VX_fin r (mapX st1) _ _ _
                   ltac:(split; [split; [by eexists|done]|done])
                   ltac:(rewrite HuX; exact HgX)).
  pose proof (lx_below_ext NX BQ _ _ (grow_row_lx _ _ _ _ _ _ _ HgX) Hb2) as Hb3.
  destruct (grow_row value (seq 0 NY) (update_labels NY st1) []) as [[st2 q2] found2].
  cbn [fst snd] in *.
  destruct found2 as [[x2 y2]|].
  { split_and!; [done|done|]. by intros ??? [= <- <- <-]. }
  by apply IH.
Qed.

(** [while (max_match < std::min(NX, NY))] *)
Lemma lock_match_loop fuel st n :
  matched_rows NX NY (mapX st) n → labels_out VX NX NY (mapX st) →
  lx_below NX BQ (mapX st) → Forall slk (slack st) →
  match_loop (embV emb) NX NY fuel (map_solver emb st) n
  = (res ← match_loop value NX NY fuel st n; Returned (map_solver emb res))
  ∧ match_loop VX NX NY fuel (mapX st) n
    = (res ← match_loop value NX NY fuel st n; Returned (mapX res)).
Proof.
  revert st n. induction fuel as [|fuel IH]; intros st n HR Hl Hb Hslk.
  { simpl. by case_bool_decide. }
  rewrite !match_loop_S. case_bool_decide as Hlt; [|done].
  replace (NX `min` NY) with NX in Hlt by lia.
  destruct (lock_labels st n HR Hlt Hl Hb) as [Hlabx Hlaby].
  assert (Hsafe : safe st) by done.
  pose proof (emb_find_root xreal_of_int (EX := xreal_of_int_exact) NX st Hsafe) as HrX.
  rewrite (emb_find_root emb NX st Hsafe), HrX.
  destruct (find_root NX st) as [root|] eqn:Hroot; [|done].
  destruct (find_root_spec _ _ _ HrX) as [Hr Hxyr].
  pose proof HR as (Hsh & Hm & _).
  destruct (tree_ok_start VX NX NY (mapX st) root (λ _, 0) Hsh Hm Hr Hxyr) as [Hok Hq].
  destruct (emb_start_tree emb value NX NY root st value_safe Hsafe) as [HsG Hsafe0].
  destruct (emb_start_tree xreal_of_int (EX := xreal_of_int_exact) value NX NY root st
              value_safe Hsafe) as [HsX _].
  assert (Hs : searching_exact VX NX NY root (mapX (start_tree value NX NY root st)) [root]).
  { rewrite <- HsX. split; [split; [by eexists|done]|].
    by apply (labels_ok_start VX NX NY VX_fin). }
  rewrite HsG, HsX.
  destruct (lock_main_cycle root (S fuel) (start_tree value NX NY root st) [root] Hs)
    as (HmG & HmX & Hret).
  { rewrite <- HsX. by apply (lx_below_ext NX BQ (mapX st)). }
  rewrite HmG.
  pose proof HmX as HmX'. rewrite <- HsX in HmX'. rewrite HmX.
  destruct (main_cycle value NY (S fuel) (start_tree value NX NY root st) [root])
    as [[[st1 x] y]| |]; [|done..].
  rewrite !bind_Returned in *. cbn [fst snd] in *.
  destruct (Hret st1 x y eq_refl) as [Hsafe1 Hb1].
  change (prev (map_solver emb st1)) with (prev st1).
  change (xy (map_solver emb st1)) with (xy st1).
  change (yx (map_solver emb st1)) with (yx st1).
  change (prev (mapX st1)) with (prev st1).
  change (xy (mapX st1)) with (xy st1).
  change (yx (mapX st1)) with (yx st1).
  destruct (augment (S fuel) (prev st1) (xy st1) (yx st1) (Z.of_nat x) (Z.of_nat y))
    as [[xy' yx']| |] eqn:Haug; [|done..].
  rewrite !bind_Returned.
  apply (IH (mkSolver (lx st1) (ly st1) xy' yx' (in_S st1) (in_T st1)
               (slack st1) (slackx st1) (prev st1))).
  - by destruct (match_step_matched_rows VX NX NY _ _ _ _ _ _ _ _ _ HR HrX HmX' Haug).
  - by apply (match_step_labels VX NX NY VX_fin _ _ _ _ _ _ _ _ _ HR Hl HrX HmX' Haug).
  - done.
  - by destruct Hsafe1 as (_ & _ & ?).
Qed.

(** The whole solver. *)
Lemma lock_hungarian fuel :
  hungarian (embV emb) NX NY fuel
  = (res ← hungarian value NX NY fuel; Returned (map_solver emb res))
  ∧ hungarian VX NX NY fuel
    = (res ← hungarian value NX NY fuel; Returned (mapX res)).
Proof.
  unfold hungarian.
  destruct (emb_init_solver emb value NX NY value_safe) as [-> Hsafe].
  destruct (emb_init_solver xreal_of_int (EX := xreal_of_int_exact) value NX NY value_safe)
    as [HiX _].
  rewrite HiX. apply lock_match_loop.
  - rewrite <- HiX. apply init_solver_matched_rows.
  - rewrite <- HiX. apply init_solver_labels, VX_fin.
  - rewrite <- HiX. apply init_solver_lx_below; [apply VX_range|apply BQ_range|done].
  - by destruct Hsafe as (_ & _ & ?).
Qed.
End Lockstep.

(** *** The closing loop on mapped vectors *)

Section ErasingMapped.
Context {A B : Type} `{Inhabited A} `{Inhabited B}.
Variable g : A → B.

Lemma lookup_total_fmap_lt (v : list A) (i : nat) :
  i < length v → (g <$> v) !!! i = g (v !!! i).
Proof.
  intros Hi. destruct (lookup_lt_is_Some_2 v i Hi) as [a Ha].
  rewrite !list_lookup_total_alt, list_lookup_fmap, Ha. done.
Qed.

Lemma swap_remove_fmap (v : list A) (i : nat) :
  i < length v → swap_remove (g <$> v) i = g <$> swap_remove v i.
Proof.
  intros Hi. unfold swap_remove, pop_back, swap.
  rewrite !length_insert, !length_fmap.
  rewrite !lookup_total_fmap_lt by lia.
  by rewrite fmap_take, !list_fmap_insert.
Qed.

Lemma erase_loop_fmap (keepA : A → bool) (keepB : B → bool) fuel (v : list A) (i : nat) :
  (∀ a, keepB (g a) = keepA a) →
  erase_loop fuel keepB (g <$> v) i = g <$> erase_loop fuel keepA v i.
Proof.
  intros Hkeep. revert v i. induction fuel as [|fuel IH]; intros v i; [done|].
  cbn [erase_loop]. rewrite length_fmap. case_bool_decide as Hi; [|done].
  rewrite lookup_total_fmap_lt, Hkeep by done.
  destruct (keepA (v !!! i)); [apply IH|].
  rewrite swap_remove_fmap by done. apply IH.
Qed.

Lemma erase_unless_fmap (keepA : A → bool) (keepB : B → bool) (v : list A) :
  (∀ a, keepB (g a) = keepA a) →
  erase_unless keepB (g <$> v) = g <$> erase_unless keepA v.
Proof. intros Hkeep. unfold erase_unless. rewrite length_fmap. by apply erase_loop_fmap. Qed.
End ErasingMapped.

(** *** [Optimize] on whole costs *)

Lemma pow_2_48 : (2 ^ 48 = 281474976710656)%Z.
Proof. reflexivity. Qed.

Section WholeCosts.
Context {G : Type} {SG : Scalar G} (emb : Z → G) {EX : Exact emb}.
Local Existing Instance whole_numbers.
Local Existing Instance scalar_inhabited | 0.
Implicit Types (v : list (Assignment Z)).

Lemma max_id_map_cost (id : ∀ F, Assignment F → nat) v :
  (∀ a : Assignment Z, id G (map_cost emb a) = id Z a) →
  max_id (id G) (map_cost emb <$> v) = max_id (id Z) v.
Proof.
  intros Hid. unfold max_id. generalize 0.
  induction v as [|a v IH]; intros m; [done|]. simpl. rewrite Hid. apply IH.
Qed.

Lemma whole_max_cost v :
  whole_costs v →
  max_cost (map_cost emb <$> v) = emb (max_cost v)
  ∧ (0 ≤ max_cost v ≤ 2 ^ 48)%Z
  ∧ ∀ a, a ∈ v → (cost a ≤ max_cost v)%Z.
Proof.
  unfold max_cost. rewrite <- emb_zero.
  assert (Hgen : ∀ v (m : Z), (0 ≤ m ≤ 2 ^ 48)%Z → whole_costs v →
    fold_left (λ (m : G) a, f_max m (cost a)) (map_cost emb <$> v) (emb m)
    = emb (fold_left (λ (m : Z) a, f_max m (cost a)) v m)
    ∧ (m ≤ fold_left (λ (m : Z) a, f_max m (cost a)) v m ≤ 2 ^ 48)%Z
    ∧ ∀ a, a ∈ v → (cost a ≤ fold_left (λ (m : Z) a, f_max m (cost a)) v m)%Z).
  { clear v. induction v as [|b v IH]; intros m Hm Hv; cbn [fold_left fmap list_fmap].
    - split; [done|]. split; [lia|]. by intros ? ?%elem_of_nil.
    - apply list.Forall_cons in Hv as [Hb Hv]. cbn beta in Hb. cbn [map_cost cost].
      rewrite pow_2_48 in *.
      rewrite (emb_max emb) by (ranges; lia).
      assert (Hm' : (0 ≤ f_max m (cost b) ≤ 2 ^ 48)%Z).
      { rewrite pow_2_48. unfold f_max. simpl. destruct (m <? cost b)%Z; lia. }
      destruct (IH _ Hm' Hv) as (Heq & Hle & Hall).
      assert (Hmax : (m ≤ f_max m (cost b) ∧ cost b ≤ f_max m (cost b))%Z).
      { unfold f_max. simpl. destruct (Z.ltb_spec m (cost b)); lia. }
      rewrite pow_2_48 in *.
      destruct Hle as [Hle1 Hle2], Hmax as [Hmax1 Hmax2].
      split; [done|]. split; [split; [by etrans|done]|].
      intros a [->|Ha]%elem_of_cons; [by etrans|by apply Hall]. }
  intros Hv. destruct (Hgen v 0%Z) as (Heq & Hle & Hall); [rewrite pow_2_48; lia|done|].
  split; [done|]. split; [exact Hle|done].
Qed.

Local Abbreviation embV M := ((λ row : list Z, emb <$> row) <$> M).

Lemma embV_lookup (M : list (list Z)) (x : nat) : embV M !!! x = emb <$> (M !!! x).
Proof. rewrite !list_lookup_total_alt, list_lookup_fmap. by destruct (M !! x). Qed.

Lemma emb_write_value bc (C : Z) (M : list (list Z)) (a : Assignment Z) :
  (0 ≤ cost a ≤ C)%Z → (C ≤ 2 ^ 48)%Z →
  write_value bc (emb C) (embV M) (map_cost emb a) = embV (write_value bc C M a).
Proof.
  intros Ha HC. rewrite pow_2_48 in HC. unfold write_value.
  change (row_of bc (map_cost emb a)) with (row_of bc a).
  change (col_of bc (map_cost emb a)) with (col_of bc a).
  cbn [map_cost cost].
  rewrite embV_lookup, <- emb_one.
  rewrite (emb_sub (emb := emb)), (emb_add (emb := emb)) by (ranges; lia).
  by rewrite !list_fmap_insert.
Qed.

Lemma emb_fold_write_value bc (C : Z) v (M : list (list Z)) :
  Forall (λ a, (0 ≤ cost a ≤ C)%Z) v → (C ≤ 2 ^ 48)%Z →
  fold_left (write_value bc (emb C)) (map_cost emb <$> v) (embV M)
  = embV (fold_left (write_value bc C) v M).
Proof.
  intros Hv HC. revert M. induction Hv as [|a v Ha Hv IH]; intros M; [done|].
  cbn [fmap list_fmap fold_left]. rewrite emb_write_value by done. apply IH.
Qed.

Lemma emb_value_matrix bc NX NY v :
  whole_costs v →
  value_matrix bc NX NY (map_cost emb <$> v) = embV (value_matrix bc NX NY v).
Proof.
  intros Hv. destruct (whole_max_cost v Hv) as (HC & [_ Hle] & Hall).
  rewrite !value_matrix_fold, HC.
  rewrite <- (emb_fold_write_value bc (max_cost v) v); [|by apply list.Forall_forall; intros a Ha;
    split; [apply (proj1 (list.Forall_forall _ _) Hv a Ha)|apply Hall]|done].
  by rewrite !fmap_replicate, emb_one.
Qed.

(** Every value is a whole number between the baseline and [max_cost + 1]. *)
Lemma value_matrix_whole bc NX NY v :
  whole_costs v →
  Forall (Forall (λ n, (1 ≤ n ≤ max_cost v + 1)%Z)) (value_matrix bc NX NY v).
Proof.
  intros Hv. destruct (whole_max_cost v Hv) as (_ & [HC0 _] & Hall).
  rewrite value_matrix_fold.
  assert (Hgen : ∀ w (M : list (list Z)),
    Forall (λ a, (0 ≤ cost a ≤ max_cost v)%Z) w →
    Forall (Forall (λ n, (1 ≤ n ≤ max_cost v + 1)%Z)) M →
    Forall (Forall (λ n, (1 ≤ n ≤ max_cost v + 1)%Z))
      (fold_left (write_value bc (max_cost v)) w M)).
  { induction w as [|a w IH]; intros M Hw HM; [done|].
    apply list.Forall_cons in Hw as [Ha Hw]. cbn [fold_left]. apply IH; [done|].
    unfold write_value. apply Forall_insert; [done|].
    apply Forall_insert.
    - rewrite list_lookup_total_alt.
      destruct (M !! row_of bc a) as [row|] eqn:Hrow; simpl; [|done].
      by apply (proj1 (list.Forall_lookup _ _) HM _ _ Hrow).
    - change (1 ≤ max_cost v - cost a + 1 ≤ max_cost v + 1)%Z.
      generalize dependent (max_cost v). intros. lia. }
  apply Hgen.
  - apply list.Forall_forall. intros a Ha. split; [|by apply Hall].
    apply (proj1 (list.Forall_forall _ _) Hv a Ha).
  - apply Forall_replicate, Forall_replicate. change (1 ≤ 1 ≤ max_cost v + 1)%Z.
    generalize dependent (max_cost v). intros. lia.
Qed.

Lemma value_matrix_rectangular {F : Type} `{Scalar F} bc NX NY (w : list (Assignment F)) :
  rectangular NX NY (value_matrix bc NX NY w).
Proof.
  rewrite value_matrix_fold. generalize (max_cost w). intros C.
  assert (Hgen : ∀ (u : list (Assignment F)) M,
    rectangular NX NY M → rectangular NX NY (fold_left (write_value bc C) u M)).
  { induction u as [|a u IH]; intros M HM; [done|].
    cbn [fold_left]. by apply IH, write_value_rectangular. }
  apply Hgen, replicate_rectangular.
Qed.

Lemma value_matrix_cell bc NX NY v x y :
  whole_costs v → x < NX → y < NY →
  (1 ≤ (value_matrix bc NX NY v !!! x) !!! y ≤ max_cost v + 1)%Z.
Proof.
  intros Hv Hx Hy.
  destruct (value_matrix_rectangular bc NX NY v) as [Hlen Hrow].
  pose proof (value_matrix_whole bc NX NY v Hv) as Hall.
  specialize (Hrow x Hx).
  destruct (lookup_lt_is_Some_2 (value_matrix bc NX NY v) x ltac:(lia)) as [row Hr].
  rewrite (list_lookup_total_correct _ _ _ Hr) in Hrow |- *.
  destruct (lookup_lt_is_Some_2 row y ltac:(lia)) as [n Hn].
  rewrite (list_lookup_total_correct _ _ _ Hn).
  pose proof (proj1 (list.Forall_lookup _ _) Hall _ _ Hr) as Hrall.
  by apply (proj1 (list.Forall_lookup _ _) Hrall _ _ Hn).
Qed.

Lemma value_matrix_safe bc NX NY v : whole_costs v → safe_value (value_matrix bc NX NY v).
Proof.
  intros Hv. destruct (whole_max_cost v Hv) as (_ & HC & _).
  eapply list.Forall_impl; [by apply value_matrix_whole|].
  intros row Hrow. eapply list.Forall_impl; [exact Hrow|]. intros n Hn. simpl in Hn.
  revert HC Hn. generalize (max_cost v). intros C HC Hn. rewrite pow_2_48 in HC.
  ranges. lia.
Qed.

(** The solver on the values of whole costs. *)
Lemma lock_solution fuel v bc NX NY :
  whole_costs v →
  bc = bool_decide (max_id character v < max_id task v) →
  NX = (if bc then max_id character v + 1 else max_id task v + 1) →
  NY = (if bc then max_id task v + 1 else max_id character v + 1) →
  hungarian (value_matrix bc NX NY (map_cost emb <$> v)) NX NY fuel
  = (hungarian (value_matrix bc NX NY v) NX NY fuel
     ≫= λ st : solver Z, Returned (map_solver emb st)).
Proof.
  intros Hv Hbc HNX HNY.
  destruct (orientation v bc NX NY Hbc HNX HNY) as (Hle & _ & Hrange).
  destruct (whole_max_cost v Hv) as (_ & HC & _).
  rewrite emb_value_matrix by done.
  apply (lock_hungarian emb (value_matrix bc NX NY v) NX NY (max_cost v + 1)%Z).
  - by apply value_matrix_safe.
  - intros x y Hx Hy. by apply value_matrix_cell.
  - revert HC. generalize (max_cost v). intros C HC. rewrite pow_2_48 in HC.
    rewrite pow_2_49. lia.
  - done.
Qed.

(** [Optimize] on scalars that compute on whole numbers as the whole
    numbers do: it ends as the run on whole numbers ends, and keeps the
    same pairings. *)
Lemma lock_Optimize fuel v :
  whole_costs v →
  @Optimize G SG fuel (map_cost emb <$> v)
  = (@Optimize Z whole_numbers fuel v
     ≫= λ out : list (Assignment Z), Returned (map_cost emb <$> out)).
Proof.
  intros Hv. unfold Optimize.
  rewrite (max_id_map_cost (@character) v), (max_id_map_cost (@task) v) by done.
  set (bc := bool_decide (max_id character v < max_id task v)).
  set (NX := if bc then max_id character v + 1 else max_id task v + 1).
  set (NY := if bc then max_id task v + 1 else max_id character v + 1).
  destruct (orientation v bc NX NY eq_refl eq_refl eq_refl) as (Hle & _ & Hrange).
  destruct (whole_max_cost v Hv) as (_ & HC & _).
  rewrite emb_value_matrix by done.
  destruct (lock_hungarian emb (value_matrix bc NX NY v) NX NY (max_cost v + 1)%Z) with (fuel := fuel)
    as [-> _].
  - by apply value_matrix_safe.
  - intros x y Hx Hy. by apply value_matrix_cell.
  - revert HC. generalize (max_cost v). intros C HC. rewrite pow_2_48 in HC.
    rewrite pow_2_49. lia.
  - done.
  - destruct (hungarian (value_matrix bc NX NY v) NX NY fuel) as [st| |]; [|done..].
    rewrite !bind_Returned. f_equal.
    destruct bc; by apply erase_unless_fmap.
Qed.
End WholeCosts.

(** ** [Optimize] on doubles that hold whole costs *)

(** *** Exact optimality, when the matched pairs are tight *)

Section Tight.
Variable value : list (list xreal).
Variables NX NY : nat.
Variable st : solver xreal.
Hypothesis rows : matched_rows NX NY st NX.
Hypothesis labels : labels_out value NX NY st.
Hypothesis tight : ∀ x, x < NX → (gap value st x (partner st x) <= 0)%Q.

Lemma labels_optimal_tight (es : list (nat * nat)) :
  fst <$> es ≡ₚ seq 0 NX → NoDup (snd <$> es) → (∀ e, e ∈ es → e.2 < NY) →
  (Qsum (λ e, val_q value e.1 e.2) es
   <= Qsum (λ x, val_q value x (partner st x)) (seq 0 NX))%Q.
Proof.
  intros Hrows Hnd Hcols.
  assert (Hfst : ∀ e, e ∈ es → e.1 < NX).
  { intros e He. assert (e.1 ∈ seq 0 NX) as ?%elem_of_seq; [|lia].
    rewrite <- Hrows. apply list_elem_of_fmap. by exists e. }
  assert (H1 : (Qsum (λ e, val_q value e.1 e.2) es
                <= Qsum (λ e, qv (lx st !!! e.1) + qv (ly st !!! e.2)) es)%Q).
  { apply Qsum_le. intros e He.
    pose proof (lo_feas _ _ _ _ labels e.1 e.2 (Hfst e He) (Hcols e He)) as Hf.
    unfold gap in Hf. lra. }
  rewrite Qsum_plus in H1.
  assert (H2 : (Qsum (λ e, qv (lx st !!! e.1)) es
                == Qsum (λ x, qv (lx st !!! x)) (seq 0 NX))%Q).
  { rewrite <- (Qsum_fmap fst (λ x, qv (lx st !!! x))). by apply Qsum_perm. }
  assert (H3 : (Qsum (λ e, qv (ly st !!! e.2)) es
                <= Qsum (λ y, qv (ly st !!! y)) (seq 0 NY))%Q).
  { rewrite <- (Qsum_fmap snd (λ y, qv (ly st !!! y))). apply Qsum_submseteq.
    - apply NoDup_submseteq; [done|].
      intros y (e & -> & He)%list_elem_of_fmap. apply elem_of_seq.
      specialize (Hcols e He). lia.
    - intros y Hy%elem_of_seq. apply (lo_ly _ _ _ _ labels). lia. }
  rewrite (column_labels_matched value NX NY st rows labels) in H3.
  assert (H4 : (Qsum (λ x, qv (lx st !!! x) + qv (ly st !!! partner st x)) (seq 0 NX)
                <= Qsum (λ x, val_q value x (partner st x)) (seq 0 NX))%Q).
  { apply Qsum_le. intros x Hx%elem_of_seq.
    pose proof (tight x ltac:(lia)) as Hm. unfold gap in Hm. lra. }
  rewrite !Qsum_plus in H4. lra.
Qed.
End Tight.

(** *** The run on whole numbers *)

Section WholeRun.
Local Existing Instance whole_numbers.
Local Existing Instance scalar_inhabited | 0.
Implicit Types (v out M : list (Assignment Z)).

Local Abbreviation exacts v := (map_cost xreal_of_int <$> v).

Lemma f_max_whole (m c : Z) : f_max m c = Z.max m c.
Proof. unfold f_max. simpl. destruct (Z.ltb_spec m c); lia. Qed.

Lemma max_cost_whole v : max_cost v = max_cost_z v.
Proof.
  unfold max_cost, max_cost_z. change (@f_zero Z whole_numbers) with 0%Z. generalize 0%Z.
  induction v as [|a v IH]; intros m; [done|]. cbn [fold_left]. by rewrite f_max_whole, IH.
Qed.

Lemma whole_costs_bounded v : whole_costs v → bounded_costs (exacts v).
Proof.
  intros Hv. apply list.Forall_fmap. eapply list.Forall_impl; [exact Hv|].
  intros a Ha. cbn beta in Ha |- *. cbn [map_cost cost]. split; [apply fin_XFin|].
  pose proof (qv_xreal_of_int (cost a)) as Hq. pose proof dbl_max_above as Hd.
  assert (H0 : (inject_Z 0 <= inject_Z (cost a))%Q) by (rewrite <- Zle_Qle; lia).
  assert (H1 : (inject_Z (cost a) <= inject_Z (2 ^ 49))%Q).
  { rewrite <- Zle_Qle. rewrite pow_2_48 in Ha. rewrite pow_2_49. lia. }
  change (inject_Z 0) with 0%Q in H0. split; [by rewrite Hq|]. rewrite Hq.
  by apply (Qle_trans _ (inject_Z (2 ^ 49))).
Qed.

(** The run on whole numbers returns, and the runs on doubles and in exact
    arithmetic return the same pairings. *)
Lemma Optimize_whole v fuel :
  whole_costs v → 3 * (max_id character v `max` max_id task v) + 5 ≤ fuel →
  ∃ out, @Optimize Z whole_numbers fuel v = Returned out
    ∧ @Optimize float binary64 fuel (doubles v) = Returned (doubles out)
    ∧ @Optimize xreal exact fuel (exacts v) = Returned (exacts out).
Proof.
  intros Hv Hfuel.
  destruct (Optimize_returns (exacts v) fuel (whole_costs_bounded v Hv)) as [outX HX].
  { by rewrite (max_id_map_cost xreal_of_int (@character) v),
               (max_id_map_cost xreal_of_int (@task) v). }
  pose proof (lock_Optimize xreal_of_int (EX := xreal_of_int_exact) fuel v Hv) as HlX.
  pose proof (lock_Optimize of_int (EX := of_int_exact) fuel v Hv) as HlF.
  destruct (@Optimize Z whole_numbers fuel v) as [out| |]; [|by rewrite HlX in HX..].
  exists out. by split_and!.
Qed.

Lemma exacts_fields (f : ∀ F : Type, Assignment F → nat) M :
  (∀ a : Assignment Z, f xreal (map_cost xreal_of_int a) = f Z a) →
  f xreal <$> exacts M = f Z <$> M.
Proof.
  intros Hf. rewrite <- list_fmap_compose. apply list_fmap_ext. intros i a _. apply Hf.
Qed.

Lemma max_cost_exacts v :
  whole_costs v → (qv (max_cost (exacts v)) == inject_Z (max_cost_z v))%Q.
Proof.
  intros Hv. destruct (whole_max_cost xreal_of_int (EX := xreal_of_int_exact) v Hv) as (-> & _).
  by rewrite qv_xreal_of_int, max_cost_whole.
Qed.

Lemma Qsum_saving_exacts v M :
  whole_costs v →
  (Qsum (saving (exacts v)) (exacts M) == inject_Z (Zsum (saving_z v) M))%Q.
Proof.
  intros Hv. induction M as [|a M IH]; [done|].
  cbn [fmap list_fmap Qsum Zsum foldr]. fold (Qsum (saving (exacts v)) (exacts M)).
  fold (Zsum (saving_z v) M).
  rewrite IH, (inject_Z_plus (saving_z v a)). unfold saving at 1.
  change (saving_z v a) with (max_cost_z v + - cost a)%Z.
  cbn [map_cost cost].
  rewrite max_cost_exacts, qv_xreal_of_int by done.
  rewrite inject_Z_plus, inject_Z_opp. lra.
Qed.

Lemma whole_below_tol (z : Z) : (inject_Z z < tol)%Q → (inject_Z z <= 0)%Q.
Proof.
  intros Hlt. change 0%Q with (inject_Z 0). rewrite <- Zle_Qle.
  unfold Qlt, tol in Hlt. simpl in Hlt. lia.
Qed.

(** The gap of a pair of whole labels is a whole number. *)
Lemma gap_whole (value : list (list Z)) (st : solver Z) (x y : nat) :
  (gap ((λ row : list Z, xreal_of_int <$> row) <$> value) (map_solver xreal_of_int st) x y
   == inject_Z (lx st !!! x + ly st !!! y - (value !!! x) !!! y))%Q.
Proof.
  unfold gap, val_q. cbn [map_solver lx ly].
  rewrite !(emb_lookup xreal_of_int (EX := xreal_of_int_exact)).
  rewrite (emb_value xreal_of_int (EX := xreal_of_int_exact)).
  rewrite !qv_xreal_of_int.
  unfold Z.sub. rewrite !inject_Z_plus, inject_Z_opp. lra.
Qed.

(** On whole costs the pairings kept save as much as any matching made
    of proposed pairings. *)
Lemma Optimize_whole_saving v fuel :
  whole_costs v → NoDup (pair_of <$> v) →
  3 * (max_id character v `max` max_id task v) + 5 ≤ fuel →
  ∃ out, @Optimize Z whole_numbers fuel v = Returned out
    ∧ ∀ M, M ⊆+ v → NoDup (character <$> M) → NoDup (task <$> M) →
        (Zsum (saving_z v) M ≤ Zsum (saving_z v) out)%Z.
Proof.
  intros Hv Hnd Hfuel.
  destruct (Optimize_whole v fuel Hv Hfuel) as (out & HZ & _ & HX).
  exists out. split; [done|]. intros M Hsub Hnc Hnt.
  pose proof (whole_costs_bounded v Hv) as HvX.
  destruct (Optimize_returned _ _ _ HX)
    as (bc & stX & NX & NY & Hbc & HNX & HNY & Hh & _ & Hout).
  destruct (orientation (exacts v) bc NX NY Hbc HNX HNY) as (Hle & Hside & Hrange).
  destruct (hungarian_exact _ NX NY
              (λ x y Hx Hy, proj1 (value_matrix_range (exacts v) bc NX NY x y HvX Hrange Hx Hy))
              fuel stX Hh) as [Hrows Hlabels].
  replace (NX `min` NY) with NX in Hrows by lia.
  assert (HndX : NoDup (pair_of <$> exacts v)).
  { rewrite <- list_fmap_compose. done. }
  rewrite (max_id_map_cost xreal_of_int (@character) v),
          (max_id_map_cost xreal_of_int (@task) v) in Hbc, HNX, HNY by done.
  rewrite (lock_solution xreal_of_int (EX := xreal_of_int_exact) fuel v bc NX NY Hv Hbc HNX HNY)
    in Hh.
  destruct (hungarian (value_matrix bc NX NY v) NX NY fuel) as [stZ| |] eqn:HhZ; [|done..].
  rewrite bind_Returned in Hh. injection Hh as <-.
  assert (Htight : ∀ x, x < NX →
            (gap (value_matrix bc NX NY (exacts v)) (map_solver xreal_of_int stZ) x
                 (partner (map_solver xreal_of_int stZ) x) <= 0)%Q).
  { intros x Hx.
    pose proof (lo_matched _ _ _ _ Hlabels x Hx (matched_rows_all _ _ _ Hrows x Hx)) as Hm.
    fold (partner (map_solver xreal_of_int stZ) x) in Hm.
    rewrite (emb_value_matrix xreal_of_int (EX := xreal_of_int_exact)) in Hm |- * by done.
    rewrite gap_whole in Hm |- *. by apply whole_below_tol. }
  assert (HbcX : bc = bool_decide (max_id character (exacts v) < max_id task (exacts v))).
  { by rewrite (max_id_map_cost xreal_of_int (@character) v),
               (max_id_map_cost xreal_of_int (@task) v). }
  assert (HNXX : NX = (if bc then max_id character (exacts v) + 1
                       else max_id task (exacts v) + 1)).
  { by rewrite (max_id_map_cost xreal_of_int (@character) v),
               (max_id_map_cost xreal_of_int (@task) v). }
  assert (HNYX : NY = (if bc then max_id task (exacts v) + 1
                       else max_id character (exacts v) + 1)).
  { by rewrite (max_id_map_cost xreal_of_int (@character) v),
               (max_id_map_cost xreal_of_int (@task) v). }
  destruct (matching_value (exacts v) bc NX NY HvX HndX HbcX HNXX HNYX (exacts M))
    as (es & Hes1 & Hes2 & Hes3 & HM).
  { by apply fmap_submseteq. }
  { by rewrite (exacts_fields (@character)). }
  { by rewrite (exacts_fields (@task)). }
  pose proof (labels_optimal_tight _ NX NY _ Hrows Hlabels Htight es Hes1 Hes2 Hes3) as Hopt.
  pose proof (solution_value (exacts v) bc NX NY _ HvX HndX HbcX HNXX HNYX Hrows) as Hsol.
  rewrite <- (Qsum_perm _ _ _ Hout) in Hsol.
  rewrite !Qsum_saving_exacts in * by done.
  rewrite Zle_Qle. lra.
Qed.
End WholeRun.

(** *** What [Optimize] returns on doubles that hold whole costs *)

(** Without repeated pairs the pairings kept are a matching. *)
Lemma Optimize_matching {F : Type} `{Scalar F} (v out : list (Assignment F)) (fuel : nat) :
  NoDup (pair_of <$> v) → Optimize fuel v = Returned out →
  out ⊆+ v ∧ NoDup (character <$> out) ∧ NoDup (task <$> out).
Proof.
  intros Hnd Hrun.
  destruct (Optimize_returned _ _ _ Hrun) as (bc & st & NX & NY & _ & _ & _ & _ & _ & Hout).
  assert (Hsub : out ⊆+ v) by (rewrite Hout; apply sublist_submseteq, sublist_filter).
  assert (Hpairs : NoDup (pair_of <$> out)).
  { rewrite Hout. eapply sublist_NoDup; [done|]. apply fmap_sublist, sublist_filter. }
  assert (Hone : ∀ a b, a ∈ out → b ∈ out →
            character a = character b ∨ task a = task b → a = b).
  { intros a b Ha Hb Hsame.
    apply (NoDup_fmap_eq _ _ _ _ Hpairs Ha Hb).
    by apply (Optimize_injective fuel v out). }
  split_and!; [done| |].
  - apply NoDup_fmap_2_strong; [|by eapply NoDup_fmap_1].
    intros a b Ha Hb Heq. apply Hone; [done|done|by left].
  - apply NoDup_fmap_2_strong; [|by eapply NoDup_fmap_1].
    intros a b Ha Hb Heq. apply Hone; [done|done|by right].
Qed.

Lemma Zsum_saving (v M : list (Assignment Z)) :
  Zsum (saving_z v) M = (Z.of_nat (length M) * max_cost_z v - Zsum cost M)%Z.
Proof.
  induction M as [|a M IH]; [done|].
  cbn [Zsum foldr length]. fold (Zsum (saving_z v) M). fold (Zsum cost M).
  rewrite IH. unfold saving_z. lia.
Qed.

Lemma max_cost_z_bounds (v : list (Assignment Z)) :
  (0 ≤ max_cost_z v)%Z ∧ ∀ a, a ∈ v → (cost a ≤ max_cost_z v)%Z.
Proof.
  unfold max_cost_z.
  assert (Hgen : ∀ (w : list (Assignment Z)) (m : Z),
    (m ≤ fold_left (λ m a, Z.max m (cost a)) w m)%Z
    ∧ ∀ a, a ∈ w → (cost a ≤ fold_left (λ m a, Z.max m (cost a)) w m)%Z).
  { induction w as [|b w IH]; intros m; cbn [fold_left].
    - split; [lia|]. by intros ? ?%elem_of_nil.
    - destruct (IH (Z.max m (cost b))) as [Hle Hall]. split; [lia|].
      intros a [->|Ha]%elem_of_cons; [lia|by apply Hall]. }
  apply Hgen.
Qed.

Lemma doubles_pairs (v : list (Assignment Z)) : pair_of <$> doubles v = pair_of <$> v.
Proof. unfold doubles. by rewrite <- list_fmap_compose. Qed.

Lemma doubles_max_id (v : list (Assignment Z)) :
  max_id character (doubles v) = max_id character v
  ∧ max_id task (doubles v) = max_id task v.
Proof.
  split.
  - by apply (max_id_map_cost of_int (@character)).
  - by apply (max_id_map_cost of_int (@task)).
Qed.

(** On doubles that hold whole costs, without repeated pairs. *)
Lemma Optimize_doubles (v : list (Assignment Z)) (fuel : nat) :
  whole_costs v → NoDup (pair_of <$> v) →
  3 * (max_id character v `max` max_id task v) + 5 ≤ fuel →
  ∃ out,
    Optimize fuel (doubles v) = Returned (doubles out)
    ∧ out ⊆+ v ∧ NoDup (character <$> out) ∧ NoDup (task <$> out)
    ∧ ∀ M, M ⊆+ v → NoDup (character <$> M) → NoDup (task <$> M) →
        (Zsum (saving_z v) M ≤ Zsum (saving_z v) out)%Z.
Proof.
  intros Hv Hnd Hfuel.
  destruct (Optimize_whole_saving v fuel Hv Hnd Hfuel) as (out & HZ & Hmax).
  destruct (Optimize_whole v fuel Hv Hfuel) as (out' & HZ' & HF & _).
  assert (out' = out) as -> by congruence.
  destruct (Optimize_matching v out fuel Hnd HZ) as (Hsub & Hnc & Hnt).
  exists out. by split_and!.
Qed.










